(** * Option-Price-Visualiser: the pricing core over the reals

    A shallow embedding of [models/BlackScholes.py], [models/BinomialTree.py]
    and [models/ImpliedVolatility.py].

    Python floats are modelled as mathematical reals ([R]); rounding, [nan]
    and [inf] are outside the model.  The parameters of the three classes
    are Python scalars, as in the modules' own sample code and in the
    dashboard.  Python exceptions are modelled by an error monad: a division
    of two Python scalars by zero raises [ZeroDivisionError], an array
    access out of range raises [IndexError], while the numpy functions
    ([np.log], [np.sqrt], [np.exp] and arithmetic on their results) never
    raise. *)

From Stdlib Require Import Reals Ranalysis5 Lra Lia List Arith.
Import ListNotations.

Open Scope R_scope.

(** ** Exceptions and the error monad *)

Inductive exn : Type :=
| ZeroDivisionError
| IndexError
| ValueError
| RuntimeError.

Inductive result (A : Type) : Type :=
| Ok (a : A)
| Raise (e : exn).

Arguments Ok {A} a.
Arguments Raise {A} e.

Definition bind {A B : Type} (m : result A) (k : A -> result B) : result B :=
  match m with
  | Ok a => k a
  | Raise e => Raise e
  end.

Notation "x <- m ;; k" := (bind m (fun x => k))
  (at level 61, m at next level, right associativity).

(** [a / b] on two Python scalars. *)
Definition py_div (a b : R) : result R :=
  if Req_dec_T b 0 then Raise ZeroDivisionError else Ok (a / b).

(** Python's builtin [max(a, b)] on two numbers. *)
Definition py_max (a b : R) : R := Rmax a b.

(** ** The standard normal law ([scipy.stats.norm]) *)

(** Modelled from the spec: [scipy.stats.norm.pdf], the standard normal
    density, is a library function outside the repository. *)
Definition norm_pdf (x : R) : R := exp (- (x * x) / 2) / sqrt (2 * PI).

Lemma norm_pdf_derivable : derivable norm_pdf.
Proof.
  unfold norm_pdf. reg.
Qed.

Lemma norm_pdf_continuity : continuity norm_pdf.
Proof.
  apply derivable_continuous, norm_pdf_derivable.
Qed.

(** The density is integrable between 0 and any [x], on either side of 0. *)
Definition norm_pdf_integrable (x : R) : Riemann_integrable norm_pdf 0 x :=
  match Rle_dec 0 x with
  | left h =>
      continuity_implies_RiemannInt h (fun t _ => norm_pdf_continuity t)
  | right n =>
      RiemannInt_P1
        (continuity_implies_RiemannInt
           (Rlt_le _ _ (Rnot_le_lt _ _ n))
           (fun t _ => norm_pdf_continuity t))
  end.

(** Modelled from the spec: [scipy.stats.norm.cdf], the standard normal
    distribution function, is a library function outside the repository.
    It is taken in the form [(1 + erf (x / sqrt 2)) / 2]: one half plus the
    integral of the density from 0 to [x]. *)
Definition norm_cdf (x : R) : R := 1 / 2 + RiemannInt (norm_pdf_integrable x).

(** ** numpy arrays and [for] loops *)

(** A one-dimensional numpy array of floats. *)
Definition array : Type := list R.

(** [np.zeros(k)]. *)
Definition zeros (k : nat) : array := repeat 0 k.

(** [a[i]] for a non-negative index; out of range raises. *)
Definition getitem (a : array) (i : nat) : result R :=
  match nth_error a i with
  | Some x => Ok x
  | None => Raise IndexError
  end.

(** [a[i] = x] for a non-negative index; out of range raises. *)
Fixpoint setitem (a : array) (i : nat) (x : R) : result array :=
  match a, i with
  | [], _ => Raise IndexError
  | _ :: tl, O => Ok (x :: tl)
  | y :: tl, S i' => tl' <- setitem tl i' x ;; Ok (y :: tl')
  end.

(** [for i in range(start, start + count): body], threading the state. *)
Fixpoint for_range {St : Type} (start count : nat)
         (body : nat -> St -> result St) (s : St) : result St :=
  match count with
  | O => Ok s
  | S c => s' <- body start s ;; for_range (S start) c body s'
  end.

(** [for j in range(k - 1, -1, -1): body], threading the state. *)
Fixpoint for_down {St : Type} (k : nat)
         (body : nat -> St -> result St) (s : St) : result St :=
  match k with
  | O => Ok s
  | S j => s' <- body j s ;; for_down j body s'
  end.


(** A two-dimensional numpy array of floats, as the list of its rows. *)
Definition matrix : Type := list array.

(** [np.zeros((rows, cols))]. *)
Definition zeros2 (rows cols : nat) : matrix := repeat (zeros cols) rows.

(** [m[i, j]] for non-negative indices; out of range raises. *)
Definition getitem2 (m : matrix) (i j : nat) : result R :=
  match nth_error m i with
  | Some row => getitem row j
  | None => Raise IndexError
  end.

(** [m[i, j] = x] for non-negative indices; out of range raises. *)
Fixpoint setitem2 (m : matrix) (i j : nat) (x : R) : result matrix :=
  match m, i with
  | [], _ => Raise IndexError
  | row :: tl, O => row' <- setitem row j x ;; Ok (row' :: tl)
  | row :: tl, S i' => tl' <- setitem2 tl i' j x ;; Ok (row :: tl')
  end.
(** ** The contract kinds shared by the three models *)

(** [option_type]: the string ['call'], or anything else, which every model
    treats as a put. *)
Inductive option_type : Type := call | put.

(** [exercise_type]: the string ['american'], or anything else (european). *)
Inductive exercise_type : Type := european | american.

(** ** models/BlackScholes.py *)

Module BlackScholes.

Record t : Type := mk {
  S : R; K : R; T : R; r : R; sigma : R; q : R;
  d1 : R; d2 : R
}.

(** [BlackScholes.__init__]: [S/K] divides two Python scalars; all the
    rest goes through numpy. *)
Definition init (S K T r sigma q : R) : result t :=
  ratio <- py_div S K ;;
  let d1 := (ln ratio + (r - q + 0.5 * sigma ^ 2) * T) / (sigma * sqrt T) in
  let d2 := d1 - sigma * sqrt T in
  Ok (mk S K T r sigma q d1 d2).

Definition call_price (self : t) : R :=
  S self * exp (- q self * T self) * norm_cdf (d1 self)
  - K self * exp (- r self * T self) * norm_cdf (d2 self).

Definition put_price (self : t) : R :=
  K self * exp (- r self * T self) * norm_cdf (- d2 self)
  - S self * exp (- q self * T self) * norm_cdf (- d1 self).

Definition vega (self : t) : R :=
  S self * exp (- q self * T self) * norm_pdf (d1 self) * sqrt (T self) / 100.

(** [delta], [theta] and [rho] compare [option_type] with ['call'] and
    take everything else as a put. *)
Definition delta (self : t) (ot : option_type) : R :=
  match ot with
  | call => exp (- q self * T self) * norm_cdf (d1 self)
  | put => exp (- q self * T self) * (norm_cdf (d1 self) - 1)
  end.

Definition gamma (self : t) : R :=
  (exp (- q self * T self) * norm_pdf (d1 self))
  / (S self * sigma self * sqrt (T self)).

Definition theta (self : t) (ot : option_type) : R :=
  let term1 :=
    - (S self * exp (- q self * T self) * norm_pdf (d1 self) * sigma self)
    / (2 * sqrt (T self)) in
  let term2 :=
    q self * S self * exp (- q self * T self)
    * norm_cdf (match ot with call => d1 self | put => - d1 self end) in
  let term3 :=
    r self * K self * exp (- r self * T self)
    * norm_cdf (match ot with call => d2 self | put => - d2 self end) in
  match ot with
  | call => (term1 - term2 - term3) / 365
  | put => (term1 + term2 + term3) / 365
  end.

Definition rho (self : t) (ot : option_type) : R :=
  match ot with
  | call =>
      K self * T self * exp (- r self * T self) * norm_cdf (d2 self) / 100
  | put =>
      - K self * T self * exp (- r self * T self) * norm_cdf (- d2 self)
      / 100
  end.

End BlackScholes.

(** ** The analytic formulas as the specification words them *)

Module Spec.

Definition d1 (S K T r sigma q : R) : R :=
  (ln (S / K) + (r - q + sigma * sigma / 2) * T) / (sigma * sqrt T).

Definition d2 (S K T r sigma q : R) : R :=
  d1 S K T r sigma q - sigma * sqrt T.

Definition Call (S K T r sigma q : R) : R :=
  S * exp (- (q * T)) * norm_cdf (d1 S K T r sigma q)
  - K * exp (- (r * T)) * norm_cdf (d2 S K T r sigma q).

Definition Put (S K T r sigma q : R) : R :=
  K * exp (- (r * T)) * norm_cdf (- d2 S K T r sigma q)
  - S * exp (- (q * T)) * norm_cdf (- d1 S K T r sigma q).

End Spec.

(** ** models/BinomialTree.py *)

Module BinomialTree.

Record t : Type := mk {
  S : R; K : R; T : R; r : R; sigma : R;
  n : nat;
  q : R;
  otype : option_type;
  etype : exercise_type;
  dt : R; u : R; d : R; p : R; discount : R
}.

(** [BinomialTree.__init__]: [T / n] divides two Python scalars, the rest
    goes through numpy. *)
Definition init (S K T r sigma : R) (n : nat) (q : R)
           (otype : option_type) (etype : exercise_type) : result t :=
  dt <- py_div T (INR n) ;;
  let u := exp (sigma * sqrt dt) in
  let d := 1 / u in
  let p := (exp ((r - q) * dt) - d) / (u - d) in
  let discount := exp (- r * dt) in
  Ok (mk S K T r sigma n q otype etype dt u d p discount).

(** The payoff [max(0, s - K)] of a call, [max(0, K - s)] otherwise. *)
Definition payoff (self : t) (s : R) : R :=
  match otype self with
  | call => py_max 0 (s - K self)
  | put => py_max 0 (K self - s)
  end.

(** The first loop of [price]: asset prices at maturity. *)
Definition terminal_prices (self : t) : result array :=
  for_range 0 (n self + 1)
    (fun i S_T =>
       setitem S_T i (S self * u self ^ (n self - i) * d self ^ i))
    (zeros (n self + 1)).

(** The second loop of [price]: option values at maturity. *)
Definition terminal_values (self : t) (S_T : array) : result array :=
  for_range 0 (n self + 1)
    (fun i V => s <- getitem S_T i ;; setitem V i (payoff self s))
    (zeros (n self + 1)).

(** The body of the inner loop: node [i] of step [j]. *)
Definition node (self : t) (j i : nat) (V : array) : result array :=
  vi <- getitem V i ;;
  vi1 <- getitem V (i + 1) ;;
  V <- setitem V i (discount self * (p self * vi + (1 - p self) * vi1)) ;;
  match etype self with
  | american =>
      let S_now := S self * u self ^ (j - i) * d self ^ i in
      let exercise_value := payoff self S_now in
      cont <- getitem V i ;;
      setitem V i (py_max cont exercise_value)
  | european => Ok V
  end.

(** The third loop of [price]: backward induction. *)
Definition backward_induction (self : t) (V : array) : result array :=
  for_down (n self)
    (fun j V => for_range 0 (j + 1) (node self j) V)
    V.

(** [BinomialTree.price]. *)
Definition price (self : t) : result R :=
  S_T <- terminal_prices self ;;
  V <- terminal_values self S_T ;;
  V <- backward_induction self V ;;
  getitem V 0.

(** [BinomialTree.get_tree_data]: the asset price of node [i] of step [j]
    at row [i], column [j]. *)
Definition get_tree_data (self : t) : result matrix :=
  for_range 0 (n self + 1)
    (fun j price_tree =>
       for_range 0 (j + 1)
         (fun i price_tree =>
            setitem2 price_tree i j
              (S self * u self ^ (j - i) * d self ^ i))
         price_tree)
    (zeros2 (n self + 1) (n self + 1)).

End BinomialTree.

(** The lattice pricer as a caller uses it: construct, then price. *)
Definition lattice_price (S K T r sigma : R) (n : nat) (q : R)
           (otype : option_type) (etype : exercise_type) : result R :=
  bt <- BinomialTree.init S K T r sigma n q otype etype ;;
  BinomialTree.price bt.

(** ** models/ImpliedVolatility.py *)

Module ImpliedVolatility.

Record t : Type := mk {
  S : R; K : R; T : R; r : R;
  market_price : R;
  otype : option_type;
  q : R
}.

(** The local function [objective] of [calculate_iv]. *)
Definition objective (self : t) (sigma : R) : result R :=
  bs <- BlackScholes.init (S self) (K self) (T self) (r self) sigma
          (q self) ;;
  let theoretical_price :=
    match otype self with
    | call => BlackScholes.call_price bs
    | put => BlackScholes.put_price bs
    end in
  Ok (theoretical_price - market_price self).

Section Brentq.

(** The iteration of Brent's method once the bracket is accepted, from
    [f], the ends and the values of [f] there: it returns a root or
    raises. *)
Variable brent_iterations :
  (R -> result R) -> R -> R -> R -> R -> result R.

(** Modelled from the spec: [scipy.optimize.brentq] is a library routine
    outside the repository.  The bracketed search "requires f to change
    sign across the bracket", and otherwise "the search fails": scipy
    evaluates [f] at both ends, returns an end where [f] vanishes, and
    raises [ValueError] when the two values have the same sign. *)
Definition brentq (f : R -> result R) (a b : R) : result R :=
  fa <- f a ;;
  fb <- f b ;;
  if Req_dec_T fa 0 then Ok a
  else if Req_dec_T fb 0 then Ok b
  else if Rlt_dec 0 (fa * fb) then Raise ValueError
  else brent_iterations f a b fa fb.

(** [calculate_iv]: [None] stands for Python's [None]; any exception
    other than [ValueError] propagates. *)
Definition calculate_iv (self : t) : result (option R) :=
  match brentq (objective self) 0.001 5.0 with
  | Ok iv => Ok (Some iv)
  | Raise ValueError => Ok None
  | Raise e => Raise e
  end.

End Brentq.

(** What one pass of the loop of [vega_newton] does next. *)
Inductive flow : Type :=
| Return (sigma : R)
| Break
| Continue (sigma : R).

(** The body of the loop of [vega_newton], at the current [sigma]. *)
Definition newton_pass (self : t) (tolerance sigma : R) : result flow :=
  bs <- BlackScholes.init (S self) (K self) (T self) (r self) sigma
          (q self) ;;
  let price :=
    match otype self with
    | call => BlackScholes.call_price bs
    | put => BlackScholes.put_price bs
    end in
  let vega := BlackScholes.vega bs * 100 in
  let price_diff := price - market_price self in
  if Rlt_dec (Rabs price_diff) tolerance then Ok (Return sigma)
  else if Req_dec_T vega 0 then Ok Break
  else
    let sigma := sigma - price_diff / vega in
    if Rle_dec sigma 0 then Ok (Continue 0.001) else Ok (Continue sigma).

(** [for i in range(passes)] around the body, then [return sigma]. *)
Fixpoint newton_loop (self : t) (tolerance : R) (passes : nat) (sigma : R)
  : result R :=
  match passes with
  | O => Ok sigma
  | Datatypes.S k =>
      fl <- newton_pass self tolerance sigma ;;
      match fl with
      | Return s => Ok s
      | Break => Ok sigma
      | Continue s => newton_loop self tolerance k s
      end
  end.

(** [vega_newton]; the defaults are 0.2, 100 and 1e-6. *)
Definition vega_newton (self : t) (sigma_initial : R)
           (max_iterations : nat) (tolerance : R) : result R :=
  newton_loop self tolerance max_iterations sigma_initial.

(** *** The same loop, observed *)

(** How the loop was left. *)
Inductive exit : Type := Converged | ZeroVega | Exhausted.

(** The sigmas at which the passes construct the pricer, in order, and
    the outcome of the run with the way the loop was left. *)
Fixpoint newton_trace (self : t) (tolerance : R) (passes : nat) (sigma : R)
  : list R * result (exit * R) :=
  match passes with
  | O => ([], Ok (Exhausted, sigma))
  | Datatypes.S k =>
      match newton_pass self tolerance sigma with
      | Raise e => ([sigma], Raise e)
      | Ok (Return s) => ([sigma], Ok (Converged, s))
      | Ok Break => ([sigma], Ok (ZeroVega, sigma))
      | Ok (Continue s) =>
          let (evaluated, outcome) := newton_trace self tolerance k s in
          (sigma :: evaluated, outcome)
      end
  end.

End ImpliedVolatility.

(** ** plots/utility.py *)

Module OptionsUtils.

(** [OptionsUtils.time_to_maturity] on a [date]: the conversions of a
    string or a [datetime] to a [date] come before and are not modelled.
    A date is its day number (as [date.toordinal] gives it), [today] is
    what [dt.date.today()] returns, and [(expiry_date - today).days] is the
    difference of the day numbers. *)
Definition time_to_maturity (today expiry_date : Z) : R :=
  let days_to_expiry := (expiry_date - today)%Z in
  py_max (IZR days_to_expiry / 365.0) 0.001.

End OptionsUtils.

(** ** Notions used to state the properties *)

(** [m] returns normally with a value satisfying [P]. *)
Definition returns {A : Type} (P : A -> Prop) (m : result A) : Prop :=
  exists a, m = Ok a /\ P a.

(** [m1] and [m2] both return normally, with values related by [Q]. *)
Definition returns2 {A B : Type} (Q : A -> B -> Prop)
           (m1 : result A) (m2 : result B) : Prop :=
  exists a b, m1 = Ok a /\ m2 = Ok b /\ Q a b.

(** The array [a] with [x] at index [i]. *)
Fixpoint upd (a : array) (i : nat) (x : R) : array :=
  match a, i with
  | [], _ => []
  | _ :: tl, O => x :: tl
  | y :: tl, S i' => y :: upd tl i' x
  end.

(** The value [node] writes at index [i]. *)
Definition node_value (self : BinomialTree.t) (j i : nat) (vi vi1 : R) : R :=
  let cont :=
    BinomialTree.discount self
    * (BinomialTree.p self * vi + (1 - BinomialTree.p self) * vi1) in
  match BinomialTree.etype self with
  | american =>
      py_max cont
        (BinomialTree.payoff self
           (BinomialTree.S self * BinomialTree.u self ^ (j - i)
            * BinomialTree.d self ^ i))
  | european => cont
  end.

(** The price [vega_newton] and [objective] compare with the market price. *)
Definition quoted (self : ImpliedVolatility.t) (bs : BlackScholes.t) : R :=
  match ImpliedVolatility.otype self with
  | call => BlackScholes.call_price bs
  | put => BlackScholes.put_price bs
  end.

(** The pricer the solver builds at [sigma]. *)
Definition pricer_at (self : ImpliedVolatility.t) (sigma : R)
  : result BlackScholes.t :=
  BlackScholes.init (ImpliedVolatility.S self) (ImpliedVolatility.K self)
    (ImpliedVolatility.T self) (ImpliedVolatility.r self) sigma
    (ImpliedVolatility.q self).

(** The unguarded Newton update from [sigma]. *)
Definition candidate (self : ImpliedVolatility.t) (bs : BlackScholes.t)
           (sigma : R) : R :=
  sigma
  - (quoted self bs - ImpliedVolatility.market_price self)
    / (BlackScholes.vega bs * 100).

(** What is known of the value [v] returned by a run of at most [passes]
    passes from [sigma], given how the loop was left and the sigmas that
    were evaluated. *)
Definition left_with (self : ImpliedVolatility.t) (tolerance : R)
           (passes : nat) (sigma : R) (evaluated : list R)
           (ex : ImpliedVolatility.exit) (v : R) : Prop :=
  match ex with
  | ImpliedVolatility.Converged =>
      evaluated <> [] /\ last evaluated sigma = v
      /\ exists bs,
           pricer_at self v = Ok bs
           /\ Rabs (quoted self bs - ImpliedVolatility.market_price self)
              < tolerance
  | ImpliedVolatility.ZeroVega =>
      evaluated <> [] /\ last evaluated sigma = v
      /\ exists bs,
           pricer_at self v = Ok bs
           /\ ~ Rabs (quoted self bs - ImpliedVolatility.market_price self)
                < tolerance
           /\ BlackScholes.vega bs * 100 = 0
  | ImpliedVolatility.Exhausted =>
      length evaluated = passes
      /\ fst (ImpliedVolatility.newton_trace self tolerance (S passes) sigma)
         = evaluated ++ [v]
  end.

(** The value of [objective] at [sigma], when the pricer is built. *)
Definition mispricing (self : ImpliedVolatility.t) (sigma : R) : R :=
  quoted self
    (BlackScholes.mk (ImpliedVolatility.S self) (ImpliedVolatility.K self)
       (ImpliedVolatility.T self) (ImpliedVolatility.r self) sigma
       (ImpliedVolatility.q self)
       (Spec.d1 (ImpliedVolatility.S self) (ImpliedVolatility.K self)
          (ImpliedVolatility.T self) (ImpliedVolatility.r self) sigma
          (ImpliedVolatility.q self))
       (Spec.d2 (ImpliedVolatility.S self) (ImpliedVolatility.K self)
          (ImpliedVolatility.T self) (ImpliedVolatility.r self) sigma
          (ImpliedVolatility.q self)))
  - ImpliedVolatility.market_price self.

(** ** Functions used to state and prove the convergence of the lattice *)

(** The price the analytic pricer gives for the option type. *)
Definition analytic_price (ot : option_type) (bs : BlackScholes.t) : R :=
  match ot with
  | call => BlackScholes.call_price bs
  | put => BlackScholes.put_price bs
  end.

(** *** The tree parameters as functions of the step *)

Section TreeParameterDefs.

Variables r q sigma dt : R.

(** [sigma * np.sqrt(dt)], the step of the log-price. *)
Definition step_h : R := sigma * sqrt dt.

(** [u], [d], [e^((r-q) dt)], [p] and [discount] of the constructor. *)
Definition step_u : R := exp step_h.

Definition step_d : R := 1 / step_u.

Definition step_a : R := exp ((r - q) * dt).

Definition step_p : R := (step_a - step_d) / (step_u - step_d).

Definition step_disc : R := exp (- r * dt).

(** The constant of the second-order expansion of [discount (2p - 1) h]. *)
Definition gamma1 : R :=
  Rabs (r - q - sigma * sigma / 2) * (2 * (sigma * sigma) + 3 * Rabs r)
  + 4 * (3 * ((r - q) * (r - q)) + 2 * (sigma * sigma * (sigma * sigma))).

End TreeParameterDefs.

(** The log-price at node [i] of layer [j]. *)
Definition node_log (S sigma dt : R) (j i : nat) : R :=
  ln S + (INR j - 2 * INR i) * step_h sigma dt.

(** *** The analytic put as a function of time to maturity and log-price *)

Section PutFunctionDefs.

Variables K r q sigma : R.

(** The drift of the log-price. *)
Definition drift : R := r - q - sigma * sigma / 2.

Definition D2 (tau x : R) : R :=
  (x - ln K + drift * tau) / (sigma * sqrt tau).

Definition D1 (tau x : R) : R := D2 tau x + sigma * sqrt tau.

(** The discounted strike leg, the asset leg and the density term. *)
Definition leg_K (tau x : R) : R :=
  K * exp (- r * tau) * norm_cdf (- D2 tau x).

Definition leg_S (tau x : R) : R :=
  exp (x - q * tau) * norm_cdf (- D1 tau x).

Definition leg_B (tau x : R) : R :=
  K * exp (- r * tau) * norm_pdf (D2 tau x).

Definition put_fun (tau x : R) : R := leg_K tau x - leg_S tau x.

(** The first three derivatives of the put in the log-price. *)
Definition put_x (tau x : R) : R := - leg_S tau x.

Definition put_xx (tau x : R) : R :=
  / (sigma * sqrt tau) * leg_B tau x - leg_S tau x.

Definition put_xxx (tau x : R) : R :=
  / (sigma * sqrt tau) * leg_B tau x - leg_S tau x
  - / (sigma * sqrt tau) * / (sigma * sqrt tau) * D2 tau x * leg_B tau x.

(** The derivatives of [D2] and [D1] in the time to maturity. *)
Definition D2_t (x tau : R) : R :=
  drift / (sigma * sqrt tau) - D2 tau x / (2 * tau).

Definition D1_t (x tau : R) : R := D2_t x tau + sigma / (2 * sqrt tau).

(** The first two derivatives of the put in the time to maturity. *)
Definition put_t (x tau : R) : R :=
  - r * leg_K tau x + q * leg_S tau x
  + leg_B tau x * (sigma / (2 * sqrt tau)).

Definition put_tt (x tau : R) : R :=
  - r * (- r * leg_K tau x - leg_B tau x * D2_t x tau)
  + q * (- q * leg_S tau x - leg_B tau x * D1_t x tau)
  + ((- r * leg_B tau x - D2 tau x * leg_B tau x * D2_t x tau)
     * (sigma / (2 * sqrt tau))
     + leg_B tau x * - (sigma / (2 * sqrt tau) / (2 * tau))).

(** The payoff of a put as a function of the log-price. *)
Definition put_payoff (x : R) : R := Rmax 0 (K - exp x).

End PutFunctionDefs.

(** The limit of [norm_cdf (- d)] at maturity, by the sign of the
    log-moneyness. *)
Definition limit_weight (delta : R) : R :=
  match total_order_T delta 0 with
  | inleft (left _) => 1
  | inleft (right _) => 1 / 2
  | inright _ => 0
  end.

(** *** Bounds on the put and its derivatives up to maturity [T] *)

Section PutBoundDefs.

Variables K r q sigma T : R.

(** The bound on all the legs. *)
Definition leg_bound : R := K * exp (Rabs r * T).

(** The bounds on the derivatives, as polynomials in [w = 1 / sqrt tau]. *)
Definition bound_xx (w : R) : R := leg_bound * (w / sigma + 1).

Definition bound_xxx (w : R) : R :=
  leg_bound * (w / sigma + 1 + w * w / (sigma * sigma)).

Definition bound_D2_t (w : R) : R :=
  Rabs (drift r q sigma) * w / sigma + w * w / 2.

Definition bound_tt (w : R) : R :=
  leg_bound
  * (Rabs r * (Rabs r + bound_D2_t w)
     + Rabs q * (Rabs q + bound_D2_t w + sigma * w / 2)
     + (Rabs r + bound_D2_t w) * (sigma * w / 2)
     + sigma * w / 2 * (w * w / 2)).

(** Their leading coefficients, for the powers of [1 + w]. *)
Definition const_xx : R := leg_bound * (1 / sigma + 1).

Definition const_xxx : R :=
  leg_bound * (1 / sigma + 1 + 1 / (sigma * sigma)).

Definition const_D2_t : R := Rabs (drift r q sigma) / sigma + 1 / 2.

Definition const_tt : R :=
  leg_bound
  * (Rabs r * (Rabs r + const_D2_t)
     + Rabs q * (Rabs q + const_D2_t + sigma / 2)
     + (Rabs r + const_D2_t) * (sigma / 2)
     + sigma / 4).

(** The constant of the one-step truncation error. *)
Definition const_lte : R :=
  2 * (3 * (r * r) * leg_bound
       + gamma1 r q sigma * leg_bound
       + 3 / 2 * (sigma * sigma) * Rabs r * const_xx
       + 4 * (sigma * (sigma * sigma)) * const_xxx
       + 2 * const_tt).

(** The constants of the distance to the payoff near maturity and of the
    first backward step. *)
Definition const_time : R := leg_bound * (Rabs r + Rabs q).

Definition const_root : R := leg_bound * sigma.

Definition const_term : R :=
  12 * K * sigma + 3 * Rabs r * K + const_time + const_root.

End PutBoundDefs.

(** The constant of the final error bound. *)
Definition const_total (K T r sigma q : R) : R :=
  exp (Rabs r * T) * sqrt T
  * (const_term K r q sigma T + const_lte K r q sigma T * (T + 2)
     + 8 * const_lte K r q sigma T).

(** From this number of steps on, the tree parameters are in the range where
    the expansions hold and [p] is a probability. *)
Definition steps_threshold (T r q sigma : R) : R :=
  T + Rabs r * T + Rabs (r - q) * T + sigma * sigma * T
  + (r - q) * (r - q) / (sigma * sigma) * T + 1.

(** *** The values the lattice should hold, and the error allowed *)

(** [1 + 1/2 + ... + 1/m]. *)
Fixpoint harmonic (m : nat) : R :=
  match m with
  | O => 0
  | S k => harmonic k + / INR (S k)
  end.

(** A call is a put plus a forward: the factor of the forward part. *)
Definition side (ot : option_type) : R :=
  match ot with call => 1 | put => 0 end.

Section TargetDefs.

Variables K r q sigma : R.
Variable ot : option_type.

Definition forward_part (tau x : R) : R :=
  exp (x - q * tau) - K * exp (- r * tau).

Definition value_fun (tau x : R) : R :=
  put_fun K r q sigma tau x + side ot * forward_part tau x.

Definition payoff_fun (x : R) : R :=
  put_payoff K x + side ot * (exp x - K).

Variable dt : R.

(** The value the lattice should hold [m] steps before maturity. *)
Definition layer_value (m : nat) (x : R) : R :=
  match m with
  | O => payoff_fun x
  | S _ => value_fun (INR m * dt) x
  end.

Variable T : R.

(** The distance to it allowed [m] steps before maturity. *)
Definition layer_bound (m : nat) : R :=
  match m with
  | O => 0
  | S _ =>
      exp (Rabs r * dt) ^ m
      * (sqrt dt
         * (const_term K r q sigma T
            + const_lte K r q sigma T * (dt * INR m + 2 * harmonic m)))
  end.

End TargetDefs.

(** *** The kernel of the Gaussian integral *)

(** The integral over [0,1] of [gauss_k x] plus the square of the integral
    of the density from 0 to [x] does not depend on [x]. *)
Definition gauss_k (x t : R) : R :=
  exp (- (x * x * (1 + t * t)) / 2) / (1 + t * t).

Definition gauss_kx (x t : R) : R :=
  - x * exp (- (x * x * (1 + t * t)) / 2).

Definition gauss_kxx (x t : R) : R :=
  (x * x * (1 + t * t) - 1) * exp (- (x * x * (1 + t * t)) / 2).

Lemma gauss_k_continuity (x : R) : continuity (gauss_k x).
Proof.
  intros t. assert (0 < 1 + t * t) by nra. unfold gauss_k. reg. lra.
Qed.

Lemma gauss_kx_continuity (x : R) : continuity (gauss_kx x).
Proof.
  intros t. unfold gauss_kx. reg.
Qed.

Definition gauss_k_integrable (x : R) : Riemann_integrable (gauss_k x) 0 1 :=
  continuity_implies_RiemannInt Rle_0_1 (fun t _ => gauss_k_continuity x t).

Definition gauss_kx_integrable (x : R) : Riemann_integrable (gauss_kx x) 0 1 :=
  continuity_implies_RiemannInt Rle_0_1 (fun t _ => gauss_kx_continuity x t).

Definition gauss_G (x : R) : R := RiemannInt (gauss_k_integrable x).

Definition gauss_D (x : R) : R := RiemannInt (gauss_kx_integrable x).

Definition gauss_F (x : R) : R :=
  (norm_cdf x - 1 / 2) * (norm_cdf x - 1 / 2) + gauss_G x / PI.
(** ** Notions for the Greeks and for the value of the tree *)

(** The price the analytic pricer returns for a contract, as a function of
    its parameters: construct, then price.  (The constructor raises only
    for [K = 0]; 0 stands for that case.) *)
Definition analytic_value (ot : option_type) (S K T r sigma q : R) : R :=
  match BlackScholes.init S K T r sigma q with
  | Ok bs => analytic_price ot bs
  | Raise _ => 0
  end.

(** The delta the analytic pricer returns, as a function of the
    parameters. *)
Definition analytic_delta (ot : option_type) (S K T r sigma q : R) : R :=
  match BlackScholes.init S K T r sigma q with
  | Ok bs => BlackScholes.delta bs ot
  | Raise _ => 0
  end.

(** The value of an option [m] steps before maturity at the asset price
    [s], by recursion on the tree: the payoff at maturity; before, the
    discounted average of the values after an up and after a down move,
    and for an American option the larger of that and of the payoff. *)
Fixpoint tree_value (self : BinomialTree.t) (m : nat) (s : R) : R :=
  match m with
  | O => BinomialTree.payoff self s
  | S m' =>
      let cont :=
        BinomialTree.discount self
        * (BinomialTree.p self * tree_value self m' (s * BinomialTree.u self)
           + (1 - BinomialTree.p self)
             * tree_value self m' (s * BinomialTree.d self)) in
      match BinomialTree.etype self with
      | american => py_max cont (BinomialTree.payoff self s)
      | european => cont
      end
  end.

(** The matrix [m] with [x] at row [i], column [j]. *)
Fixpoint upd2 (m : matrix) (i j : nat) (x : R) : matrix :=
  match m, i with
  | [], _ => []
  | row :: tl, O => upd row j x :: tl
  | row :: tl, S i' => row :: upd2 tl i' j x
  end.

(** The entry of [m] at row [i], column [j], 0 out of range. *)
Definition entry (m : matrix) (i j : nat) : R := nth j (nth i m []) 0.

(** The object the constructor of the lattice builds for [n >= 1] steps. *)
Definition built_tree (S K T r sigma : R) (n : nat) (q : R)
           (ot : option_type) (et : exercise_type) : BinomialTree.t :=
  let dt := T / INR n in
  BinomialTree.mk S K T r sigma n q ot et dt
    (step_u sigma dt) (step_d sigma dt) (step_p r q sigma dt)
    (step_disc r dt).

(** The payoff of immediate exercise at the spot [S]. *)
Definition exercise_now (ot : option_type) (S K : R) : R :=
  match ot with
  | call => Rmax 0 (S - K)
  | put => Rmax 0 (K - S)
  end.

(** The asset price at node [i] of step [j], 0 below the diagonal. *)
Definition tree_entry (self : BinomialTree.t) (i j : nat) : R :=
  if (i <=? j)%nat
  then BinomialTree.S self * BinomialTree.u self ^ (j - i)
       * BinomialTree.d self ^ i
  else 0.

(** A square matrix of side [k]. *)
Definition square (k : nat) (m : matrix) : Prop :=
  length m = k /\ forall i, (i < k)%nat -> length (nth i m []) = k.

(** ** The standard normal law: symmetry *)

Lemma norm_pdf_even (x : R) : norm_pdf (- x) = norm_pdf x.
Proof.
  unfold norm_pdf. replace (- x * - x) with (x * x) by ring. reflexivity.
Qed.

(** *** Integrals of an even continuous function *)

Section EvenIntegral.

Variable f : R -> R.
Hypothesis f_cont : continuity f.
Hypothesis f_even : forall t, f (- t) = f t.

Lemma primitive_inside (a b : R) (h : a <= b)
      (pr : forall x, a <= x -> x <= b -> Riemann_integrable f a x)
      (t : R) (q : Riemann_integrable f a t) :
  a <= t <= b -> primitive h pr t = RiemannInt q.
Proof.
  intros [Hat Htb]. unfold primitive.
  destruct (Rle_dec a t) as [r | n]; [| contradiction].
  destruct (Rle_dec t b) as [r0 | n0]; [| contradiction].
  apply RiemannInt_P5.
Qed.

Lemma even_integral_mirror (x : R)
      (p : Riemann_integrable f 0 x) (m : Riemann_integrable f (- x) 0) :
  0 <= x -> RiemannInt m = RiemannInt p.
Proof.
  intros Hx.
  assert (h : - x <= x) by lra.
  pose (C0 := fun (t : R) (_ : - x <= t <= x) => f_cont t).
  pose (P := primitive h (FTC_P1 h C0)).
  assert (HP : antiderivative f P (- x) x) by apply RiemannInt_P29.
  assert (HQ : antiderivative f (fun t => - P (- t)) (- x) x).
  { split; [| exact h]. intros t Ht.
    assert (Hd : derivable_pt_lim (fun t => - P (- t)) t (f t)).
    { replace (f t) with (- (f (- t) * -1)) by (rewrite f_even; ring).
      apply derivable_pt_lim_opp with (f := fun t => P (- t)).
      apply (derivable_pt_lim_comp (fun t => - t) P).
      - replace (-1) with (- 1) by ring.
        apply derivable_pt_lim_opp with (f := id), derivable_pt_lim_id.
      - apply RiemannInt_P28. lra. }
    exists (exist _ (f t) Hd). reflexivity. }
  destruct (antiderivative_Ucte _ _ _ _ _ HP HQ) as [c Hc].
  assert (q0 : Riemann_integrable f (- x) (- x)) by apply RiemannInt_P7.
  assert (qx : Riemann_integrable f (- x) x)
    by (apply continuity_implies_RiemannInt; [exact h | exact C0]).
  assert (Pa : P (- x) = 0).
  { unfold P. rewrite (primitive_inside _ _ h _ _ q0) by lra. apply RiemannInt_P9. }
  assert (P0 : P 0 = RiemannInt m).
  { unfold P. apply primitive_inside. lra. }
  assert (Px : P x = RiemannInt qx).
  { unfold P. apply primitive_inside. lra. }
  pose proof (RiemannInt_P26 m p qx) as Hsum.
  pose proof (Hc x ltac:(lra)) as Hcx. simpl in Hcx.
  pose proof (Hc 0 ltac:(lra)) as Hc0. simpl in Hc0.
  rewrite Ropp_0 in Hc0. lra.
Qed.

End EvenIntegral.

(** The symmetry of the normal law: [norm.cdf(-x) = 1 - norm.cdf(x)]. *)
Lemma norm_cdf_opp (x : R) : norm_cdf (- x) = 1 - norm_cdf x.
Proof.
  unfold norm_cdf.
  assert (H : RiemannInt (norm_pdf_integrable (- x))
              = - RiemannInt (norm_pdf_integrable x)); [| lra].
  destruct (Rle_dec 0 x) as [Hx | Hx].
  - rewrite (RiemannInt_P8 _ (RiemannInt_P1 (norm_pdf_integrable (- x)))).
    f_equal.
    apply (even_integral_mirror norm_pdf norm_pdf_continuity norm_pdf_even x); lra.
  - assert (Hx' : 0 <= - x) by lra.
    assert (m : Riemann_integrable norm_pdf (- - x) 0).
    { rewrite Ropp_involutive. apply RiemannInt_P1, norm_pdf_integrable. }
    rewrite <- (even_integral_mirror norm_pdf norm_pdf_continuity norm_pdf_even
                  (- x) (norm_pdf_integrable (- x)) m Hx').
    generalize m. rewrite Ropp_involutive. intros m'.
    apply RiemannInt_P8.
  Qed.

(** ** The standard normal law: regularity and bounds *)

(** The normal distribution function is differentiable, with the density
    as derivative. *)
Lemma norm_cdf_derivable_pt_lim (x : R) :
  derivable_pt_lim norm_cdf x (norm_pdf x).
Proof.
  pose (b := Rabs x + 1).
  assert (Hb : - b < x < b).
  { unfold b, Rabs. destruct (Rcase_abs x); lra. }
  assert (h : - b <= b) by lra.
  pose (C0 := fun (t : R) (_ : - b <= t <= b) => norm_pdf_continuity t).
  pose (P := primitive h (FTC_P1 h C0)).
  assert (q0 : Riemann_integrable norm_pdf (- b) 0).
  { apply continuity_implies_RiemannInt; [lra |].
    intros t _. apply norm_pdf_continuity. }
  assert (Hext : forall z, - b < z < b ->
                           (fct_cte (1 / 2 - P 0) + P)%F z = norm_cdf z).
  { intros z Hz. unfold plus_fct, fct_cte, norm_cdf.
    assert (qz : Riemann_integrable norm_pdf (- b) z).
    { apply continuity_implies_RiemannInt; [lra |].
      intros t _. apply norm_pdf_continuity. }
    pose proof (RiemannInt_P26 q0 (norm_pdf_integrable z) qz) as Hsum.
    unfold P.
    rewrite (primitive_inside norm_pdf _ _ h _ 0 q0) by lra.
    rewrite (primitive_inside norm_pdf _ _ h _ z qz) by lra.
    lra. }
  apply (derivable_pt_lim_locally_ext _ _ x (- b) b _ Hb Hext).
  replace (norm_pdf x) with (0 + norm_pdf x) by ring.
  apply derivable_pt_lim_plus.
  - apply derivable_pt_lim_const.
  - unfold P. apply RiemannInt_P28. lra.
Qed.

Lemma norm_cdf_continuity : continuity norm_cdf.
Proof.
  intros x. apply derivable_continuous_pt.
  exists (norm_pdf x). apply norm_cdf_derivable_pt_lim.
Qed.

Lemma norm_cdf_comp_continuity_pt (f : R -> R) (x : R) :
  continuity_pt f x -> continuity_pt (fun s => norm_cdf (f s)) x.
Proof.
  intros Hf.
  apply (continuity_pt_comp f norm_cdf); [exact Hf | apply norm_cdf_continuity].
Qed.

Lemma norm_pdf_pos (x : R) : 0 < norm_pdf x.
Proof.
  unfold norm_pdf. apply Rdiv_lt_0_compat; [apply exp_pos |].
  apply sqrt_lt_R0. pose proof PI_RGT_0. lra.
Qed.

Lemma norm_cdf_derivable : derivable norm_cdf.
Proof.
  intros x. exists (norm_pdf x). apply norm_cdf_derivable_pt_lim.
Qed.

Lemma norm_cdf_increasing (x y : R) : x < y -> norm_cdf x < norm_cdf y.
Proof.
  apply (positive_derivative norm_cdf norm_cdf_derivable).
  intros z.
  rewrite (derive_pt_eq_0 _ _ _ _ (norm_cdf_derivable_pt_lim z)).
  apply norm_pdf_pos.
Qed.

Lemma norm_cdf_0 : norm_cdf 0 = 1 / 2.
Proof.
  unfold norm_cdf. rewrite RiemannInt_P9. lra.
Qed.

(** The density lies below [e^(1/2 - x) / sqrt (2 PI)], whose integral is
    bounded: this bounds the distribution function without the value of
    the Gaussian integral. *)
Lemma norm_pdf_exp_bound (x : R) :
  norm_pdf x <= exp (1 / 2) / sqrt (2 * PI) * exp (- x).
Proof.
  unfold norm_pdf.
  assert (Hq : 0 < / sqrt (2 * PI)).
  { apply Rinv_0_lt_compat, sqrt_lt_R0. pose proof PI_RGT_0. lra. }
  assert (E : exp (1 / 2) / sqrt (2 * PI) * exp (- x)
              = exp (1 / 2 + - x) * / sqrt (2 * PI))
    by (rewrite exp_plus; unfold Rdiv; ring).
  rewrite E. unfold Rdiv at 1.
  apply Rmult_le_compat_r; [lra |].
  assert (Hle : - (x * x) / 2 <= 1 / 2 + - x).
  { pose proof (Rle_0_sqr (x - 1)) as Hsq. unfold Rsqr in Hsq.
    replace ((x - 1) * (x - 1)) with (x * x - 2 * x + 1) in Hsq by ring.
    lra. }
  destruct Hle as [Hlt | Heq].
  - left. apply exp_increasing. exact Hlt.
  - rewrite Heq. lra.
Qed.

Lemma exp_half_lt_sqrt_2PI : exp (1 / 2) < sqrt (2 * PI).
Proof.
  pose proof PI2_3_2 as HPI.
  assert (H2PI : 0 <= 2 * PI) by lra.
  assert (He : exp (1 / 2) * exp (1 / 2) <= 3).
  { rewrite <- exp_plus. replace (1 / 2 + 1 / 2) with 1 by lra.
    apply exp_le_3. }
  pose proof (sqrt_sqrt (2 * PI) H2PI) as Hs.
  pose proof (exp_pos (1 / 2)) as Hp.
  pose proof (sqrt_pos (2 * PI)) as Hsp.
  destruct (Rlt_le_dec (exp (1 / 2)) (sqrt (2 * PI))) as [Hlt | Hle];
    [exact Hlt | exfalso].
  assert (sqrt (2 * PI) * sqrt (2 * PI) <= exp (1 / 2) * exp (1 / 2))
    by (apply Rmult_le_compat; lra).
  lra.
Qed.

Lemma norm_cdf_upper (x : R) : norm_cdf x < 3 / 2.
Proof.
  pose (c := exp (1 / 2) / sqrt (2 * PI)).
  assert (Hsq : 0 < sqrt (2 * PI)).
  { apply sqrt_lt_R0. pose proof PI_RGT_0. lra. }
  assert (Hc : 0 < c < 1).
  { unfold c. split.
    - apply Rdiv_lt_0_compat; [apply exp_pos | exact Hsq].
    - apply Rmult_lt_reg_r with (sqrt (2 * PI)); [exact Hsq |].
      unfold Rdiv. rewrite Rmult_assoc, Rinv_l by lra.
      pose proof exp_half_lt_sqrt_2PI. lra. }
  destruct (Rle_lt_dec x 0) as [Hx | Hx].
  { destruct Hx as [Hx | ->].
    - apply norm_cdf_increasing in Hx. rewrite norm_cdf_0 in Hx. lra.
    - rewrite norm_cdf_0. lra. }
  pose (g := fun t : R => c * (1 - exp (- t)) + 1 / 2).
  assert (dg : derivable g) by (unfold g; reg).
  assert (Hdg : forall t, derive_pt g t (dg t) = c * exp (- t)).
  { intros t. apply derive_pt_eq_0.
    replace (c * exp (- t)) with (c * (0 - exp (- t) * -1) + 0) by ring.
    unfold g.
    apply (derivable_pt_lim_plus (fun t => c * (1 - exp (- t)))
             (fct_cte (1 / 2))); [| apply derivable_pt_lim_const].
    apply (derivable_pt_lim_scal (fun t => 1 - exp (- t)) c).
    apply (derivable_pt_lim_minus (fct_cte 1) (fun t => exp (- t)));
      [apply derivable_pt_lim_const |].
    apply (derivable_pt_lim_comp (fun t => - t) exp).
    - replace (-1) with (- 1) by ring.
      apply derivable_pt_lim_opp with (f := id), derivable_pt_lim_id.
    - apply derivable_pt_lim_exp. }
  pose (h := (g - norm_cdf)%F).
  assert (dh : derivable h) by (apply derivable_minus; assumption || apply norm_cdf_derivable).
  assert (Hh : increasing h).
  { apply (nonneg_derivative_1 h dh). intros t.
    rewrite (derive_pt_eq_0 h t (c * exp (- t) - norm_pdf t)).
    - pose proof (norm_pdf_exp_bound t). fold c in H. lra.
    - unfold h. apply derivable_pt_lim_minus.
      + rewrite <- (Hdg t). apply derive_pt_eq_1 with (pr := dg t).
        reflexivity.
      + apply norm_cdf_derivable_pt_lim. }
  assert (H0 : h 0 <= h x) by (apply Hh; lra).
  unfold h, minus_fct, g in H0. rewrite norm_cdf_0, Ropp_0, exp_0 in H0.
  assert (0 < c * exp (- x)) by (apply Rmult_lt_0_compat; [lra | apply exp_pos]).
  lra.
Qed.

Lemma norm_cdf_lower (x : R) : - 1 / 2 < norm_cdf x.
Proof.
  pose proof (norm_cdf_opp x) as Ho.
  pose proof (norm_cdf_upper (- x)). lra.
Qed.

(** ** Reasoning about the error monad, arrays and loops *)

Lemma returns_bind {A B : Type} (P : A -> Prop) (Q : B -> Prop)
      (m : result A) (k : A -> result B) :
  returns P m -> (forall a, P a -> returns Q (k a)) -> returns Q (bind m k).
Proof.
  intros (a & -> & Ha) Hk. simpl. auto.
Qed.

Lemma returns2_bind {A B A' B' : Type} (P : A -> B -> Prop)
      (Q : A' -> B' -> Prop) (m1 : result A) (m2 : result B)
      (k1 : A -> result A') (k2 : B -> result B') :
  returns2 P m1 m2 ->
  (forall a b, P a b -> returns2 Q (k1 a) (k2 b)) ->
  returns2 Q (bind m1 k1) (bind m2 k2).
Proof.
  intros (a & b & -> & -> & Hab) Hk. simpl. auto.
Qed.

Section Loops.

Context {St : Type}.

Lemma for_range_returns (P : St -> Prop) (body : nat -> St -> result St) :
  forall count start s,
    (forall i s, (start <= i < start + count)%nat -> P s ->
                 returns P (body i s)) ->
    P s -> returns P (for_range start count body s).
Proof.
  induction count as [| c IH]; intros start s Hbody Hs; simpl.
  - exists s. auto.
  - apply returns_bind with (P := P).
    + apply Hbody; [lia | exact Hs].
    + intros s' Hs'. apply IH; [| exact Hs'].
      intros i s0 Hi. apply Hbody. lia.
Qed.

Lemma for_down_returns (P : St -> Prop) (body : nat -> St -> result St) :
  forall k s,
    (forall j s, (j < k)%nat -> P s -> returns P (body j s)) ->
    P s -> returns P (for_down k body s).
Proof.
  induction k as [| j IH]; intros s Hbody Hs; simpl.
  - exists s. auto.
  - apply returns_bind with (P := P).
    + apply Hbody; [lia | exact Hs].
    + intros s' Hs'. apply IH; [| exact Hs'].
      intros i s0 Hi. apply Hbody. lia.
Qed.

Context {St' : Type}.

Lemma for_range_returns2 (Q : St -> St' -> Prop)
      (body1 : nat -> St -> result St) (body2 : nat -> St' -> result St') :
  forall count start s1 s2,
    (forall i s1 s2, (start <= i < start + count)%nat -> Q s1 s2 ->
                     returns2 Q (body1 i s1) (body2 i s2)) ->
    Q s1 s2 ->
    returns2 Q (for_range start count body1 s1)
             (for_range start count body2 s2).
Proof.
  induction count as [| c IH]; intros start s1 s2 Hbody Hs; simpl.
  - exists s1, s2. auto.
  - apply returns2_bind with (P := Q).
    + apply Hbody; [lia | exact Hs].
    + intros a b Hab. apply IH; [| exact Hab].
      intros i t1 t2 Hi. apply Hbody. lia.
Qed.

Lemma for_down_returns2 (Q : St -> St' -> Prop)
      (body1 : nat -> St -> result St) (body2 : nat -> St' -> result St') :
  forall k s1 s2,
    (forall j s1 s2, (j < k)%nat -> Q s1 s2 ->
                     returns2 Q (body1 j s1) (body2 j s2)) ->
    Q s1 s2 ->
    returns2 Q (for_down k body1 s1) (for_down k body2 s2).
Proof.
  induction k as [| j IH]; intros s1 s2 Hbody Hs; simpl.
  - exists s1, s2. auto.
  - apply returns2_bind with (P := Q).
    + apply Hbody; [lia | exact Hs].
    + intros a b Hab. apply IH; [| exact Hab].
      intros i t1 t2 Hi. apply Hbody. lia.
Qed.

End Loops.

(** *** Arrays *)

Lemma zeros_length (k : nat) : length (zeros k) = k.
Proof. apply repeat_length. Qed.

Lemma getitem_in_range (a : array) (i : nat) :
  (i < length a)%nat -> getitem a i = Ok (nth i a 0).
Proof.
  intros Hi. unfold getitem.
  rewrite (nth_error_nth' a 0 Hi). reflexivity.
Qed.

Lemma setitem_in_range (a : array) (x : R) :
  forall i, (i < length a)%nat -> setitem a i x = Ok (upd a i x).
Proof.
  induction a as [| y tl IH]; intros i Hi; simpl in Hi; [lia |].
  destruct i as [| i']; simpl; [reflexivity |].
  rewrite IH by lia. reflexivity.
Qed.

Lemma upd_length (a : array) (x : R) :
  forall i, length (upd a i x) = length a.
Proof.
  induction a as [| y tl IH]; intros [| i']; simpl; auto.
Qed.

Lemma upd_nth_same (a : array) (x : R) :
  forall i, (i < length a)%nat -> nth i (upd a i x) 0 = x.
Proof.
  induction a as [| y tl IH]; intros i Hi; simpl in Hi; [lia |].
  destruct i as [| i']; simpl; [reflexivity | apply IH; lia].
Qed.

Lemma upd_upd (a : array) (x y : R) :
  forall i, upd (upd a i x) i y = upd a i y.
Proof.
  induction a as [| z tl IH]; intros [| i']; simpl; auto.
  rewrite IH. reflexivity.
Qed.

Lemma Forall2_Rle_nth (a b : array) :
  Forall2 Rle a b -> forall i, nth i a 0 <= nth i b 0.
Proof.
  induction 1 as [| x y a b Hxy _ IH]; intros [| i]; simpl; auto; lra.
Qed.

Lemma Forall2_Rle_upd (a b : array) (x y : R) :
  Forall2 Rle a b -> x <= y -> forall i, Forall2 Rle (upd a i x) (upd b i y).
Proof.
  induction 1 as [| x0 y0 a b Hxy Hab IH]; intros Hle [| i]; simpl;
    constructor; auto.
Qed.

Lemma Forall2_Rle_refl (a : array) : Forall2 Rle a a.
Proof.
  induction a; constructor; auto. lra.
Qed.

(** ** Analytic pricer: the closed formulas and put-call parity *)

Lemma BlackScholes_init_ok (S K T r sigma q : R) :
  K <> 0 ->
  BlackScholes.init S K T r sigma q
  = Ok (BlackScholes.mk S K T r sigma q
          (Spec.d1 S K T r sigma q) (Spec.d2 S K T r sigma q)).
Proof.
  intros HK. unfold BlackScholes.init, py_div.
  destruct (Req_dec_T K 0) as [E | _]; [contradiction |].
  simpl. unfold Spec.d2, Spec.d1.
  replace (0.5 * (sigma * (sigma * 1))) with (sigma * sigma / 2) by lra.
  reflexivity.
Qed.

(** C1: for a contract with S, K, T, sigma > 0 the constructor succeeds, and
    [call_price()] and [put_price()] of the object it builds are the
    Black-Scholes-Merton formulas of the specification, with d1 and d2 as the
    specification defines them. *)
Theorem call_put_price_formula (S K T r sigma q : R) :
  0 < S -> 0 < K -> 0 < T -> 0 < sigma ->
  exists bs,
    BlackScholes.init S K T r sigma q = Ok bs
    /\ BlackScholes.d1 bs = Spec.d1 S K T r sigma q
    /\ BlackScholes.d2 bs = Spec.d2 S K T r sigma q
    /\ BlackScholes.call_price bs = Spec.Call S K T r sigma q
    /\ BlackScholes.put_price bs = Spec.Put S K T r sigma q.
Proof.
  intros HS HK HT Hs.
  eexists. split; [apply BlackScholes_init_ok; lra |].
  unfold BlackScholes.call_price, BlackScholes.put_price, Spec.Call, Spec.Put.
  cbn [BlackScholes.S BlackScholes.K BlackScholes.T BlackScholes.r
       BlackScholes.q BlackScholes.d1 BlackScholes.d2].
  replace (- q * T) with (- (q * T)) by ring.
  replace (- r * T) with (- (r * T)) by ring.
  repeat split; reflexivity.
Qed.

Lemma call_put_price_formula_witness :
  exists bs,
    BlackScholes.init 100 100 1 0.05 0.2 0 = Ok bs
    /\ BlackScholes.d1 bs = Spec.d1 100 100 1 0.05 0.2 0
    /\ BlackScholes.d2 bs = Spec.d2 100 100 1 0.05 0.2 0
    /\ BlackScholes.call_price bs = Spec.Call 100 100 1 0.05 0.2 0
    /\ BlackScholes.put_price bs = Spec.Put 100 100 1 0.05 0.2 0.
Proof.
  apply call_put_price_formula; lra.
Defined.

(** C2: put-call parity.  For a contract with S, K, T, sigma > 0 the pricer
    is constructed and [call_price() - put_price()] equals
    [S e^(-qT) - K e^(-rT)], exactly over the reals. *)
Theorem put_call_parity (S K T r sigma q : R) :
  0 < S -> 0 < K -> 0 < T -> 0 < sigma ->
  exists bs,
    BlackScholes.init S K T r sigma q = Ok bs
    /\ BlackScholes.call_price bs - BlackScholes.put_price bs
       = S * exp (- (q * T)) - K * exp (- (r * T)).
Proof.
  intros HS HK HT Hs.
  eexists. split; [apply BlackScholes_init_ok; lra |].
  unfold BlackScholes.call_price, BlackScholes.put_price.
  cbn [BlackScholes.S BlackScholes.K BlackScholes.T BlackScholes.r
       BlackScholes.q BlackScholes.d1 BlackScholes.d2].
  rewrite !norm_cdf_opp.
  replace (- q * T) with (- (q * T)) by ring.
  replace (- r * T) with (- (r * T)) by ring.
  ring.
Qed.

Lemma put_call_parity_witness :
  exists bs,
    BlackScholes.init 100 100 1 0.05 0.2 0 = Ok bs
    /\ BlackScholes.call_price bs - BlackScholes.put_price bs
       = 100 * exp (- (0 * 1)) - 100 * exp (- (0.05 * 1)).
Proof.
  apply put_call_parity; lra.
Defined.
(** ** Analytic pricer: the constructor does not validate *)

(** C5, as the code has it: the constructor of the analytic pricer checks
    nothing.  Whatever the signs of S, T and sigma, and for every K other
    than 0, it builds the pricer without signalling an error, and the
    object holds S, K, T, r, sigma and q exactly as supplied: nothing is
    clamped or coerced. *)
Theorem init_accepts_without_clamping (S K T r sigma q : R) :
  K <> 0 ->
  exists bs,
    BlackScholes.init S K T r sigma q = Ok bs
    /\ BlackScholes.S bs = S
    /\ BlackScholes.K bs = K
    /\ BlackScholes.T bs = T
    /\ BlackScholes.r bs = r
    /\ BlackScholes.sigma bs = sigma
    /\ BlackScholes.q bs = q.
Proof.
  intros HK. eexists. split; [apply BlackScholes_init_ok; exact HK |].
  repeat split.
Qed.

Lemma init_accepts_without_clamping_witness :
  exists bs,
    BlackScholes.init (-100) 100 (-1) 0.05 (-0.2) 0 = Ok bs
    /\ BlackScholes.S bs = -100
    /\ BlackScholes.K bs = 100
    /\ BlackScholes.T bs = -1
    /\ BlackScholes.r bs = 0.05
    /\ BlackScholes.sigma bs = -0.2
    /\ BlackScholes.q bs = 0.
Proof.
  apply init_accepts_without_clamping. lra.
Defined.

(** C5 fails as stated: a negative volatility is accepted, and kept. *)
Lemma negative_sigma_is_accepted :
  exists bs,
    BlackScholes.init 100 100 1 0.05 (-0.2) 0 = Ok bs
    /\ BlackScholes.sigma bs = -0.2
    /\ BlackScholes.sigma bs <= 0.
Proof.
  eexists. split; [apply BlackScholes_init_ok; lra |].
  cbn [BlackScholes.sigma]. split; [reflexivity | lra].
Qed.

(** ** Lattice pricer: [price] never raises *)

Lemma node_in_range (self : BinomialTree.t) (j i : nat) (V : array) :
  (i + 1 < length V)%nat ->
  BinomialTree.node self j i V
  = Ok (upd V i (node_value self j i (nth i V 0) (nth (i + 1) V 0))).
Proof.
  intros Hi. unfold BinomialTree.node, node_value.
  rewrite (getitem_in_range V i) by lia.
  rewrite (getitem_in_range V (i + 1)) by lia.
  simpl bind. rewrite (setitem_in_range V) by lia. simpl bind.
  destruct (BinomialTree.etype self); [reflexivity |].
  rewrite getitem_in_range by (rewrite upd_length; lia).
  simpl bind. rewrite setitem_in_range by (rewrite upd_length; lia).
  rewrite upd_upd, upd_nth_same by lia. reflexivity.
Qed.

Section PriceReturns.

Variable self : BinomialTree.t.

Let full (a : array) : Prop := length a = (BinomialTree.n self + 1)%nat.

Lemma terminal_prices_returns :
  returns full (BinomialTree.terminal_prices self).
Proof.
  unfold BinomialTree.terminal_prices.
  apply for_range_returns; [| apply zeros_length].
  intros i a Hi Ha. unfold full in *.
  rewrite setitem_in_range by lia.
  eexists. split; [reflexivity |]. rewrite upd_length. exact Ha.
Qed.

Lemma terminal_values_returns (S_T : array) :
  full S_T -> returns full (BinomialTree.terminal_values self S_T).
Proof.
  intros HS. unfold BinomialTree.terminal_values.
  apply for_range_returns; [| apply zeros_length].
  intros i a Hi Ha. unfold full in *.
  rewrite getitem_in_range by lia. simpl bind.
  rewrite setitem_in_range by lia.
  eexists. split; [reflexivity |]. rewrite upd_length. exact Ha.
Qed.

Lemma backward_induction_returns (V : array) :
  full V -> returns full (BinomialTree.backward_induction self V).
Proof.
  intros HV. unfold BinomialTree.backward_induction.
  apply for_down_returns; [| exact HV].
  intros j a Hj Ha.
  apply for_range_returns; [| exact Ha].
  intros i b Hi Hb. unfold full in *.
  rewrite node_in_range by lia.
  eexists. split; [reflexivity |]. rewrite upd_length. exact Hb.
Qed.

Lemma price_returns : returns (fun _ => True) (BinomialTree.price self).
Proof.
  unfold BinomialTree.price.
  apply returns_bind with (P := full); [apply terminal_prices_returns |].
  intros S_T HS.
  apply returns_bind with (P := full); [now apply terminal_values_returns |].
  intros V HV.
  apply returns_bind with (P := full);
    [now apply backward_induction_returns |].
  intros V' HV'. unfold full in HV'.
  rewrite getitem_in_range by lia. eexists. split; [reflexivity | exact I].
Qed.

End PriceReturns.

Lemma BinomialTree_init_ok (S K T r sigma : R) (n : nat) (q : R)
      (ot : option_type) (et : exercise_type) :
  (1 <= n)%nat ->
  exists dt u d p discount,
    BinomialTree.init S K T r sigma n q ot et
    = Ok (BinomialTree.mk S K T r sigma n q ot et dt u d p discount)
    /\ dt = T / INR n
    /\ u = exp (sigma * sqrt dt)
    /\ d = 1 / u
    /\ p = (exp ((r - q) * dt) - d) / (u - d)
    /\ discount = exp (- r * dt).
Proof.
  intros Hn. unfold BinomialTree.init, py_div.
  destruct (Req_dec_T (INR n) 0) as [E | _].
  - apply (not_0_INR n) in E; [contradiction | lia].
  - simpl. do 5 eexists. repeat split; reflexivity.
Qed.

Lemma BinomialTree_init_zero_steps (S K T r sigma q : R)
      (ot : option_type) (et : exercise_type) :
  BinomialTree.init S K T r sigma 0 q ot et = Raise ZeroDivisionError.
Proof.
  unfold BinomialTree.init, py_div. simpl INR.
  destruct (Req_dec_T 0 0) as [_ | N]; [reflexivity | contradiction].
Qed.

(** C6, as the code has it: the lattice pricer does not check the
    risk-neutral probability.  For every lattice model (S, K, T, sigma > 0,
    at least one step), whether p lies in [0,1] or not, the constructor
    builds the model and [price()] returns a number: no error is reported. *)
Theorem lattice_price_never_inconsistent (S K T r sigma : R) (n : nat) (q : R)
        (ot : option_type) (et : exercise_type) :
  0 < S -> 0 < K -> 0 < T -> 0 < sigma -> (1 <= n)%nat ->
  exists bt v,
    BinomialTree.init S K T r sigma n q ot et = Ok bt
    /\ BinomialTree.price bt = Ok v
    /\ lattice_price S K T r sigma n q ot et = Ok v.
Proof.
  intros _ _ _ _ Hn.
  destruct (BinomialTree_init_ok S K T r sigma n q ot et Hn)
    as (dt & u & d & p & disc & Hinit & _).
  destruct (price_returns
              (BinomialTree.mk S K T r sigma n q ot et dt u d p disc))
    as (v & Hv & _).
  eexists. exists v. split; [exact Hinit |]. split; [exact Hv |].
  unfold lattice_price. rewrite Hinit. exact Hv.
Qed.

Lemma lattice_price_never_inconsistent_witness :
  exists bt v,
    BinomialTree.init 100 100 1 0.05 0.2 100 0 call european = Ok bt
    /\ BinomialTree.price bt = Ok v
    /\ lattice_price 100 100 1 0.05 0.2 100 0 call european = Ok v.
Proof.
  apply lattice_price_never_inconsistent; try lra; lia.
Defined.

(** C7, as the code has it: with n = 0 the constructor divides T by n and
    raises a division error, so no price is returned; [price()] itself, on a
    lattice object of a call whose step count is 0, performs no backward
    induction (the loop returns the array as it is) and returns exactly
    max(0, S - K), with no indexing error. *)
Theorem zero_steps_behaviour (S K T r sigma q : R) (et : exercise_type) :
  lattice_price S K T r sigma 0 q call et = Raise ZeroDivisionError
  /\ forall dt u d p discount,
       let bt := BinomialTree.mk S K T r sigma 0 q call et dt u d p discount in
       BinomialTree.price bt = Ok (py_max 0 (S - K))
       /\ forall V, BinomialTree.backward_induction bt V = Ok V.
Proof.
  split.
  - unfold lattice_price. rewrite BinomialTree_init_zero_steps. reflexivity.
  - intros dt u d p discount bt. split; [| reflexivity].
    unfold bt, BinomialTree.price, BinomialTree.terminal_prices,
      BinomialTree.terminal_values, BinomialTree.backward_induction,
      BinomialTree.payoff.
    simpl. unfold getitem. simpl. do 2 f_equal. lra.
Qed.

(** C7 fails as stated: with the parameters of the module's own test and
    n = 0, the pricer raises instead of returning max(0, S - K). *)
Lemma zero_steps_raises :
  lattice_price 100 100 1 0.05 0.2 0 0 call european = Raise ZeroDivisionError
  /\ lattice_price 100 100 1 0.05 0.2 0 0 call european
     <> Ok (py_max 0 (100 - 100)).
Proof.
  unfold lattice_price. rewrite BinomialTree_init_zero_steps.
  split; [reflexivity | discriminate].
Qed.

(** ** Lattice pricer: American against European exercise *)

Section AmericanEuropean.

Variables (S K T r sigma : R) (n : nat) (q : R) (ot : option_type).
Variables (dt u d p discount : R).

Let eu := BinomialTree.mk S K T r sigma n q ot european dt u d p discount.
Let am := BinomialTree.mk S K T r sigma n q ot american dt u d p discount.

Hypothesis p_unit : 0 <= p <= 1.
Hypothesis discount_nonneg : 0 <= discount.

Let below (a b : array) : Prop :=
  length a = (n + 1)%nat /\ length b = (n + 1)%nat /\ Forall2 Rle a b.

Lemma node_value_le (j i : nat) (a0 a1 b0 b1 : R) :
  a0 <= b0 -> a1 <= b1 ->
  node_value eu j i a0 a1 <= node_value am j i b0 b1.
Proof.
  intros H0 H1. unfold node_value, eu, am. simpl.
  apply Rle_trans with (discount * (p * b0 + (1 - p) * b1)).
  - apply Rmult_le_compat_l; [exact discount_nonneg |].
    apply Rplus_le_compat; apply Rmult_le_compat_l; lra.
  - apply Rmax_l.
Qed.

Lemma node_below (j i : nat) (a b : array) :
  (i + 1 < n + 1)%nat -> below a b ->
  returns2 below (BinomialTree.node eu j i a) (BinomialTree.node am j i b).
Proof.
  intros Hi (La & Lb & Hab).
  rewrite !node_in_range by lia.
  do 2 eexists. split; [reflexivity |]. split; [reflexivity |].
  unfold below. rewrite !upd_length. repeat split; try assumption.
  apply Forall2_Rle_upd; [exact Hab |].
  apply node_value_le; apply Forall2_Rle_nth; exact Hab.
Qed.

Lemma backward_induction_below (a b : array) :
  below a b ->
  returns2 below (BinomialTree.backward_induction eu a)
           (BinomialTree.backward_induction am b).
Proof.
  intros Hab. unfold BinomialTree.backward_induction.
  change (BinomialTree.n eu) with n. change (BinomialTree.n am) with n.
  apply for_down_returns2; [| exact Hab].
  intros j a' b' Hj Hab'.
  apply for_range_returns2; [| exact Hab'].
  intros i a'' b'' Hi Hab''. apply node_below; [lia | exact Hab''].
Qed.

Lemma price_exercise_order :
  returns2 Rle (BinomialTree.price eu) (BinomialTree.price am).
Proof.
  destruct (terminal_prices_returns eu) as (S_T & HS & LS).
  destruct (terminal_values_returns eu S_T LS) as (V & HV & LV).
  assert (HS' : BinomialTree.terminal_prices am = Ok S_T) by exact HS.
  assert (HV' : BinomialTree.terminal_values am S_T = Ok V) by exact HV.
  unfold BinomialTree.price. rewrite HS, HS'. simpl bind.
  rewrite HV, HV'. simpl bind.
  apply returns2_bind with (P := below).
  - apply backward_induction_below.
    repeat split; try exact LV. apply Forall2_Rle_refl.
  - intros a b (La & Lb & Hab).
    rewrite !getitem_in_range by lia.
    do 2 eexists. split; [reflexivity |]. split; [reflexivity |].
    apply Forall2_Rle_nth. exact Hab.
Qed.

End AmericanEuropean.

(** C3, as the code has it: for two lattice models built from identical
    S, K, T, r, sigma, n, q and option type, one European and one American,
    whose risk-neutral probability p lies in [0,1], both prices are returned
    and the American one is greater than or equal to the European one, for
    calls and puts alike. *)
Theorem american_ge_european (S K T r sigma : R) (n : nat) (q : R)
        (ot : option_type) (eu : BinomialTree.t) :
  BinomialTree.init S K T r sigma n q ot european = Ok eu ->
  0 <= BinomialTree.p eu <= 1 ->
  exists ve va,
    lattice_price S K T r sigma n q ot european = Ok ve
    /\ lattice_price S K T r sigma n q ot american = Ok va
    /\ ve <= va.
Proof.
  unfold lattice_price, BinomialTree.init. intros He Hp.
  destruct (py_div T (INR n)) as [dt |]; [| discriminate].
  simpl in He. injection He as <-. simpl in Hp. simpl bind.
  apply price_exercise_order; [exact Hp |].
  left. apply exp_pos.
Qed.

(** When [|r - q| sqrt(dt) <= sigma] the risk-neutral probability of the
    constructor lies in [0,1]. *)
Lemma risk_neutral_p_unit (r q sigma dt : R) :
  0 < sigma -> 0 < dt -> Rabs (r - q) * sqrt dt <= sigma ->
  let u := exp (sigma * sqrt dt) in
  let d := 1 / u in
  0 <= (exp ((r - q) * dt) - d) / (u - d) <= 1.
Proof.
  intros Hs Hdt Hb u d.
  assert (Hq : 0 < sqrt dt) by (apply sqrt_lt_R0; exact Hdt).
  assert (Hd : d = exp (- (sigma * sqrt dt))).
  { unfold d, u. rewrite exp_Ropp. lra. }
  assert (Hsq : sqrt dt * sqrt dt = dt) by (apply sqrt_sqrt; lra).
  assert (Ha : Rabs ((r - q) * dt) <= sigma * sqrt dt).
  { replace ((r - q) * dt) with ((r - q) * sqrt dt * sqrt dt)
      by (rewrite Rmult_assoc, Hsq; reflexivity).
    rewrite !Rabs_mult, (Rabs_pos_eq (sqrt dt)) by lra.
    apply Rmult_le_compat_r; lra. }
  assert (Ha' : - (sigma * sqrt dt) <= (r - q) * dt <= sigma * sqrt dt).
  { revert Ha. unfold Rabs. destruct (Rcase_abs ((r - q) * dt)); lra. }
  clear Ha. rename Ha' into Ha.
  assert (Hlo : d <= exp ((r - q) * dt)).
  { rewrite Hd. destruct (proj1 Ha) as [Hlt | Heq].
    - left. apply exp_increasing. exact Hlt.
    - rewrite Heq. lra. }
  assert (Hhi : exp ((r - q) * dt) <= u).
  { unfold u. destruct (proj2 Ha) as [Hlt | Heq].
    - left. apply exp_increasing. exact Hlt.
    - rewrite Heq. lra. }
  assert (Hud : d < u).
  { rewrite Hd. unfold u. apply exp_increasing.
    assert (0 < sigma * sqrt dt) by (apply Rmult_lt_0_compat; lra). lra. }
  split.
  - apply Rmult_le_pos; [lra |]. left. apply Rinv_0_lt_compat. lra.
  - apply Rmult_le_reg_r with (u - d); [lra |].
    unfold Rdiv. rewrite Rmult_assoc, Rinv_l by lra. lra.
Qed.

Lemma american_ge_european_witness :
  exists ve va,
    lattice_price 100 100 1 0.05 0.2 100 0 call european = Ok ve
    /\ lattice_price 100 100 1 0.05 0.2 100 0 call american = Ok va
    /\ ve <= va.
Proof.
  assert (H100 : INR 100 = 100) by (rewrite INR_IZR_INZ; reflexivity).
  eapply american_ge_european.
  - unfold BinomialTree.init, py_div.
    destruct (Req_dec_T (INR 100) 0) as [E | _]; [rewrite H100 in E; lra |].
    reflexivity.
  - cbn [BinomialTree.p].
    apply risk_neutral_p_unit.
    + lra.
    + rewrite H100. lra.
    + rewrite H100. rewrite Rabs_pos_eq by lra.
      assert (sqrt (1 / 100) <= 1).
      { apply Rle_trans with (sqrt 1); [apply sqrt_le_1; lra |].
        rewrite sqrt_1. lra. }
      lra.
Defined.

(** ** A two-step at-the-money put whose risk-neutral probability exceeds 1 *)

Section TwoStepPut.

Variables (S T r sigma q dt u p discount : R).

Hypothesis S_pos : 0 < S.
Hypothesis u_gt_1 : 1 < u.
Hypothesis p_gt_1 : 1 < p.
Hypothesis discount_pos : 0 < discount.

Let two_step (et : exercise_type) : BinomialTree.t :=
  BinomialTree.mk S S T r sigma 2 q put et dt u (1 / u) p discount.

Let d : R := 1 / u.

Lemma down_factor_facts : 0 < d < 1 /\ u * d = 1.
Proof.
  unfold d. split.
  - split.
    + apply Rdiv_lt_0_compat; lra.
    + apply Rmult_lt_reg_r with u; [lra |].
      unfold Rdiv. rewrite Rmult_assoc, Rinv_l by lra. lra.
  - field. lra.
Qed.

Lemma payoff_up_up : py_max 0 (S - S * (u * (u * 1)) * 1) = 0.
Proof.
  unfold py_max. apply Rmax_left.
  assert (1 < u * u) by nra.
  assert (0 < S * (u * u - 1)) by (apply Rmult_lt_0_compat; lra).
  lra.
Qed.

Lemma payoff_up_down : py_max 0 (S - S * (u * 1) * (d * 1)) = 0.
Proof.
  destruct down_factor_facts as [_ Hud].
  replace (S - S * (u * 1) * (d * 1)) with (S * (1 - u * d)) by ring.
  rewrite Hud. unfold py_max. apply Rmax_left. lra.
Qed.

Lemma payoff_down_down :
  py_max 0 (S - S * 1 * (d * (d * 1))) = S * (1 - d * d)
  /\ 0 < S * (1 - d * d).
Proof.
  destruct down_factor_facts as [Hd _].
  assert (0 < S * (1 - d * d)) by (apply Rmult_lt_0_compat; nra).
  split; [| assumption].
  unfold py_max. rewrite Rmax_right by lra. ring.
Qed.

Lemma payoff_up : py_max 0 (S - S * (u * 1) * 1) = 0.
Proof.
  unfold py_max. apply Rmax_left.
  assert (0 < S * (u - 1)) by (apply Rmult_lt_0_compat; lra).
  lra.
Qed.

Lemma payoff_down :
  py_max 0 (S - S * 1 * (d * 1)) = S * (1 - d) /\ 0 < S * (1 - d).
Proof.
  destruct down_factor_facts as [Hd _].
  assert (0 < S * (1 - d)) by (apply Rmult_lt_0_compat; lra).
  split; [| assumption].
  unfold py_max. rewrite Rmax_right by lra. ring.
Qed.

Lemma payoff_root : py_max 0 (S - S * 1 * 1) = 0.
Proof. unfold py_max. apply Rmax_left. lra. Qed.

Lemma two_step_european :
  BinomialTree.price (two_step european)
  = Ok (discount * discount * ((1 - p) * (1 - p)) * (S * (1 - d * d))).
Proof.
  unfold two_step, BinomialTree.price, BinomialTree.terminal_prices,
    BinomialTree.terminal_values, BinomialTree.backward_induction,
    BinomialTree.node, BinomialTree.payoff, getitem.
  simpl. fold d.
  rewrite payoff_up_up, payoff_up_down, (proj1 payoff_down_down).
  f_equal. ring.
Qed.

Lemma two_step_european_pos :
  0 < discount * discount * ((1 - p) * (1 - p)) * (S * (1 - d * d)).
Proof.
  pose proof (proj2 payoff_down_down).
  assert (0 < (p - 1) * (p - 1)) by (apply Rmult_lt_0_compat; lra).
  replace ((1 - p) * (1 - p)) with ((p - 1) * (p - 1)) by ring.
  apply Rmult_lt_0_compat; [| assumption].
  apply Rmult_lt_0_compat; [| assumption].
  apply Rmult_lt_0_compat; assumption.
Qed.

Lemma two_step_american : BinomialTree.price (two_step american) = Ok 0.
Proof.
  unfold two_step, BinomialTree.price, BinomialTree.terminal_prices,
    BinomialTree.terminal_values, BinomialTree.backward_induction,
    BinomialTree.node, BinomialTree.payoff, getitem.
  simpl. fold d.
  rewrite payoff_up_up, payoff_up_down, (proj1 payoff_down_down).
  rewrite payoff_up, (proj1 payoff_down), payoff_root.
  destruct payoff_down_down as [_ Hdd]. destruct payoff_down as [_ Hd1].
  f_equal.
  replace (discount * (p * 0 + (1 - p) * 0)) with 0 by ring.
  unfold py_max at 2. rewrite (Rmax_left 0 0) by lra.
  assert (E1 : py_max (discount * (p * 0 + (1 - p) * (S * (1 - d * d))))
                 (S * (1 - d)) = S * (1 - d)).
  { unfold py_max. apply Rmax_right.
    assert (0 < discount * ((p - 1) * (S * (1 - d * d))))
      by (apply Rmult_lt_0_compat;
          [lra | apply Rmult_lt_0_compat; [lra | assumption]]).
    lra. }
  rewrite E1. unfold py_max. apply Rmax_right.
  assert (0 < discount * ((p - 1) * (S * (1 - d))))
    by (apply Rmult_lt_0_compat;
        [lra | apply Rmult_lt_0_compat; [lra | assumption]]).
  lra.
Qed.

End TwoStepPut.

(** The contract S = K = 100, T = 2, r = 0.05, sigma = 0.01, q = 0 on a
    two-step lattice: dt = 1, and the growth factor e^0.05 exceeds the up
    factor e^0.01, so that p > 1. *)
Lemma low_volatility_parameters :
  let dt := 2 / INR 2 in
  let u := exp (0.01 * sqrt dt) in
  let d := 1 / u in
  let p := (exp ((0.05 - 0) * dt) - d) / (u - d) in
  INR 2 <> 0 /\ 1 < u /\ 1 < p.
Proof.
  intros dt u d p.
  assert (H2 : INR 2 = 2) by (simpl; lra).
  assert (Hdt : dt = 1) by (unfold dt; rewrite H2; lra).
  assert (Hu : u = exp 0.01).
  { unfold u. rewrite Hdt, sqrt_1. f_equal. lra. }
  assert (Hu1 : 1 < u).
  { rewrite Hu, <- exp_0. apply exp_increasing. lra. }
  assert (Hg : u < exp ((0.05 - 0) * dt)).
  { rewrite Hu, Hdt. apply exp_increasing. lra. }
  assert (Hd : 0 < d < 1).
  { unfold d. split.
    - apply Rdiv_lt_0_compat; lra.
    - apply Rmult_lt_reg_r with u; [lra |].
      unfold Rdiv. rewrite Rmult_assoc, Rinv_l by lra. lra. }
  repeat split.
  - rewrite H2. lra.
  - exact Hu1.
  - unfold p. apply Rmult_lt_reg_r with (u - d); [lra |].
    unfold Rdiv. rewrite Rmult_assoc, Rinv_l by lra. lra.
Qed.

(** C3 fails as stated: on this contract the American put is priced 0 and
    the European put is priced strictly above 0. *)
Lemma american_below_european :
  exists ve va,
    lattice_price 100 100 2 0.05 0.01 2 0 put european = Ok ve
    /\ lattice_price 100 100 2 0.05 0.01 2 0 put american = Ok va
    /\ va < ve.
Proof.
  destruct low_volatility_parameters as (Hn & Hu & Hp).
  unfold lattice_price, BinomialTree.init, py_div.
  destruct (Req_dec_T (INR 2) 0) as [E | _]; [contradiction |].
  simpl bind.
  do 2 eexists. split; [| split].
  - apply two_step_european; [lra | exact Hu].
  - apply two_step_american; [lra | exact Hu | exact Hp | apply exp_pos].
  - apply two_step_european_pos;
      [lra | exact Hu | exact Hp | apply exp_pos].
Qed.

(** C6 fails as stated: on this contract p lies outside [0,1], and the
    pricer returns a price instead of reporting an error. *)
Lemma inconsistent_model_is_priced :
  exists bt v,
    BinomialTree.init 100 100 2 0.05 0.01 2 0 put european = Ok bt
    /\ ~ (0 <= BinomialTree.p bt <= 1)
    /\ BinomialTree.price bt = Ok v
    /\ lattice_price 100 100 2 0.05 0.01 2 0 put european = Ok v.
Proof.
  destruct low_volatility_parameters as (Hn & Hu & Hp).
  unfold lattice_price, BinomialTree.init, py_div.
  destruct (Req_dec_T (INR 2) 0) as [E | _]; [contradiction |].
  simpl bind.
  do 2 eexists. split; [reflexivity |]. split; [| split].
  - cbn [BinomialTree.p]. intros [_ Hle].
    apply (Rlt_not_le _ _ Hp). exact Hle.
  - apply two_step_european; [lra | exact Hu].
  - apply two_step_european; [lra | exact Hu].
Qed.

(** ** Implied volatility: the Newton-Raphson loop *)

Lemma last_default_irrelevant {A : Type} (l : list A) (a b : A) :
  l <> [] -> last l a = last l b.
Proof.
  induction l as [| x [| y l'] IH]; intros Hne; simpl;
    [contradiction | reflexivity |].
  apply IH. discriminate.
Qed.

Section Newton.

Import ImpliedVolatility.

Variable self : ImpliedVolatility.t.
Variable tolerance : R.

Lemma newton_pass_cases (sigma : R) (fl : flow) :
  newton_pass self tolerance sigma = Ok fl ->
  exists bs,
    pricer_at self sigma = Ok bs
    /\ match fl with
       | Return s => s = sigma /\ Rabs (quoted self bs - market_price self) < tolerance
       | Break =>
           ~ Rabs (quoted self bs - market_price self) < tolerance
           /\ BlackScholes.vega bs * 100 = 0
       | Continue s =>
           ~ Rabs (quoted self bs - market_price self) < tolerance
           /\ BlackScholes.vega bs * 100 <> 0
           /\ (candidate self bs sigma <= 0 -> s = 0.001)
           /\ (0 < candidate self bs sigma -> s = candidate self bs sigma)
       end.
Proof.
  unfold newton_pass, pricer_at, candidate, quoted.
  destruct (BlackScholes.init _ _ _ _ _ _) as [bs |]; [| discriminate].
  simpl bind. intros H. exists bs. split; [reflexivity |].
  destruct (Rlt_dec _ tolerance) as [Hc | Hc].
  { injection H as <-. auto. }
  destruct (Req_dec_T _ 0) as [Hv | Hv].
  { injection H as <-. auto. }
  destruct (Rle_dec _ 0) as [Hs | Hs]; injection H as <-;
    repeat split; auto; intros; lra.
Qed.

Lemma newton_pass_returns (sigma : R) :
  K self <> 0 -> exists fl, newton_pass self tolerance sigma = Ok fl.
Proof.
  intros HK. unfold newton_pass.
  rewrite BlackScholes_init_ok by exact HK. simpl bind.
  destruct (Rlt_dec _ tolerance); [eauto |].
  destruct (Req_dec_T _ 0); [eauto |].
  destruct (Rle_dec _ 0); eauto.
Qed.

Lemma newton_trace_outcome (passes : nat) :
  forall sigma,
    newton_loop self tolerance passes sigma
    = match snd (newton_trace self tolerance passes sigma) with
      | Ok (_, v) => Ok v
      | Raise e => Raise e
      end.
Proof.
  induction passes as [| k IH]; intros sigma; simpl; [reflexivity |].
  destruct (newton_pass self tolerance sigma) as [[s | | s] | e];
    simpl; try reflexivity.
  rewrite IH. destruct (newton_trace self tolerance k s). reflexivity.
Qed.

Lemma newton_trace_positive (passes : nat) :
  forall sigma,
    0 < sigma ->
    Forall (fun s => 0 < s) (fst (newton_trace self tolerance passes sigma)).
Proof.
  induction passes as [| k IH]; intros sigma Hs; simpl; [constructor |].
  destruct (newton_pass self tolerance sigma) as [[s | | s] | e] eqn:E;
    simpl; try (constructor; [exact Hs | constructor]).
  apply newton_pass_cases in E. destruct E as (bs & _ & _ & _ & Hlo & Hhi).
  assert (Hpos : 0 < s).
  { destruct (Rle_dec (candidate self bs sigma) 0) as [Hc | Hc].
    - rewrite (Hlo Hc). lra.
    - rewrite Hhi by lra. lra. }
  specialize (IH s Hpos).
  destruct (newton_trace self tolerance k s). simpl in *.
  constructor; assumption.
Qed.

Lemma newton_trace_head (passes : nat) (sigma : R) :
  forall s, nth_error (fst (newton_trace self tolerance passes sigma)) 0
            = Some s -> s = sigma.
Proof.
  destruct passes as [| k]; simpl; [discriminate |].
  destruct (newton_pass self tolerance sigma) as [[s0 | | s0] | e];
    simpl; try congruence.
  destruct (newton_trace self tolerance k s0). simpl. congruence.
Qed.

Lemma newton_trace_guarded (passes : nat) :
  forall sigma k s s',
    let evaluated := fst (newton_trace self tolerance passes sigma) in
    nth_error evaluated k = Some s ->
    nth_error evaluated (Datatypes.S k) = Some s' ->
    exists bs,
      pricer_at self s = Ok bs
      /\ (candidate self bs s <= 0 -> s' = 0.001)
      /\ (0 < candidate self bs s -> s' = candidate self bs s).
Proof.
  induction passes as [| n IH]; intros sigma k s s'; simpl.
  { destruct k; discriminate. }
  destruct (newton_pass self tolerance sigma) as [[s0 | | s0] | e] eqn:E;
    simpl; try (destruct k; discriminate).
  pose proof (newton_trace_head n s0) as Hhead.
  specialize (IH s0).
  destruct (newton_trace self tolerance n s0) as [ev out]. simpl in *.
  destruct k as [| k']; simpl.
  - intros [= <-] Hs'. apply Hhead in Hs'. subst s'.
    apply newton_pass_cases in E.
    destruct E as (bs & Hbs & _ & _ & Hlo & Hhi). eauto.
  - apply IH.
Qed.

End Newton.

(** C9: in every run of [vega_newton] started from a sigma_initial > 0,
    each sigma at which a pass evaluates the pricer is strictly positive;
    and from one evaluation to the next, sigma is the Newton update when
    that is positive and the floor 0.001 when the update is zero or
    below. *)
Theorem newton_sigma_stays_positive (self : ImpliedVolatility.t)
        (sigma_initial : R) (max_iterations : nat) (tolerance : R) :
  0 < sigma_initial ->
  let evaluated :=
    fst (ImpliedVolatility.newton_trace self tolerance max_iterations
           sigma_initial) in
  Forall (fun s => 0 < s) evaluated
  /\ forall k s s',
       nth_error evaluated k = Some s ->
       nth_error evaluated (S k) = Some s' ->
       exists bs,
         pricer_at self s = Ok bs
         /\ (candidate self bs s <= 0 -> s' = 0.001)
         /\ (0 < candidate self bs s -> s' = candidate self bs s).
Proof.
  intros Hs evaluated. split.
  - apply newton_trace_positive. exact Hs.
  - apply newton_trace_guarded.
Qed.

Lemma newton_sigma_stays_positive_witness :
  let evaluated :=
    fst (ImpliedVolatility.newton_trace
           (ImpliedVolatility.mk 100 100 1 0.05 10 call 0) 1e-6 100 0.2) in
  Forall (fun s => 0 < s) evaluated
  /\ forall k s s',
       nth_error evaluated k = Some s ->
       nth_error evaluated (S k) = Some s' ->
       exists bs,
         pricer_at (ImpliedVolatility.mk 100 100 1 0.05 10 call 0) s = Ok bs
         /\ (candidate (ImpliedVolatility.mk 100 100 1 0.05 10 call 0) bs s
             <= 0 -> s' = 0.001)
         /\ (0 < candidate (ImpliedVolatility.mk 100 100 1 0.05 10 call 0) bs s
             -> s' = candidate (ImpliedVolatility.mk 100 100 1 0.05 10 call 0)
                       bs s).
Proof.
  apply newton_sigma_stays_positive. lra.
Defined.

(** *** Termination and the value returned *)

Section NewtonOutcome.

Import ImpliedVolatility.

Variable self : ImpliedVolatility.t.
Variable tolerance : R.

Lemma newton_trace_one (sigma : R) :
  fst (newton_trace self tolerance 1 sigma) = [sigma].
Proof.
  simpl. destruct (newton_pass self tolerance sigma) as [[s | | s] | e];
    reflexivity.
Qed.

Lemma newton_trace_step (k : nat) (sigma : R) :
  newton_trace self tolerance (Datatypes.S k) sigma
  = match newton_pass self tolerance sigma with
    | Raise e => ([sigma], Raise e)
    | Ok (Return s) => ([sigma], Ok (Converged, s))
    | Ok Break => ([sigma], Ok (ZeroVega, sigma))
    | Ok (Continue s) =>
        let (evaluated, outcome) := newton_trace self tolerance k s in
        (sigma :: evaluated, outcome)
    end.
Proof. reflexivity. Qed.

Hypothesis K_nonzero : K self <> 0.

Lemma newton_trace_returns (passes : nat) :
  forall sigma,
  exists ex v,
    snd (newton_trace self tolerance passes sigma) = Ok (ex, v)
    /\ (length (fst (newton_trace self tolerance passes sigma))
        <= passes)%nat
    /\ left_with self tolerance passes sigma
         (fst (newton_trace self tolerance passes sigma)) ex v.
Proof.
  induction passes as [| k IH]; intros sigma.
  { exists Exhausted, sigma. simpl. repeat split; auto.
    apply newton_trace_one. }
  rewrite newton_trace_step.
  destruct (newton_pass_returns self tolerance sigma K_nonzero) as [fl E].
  rewrite E.
  pose proof (newton_pass_cases self tolerance sigma fl E) as (bs & Hbs & H).
  destruct fl as [s | | s].
  - destruct H as [-> Hc]. exists Converged, sigma. simpl.
    repeat split; [lia | discriminate | eauto].
  - destruct H as [Hc Hv]. exists ZeroVega, sigma. simpl.
    repeat split; [lia | discriminate | eauto].
  - destruct (IH s) as (ex & v & Hout & Hlen & Hleft).
    exists ex, v.
    destruct (newton_trace self tolerance k s) as [ev out] eqn:Ek.
    cbn [fst snd] in Hout, Hlen, Hleft |- *.
    split; [exact Hout |]. split; [simpl; lia |].
    destruct ex; unfold left_with in Hleft |- *.
    + destruct Hleft as (Hne & Hlast & Hbs').
      split; [discriminate |]. split; [| exact Hbs'].
      rewrite <- Hlast.
      destruct ev as [| e0 ev']; [contradiction |].
      change (last (sigma :: e0 :: ev') sigma) with (last (e0 :: ev') sigma).
      apply last_default_irrelevant. discriminate.
    + destruct Hleft as (Hne & Hlast & Hbs').
      split; [discriminate |]. split; [| exact Hbs'].
      rewrite <- Hlast.
      destruct ev as [| e0 ev']; [contradiction |].
      change (last (sigma :: e0 :: ev') sigma) with (last (e0 :: ev') sigma).
      apply last_default_irrelevant. discriminate.
    + destruct Hleft as (Hl & Hnext). split; [simpl; lia |].
      rewrite (newton_trace_step (Datatypes.S k) sigma), E.
      destruct (newton_trace self tolerance (Datatypes.S k) s) as [e1 o1].
      cbn [fst] in Hnext |- *. rewrite Hnext. reflexivity.
Qed.

End NewtonOutcome.

(** C10: when the pricer can be constructed (K is not 0), [vega_newton]
    runs at most max_iterations passes and returns a number, never an
    error and never [None], however the loop is left: on meeting the
    tolerance and on a vega of exactly zero it returns the sigma just
    evaluated, and on exhausting the budget the sigma the next pass would
    have evaluated.  The value returned is all the caller gets: the way the
    loop was left is not part of it. *)
Theorem vega_newton_always_returns (self : ImpliedVolatility.t)
        (sigma_initial : R) (max_iterations : nat) (tolerance : R) :
  ImpliedVolatility.K self <> 0 ->
  let run :=
    ImpliedVolatility.newton_trace self tolerance max_iterations
      sigma_initial in
  exists ex v,
    snd run = Ok (ex, v)
    /\ ImpliedVolatility.vega_newton self sigma_initial max_iterations
         tolerance = Ok v
    /\ (length (fst run) <= max_iterations)%nat
    /\ left_with self tolerance max_iterations sigma_initial (fst run) ex v.
Proof.
  intros HK run. unfold run. clear run.
  destruct (newton_trace_returns self tolerance HK max_iterations
              sigma_initial) as (ex & v & Hout & Hlen & Hleft).
  exists ex, v. repeat split; try assumption.
  unfold ImpliedVolatility.vega_newton.
  rewrite newton_trace_outcome, Hout. reflexivity.
Qed.

Lemma vega_newton_always_returns_witness :
  let self := ImpliedVolatility.mk 100 100 1 0.05 10 call 0 in
  let run := ImpliedVolatility.newton_trace self 1e-6 100 0.2 in
  exists ex v,
    snd run = Ok (ex, v)
    /\ ImpliedVolatility.vega_newton self 0.2 100 1e-6 = Ok v
    /\ (length (fst run) <= 100)%nat
    /\ left_with self 1e-6 100 0.2 (fst run) ex v.
Proof.
  intros self.
  apply (vega_newton_always_returns self 0.2 100 1e-6).
  simpl. lra.
Defined.

(** *** A run that exhausts its budget *)

Section NeverConverging.

Import ImpliedVolatility.

Variable self : ImpliedVolatility.t.
Variable tolerance : R.

Hypothesis K_nonzero : K self <> 0.

Hypothesis off_everywhere :
  forall sigma bs,
    pricer_at self sigma = Ok bs ->
    ~ Rabs (quoted self bs - market_price self) < tolerance
    /\ BlackScholes.vega bs * 100 <> 0.

Lemma newton_trace_exhausts (passes : nat) :
  forall sigma,
  exists v,
    snd (newton_trace self tolerance passes sigma) = Ok (Exhausted, v)
    /\ length (fst (newton_trace self tolerance passes sigma)) = passes.
Proof.
  induction passes as [| k IH]; intros sigma.
  { exists sigma. split; reflexivity. }
  rewrite newton_trace_step.
  destruct (newton_pass_returns self tolerance sigma K_nonzero) as [fl E].
  rewrite E.
  pose proof (newton_pass_cases self tolerance sigma fl E) as (bs & Hbs & H).
  destruct (off_everywhere sigma bs Hbs) as [Hoff Hvega].
  destruct fl as [s | | s].
  - destruct H as [_ Hc]. contradiction.
  - destruct H as [_ Hv]. contradiction.
  - destruct (IH s) as (v & Hout & Hlen). exists v.
    destruct (newton_trace self tolerance k s) as [ev out].
    cbn [fst snd] in Hout, Hlen |- *. split; [exact Hout |].
    simpl. rewrite Hlen. reflexivity.
Qed.

End NeverConverging.

(** With the default sigma_initial, max_iterations and tolerance, an
    at-the-money call on a spot of 100 quoted at 1000 is never priced within
    the tolerance: the loop runs its 100 passes and [vega_newton] returns
    the last iterate as a plain number. *)
Lemma unattainable_quote_exhausts_budget :
  let self := ImpliedVolatility.mk 100 100 1 0 1000 call 0 in
  exists v,
    snd (ImpliedVolatility.newton_trace self 1e-6 100 0.2)
    = Ok (ImpliedVolatility.Exhausted, v)
    /\ length (fst (ImpliedVolatility.newton_trace self 1e-6 100 0.2)) = 100%nat
    /\ ImpliedVolatility.vega_newton self 0.2 100 1e-6 = Ok v
    /\ forall bs,
         pricer_at self v = Ok bs ->
         ~ Rabs (quoted self bs - ImpliedVolatility.market_price self) < 1e-6.
Proof.
  intros self.
  assert (HK : ImpliedVolatility.K self <> 0) by (simpl; lra).
  assert (Hoff : forall sigma bs,
             pricer_at self sigma = Ok bs ->
             ~ Rabs (quoted self bs - ImpliedVolatility.market_price self)
               < 1e-6
             /\ BlackScholes.vega bs * 100 <> 0).
  { intros sigma bs Hbs. unfold pricer_at in Hbs. cbn in Hbs.
    rewrite BlackScholes_init_ok in Hbs by lra. injection Hbs as <-.
    unfold quoted, BlackScholes.call_price, BlackScholes.vega. cbn.
    replace (- 0 * 1) with 0 by ring. rewrite exp_0, sqrt_1.
    pose proof (norm_cdf_upper (Spec.d1 100 100 1 0 sigma 0)) as H1.
    pose proof (norm_cdf_lower (Spec.d2 100 100 1 0 sigma 0)) as H2.
    pose proof (norm_pdf_pos (Spec.d1 100 100 1 0 sigma 0)) as H3.
    split.
    - intros Habs. apply Rabs_def2 in Habs. lra.
    - lra. }
  destruct (newton_trace_exhausts self 1e-6 HK Hoff 100 0.2)
    as (v & Hout & Hlen).
  exists v. split; [exact Hout |]. split; [exact Hlen |]. split.
  - unfold ImpliedVolatility.vega_newton.
    rewrite newton_trace_outcome, Hout. reflexivity.
  - intros bs Hbs. apply (Hoff v bs Hbs).
Qed.

(** With the same defaults, a quote equal to the model price at the initial
    guess is met at the first pass: the run converges, and [vega_newton]
    again returns a plain number. *)
Lemma attained_quote_converges :
  let bs :=
    BlackScholes.mk 100 100 1 0.05 0.2 0
      (Spec.d1 100 100 1 0.05 0.2 0) (Spec.d2 100 100 1 0.05 0.2 0) in
  let self :=
    ImpliedVolatility.mk 100 100 1 0.05 (BlackScholes.call_price bs) call 0 in
  snd (ImpliedVolatility.newton_trace self 1e-6 100 0.2)
  = Ok (ImpliedVolatility.Converged, 0.2)
  /\ ImpliedVolatility.vega_newton self 0.2 100 1e-6 = Ok 0.2.
Proof.
  intros bs self.
  assert (Hpass : ImpliedVolatility.newton_pass self 1e-6 0.2
                  = Ok (ImpliedVolatility.Return 0.2)).
  { unfold ImpliedVolatility.newton_pass, self.
    cbn [ImpliedVolatility.S ImpliedVolatility.K ImpliedVolatility.T
         ImpliedVolatility.r ImpliedVolatility.q ImpliedVolatility.otype
         ImpliedVolatility.market_price].
    rewrite BlackScholes_init_ok by lra. simpl bind. fold bs.
    replace (BlackScholes.call_price bs - BlackScholes.call_price bs)
      with 0 by ring.
    rewrite Rabs_R0.
    destruct (Rlt_dec 0 1e-6) as [_ | N]; [reflexivity | exfalso; lra]. }
  assert (Hout : snd (ImpliedVolatility.newton_trace self 1e-6 100 0.2)
                 = Ok (ImpliedVolatility.Converged, 0.2)).
  { rewrite newton_trace_step, Hpass. reflexivity. }
  split; [exact Hout |].
  unfold ImpliedVolatility.vega_newton.
  rewrite newton_trace_outcome, Hout. reflexivity.
Qed.

(** ** Implied volatility: the bracketed search *)

Lemma cdf_combination_continuity_pt (A B m : R) (f g : R -> R) (x : R) :
  continuity_pt f x -> continuity_pt g x ->
  continuity_pt (fun s => A * norm_cdf (f s) - B * norm_cdf (g s) - m) x.
Proof.
  intros Hf Hg.
  apply (continuity_pt_minus
           (fun s => A * norm_cdf (f s) - B * norm_cdf (g s)) (fct_cte m)).
  - apply (continuity_pt_minus
             (fun s => A * norm_cdf (f s)) (fun s => B * norm_cdf (g s))).
    + apply (continuity_pt_scal (fun s => norm_cdf (f s)) A).
      apply norm_cdf_comp_continuity_pt. exact Hf.
    + apply (continuity_pt_scal (fun s => norm_cdf (g s)) B).
      apply norm_cdf_comp_continuity_pt. exact Hg.
  - apply continuity_pt_const. intros y z. reflexivity.
Qed.

Section PriceContinuity.

Variables (S K T r q : R).
Hypothesis T_pos : 0 < T.

Lemma d1_continuity_pt (sigma : R) :
  sigma <> 0 -> continuity_pt (fun s => Spec.d1 S K T r s q) sigma.
Proof.
  intros Hs. unfold Spec.d1.
  assert (Hq : sqrt T <> 0).
  { apply Rgt_not_eq, sqrt_lt_R0. exact T_pos. }
  reg. apply Rmult_integral_contrapositive_currified; assumption.
Qed.

Lemma d2_continuity_pt (sigma : R) :
  sigma <> 0 -> continuity_pt (fun s => Spec.d2 S K T r s q) sigma.
Proof.
  intros Hs. unfold Spec.d2.
  apply (continuity_pt_minus
           (fun s => Spec.d1 S K T r s q) (fun s => s * sqrt T)).
  - apply d1_continuity_pt. exact Hs.
  - reg.
Qed.

End PriceContinuity.

Section Bracket.

Import ImpliedVolatility.

Variable self : ImpliedVolatility.t.

Hypothesis K_nonzero : K self <> 0.

Lemma objective_mispricing (sigma : R) :
  objective self sigma = Ok (mispricing self sigma).
Proof.
  unfold objective. rewrite BlackScholes_init_ok by exact K_nonzero.
  reflexivity.
Qed.

Hypothesis T_pos : 0 < T self.

Lemma mispricing_continuity_pt (sigma : R) :
  sigma <> 0 -> continuity_pt (mispricing self) sigma.
Proof.
  intros Hs. unfold mispricing, quoted.
  pose proof (d1_continuity_pt (S self) (K self) (T self) (r self) (q self)
                T_pos sigma Hs) as H1.
  pose proof (d2_continuity_pt (S self) (K self) (T self) (r self) (q self)
                T_pos sigma Hs) as H2.
  destruct (otype self);
    unfold BlackScholes.call_price, BlackScholes.put_price;
    cbn [BlackScholes.S BlackScholes.K BlackScholes.T BlackScholes.r
         BlackScholes.q BlackScholes.d1 BlackScholes.d2].
  - apply (cdf_combination_continuity_pt _ _ _
             (fun s => Spec.d1 (S self) (K self) (T self) (r self) s (q self))
             (fun s => Spec.d2 (S self) (K self) (T self) (r self) s (q self)));
      assumption.
  - apply (cdf_combination_continuity_pt _ _ _
             (fun s => - Spec.d2 (S self) (K self) (T self) (r self) s (q self))
             (fun s => - Spec.d1 (S self) (K self) (T self) (r self) s (q self))).
    + apply (continuity_pt_opp
               (fun s => Spec.d2 (S self) (K self) (T self) (r self) s (q self))).
      exact H2.
    + apply (continuity_pt_opp
               (fun s => Spec.d1 (S self) (K self) (T self) (r self) s (q self))).
      exact H1.
Qed.

(** If the mispricing vanishes nowhere on a bracket of positive sigmas, it
    has the same strict sign at both ends. *)
Lemma mispricing_same_sign (lo hi : R) :
  0 < lo < hi ->
  (forall sigma, lo <= sigma <= hi -> mispricing self sigma <> 0) ->
  0 < mispricing self lo * mispricing self hi.
Proof.
  intros [Hlo Hlh] Hne.
  assert (Hc : forall a, lo <= a <= hi -> continuity_pt (mispricing self) a).
  { intros a Ha. apply mispricing_continuity_pt. lra. }
  pose proof (Hne lo ltac:(lra)) as Nlo.
  pose proof (Hne hi ltac:(lra)) as Nhi.
  destruct (Rtotal_order (mispricing self lo) 0) as [L | [L | L]];
    [| contradiction |];
    destruct (Rtotal_order (mispricing self hi) 0) as [H | [H | H]];
    try contradiction.
  - replace (mispricing self lo * mispricing self hi)
      with ((- mispricing self lo) * (- mispricing self hi)) by ring.
    apply Rmult_lt_0_compat; lra.
  - exfalso.
    destruct (IVT_interv (mispricing self) lo hi Hc Hlh L H) as (z & Hz & Ez).
    exact (Hne z Hz Ez).
  - exfalso.
    assert (Hc' : forall a, lo <= a <= hi ->
                            continuity_pt (- (mispricing self))%F a).
    { intros a Ha. apply continuity_pt_opp, Hc, Ha. }
    destruct (IVT_interv (- (mispricing self))%F lo hi Hc' Hlh) as (z & Hz & Ez).
    + unfold opp_fct. lra.
    + unfold opp_fct. lra.
    + unfold opp_fct in Ez. apply (Hne z Hz). lra.
  - apply Rmult_lt_0_compat; lra.
Qed.

End Bracket.

(** C8: when no volatility of the bracket [0.001, 5.0] gives the market
    price (the market price is outside the range of prices attainable over
    the bracket), [calculate_iv] returns [None]: no volatility, and no
    exception. *)
Theorem calculate_iv_no_solution
        (brent_iterations : (R -> result R) -> R -> R -> R -> R -> result R)
        (self : ImpliedVolatility.t) :
  0 < ImpliedVolatility.S self ->
  0 < ImpliedVolatility.K self ->
  0 < ImpliedVolatility.T self ->
  (forall sigma bs,
      0.001 <= sigma <= 5.0 ->
      pricer_at self sigma = Ok bs ->
      quoted self bs <> ImpliedVolatility.market_price self) ->
  ImpliedVolatility.calculate_iv brent_iterations self = Ok None.
Proof.
  intros HS HK HT Hout.
  assert (HK' : ImpliedVolatility.K self <> 0) by lra.
  assert (Hne : forall sigma, 0.001 <= sigma <= 5.0 ->
                              mispricing self sigma <> 0).
  { intros sigma Hs E.
    apply (Hout sigma _ Hs (BlackScholes_init_ok _ _ _ _ _ _ HK')).
    unfold mispricing in E. lra. }
  pose proof (mispricing_same_sign self HT 0.001 5.0 ltac:(lra) Hne) as Hsign.
  unfold ImpliedVolatility.calculate_iv, ImpliedVolatility.brentq.
  rewrite !objective_mispricing by exact HK'. simpl bind.
  destruct (Req_dec_T (mispricing self 0.001) 0) as [E | _].
  { exfalso. apply (Hne 0.001); [lra | exact E]. }
  destruct (Req_dec_T (mispricing self 5.0) 0) as [E | _].
  { exfalso. apply (Hne 5.0); [lra | exact E]. }
  destruct (Rlt_dec 0 (mispricing self 0.001 * mispricing self 5.0))
    as [_ | N]; [reflexivity | contradiction].
Qed.

Lemma calculate_iv_no_solution_witness :
  ImpliedVolatility.calculate_iv (fun _ _ _ _ _ => Raise RuntimeError)
    (ImpliedVolatility.mk 100 100 1 0 (-1) call 0)
  = Ok None.
Proof.
  apply calculate_iv_no_solution; cbn; try lra.
  intros sigma bs Hs Hbs. unfold pricer_at in Hbs. cbn in Hbs.
  rewrite BlackScholes_init_ok in Hbs by lra. injection Hbs as <-.
  unfold quoted, BlackScholes.call_price. cbn.
  assert (Hd : Spec.d2 100 100 1 0 sigma 0 < Spec.d1 100 100 1 0 sigma 0).
  { unfold Spec.d2. rewrite sqrt_1. lra. }
  apply norm_cdf_increasing in Hd.
  pose proof (exp_pos (- 0 * 1)) as He.
  assert (0 < 100 * exp (- 0 * 1)
              * (norm_cdf (Spec.d1 100 100 1 0 sigma 0)
                 - norm_cdf (Spec.d2 100 100 1 0 sigma 0)))
    by (apply Rmult_lt_0_compat; lra).
  lra.
Defined.

(** * Lattice pricer: convergence to the analytic price

    The values that [price] holds in its array are compared, layer by
    layer, with the analytic put [put_fun tau x] taken at the time to
    maturity and the log-price of each node; a call is the put plus the
    forward [forward_part], which one step of the lattice reproduces
    exactly.

    - The analytic put is smooth for [tau > 0] and solves the
      Black-Scholes equation ([put_pde]); its derivatives are bounded by
      powers of [1 / sqrt tau] ([put_xxx_bound], [put_tt_bound]).  The
      bounds need [0 <= norm_cdf <= 1], which is the value of the Gaussian
      integral ([gauss_identity], [norm_cdf_range]).
    - One step of the lattice applied to the analytic put gives the
      analytic put one step earlier, up to [dt sqrt dt (1 + 1 / tau)]
      ([one_step_error]); the first step, from the payoff, is exact up to
      [sqrt dt] ([terminal_step_error]).
    - The in-place loop of [price] keeps every layer within the accumulated
      bound ([backward_induction_tracks], [layer_step]), which at the root
      is of the order of [sqrt dt] times a harmonic sum and tends to 0
      ([layer_bound_vanishes]). *)

(** ** Calculus tools *)

Lemma sq_nonneg (z : R) : 0 <= z * z.
Proof. exact (Rle_0_sqr z). Qed.

Lemma Rabs_le_both (z M : R) : Rabs z <= M -> - M <= z <= M.
Proof.
  unfold Rabs. destruct (Rcase_abs z); lra.
Qed.

Lemma Rabs_mult_le (a b A B : R) :
  Rabs a <= A -> Rabs b <= B -> Rabs (a * b) <= A * B.
Proof.
  intros Ha Hb. rewrite Rabs_mult.
  apply Rmult_le_compat; try apply Rabs_pos; assumption.
Qed.

Lemma Rabs_sq (z : R) : Rabs z * Rabs z = z * z.
Proof.
  rewrite <- Rabs_mult. apply Rabs_pos_eq, sq_nonneg.
Qed.

(** The integral of a continuous function is the increment of any of its
    antiderivatives. *)
Lemma RiemannInt_FTC (f G : R -> R) (a b : R) (pr : Riemann_integrable f a b) :
  a <= b ->
  (forall x, a <= x <= b -> continuity_pt f x) ->
  (forall x, a <= x <= b -> derivable_pt_lim G x (f x)) ->
  RiemannInt pr = G b - G a.
Proof.
  intros h C0 HG.
  assert (HP : antiderivative f (primitive h (FTC_P1 h C0)) a b)
    by apply RiemannInt_P29.
  assert (HQ : antiderivative f G a b).
  { split; [| exact h]. intros x Hx.
    exists (exist _ (f x) (HG x Hx)). reflexivity. }
  destruct (antiderivative_Ucte _ _ _ _ _ HP HQ) as [c Hc].
  rewrite (RiemannInt_P20 h (FTC_P1 h C0) pr).
  rewrite (Hc b), (Hc a) by lra. ring.
Qed.

Section MeanValue.

Variables (f f' : R -> R) (a b M : R).
Hypothesis f_deriv : forall c, a <= c <= b -> derivable_pt_lim f c (f' c).
Hypothesis f'_bound : forall c, a <= c <= b -> Rabs (f' c) <= M.

Lemma mvt_bound_lt (x y : R) :
  a <= x -> y <= b -> x < y -> Rabs (f y - f x) <= M * (y - x).
Proof.
  intros Hx Hy Hxy.
  destruct (MVT_cor2 f f' x y Hxy) as (c & Hc & Hcxy).
  { intros c Hc. apply f_deriv. lra. }
  rewrite Hc, Rabs_mult, (Rabs_pos_eq (y - x)) by lra.
  apply Rmult_le_compat_r; [lra |]. apply f'_bound. lra.
Qed.

Lemma mvt_bound (x y : R) :
  a <= x <= b -> a <= y <= b -> Rabs (f y - f x) <= M * Rabs (y - x).
Proof.
  intros Hx Hy.
  destruct (Rtotal_order x y) as [Hlt | [Heq | Hgt]].
  - rewrite (Rabs_pos_eq (y - x)) by lra. apply mvt_bound_lt; lra.
  - subst y. replace (f x - f x) with 0 by ring.
    replace (x - x) with 0 by ring. rewrite Rabs_R0. lra.
  - rewrite (Rabs_minus_sym (f y)), (Rabs_minus_sym y).
    rewrite (Rabs_pos_eq (x - y)) by lra. apply mvt_bound_lt; lra.
Qed.

End MeanValue.

Lemma derivable_pt_lim_affine_remainder (f f' : R -> R) (A B x c : R) :
  derivable_pt_lim f c (f' c) ->
  derivable_pt_lim (fun t => f t - A - (t - x) * B) c (f' c - B).
Proof.
  intros Hf.
  replace (f' c - B) with (f' c - 0 - (1 - 0) * B) by ring.
  apply (derivable_pt_lim_minus (fun t => f t - A) (fun t => (t - x) * B)).
  - apply (derivable_pt_lim_minus f (fct_cte A)); [exact Hf |].
    apply derivable_pt_lim_const.
  - apply (derivable_pt_lim_scal_right (fun t => t - x) c (1 - 0) B).
    apply (derivable_pt_lim_minus id (fct_cte x));
      [apply derivable_pt_lim_id | apply derivable_pt_lim_const].
Qed.

Section Taylor2.

Variables (f f' f'' : R -> R) (a b M : R).
Hypothesis f_deriv : forall c, a <= c <= b -> derivable_pt_lim f c (f' c).
Hypothesis f'_deriv : forall c, a <= c <= b -> derivable_pt_lim f' c (f'' c).
Hypothesis f''_bound : forall c, a <= c <= b -> Rabs (f'' c) <= M.

Lemma taylor2 (x y : R) :
  a <= x <= b -> a <= y <= b ->
  Rabs (f y - f x - (y - x) * f' x) <= M * ((y - x) * (y - x)).
Proof.
  intros Hx Hy.
  assert (HM : 0 <= M).
  { apply Rle_trans with (Rabs (f'' x)); [apply Rabs_pos | auto]. }
  pose (lo := Rmin x y). pose (hi := Rmax x y).
  assert (Hlo : a <= lo <= x /\ lo <= y).
  { unfold lo, Rmin. destruct (Rle_dec x y); lra. }
  assert (Hhi : x <= hi <= b /\ y <= hi).
  { unfold hi, Rmax. destruct (Rle_dec x y); lra. }
  assert (Hd : Rabs (y - x) = hi - lo).
  { unfold hi, lo, Rmax, Rmin, Rabs.
    destruct (Rle_dec x y); destruct (Rcase_abs (y - x)); lra. }
  pose (g := fun t => f t - f x - (t - x) * f' x).
  assert (Hg : forall c, lo <= c <= hi ->
                         derivable_pt_lim g c (f' c - f' x)).
  { intros c Hc. apply derivable_pt_lim_affine_remainder.
    apply f_deriv. lra. }
  assert (Hb : forall c, lo <= c <= hi ->
                         Rabs (f' c - f' x) <= M * Rabs (y - x)).
  { intros c Hc.
    apply Rle_trans with (M * Rabs (c - x)).
    - apply (mvt_bound f' f'' a b M f'_deriv f''_bound); lra.
    - apply Rmult_le_compat_l; [exact HM |].
      rewrite Hd. unfold Rabs. destruct (Rcase_abs (c - x)); lra. }
  pose proof (mvt_bound g (fun c => f' c - f' x) lo hi (M * Rabs (y - x))
                Hg Hb x y ltac:(lra) ltac:(lra)) as H.
  unfold g in H.
  replace (f x - f x - (x - x) * f' x) with 0 in H by ring.
  rewrite Rminus_0_r in H.
  rewrite Rmult_assoc in H.
  rewrite Rabs_sq in H. exact H.
Qed.

End Taylor2.

Section Taylor3.

Variables (f f' f'' f''' : R -> R) (a b M : R).
Hypothesis f_deriv : forall c, a <= c <= b -> derivable_pt_lim f c (f' c).
Hypothesis f'_deriv : forall c, a <= c <= b -> derivable_pt_lim f' c (f'' c).
Hypothesis f''_deriv :
  forall c, a <= c <= b -> derivable_pt_lim f'' c (f''' c).
Hypothesis f'''_bound : forall c, a <= c <= b -> Rabs (f''' c) <= M.

Lemma taylor3 (x y : R) :
  a <= x <= b -> a <= y <= b ->
  Rabs (f y - f x - (y - x) * f' x - (y - x) * (y - x) / 2 * f'' x)
  <= M * (Rabs (y - x) * ((y - x) * (y - x))).
Proof.
  intros Hx Hy.
  assert (HM : 0 <= M).
  { apply Rle_trans with (Rabs (f''' x)); [apply Rabs_pos | auto]. }
  pose (lo := Rmin x y). pose (hi := Rmax x y).
  assert (Hlo : a <= lo <= x /\ lo <= y).
  { unfold lo, Rmin. destruct (Rle_dec x y); lra. }
  assert (Hhi : x <= hi <= b /\ y <= hi).
  { unfold hi, Rmax. destruct (Rle_dec x y); lra. }
  assert (Hd : Rabs (y - x) = hi - lo).
  { unfold hi, lo, Rmax, Rmin, Rabs.
    destruct (Rle_dec x y); destruct (Rcase_abs (y - x)); lra. }
  pose (g := fun t => f t - f x - (t - x) * f' x
                      - (t - x) * (t - x) / 2 * f'' x).
  pose (g' := fun t => f' t - f' x - (t - x) * f'' x).
  assert (Hg : forall c, lo <= c <= hi -> derivable_pt_lim g c (g' c)).
  { intros c Hc. unfold g, g'.
    replace (f' c - f' x - (c - x) * f'' x)
      with (f' c - f' x - ((1 - 0) * (c - x) + (c - x) * (1 - 0)) / 2 * f'' x)
      by field.
    apply (derivable_pt_lim_minus
             (fun t => f t - f x - (t - x) * f' x)
             (fun t => (t - x) * (t - x) / 2 * f'' x)).
    - apply derivable_pt_lim_affine_remainder. apply f_deriv. lra.
    - apply (derivable_pt_lim_scal_right
               (fun t => (t - x) * (t - x) / 2) c
               (((1 - 0) * (c - x) + (c - x) * (1 - 0)) / 2) (f'' x)).
      apply (derivable_pt_lim_div_scal (fun t => (t - x) * (t - x)) c
               ((1 - 0) * (c - x) + (c - x) * (1 - 0)) 2).
      assert (Hid : derivable_pt_lim (fun t => t - x) c (1 - 0)).
      { apply (derivable_pt_lim_minus id (fct_cte x));
          [apply derivable_pt_lim_id | apply derivable_pt_lim_const]. }
      apply (derivable_pt_lim_mult (fun t => t - x) (fun t => t - x));
        exact Hid. }
  assert (Hb : forall c, lo <= c <= hi ->
                         Rabs (g' c) <= M * ((y - x) * (y - x))).
  { intros c Hc. unfold g'.
    apply Rle_trans with (M * ((c - x) * (c - x))).
    - apply (taylor2 f' f'' f''' a b M f'_deriv f''_deriv f'''_bound); lra.
    - apply Rmult_le_compat_l; [exact HM |].
      assert (Rabs (c - x) <= Rabs (y - x)).
      { rewrite Hd. unfold Rabs. destruct (Rcase_abs (c - x)); lra. }
      rewrite <- (Rabs_sq (c - x)), <- (Rabs_sq (y - x)).
      apply Rmult_le_compat; try apply Rabs_pos; assumption. }
  pose proof (mvt_bound g g' lo hi (M * ((y - x) * (y - x)))
                Hg Hb x y ltac:(lra) ltac:(lra)) as H.
  unfold g in H.
  replace (f x - f x - (x - x) * f' x - (x - x) * (x - x) / 2 * f'' x)
    with 0 in H by field.
  rewrite Rminus_0_r in H.
  replace (M * (Rabs (y - x) * ((y - x) * (y - x))))
    with (M * ((y - x) * (y - x)) * Rabs (y - x)) by ring.
  exact H.
Qed.

End Taylor3.
(** ** The Gaussian integral *)

(** Proves a derivative with the rules of the library, leaving the value
    of the derivative to be identified. *)
Ltac derive_with_reg :=
  match goal with
  | |- derivable_pt_lim ?f ?x ?l =>
      let pr := fresh "pr" in
      assert (pr : derivable_pt f x);
      [ reg
      | apply derive_pt_eq_1 with (pr := pr); reg;
        unfold comp, plus_fct, minus_fct, mult_fct, div_fct, opp_fct,
          inv_fct, fct_cte, id, pow_fct ]
  end.

Lemma one_plus_sq_pos (t : R) : 0 < 1 + t * t.
Proof. pose proof (sq_nonneg t). lra. Qed.

Lemma gauss_k_deriv (x t : R) :
  derivable_pt_lim (fun y => gauss_k y t) x (gauss_kx x t).
Proof.
  pose proof (one_plus_sq_pos t) as Hw.
  unfold gauss_k, gauss_kx. derive_with_reg; try lra.
  unfold Rdiv. field. lra.
Qed.

Lemma gauss_kx_deriv (x t : R) :
  derivable_pt_lim (fun y => gauss_kx y t) x (gauss_kxx x t).
Proof.
  unfold gauss_kx, gauss_kxx. derive_with_reg.
  unfold Rdiv. field.
Qed.

Lemma exp_half_ge (z : R) : z <= exp (z / 2).
Proof.
  destruct (Rle_lt_dec z 0) as [Hz | Hz].
  { pose proof (exp_pos (z / 2)). lra. }
  replace (z / 2) with (z / 4 + z / 4) by field.
  rewrite exp_plus.
  pose proof (exp_ineq1_le (z / 4)) as H1.
  assert (H2 : (1 + z / 4) * (1 + z / 4) <= exp (z / 4) * exp (z / 4))
    by (apply Rmult_le_compat; lra).
  pose proof (sq_nonneg (z / 4 - 1)). lra.
Qed.

Lemma gauss_kxx_bound (x t : R) : Rabs (gauss_kxx x t) <= 2.
Proof.
  unfold gauss_kxx.
  set (z := x * x * (1 + t * t)).
  assert (Hz : 0 <= z).
  { unfold z. apply Rmult_le_pos; [apply sq_nonneg |].
    pose proof (one_plus_sq_pos t). lra. }
  pose proof (exp_pos (- z / 2)) as He.
  assert (He1 : exp (- z / 2) <= 1).
  { rewrite <- exp_0. destruct Hz as [Hz | <-].
    - left. apply exp_increasing. lra.
    - replace (- 0 / 2) with 0 by field. lra. }
  assert (Hze : z * exp (- z / 2) <= 1).
  { pose proof (exp_half_ge z) as Hg.
    assert (Hinv : exp (- z / 2) * exp (z / 2) = 1).
    { rewrite <- exp_plus. replace (- z / 2 + z / 2) with 0 by field.
      apply exp_0. }
    rewrite <- Hinv. rewrite (Rmult_comm z).
    apply Rmult_le_compat_l; lra. }
  apply Rabs_le. split.
  - assert (0 <= z * exp (- z / 2)) by (apply Rmult_le_pos; lra). lra.
  - lra.
Qed.

Lemma gauss_k_taylor (x h t : R) :
  Rabs (gauss_k (x + h) t - gauss_k x t - h * gauss_kx x t) <= 2 * (h * h).
Proof.
  pose (a := Rmin x (x + h)). pose (b := Rmax x (x + h)).
  assert (Ha : a <= x <= b /\ a <= x + h <= b).
  { unfold a, b, Rmin, Rmax. destruct (Rle_dec x (x + h)); lra. }
  pose proof (taylor2 (fun y => gauss_k y t) (fun y => gauss_kx y t)
                (fun y => gauss_kxx y t) a b 2
                (fun c _ => gauss_k_deriv c t)
                (fun c _ => gauss_kx_deriv c t)
                (fun c _ => gauss_kxx_bound c t)
                x (x + h) ltac:(lra) ltac:(lra)) as H.
  simpl in H. replace (x + h - x) with h in H by ring. exact H.
Qed.

Lemma derivable_pt_lim_quadratic (f : R -> R) (x l M : R) :
  (forall h, Rabs (f (x + h) - f x - h * l) <= M * (h * h)) ->
  derivable_pt_lim f x l.
Proof.
  intros Hq eps Heps.
  assert (HM : 0 <= M).
  { pose proof (Hq 1) as H1. pose proof (Rabs_pos (f (x + 1) - f x - 1 * l)).
    lra. }
  assert (Hd : 0 < eps / (M + 1)) by (apply Rdiv_lt_0_compat; lra).
  exists (mkposreal _ Hd). intros h Hh Hlt. simpl in Hlt.
  replace ((f (x + h) - f x) / h - l) with ((f (x + h) - f x - h * l) / h)
    by (field; exact Hh).
  unfold Rdiv. rewrite Rabs_mult, Rabs_inv.
  assert (Hah : 0 < Rabs h) by (apply Rabs_pos_lt; exact Hh).
  apply Rle_lt_trans with (M * (h * h) * / Rabs h).
  - apply Rmult_le_compat_r; [left; apply Rinv_0_lt_compat; exact Hah |].
    apply Hq.
  - rewrite <- Rabs_sq. 
    replace (M * (Rabs h * Rabs h) * / Rabs h) with (M * Rabs h)
      by (field; lra).
    apply Rle_lt_trans with (M * (eps / (M + 1))).
    + apply Rmult_le_compat_l; lra.
    + apply Rmult_lt_reg_r with (M + 1); [lra |].
      replace (M * (eps / (M + 1)) * (M + 1)) with (M * eps) by (field; lra).
      nra.
Qed.

Lemma gauss_G_deriv (x : R) : derivable_pt_lim gauss_G x (gauss_D x).
Proof.
  apply derivable_pt_lim_quadratic with (M := 2). intros h.
  unfold gauss_G, gauss_D.
  pose (p1 := RiemannInt_P10 (-1) (gauss_k_integrable (x + h))
                (gauss_k_integrable x)).
  pose (p2 := RiemannInt_P10 (- h) p1 (gauss_kx_integrable x)).
  assert (E : RiemannInt (gauss_k_integrable (x + h))
              - RiemannInt (gauss_k_integrable x)
              - h * RiemannInt (gauss_kx_integrable x)
              = RiemannInt p2).
  { rewrite (RiemannInt_P13 p1 (gauss_kx_integrable x) p2).
    rewrite (RiemannInt_P13 (gauss_k_integrable (x + h))
               (gauss_k_integrable x) p1).
    ring. }
  rewrite E.
  pose proof (@RiemannInt_const_bound _ 0 1 (- (2 * (h * h))) (2 * (h * h))
                p2 Rle_0_1) as Hb.
  apply Rabs_le.
  replace (2 * (h * h)) with (2 * (h * h) * (1 - 0)) at 2 by ring.
  replace (- (2 * (h * h))) with (- (2 * (h * h)) * (1 - 0)) by ring.
  apply Hb. intros t _.
  pose proof (gauss_k_taylor x h t) as Ht.
  revert Ht. unfold Rabs. destruct (Rcase_abs _); lra.
Qed.

Lemma sqrt_2PI_pos : 0 < sqrt (2 * PI).
Proof. apply sqrt_lt_R0. pose proof PI_RGT_0. lra. Qed.

Lemma sqrt_2PI_sq : sqrt (2 * PI) * sqrt (2 * PI) = 2 * PI.
Proof. apply sqrt_sqrt. pose proof PI_RGT_0. lra. Qed.

Lemma sqrt_2PI_pdf (y : R) : sqrt (2 * PI) * norm_pdf y = exp (- (y * y) / 2).
Proof.
  unfold norm_pdf. field. pose proof sqrt_2PI_pos. lra.
Qed.

Lemma norm_cdf_comp_deriv (g : R -> R) (t g' : R) :
  derivable_pt_lim g t g' ->
  derivable_pt_lim (fun s => norm_cdf (g s)) t (norm_pdf (g t) * g').
Proof.
  intros Hg.
  apply (derivable_pt_lim_comp g norm_cdf); [exact Hg |].
  apply norm_cdf_derivable_pt_lim.
Qed.

Lemma gauss_D_value (x : R) :
  gauss_D x = - exp (- (x * x) / 2) * sqrt (2 * PI) * (norm_cdf x - 1 / 2).
Proof.
  unfold gauss_D.
  pose (J := fun t => - exp (- (x * x) / 2) * sqrt (2 * PI)
                      * (norm_cdf (x * t) - 1 / 2)).
  rewrite (RiemannInt_FTC (gauss_kx x) J 0 1 _ Rle_0_1).
  - unfold J. rewrite Rmult_1_r, Rmult_0_r, norm_cdf_0. ring.
  - intros t _. apply gauss_kx_continuity.
  - intros t _. unfold J.
    replace (gauss_kx x t)
      with (- exp (- (x * x) / 2) * sqrt (2 * PI)
            * (norm_pdf (x * t) * x - 0)).
    + apply (derivable_pt_lim_scal
               (fun s => norm_cdf (x * s) - 1 / 2)
               (- exp (- (x * x) / 2) * sqrt (2 * PI))).
      apply (derivable_pt_lim_minus (fun s => norm_cdf (x * s))
               (fct_cte (1 / 2))); [| apply derivable_pt_lim_const].
      apply norm_cdf_comp_deriv.
      replace x with (x * 1) at 2 by ring.
      apply (derivable_pt_lim_scal id x), derivable_pt_lim_id.
    + unfold gauss_kx.
      replace (- exp (- (x * x) / 2) * sqrt (2 * PI)
               * (norm_pdf (x * t) * x - 0))
        with (- x * (exp (- (x * x) / 2)
                     * (sqrt (2 * PI) * norm_pdf (x * t)))) by ring.
      rewrite sqrt_2PI_pdf, <- exp_plus. do 2 f_equal. field.
Qed.

Lemma gauss_F_deriv (x : R) : derivable_pt_lim gauss_F x 0.
Proof.
  unfold gauss_F.
  pose proof sqrt_2PI_pos as Hs. pose proof sqrt_2PI_sq as Hss.
  pose proof PI_RGT_0 as HPI.
  assert (HI : derivable_pt_lim (fun y => norm_cdf y - 1 / 2) x
                 (norm_pdf x - 0)).
  { apply (derivable_pt_lim_minus norm_cdf (fct_cte (1 / 2)));
      [apply norm_cdf_derivable_pt_lim | apply derivable_pt_lim_const]. }
  replace 0
    with ((norm_pdf x - 0) * (norm_cdf x - 1 / 2)
          + (norm_cdf x - 1 / 2) * (norm_pdf x - 0) + gauss_D x / PI).
  - apply (derivable_pt_lim_plus
             (fun y => (norm_cdf y - 1 / 2) * (norm_cdf y - 1 / 2))
             (fun y => gauss_G y / PI)).
    + apply (derivable_pt_lim_mult (fun y => norm_cdf y - 1 / 2)
               (fun y => norm_cdf y - 1 / 2)); exact HI.
    + apply derivable_pt_lim_div_scal, gauss_G_deriv.
  - rewrite gauss_D_value.
    replace (norm_pdf x) with (exp (- (x * x) / 2) / sqrt (2 * PI))
      by reflexivity.
    set (e := exp (- (x * x) / 2)). set (s := sqrt (2 * PI)) in *.
    set (I := norm_cdf x - 1 / 2).
    replace PI with (s * s / 2) by lra.
    field. lra.
Qed.

Lemma gauss_G_0 : gauss_G 0 = PI / 4.
Proof.
  unfold gauss_G.
  rewrite (RiemannInt_FTC (gauss_k 0) atan 0 1 _ Rle_0_1).
  - rewrite atan_1, atan_0. ring.
  - intros t _. apply gauss_k_continuity.
  - intros t _.
    replace (gauss_k 0 t) with (/ (1 + t ^ 2)); [apply derivable_pt_lim_atan |].
    unfold gauss_k. replace (- (0 * 0 * (1 + t * t)) / 2) with 0 by field.
    rewrite exp_0. pose proof (one_plus_sq_pos t). field. lra.
Qed.

Lemma gauss_identity (x : R) :
  (norm_cdf x - 1 / 2) * (norm_cdf x - 1 / 2) + gauss_G x / PI = 1 / 4.
Proof.
  assert (pr : derivable gauss_F).
  { intros y. exists 0. apply gauss_F_deriv. }
  assert (Hc : constant gauss_F).
  { apply (null_derivative_1 gauss_F pr). intros y.
    apply derive_pt_eq_0, gauss_F_deriv. }
  change (gauss_F x = 1 / 4). rewrite (Hc x 0). unfold gauss_F.
  rewrite norm_cdf_0, gauss_G_0. pose proof PI_RGT_0. field. lra.
Qed.

Lemma gauss_G_bounds (x : R) : 0 <= gauss_G x <= exp (- (x * x) / 2).
Proof.
  unfold gauss_G.
  pose proof (@RiemannInt_const_bound _ 0 1 0 (exp (- (x * x) / 2))
                (gauss_k_integrable x) Rle_0_1) as Hb.
  rewrite Rmult_0_l in Hb. replace (1 - 0) with 1 in Hb by ring.
  rewrite Rmult_1_r in Hb. apply Hb. intros t _.
  pose proof (one_plus_sq_pos t) as Hw. pose proof (sq_nonneg t) as Ht.
  unfold gauss_k. split.
  - left. apply Rdiv_lt_0_compat; [apply exp_pos | exact Hw].
  - apply Rle_trans with (exp (- (x * x * (1 + t * t)) / 2)).
    + apply Rmult_le_reg_r with (1 + t * t); [exact Hw |].
      unfold Rdiv. rewrite Rmult_assoc, Rinv_l by lra.
      pose proof (exp_pos (- (x * x * (1 + t * t)) * / 2)). nra.
    + assert (Hle : - (x * x * (1 + t * t)) / 2 <= - (x * x) / 2).
      { pose proof (sq_nonneg x).
        assert (0 <= x * x * (t * t)) by (apply Rmult_le_pos; assumption).
        lra. }
      destruct Hle as [Hlt | Heq].
      * left. apply exp_increasing. exact Hlt.
      * rewrite Heq. lra.
Qed.

(** The distribution function takes its values in [0,1]. *)
Lemma norm_cdf_range (x : R) : 0 <= norm_cdf x <= 1.
Proof.
  pose proof (gauss_identity x) as Hid.
  pose proof (gauss_G_bounds x) as [HG _].
  pose proof PI_RGT_0 as HPI.
  assert (0 <= gauss_G x / PI).
  { apply Rmult_le_pos; [exact HG | left; apply Rinv_0_lt_compat; lra]. }
  pose proof (sq_nonneg (norm_cdf x - 1)). pose proof (sq_nonneg (norm_cdf x)).
  split; nra.
Qed.

(** The upper tail is dominated by a Gaussian. *)
Lemma norm_cdf_tail (x : R) :
  0 <= x -> 1 - norm_cdf x <= exp (- (x * x) / 2).
Proof.
  intros Hx.
  pose proof (gauss_identity x) as Hid.
  pose proof (gauss_G_bounds x) as [_ HG].
  pose proof (norm_cdf_range x) as [_ H1].
  pose proof PI2_3_2 as HPI.
  assert (Hhalf : 1 / 2 <= norm_cdf x).
  { destruct Hx as [Hx | <-].
    - apply norm_cdf_increasing in Hx. rewrite norm_cdf_0 in Hx. lra.
    - rewrite norm_cdf_0. lra. }
  assert (HGP : gauss_G x / PI <= exp (- (x * x) / 2) / 2).
  { pose proof (exp_pos (- (x * x) / 2)).
    apply Rmult_le_reg_r with PI; [lra |].
    unfold Rdiv at 1. rewrite Rmult_assoc, Rinv_l by lra. nra. }
  set (y := 1 - norm_cdf x) in *.
  assert (Hy : y * (1 - y) = gauss_G x / PI).
  { unfold y. lra. }
  assert (0 <= y <= 1 / 2) by (unfold y; lra).
  nra.
Qed.

Lemma norm_cdf_lower_tail (x : R) :
  0 <= x -> norm_cdf (- x) <= exp (- (x * x) / 2).
Proof.
  intros Hx. rewrite norm_cdf_opp. apply norm_cdf_tail. exact Hx.
Qed.
(** ** The Black-Scholes put as a function of time to maturity and
       log-price *)

Section PutFunction.

Variables (K r q sigma : R).
Hypothesis K_pos : 0 < K.
Hypothesis sigma_pos : 0 < sigma.

Lemma norm_pdf_opp (y : R) : norm_pdf (- y) = norm_pdf y.
Proof. apply norm_pdf_even. Qed.

(** The density terms of the two legs coincide. *)
Lemma leg_B_alt (tau x : R) :
  0 < tau -> exp (x - q * tau) * norm_pdf (D1 K r q sigma tau x)
      = leg_B K r q sigma tau x.
Proof.
  intros Ht. unfold leg_B, norm_pdf, D1.
  assert (Hq : 0 < sqrt tau) by (apply sqrt_lt_R0; exact Ht).
  assert (Hqq : sqrt tau * sqrt tau = tau) by (apply sqrt_sqrt; lra).
  set (d := D2 K r q sigma tau x).
  assert (Hd : d * (sigma * sqrt tau) = x - ln K + drift r q sigma * tau).
  { unfold d, D2. field. lra. }
  pose proof sqrt_2PI_pos as Hs.
  replace K with (exp (ln K)) at 1 by (apply exp_ln; exact K_pos).
  unfold Rdiv. rewrite <- !Rmult_assoc. f_equal.
  rewrite <- !exp_plus. f_equal. unfold drift in Hd.
  replace ((d + sigma * sqrt tau) * (d + sigma * sqrt tau))
    with (d * d + 2 * (d * (sigma * sqrt tau))
          + sigma * sigma * (sqrt tau * sqrt tau)) by ring.
  rewrite Hd, Hqq. field.
Qed.

Section FixedTime.

Variable tau : R.
Hypothesis tau_pos : 0 < tau.

Let c : R := / (sigma * sqrt tau).

Lemma sqrt_tau_pos : 0 < sqrt tau.
Proof. apply sqrt_lt_R0. exact tau_pos. Qed.

Lemma c_pos : 0 < c.
Proof.
  unfold c. apply Rinv_0_lt_compat, Rmult_lt_0_compat;
    [exact sigma_pos | exact sqrt_tau_pos].
Qed.

Lemma D2_deriv_x (x : R) : derivable_pt_lim (D2 K r q sigma tau) x c.
Proof.
  pose proof sqrt_tau_pos as Hq.
  assert (Hne : sigma * sqrt tau <> 0) by (apply Rgt_not_eq; nra).
  unfold D2, c. derive_with_reg; try assumption.
Qed.

Lemma D1_deriv_x (x : R) : derivable_pt_lim (D1 K r q sigma tau) x c.
Proof.
  unfold D1. replace c with (c + 0) by ring.
  apply (derivable_pt_lim_plus (D2 K r q sigma tau) (fct_cte (sigma * sqrt
      tau)));
    [apply D2_deriv_x | apply derivable_pt_lim_const].
Qed.

Lemma opp_deriv (f : R -> R) (x l : R) :
  derivable_pt_lim f x l -> derivable_pt_lim (fun y => - f y) x (- l).
Proof. intros H. apply (derivable_pt_lim_opp f x l H). Qed.

Lemma leg_K_deriv_x (x : R) :
  derivable_pt_lim (leg_K K r q sigma tau) x (- (c * leg_B K r q sigma tau x)).
Proof.
  unfold leg_K, leg_B.
  replace (- (c * (K * exp (- r * tau) * norm_pdf (D2 K r q sigma tau x))))
    with (K * exp (- r * tau) * (norm_pdf (- D2 K r q sigma tau x) * - c))
    by (rewrite norm_pdf_opp; ring).
  apply (derivable_pt_lim_scal (fun y => norm_cdf (- D2 K r q sigma tau y))
           (K * exp (- r * tau))).
  apply (norm_cdf_comp_deriv (fun y => - D2 K r q sigma tau y)).
  apply opp_deriv, D2_deriv_x.
Qed.

Lemma leg_S_deriv_x (x : R) :
  derivable_pt_lim (leg_S K r q sigma tau) x
      (leg_S K r q sigma tau x - c * leg_B K r q sigma tau x).
Proof.
  unfold leg_S. rewrite <- (leg_B_alt tau x tau_pos).
  replace (exp (x - q * tau) * norm_cdf (- D1 K r q sigma tau x)
           - c * (exp (x - q * tau) * norm_pdf (D1 K r q sigma tau x)))
    with (exp (x - q * tau) * (1 - 0) * norm_cdf (- D1 K r q sigma tau x)
          + exp (x - q * tau) * (norm_pdf (- D1 K r q sigma tau x) * - c))
    by (rewrite norm_pdf_opp; ring).
  apply (derivable_pt_lim_mult (fun y => exp (y - q * tau))
           (fun y => norm_cdf (- D1 K r q sigma tau y))).
  - apply (derivable_pt_lim_comp (fun y => y - q * tau) exp);
      [| apply derivable_pt_lim_exp].
    apply (derivable_pt_lim_minus id (fct_cte (q * tau)));
      [apply derivable_pt_lim_id | apply derivable_pt_lim_const].
  - apply (norm_cdf_comp_deriv (fun y => - D1 K r q sigma tau y)).
    apply opp_deriv, D1_deriv_x.
Qed.

Lemma norm_pdf_deriv (y : R) : derivable_pt_lim norm_pdf y (- y * norm_pdf y).
Proof.
  pose proof sqrt_2PI_pos as Hs.
  unfold norm_pdf. derive_with_reg; try lra.
Qed.

Lemma leg_B_deriv_x (x : R) :
  derivable_pt_lim (leg_B K r q sigma tau) x
      (- (c * D2 K r q sigma tau x * leg_B K r q sigma tau x)).
Proof.
  unfold leg_B.
  replace (- (c * D2 K r q sigma tau x * (K * exp (- r * tau) * norm_pdf (D2 K
      r q sigma tau x))))
    with (K * exp (- r * tau) * (- D2 K r q sigma tau x * norm_pdf (D2 K r q
        sigma tau x) * c))
    by ring.
  apply (derivable_pt_lim_scal (fun y => norm_pdf (D2 K r q sigma tau y))
           (K * exp (- r * tau))).
  apply (derivable_pt_lim_comp (D2 K r q sigma tau) norm_pdf);
    [apply D2_deriv_x | apply norm_pdf_deriv].
Qed.

Lemma put_fun_deriv_x (x : R) : derivable_pt_lim (put_fun K r q sigma tau) x
  (put_x K r q sigma tau x).
Proof.
  unfold put_fun, put_x.
  replace (- leg_S K r q sigma tau x)
    with (- (c * leg_B K r q sigma tau x) - (leg_S K r q sigma tau x - c *
        leg_B K r q sigma tau x)) by ring.
  apply (derivable_pt_lim_minus (leg_K K r q sigma tau) (leg_S K r q sigma
      tau));
    [apply leg_K_deriv_x | apply leg_S_deriv_x].
Qed.

Lemma put_x_deriv_x (x : R) : derivable_pt_lim (put_x K r q sigma tau) x
  (put_xx K r q sigma tau x).
Proof.
  unfold put_x, put_xx. fold c.
  replace (c * leg_B K r q sigma tau x - leg_S K r q sigma tau x)
    with (- (leg_S K r q sigma tau x - c * leg_B K r q sigma tau x)) by ring.
  apply opp_deriv, leg_S_deriv_x.
Qed.

Lemma put_xx_deriv_x (x : R) : derivable_pt_lim (put_xx K r q sigma tau) x
  (put_xxx K r q sigma tau x).
Proof.
  unfold put_xx, put_xxx. fold c.
  replace (c * leg_B K r q sigma tau x - leg_S K r q sigma tau x - c * c * D2
      K r q sigma tau x * leg_B K r q sigma tau x)
    with (c * - (c * D2 K r q sigma tau x * leg_B K r q sigma tau x)
          - (leg_S K r q sigma tau x - c * leg_B K r q sigma tau x)) by ring.
  apply (derivable_pt_lim_minus (fun y => c * leg_B K r q sigma tau y) (leg_S
      K r q sigma tau));
    [| apply leg_S_deriv_x].
  apply (derivable_pt_lim_scal (leg_B K r q sigma tau) c), leg_B_deriv_x.
Qed.

End FixedTime.

Section FixedPrice.

Variable x : R.

Lemma D2_deriv_t (tau : R) :
  0 < tau -> derivable_pt_lim (fun t => D2 K r q sigma t x) tau (D2_t K r q
      sigma x tau).
Proof.
  intros Ht.
  pose proof (sqrt_tau_pos tau Ht) as Hq.
  assert (Hqq : sqrt tau * sqrt tau = tau) by (apply sqrt_sqrt; lra).
  assert (Hne : sigma * sqrt tau <> 0) by (apply Rgt_not_eq; nra).
  unfold D2_t, D2. derive_with_reg; try assumption.
  unfold Rsqr. set (s := sqrt tau) in *. rewrite <- Hqq.
  field. lra.
Qed.

Lemma D1_deriv_t (tau : R) :
  0 < tau -> derivable_pt_lim (fun t => D1 K r q sigma t x) tau (D1_t K r q
      sigma x tau).
Proof.
  intros Ht. unfold D1, D1_t.
  apply (derivable_pt_lim_plus (fun t => D2 K r q sigma t x) (fun t => sigma *
      sqrt t));
    [apply D2_deriv_t; exact Ht |].
  replace (sigma / (2 * sqrt tau)) with (sigma * / (2 * sqrt tau))
    by reflexivity.
  apply (derivable_pt_lim_scal sqrt sigma), derivable_pt_lim_sqrt. exact Ht.
Qed.

Lemma discount_deriv (a tau : R) :
  derivable_pt_lim (fun t => exp (- a * t)) tau (- a * exp (- a * tau)).
Proof.
  derive_with_reg.
Qed.

Lemma leg_K_deriv_t (tau : R) :
  0 < tau ->
  derivable_pt_lim (fun t => leg_K K r q sigma t x) tau
    (- r * leg_K K r q sigma tau x - leg_B K r q sigma tau x
        * D2_t K r q sigma x tau).
Proof.
  intros Ht. unfold leg_K, leg_B.
  replace (- r * (K * exp (- r * tau) * norm_cdf (- D2 K r q sigma tau x))
           - K * exp (- r * tau) * norm_pdf (D2 K r q sigma tau x)
               * D2_t K r q sigma x tau)
    with (K * (- r * exp (- r * tau)) * norm_cdf (- D2 K r q sigma tau x)
          + K * exp (- r * tau)
              * (norm_pdf (- D2 K r q sigma tau x) * - D2_t K r q sigma x tau))
    by (rewrite norm_pdf_opp; ring).
  apply (derivable_pt_lim_mult (fun t => K * exp (- r * t))
           (fun t => norm_cdf (- D2 K r q sigma t x))).
  - apply (derivable_pt_lim_scal (fun t => exp (- r * t)) K).
    apply discount_deriv.
  - apply (norm_cdf_comp_deriv (fun t => - D2 K r q sigma t x)).
    apply opp_deriv, D2_deriv_t. exact Ht.
Qed.

Lemma leg_S_deriv_t (tau : R) :
  0 < tau ->
  derivable_pt_lim (fun t => leg_S K r q sigma t x) tau
    (- q * leg_S K r q sigma tau x - leg_B K r q sigma tau x
        * D1_t K r q sigma x tau).
Proof.
  intros Ht. rewrite <- (leg_B_alt tau x Ht). unfold leg_S.
  replace (- q * (exp (x - q * tau) * norm_cdf (- D1 K r q sigma tau x))
           - exp (x - q * tau) * norm_pdf (D1 K r q sigma tau x)
               * D1_t K r q sigma x tau)
    with (exp (x - q * tau) * (0 - q * 1) * norm_cdf (- D1 K r q sigma tau x)
          + exp (x - q * tau) * (norm_pdf (- D1 K r q sigma tau x) * - D1_t K
              r q sigma x tau))
    by (rewrite norm_pdf_opp; ring).
  apply (derivable_pt_lim_mult (fun t => exp (x - q * t))
           (fun t => norm_cdf (- D1 K r q sigma t x))).
  - apply (derivable_pt_lim_comp (fun t => x - q * t) exp);
      [| apply derivable_pt_lim_exp].
    apply (derivable_pt_lim_minus (fct_cte x) (fun t => q * t));
      [apply derivable_pt_lim_const |].
    apply (derivable_pt_lim_scal id q), derivable_pt_lim_id.
  - apply (norm_cdf_comp_deriv (fun t => - D1 K r q sigma t x)).
    apply opp_deriv, D1_deriv_t. exact Ht.
Qed.

Lemma leg_B_deriv_t (tau : R) :
  0 < tau ->
  derivable_pt_lim (fun t => leg_B K r q sigma t x) tau
    (- r * leg_B K r q sigma tau x - D2 K r q sigma tau x
        * leg_B K r q sigma tau x * D2_t K r q sigma x tau).
Proof.
  intros Ht. unfold leg_B.
  replace (- r * (K * exp (- r * tau) * norm_pdf (D2 K r q sigma tau x))
           - D2 K r q sigma tau x
               * (K * exp (- r * tau) * norm_pdf (D2 K r q sigma tau x))
             * D2_t K r q sigma x tau)
    with (K * (- r * exp (- r * tau)) * norm_pdf (D2 K r q sigma tau x)
          + K * exp (- r * tau)
            * (- D2 K r q sigma tau x * norm_pdf (D2 K r q sigma tau x) * D2_t
                K r q sigma x tau))
    by ring.
  apply (derivable_pt_lim_mult (fun t => K * exp (- r * t))
           (fun t => norm_pdf (D2 K r q sigma t x))).
  - apply (derivable_pt_lim_scal (fun t => exp (- r * t)) K).
    apply discount_deriv.
  - apply (derivable_pt_lim_comp (fun t => D2 K r q sigma t x) norm_pdf);
      [apply D2_deriv_t; exact Ht | apply norm_pdf_deriv].
Qed.

Lemma put_fun_deriv_t (tau : R) :
  0 < tau -> derivable_pt_lim (fun t => put_fun K r q sigma t x) tau (put_t K
      r q sigma x tau).
Proof.
  intros Ht. unfold put_fun, put_t.
  replace (- r * leg_K K r q sigma tau x + q * leg_S K r q sigma tau x
           + leg_B K r q sigma tau x * (sigma / (2 * sqrt tau)))
    with (- r * leg_K K r q sigma tau x - leg_B K r q sigma tau x * D2_t K r q
        sigma x tau
          - (- q * leg_S K r q sigma tau x - leg_B K r q sigma tau x * D1_t K
              r q sigma x tau))
    by (unfold D1_t; ring).
  apply (derivable_pt_lim_minus (fun t => leg_K K r q sigma t x) (fun t =>
      leg_S K r q sigma t x));
    [apply leg_K_deriv_t | apply leg_S_deriv_t]; exact Ht.
Qed.

Lemma half_vol_deriv (tau : R) :
  0 < tau ->
  derivable_pt_lim (fun t => sigma / (2 * sqrt t)) tau
    (- (sigma / (2 * sqrt tau) / (2 * tau))).
Proof.
  intros Ht.
  pose proof (sqrt_tau_pos tau Ht) as Hq.
  assert (Hqq : sqrt tau * sqrt tau = tau) by (apply sqrt_sqrt; lra).
  derive_with_reg; try lra.
  unfold Rsqr. set (s := sqrt tau) in *. rewrite <- Hqq. field. lra.
Qed.

Lemma put_t_deriv_t (tau : R) :
  0 < tau -> derivable_pt_lim (put_t K r q sigma x) tau (put_tt K r q sigma x
      tau).
Proof.
  intros Ht. unfold put_t, put_tt.
  apply (derivable_pt_lim_plus
           (fun t => - r * leg_K K r q sigma t x + q * leg_S K r q sigma t x)
           (fun t => leg_B K r q sigma t x * (sigma / (2 * sqrt t)))).
  - apply (derivable_pt_lim_plus (fun t => - r * leg_K K r q sigma t x)
             (fun t => q * leg_S K r q sigma t x)).
    + apply (derivable_pt_lim_scal (fun t => leg_K K r q sigma t x) (- r)).
      apply leg_K_deriv_t. exact Ht.
    + apply (derivable_pt_lim_scal (fun t => leg_S K r q sigma t x) q).
      apply leg_S_deriv_t. exact Ht.
  - apply (derivable_pt_lim_mult (fun t => leg_B K r q sigma t x)
             (fun t => sigma / (2 * sqrt t))).
    + apply leg_B_deriv_t. exact Ht.
    + apply half_vol_deriv. exact Ht.
Qed.

End FixedPrice.

(** The put function solves the Black-Scholes equation in log-price. *)
Lemma put_pde (tau x : R) :
  0 < tau ->
  put_t K r q sigma x tau
  = sigma * sigma / 2 * put_xx K r q sigma tau x + drift r q sigma
      * put_x K r q sigma tau x
    - r * put_fun K r q sigma tau x.
Proof.
  intros Ht. pose proof (sqrt_tau_pos tau Ht) as Hq.
  unfold put_t, put_xx, put_x, put_fun, drift. field. lra.
Qed.

End PutFunction.

(** ** Bounds on the density *)

Lemma exp_neg_half_sq_bound (y : R) :
  exp (- (y * y) / 2) * (1 + y * y / 2) <= 1.
Proof.
  pose proof (exp_ineq1_le (y * y / 2)) as H1.
  pose proof (exp_pos (- (y * y) / 2)) as H2.
  assert (Hinv : exp (- (y * y) / 2) * exp (y * y / 2) = 1).
  { rewrite <- exp_plus. replace (- (y * y) / 2 + y * y / 2) with 0 by field.
    apply exp_0. }
  rewrite <- Hinv. apply Rmult_le_compat_l; lra.
Qed.

Lemma sqrt_2PI_ge_2 : 2 <= sqrt (2 * PI).
Proof.
  pose proof PI2_3_2 as HPI. pose proof sqrt_2PI_pos as Hs.
  pose proof sqrt_2PI_sq as Hss.
  destruct (Rle_lt_dec 2 (sqrt (2 * PI))) as [H | H]; [exact H | exfalso].
  assert (sqrt (2 * PI) * sqrt (2 * PI) < 2 * 2)
    by (apply Rmult_le_0_lt_compat; lra).
  lra.
Qed.

Lemma norm_pdf_le_1 (y : R) : norm_pdf y <= 1 / 2.
Proof.
  pose proof sqrt_2PI_ge_2 as Hs. pose proof (sqrt_2PI_pdf y) as Hp.
  pose proof (exp_neg_half_sq_bound y) as He.
  pose proof (exp_pos (- (y * y) / 2)) as Hpos.
  pose proof (sq_nonneg y) as Hy. pose proof (norm_pdf_pos y) as Hn.
  assert (exp (- (y * y) / 2) <= 1).
  { assert (0 <= exp (- (y * y) / 2) * (y * y / 2))
      by (apply Rmult_le_pos; lra). lra. }
  assert (2 * norm_pdf y <= sqrt (2 * PI) * norm_pdf y)
    by (apply Rmult_le_compat_r; lra).
  lra.
Qed.

Lemma norm_pdf_moment1 (y : R) : Rabs y * norm_pdf y <= 1.
Proof.
  pose proof sqrt_2PI_ge_2 as Hs. pose proof (sqrt_2PI_pdf y) as Hp.
  pose proof (exp_neg_half_sq_bound y) as He.
  pose proof (exp_pos (- (y * y) / 2)) as Hpos.
  pose proof (norm_pdf_pos y) as Hn. pose proof (Rabs_pos y) as Ha.
  pose proof (Rabs_sq y) as Hsq.
  assert (Hk : sqrt (2 * PI) * (Rabs y * norm_pdf y)
               = Rabs y * exp (- (y * y) / 2))
    by (rewrite <- sqrt_2PI_pdf; ring).
  set (a := Rabs y) in *. set (e := exp (- (y * y) / 2)) in *.
  rewrite <- Hsq in He.
  assert (Hae : a * e <= 1).
  { pose proof (sq_nonneg (a - 1)).
    assert (e * a <= e * (1 + a * a / 2))
      by (apply Rmult_le_compat_l; lra).
    lra. }
  assert (2 * (a * norm_pdf y) <= sqrt (2 * PI) * (a * norm_pdf y)).
  { apply Rmult_le_compat_r; [apply Rmult_le_pos; lra | lra]. }
  lra.
Qed.

Lemma norm_pdf_moment2 (y : R) : y * y * norm_pdf y <= 1.
Proof.
  pose proof sqrt_2PI_ge_2 as Hs. pose proof (sqrt_2PI_pdf y) as Hp.
  pose proof (exp_neg_half_sq_bound y) as He.
  pose proof (exp_pos (- (y * y) / 2)) as Hpos.
  pose proof (norm_pdf_pos y) as Hn. pose proof (sq_nonneg y) as Hy.
  assert (Hk : sqrt (2 * PI) * (y * y * norm_pdf y)
               = y * y * exp (- (y * y) / 2))
    by (rewrite <- sqrt_2PI_pdf; ring).
  set (e := exp (- (y * y) / 2)) in *.
  assert (Hye : y * y * e <= 2).
  { replace (e * (1 + y * y / 2)) with (e + y * y * e / 2) in He by field.
    lra. }
  assert (2 * (y * y * norm_pdf y) <= sqrt (2 * PI) * (y * y * norm_pdf y)).
  { apply Rmult_le_compat_r; [apply Rmult_le_pos; lra | lra]. }
  lra.
Qed.
(** ** Uniform bounds on the put function and its derivatives *)

Section PutBounds.

Variables (K r q sigma T : R).
Hypothesis K_pos : 0 < K.
Hypothesis sigma_pos : 0 < sigma.
Hypothesis T_pos : 0 < T.

Lemma leg_bound_pos : 0 < leg_bound K r T.
Proof.
  unfold leg_bound. apply Rmult_lt_0_compat; [exact K_pos | apply exp_pos].
Qed.

Lemma exp_le_compat (a b : R) : a <= b -> exp a <= exp b.
Proof.
  intros [Hlt | ->]; [left; apply exp_increasing; exact Hlt | lra].
Qed.

Lemma discount_le (tau : R) :
  0 <= tau <= T -> K * exp (- r * tau) <= leg_bound K r T.
Proof.
  intros Ht. unfold leg_bound.
  apply Rmult_le_compat_l; [lra |]. apply exp_le_compat.
  pose proof (Rabs_pos r) as Ha.
  assert (- r <= Rabs r) by (unfold Rabs; destruct (Rcase_abs r); lra).
  apply Rle_trans with (Rabs r * tau).
  - apply Rmult_le_compat_r; lra.
  - apply Rmult_le_compat_l; lra.
Qed.

Section At.

Variables (tau x : R).
Hypothesis tau_range : 0 < tau <= T.

Let KE : R := K * exp (- r * tau).

Lemma KE_range : 0 < KE <= leg_bound K r T.
Proof.
  unfold KE. split.
  - apply Rmult_lt_0_compat; [exact K_pos | apply exp_pos].
  - apply discount_le. lra.
Qed.

Lemma leg_K_range : 0 <= leg_K K r q sigma tau x <= leg_bound K r T.
Proof.
  pose proof KE_range as [H0 H1].
  pose proof (norm_cdf_range (- D2 K r q sigma tau x)) as [Hc0 Hc1].
  unfold leg_K. fold KE. split.
  - apply Rmult_le_pos; lra.
  - apply Rle_trans with (KE * 1); [apply Rmult_le_compat_l; lra | lra].
Qed.

Lemma leg_B_range : 0 <= leg_B K r q sigma tau x <= leg_bound K r T.
Proof.
  pose proof KE_range as [H0 H1].
  pose proof (norm_pdf_le_1 (D2 K r q sigma tau x)) as Hp1.
  pose proof (norm_pdf_pos (D2 K r q sigma tau x)) as Hp0.
  unfold leg_B. fold KE. split.
  - apply Rmult_le_pos; lra.
  - apply Rle_trans with (KE * 1); [apply Rmult_le_compat_l; lra | lra].
Qed.

Lemma leg_B_moment1 :
  Rabs (D2 K r q sigma tau x) * leg_B K r q sigma tau x <= leg_bound K r T.
Proof.
  pose proof KE_range as [H0 H1].
  pose proof (norm_pdf_moment1 (D2 K r q sigma tau x)) as Hm.
  pose proof (norm_pdf_pos (D2 K r q sigma tau x)) as Hp0.
  pose proof (Rabs_pos (D2 K r q sigma tau x)) as Ha.
  unfold leg_B. fold KE.
  replace (Rabs (D2 K r q sigma tau x)
           * (KE * norm_pdf (D2 K r q sigma tau x)))
    with (KE * (Rabs (D2 K r q sigma tau x)
                * norm_pdf (D2 K r q sigma tau x))) by ring.
  apply Rle_trans with (KE * 1); [apply Rmult_le_compat_l; lra | lra].
Qed.

Lemma leg_B_moment2 :
  D2 K r q sigma tau x * D2 K r q sigma tau x * leg_B K r q sigma tau x
  <= leg_bound K r T.
Proof.
  pose proof KE_range as [H0 H1].
  pose proof (norm_pdf_moment2 (D2 K r q sigma tau x)) as Hm.
  unfold leg_B. fold KE.
  replace (D2 K r q sigma tau x * D2 K r q sigma tau x
           * (KE * norm_pdf (D2 K r q sigma tau x)))
    with (KE * (D2 K r q sigma tau x * D2 K r q sigma tau x
                * norm_pdf (D2 K r q sigma tau x))) by ring.
  apply Rle_trans with (KE * 1); [apply Rmult_le_compat_l; lra | lra].
Qed.

Lemma leg_S_range : 0 <= leg_S K r q sigma tau x <= leg_bound K r T.
Proof.
  pose proof KE_range as [H0 H1].
  assert (Ht : 0 < tau) by lra.
  pose proof (sqrt_tau_pos tau Ht) as Hq.
  assert (Hqq : sqrt tau * sqrt tau = tau) by (apply sqrt_sqrt; lra).
  pose proof (norm_cdf_range (- D1 K r q sigma tau x)) as [Hc0 Hc1].
  pose proof (exp_pos (x - q * tau)) as He.
  split.
  { unfold leg_S. apply Rmult_le_pos; lra. }
  destruct (Rle_lt_dec (D1 K r q sigma tau x) 0) as [Hd | Hd].
  - (* the asset is below the discounted strike *)
    assert (Hx : x - q * tau <= ln K + - r * tau).
    { assert (Hn : D1 K r q sigma tau x * (sigma * sqrt tau) <= 0).
      { assert (0 < sigma * sqrt tau) by (apply Rmult_lt_0_compat; lra).
        nra. }
      unfold D1, D2 in Hn.
      replace (((x - ln K + drift r q sigma * tau) / (sigma * sqrt tau)
                + sigma * sqrt tau) * (sigma * sqrt tau))
        with (x - ln K + drift r q sigma * tau
              + sigma * sigma * (sqrt tau * sqrt tau)) in Hn
        by (field; lra).
      rewrite Hqq in Hn. unfold drift in Hn.
      assert (0 <= sigma * sigma * tau / 2).
      { apply Rmult_le_pos; [| lra].
        apply Rmult_le_pos; [apply sq_nonneg | lra]. }
      lra. }
    apply exp_le_compat in Hx. rewrite exp_plus, exp_ln in Hx by exact K_pos.
    unfold leg_S. fold KE in Hx.
    apply Rle_trans with (exp (x - q * tau) * 1);
      [apply Rmult_le_compat_l; lra | lra].
  - (* the tail of the normal law takes over *)
    pose proof (norm_cdf_lower_tail (D1 K r q sigma tau x) ltac:(lra)) as Ht1.
    rewrite <- sqrt_2PI_pdf in Ht1.
    pose proof (leg_B_alt K r q sigma K_pos sigma_pos tau x Ht) as HB.
    unfold leg_S.
    apply Rle_trans
      with (exp (x - q * tau)
            * (sqrt (2 * PI) * norm_pdf (D1 K r q sigma tau x))).
    { apply Rmult_le_compat_l; lra. }
    replace (exp (x - q * tau)
             * (sqrt (2 * PI) * norm_pdf (D1 K r q sigma tau x)))
      with (sqrt (2 * PI)
            * (exp (x - q * tau) * norm_pdf (D1 K r q sigma tau x))) by ring.
    rewrite HB. unfold leg_B. fold KE.
    replace (sqrt (2 * PI) * (KE * norm_pdf (D2 K r q sigma tau x)))
      with (KE * (sqrt (2 * PI) * norm_pdf (D2 K r q sigma tau x))) by ring.
    rewrite sqrt_2PI_pdf.
    pose proof (exp_neg_half_sq_bound (D2 K r q sigma tau x)) as Hb.
    pose proof (exp_pos (- (D2 K r q sigma tau x * D2 K r q sigma tau x) / 2)).
    pose proof (sq_nonneg (D2 K r q sigma tau x)).
    assert (exp (- (D2 K r q sigma tau x * D2 K r q sigma tau x) / 2) <= 1).
    { assert (0 <= exp (- (D2 K r q sigma tau x * D2 K r q sigma tau x) / 2)
                   * (D2 K r q sigma tau x * D2 K r q sigma tau x / 2))
        by (apply Rmult_le_pos; lra). lra. }
    apply Rle_trans with (KE * 1); [apply Rmult_le_compat_l; lra | lra].
Qed.

Let w : R := / sqrt tau.

Lemma w_facts :
  0 < w /\ / (sigma * sqrt tau) = w / sigma /\ / tau = w * w.
Proof.
  assert (Ht : 0 < tau) by lra.
  pose proof (sqrt_tau_pos tau Ht) as Hq.
  assert (Hqq : sqrt tau * sqrt tau = tau) by (apply sqrt_sqrt; lra).
  unfold w. repeat split.
  - apply Rinv_0_lt_compat. exact Hq.
  - field. lra.
  - rewrite <- Hqq at 1. field. lra.
Qed.

Lemma put_fun_bound : Rabs (put_fun K r q sigma tau x) <= leg_bound K r T.
Proof.
  pose proof leg_K_range. pose proof leg_S_range.
  unfold put_fun. apply Rabs_le. lra.
Qed.

Lemma put_x_bound : Rabs (put_x K r q sigma tau x) <= leg_bound K r T.
Proof.
  pose proof leg_S_range.
  unfold put_x. apply Rabs_le. lra.
Qed.

Lemma put_xx_bound : Rabs (put_xx K r q sigma tau x) <= bound_xx K r sigma T w.
Proof.
  pose proof leg_S_range as HS. pose proof leg_B_range as HB.
  destruct w_facts as (Hw & Hc & _).
  assert (Hcw : 0 < w / sigma) by (apply Rdiv_lt_0_compat; lra).
  unfold put_xx, bound_xx. rewrite Hc.
  assert (0 <= w / sigma * leg_B K r q sigma tau x
          <= w / sigma * leg_bound K r T).
  { split; [apply Rmult_le_pos; lra | apply Rmult_le_compat_l; lra]. }
  apply Rabs_le. lra.
Qed.

Lemma put_xxx_bound : Rabs (put_xxx K r q sigma tau x)
  <= bound_xxx K r sigma T w.
Proof.
  pose proof leg_S_range as HS. pose proof leg_B_range as HB.
  pose proof leg_B_moment1 as HM.
  destruct w_facts as (Hw & Hc & _).
  assert (Hcw : 0 < w / sigma) by (apply Rdiv_lt_0_compat; lra).
  unfold put_xxx, bound_xxx. rewrite Hc.
  set (B := leg_B K r q sigma tau x) in *.
  set (d := D2 K r q sigma tau x) in *.
  assert (H1 : 0 <= w / sigma * B <= w / sigma * leg_bound K r T).
  { split; [apply Rmult_le_pos; lra | apply Rmult_le_compat_l; lra]. }
  assert (H2 : Rabs (w / sigma * (w / sigma) * d * B)
               <= w / sigma * (w / sigma) * leg_bound K r T).
  { replace (w / sigma * (w / sigma) * d * B)
      with (w / sigma * (w / sigma) * (d * B)) by ring.
    rewrite Rabs_mult, (Rabs_pos_eq (w / sigma * (w / sigma)))
      by (apply Rmult_le_pos; lra).
    apply Rmult_le_compat_l; [apply Rmult_le_pos; lra |].
    rewrite Rabs_mult, (Rabs_pos_eq B) by lra. exact HM. }
  apply Rabs_le_both in H2.
  replace (leg_bound K r T * (w / sigma + 1 + w * w / (sigma * sigma)))
    with (w / sigma * leg_bound K r T + leg_bound K r T
          + w / sigma * (w / sigma) * leg_bound K r T) by (field; lra).
  apply Rabs_le. lra.
Qed.

Lemma D2_t_alt :
  D2_t K r q sigma x tau
  = drift r q sigma * (w / sigma) - D2 K r q sigma tau x * (w * w / 2).
Proof.
  destruct w_facts as (Hw & Hc & Ht).
  assert (Ht0 : 0 < tau) by lra.
  pose proof (sqrt_tau_pos tau Ht0) as Hq.
  unfold D2_t, Rdiv. rewrite Hc.
  replace (/ (2 * tau)) with (/ tau * / 2) by (field; lra).
  rewrite Ht. unfold Rdiv. ring.
Qed.

Lemma half_vol_alt : sigma / (2 * sqrt tau) = sigma * w / 2.
Proof.
  assert (Ht0 : 0 < tau) by lra.
  pose proof (sqrt_tau_pos tau Ht0) as Hq.
  unfold w. field. lra.
Qed.

Lemma bound_D2_t_nonneg : 0 <= bound_D2_t r q sigma w.
Proof.
  destruct w_facts as (Hw & _ & _). unfold bound_D2_t.
  pose proof (Rabs_pos (drift r q sigma)).
  assert (0 <= Rabs (drift r q sigma) * w / sigma).
  { apply Rmult_le_pos; [apply Rmult_le_pos; lra |].
    left. apply Rinv_0_lt_compat. exact sigma_pos. }
  assert (0 <= w * w / 2) by (pose proof (sq_nonneg w); lra).
  lra.
Qed.

Lemma leg_B_D2_t_bound :
  Rabs (leg_B K r q sigma tau x * D2_t K r q sigma x tau)
  <= leg_bound K r T * bound_D2_t r q sigma w.
Proof.
  pose proof leg_B_range as HB. pose proof leg_B_moment1 as HM.
  destruct w_facts as (Hw & _ & _).
  rewrite D2_t_alt. unfold bound_D2_t.
  set (B := leg_B K r q sigma tau x) in *.
  set (d := D2 K r q sigma tau x) in *.
  set (nu := drift r q sigma).
  assert (Hws : 0 <= w / sigma).
  { apply Rmult_le_pos; [lra | left; apply Rinv_0_lt_compat; lra]. }
  assert (Hww : 0 <= w * w / 2) by (pose proof (sq_nonneg w); lra).
  assert (H1 : Rabs (nu * (w / sigma) * B)
               <= Rabs nu * (w / sigma) * leg_bound K r T).
  { apply Rabs_mult_le; [| rewrite Rabs_pos_eq; lra].
    rewrite Rabs_mult, (Rabs_pos_eq (w / sigma)) by exact Hws. lra. }
  assert (H2 : Rabs (d * B * (w * w / 2)) <= leg_bound K r T * (w * w / 2)).
  { apply Rabs_mult_le; [| rewrite Rabs_pos_eq; lra].
    rewrite Rabs_mult, (Rabs_pos_eq B) by lra. exact HM. }
  apply Rabs_le_both in H1. apply Rabs_le_both in H2.
  apply Rabs_le.
  replace (B * (nu * (w / sigma) - d * (w * w / 2)))
    with (nu * (w / sigma) * B - d * B * (w * w / 2)) by ring.
  replace (leg_bound K r T * (Rabs nu * w / sigma + w * w / 2))
    with (Rabs nu * (w / sigma) * leg_bound K r T + leg_bound K r T * (w * w /
        2))
    by (unfold Rdiv; ring).
  lra.
Qed.

Lemma D2_leg_B_D2_t_bound :
  Rabs (D2 K r q sigma tau x * leg_B K r q sigma tau x
        * D2_t K r q sigma x tau)
  <= leg_bound K r T * bound_D2_t r q sigma w.
Proof.
  pose proof leg_B_range as HB. pose proof leg_B_moment1 as HM.
  pose proof leg_B_moment2 as HM2.
  destruct w_facts as (Hw & _ & _).
  rewrite D2_t_alt. unfold bound_D2_t.
  set (B := leg_B K r q sigma tau x) in *.
  set (d := D2 K r q sigma tau x) in *.
  set (nu := drift r q sigma).
  assert (Hws : 0 <= w / sigma).
  { apply Rmult_le_pos; [lra | left; apply Rinv_0_lt_compat; lra]. }
  assert (Hww : 0 <= w * w / 2) by (pose proof (sq_nonneg w); lra).
  assert (H1 : Rabs (nu * (w / sigma) * (d * B))
               <= Rabs nu * (w / sigma) * leg_bound K r T).
  { apply Rabs_mult_le.
    - rewrite Rabs_mult, (Rabs_pos_eq (w / sigma)) by exact Hws. lra.
    - rewrite Rabs_mult, (Rabs_pos_eq B) by lra. exact HM. }
  assert (H2 : Rabs (d * d * B * (w * w / 2)) <= leg_bound K r T * (w * w / 2)).
  { apply Rabs_mult_le; [| rewrite Rabs_pos_eq; lra].
    rewrite Rabs_pos_eq; [exact HM2 |].
    apply Rmult_le_pos; [apply sq_nonneg | lra]. }
  apply Rabs_le_both in H1. apply Rabs_le_both in H2.
  apply Rabs_le.
  replace (d * B * (nu * (w / sigma) - d * (w * w / 2)))
    with (nu * (w / sigma) * (d * B) - d * d * B * (w * w / 2)) by ring.
  replace (leg_bound K r T * (Rabs nu * w / sigma + w * w / 2))
    with (Rabs nu * (w / sigma) * leg_bound K r T + leg_bound K r T * (w * w /
        2))
    by (unfold Rdiv; ring).
  lra.
Qed.

Lemma put_tt_bound : Rabs (put_tt K r q sigma x tau)
  <= bound_tt K r q sigma T w.
Proof.
  pose proof leg_K_range as HK. pose proof leg_S_range as HS.
  pose proof leg_B_range as HB.
  pose proof leg_B_D2_t_bound as H1.
  pose proof D2_leg_B_D2_t_bound as H3.
  pose proof bound_D2_t_nonneg as HbD.
  pose proof leg_bound_pos as HL.
  destruct w_facts as (Hw & _ & Htau).
  assert (Ht0 : 0 < tau) by lra.
  set (lK := leg_K K r q sigma tau x) in *.
  set (lS := leg_S K r q sigma tau x) in *.
  set (B := leg_B K r q sigma tau x) in *.
  set (d := D2 K r q sigma tau x) in *.
  set (X1 := B * D2_t K r q sigma x tau) in *.
  set (X3 := d * B * D2_t K r q sigma x tau) in *.
  set (bD := bound_D2_t r q sigma w) in *.
  set (L := leg_bound K r T) in *.
  set (v := sigma * w / 2).
  assert (Hv : 0 <= v) by (unfold v; apply Rmult_le_pos; [nra | lra]).
  assert (Hww : 0 <= w * w / 2) by (pose proof (sq_nonneg w); lra).
  assert (E : put_tt K r q sigma x tau
              = r * (r * lK + X1) - q * (q * lS + X1 + B * v)
                - (r * B + X3) * v - B * v * (w * w / 2)).
  { unfold put_tt, D1_t. rewrite half_vol_alt.
    fold lK lS B d v. unfold X1, X3, Rdiv.
    replace (/ (2 * tau)) with (w * w * / 2) by (rewrite <- Htau; field; lra).
    ring. }
  rewrite E.
  unfold bound_tt. fold bD L v.
  assert (Ha : Rabs (r * (r * lK + X1)) <= Rabs r * (Rabs r * L + L * bD)).
  { apply Rabs_mult_le; [lra |].
    apply Rle_trans with (Rabs (r * lK) + Rabs X1); [apply Rabs_triang |].
    apply Rplus_le_compat; [| exact H1].
    apply Rabs_mult_le; [lra | rewrite Rabs_pos_eq; lra]. }
  assert (Hb : Rabs (q * (q * lS + X1 + B * v))
               <= Rabs q * (Rabs q * L + L * bD + L * v)).
  { apply Rabs_mult_le; [lra |].
    apply Rle_trans with (Rabs (q * lS + X1) + Rabs (B * v));
      [apply Rabs_triang |].
    apply Rplus_le_compat.
    - apply Rle_trans with (Rabs (q * lS) + Rabs X1); [apply Rabs_triang |].
      apply Rplus_le_compat; [| exact H1].
      apply Rabs_mult_le; [lra | rewrite Rabs_pos_eq; lra].
    - apply Rabs_mult_le; rewrite Rabs_pos_eq; lra. }
  assert (Hc : Rabs ((r * B + X3) * v) <= (Rabs r * L + L * bD) * v).
  { apply Rabs_mult_le; [| rewrite Rabs_pos_eq; lra].
    apply Rle_trans with (Rabs (r * B) + Rabs X3); [apply Rabs_triang |].
    apply Rplus_le_compat; [| exact H3].
    apply Rabs_mult_le; [lra | rewrite Rabs_pos_eq; lra]. }
  assert (Hd : Rabs (B * v * (w * w / 2)) <= L * v * (w * w / 2)).
  { apply Rabs_mult_le; [| rewrite Rabs_pos_eq; lra].
    apply Rabs_mult_le; rewrite Rabs_pos_eq; lra. }
  apply Rabs_le_both in Ha. apply Rabs_le_both in Hb.
  apply Rabs_le_both in Hc. apply Rabs_le_both in Hd.
  apply Rabs_le.
  replace (L * (Rabs r * (Rabs r + bD) + Rabs q * (Rabs q + bD + v)
                + (Rabs r + bD) * v + v * (w * w / 2)))
    with (Rabs r * (Rabs r * L + L * bD)
          + Rabs q * (Rabs q * L + L * bD + L * v)
          + (Rabs r * L + L * bD) * v + L * v * (w * w / 2)) by ring.
  lra.
Qed.

End At.

End PutBounds.
(** ** Expansions of the exponential and of the tree parameters *)

Lemma exp_le_3_on_unit (c : R) : c <= 1 -> exp c <= 3.
Proof.
  intros Hc. apply Rle_trans with (exp 1); [| apply exp_le_3].
  apply exp_le_compat. exact Hc.
Qed.

Lemma exp_abs_le_3 (c : R) : -1 <= c <= 1 -> Rabs (exp c) <= 3.
Proof.
  intros Hc. rewrite Rabs_pos_eq by (left; apply exp_pos).
  apply exp_le_3_on_unit. lra.
Qed.

Lemma exp_order1 (y : R) : -1 <= y <= 1 -> Rabs (exp y - 1) <= 3 * Rabs y.
Proof.
  intros Hy.
  pose proof (mvt_bound exp exp (-1) 1 3
                (fun c _ => derivable_pt_lim_exp c) exp_abs_le_3
                0 y ltac:(lra) Hy) as H.
  rewrite exp_0, Rminus_0_r in H. exact H.
Qed.

Lemma exp_order2 (y : R) :
  -1 <= y <= 1 -> Rabs (exp y - 1 - y) <= 3 * (y * y).
Proof.
  intros Hy.
  pose proof (taylor2 exp exp exp (-1) 1 3
                (fun c _ => derivable_pt_lim_exp c)
                (fun c _ => derivable_pt_lim_exp c) exp_abs_le_3
                0 y ltac:(lra) Hy) as H.
  rewrite exp_0, Rminus_0_r, Rmult_1_r in H. exact H.
Qed.

Lemma cosh_le_2 (c : R) : -1 <= c <= 1 -> Rabs (cosh c) <= 2.
Proof.
  intros Hc. unfold cosh.
  pose proof (exp_le_3_on_unit c ltac:(lra)).
  pose proof (exp_le_3_on_unit (- c) ltac:(lra)).
  pose proof (exp_pos c). pose proof (exp_pos (- c)).
  assert (Hinv : exp c * exp (- c) = 1).
  { rewrite <- exp_plus, Rplus_opp_r. apply exp_0. }
  apply Rabs_le.
  assert (exp c + exp (- c) <= 4).
  { (* both factors lie in [1/3, 3] and multiply to 1 *)
    assert (/ 3 <= exp c) by nra. assert (/ 3 <= exp (- c)) by nra.
    nra. }
  lra.
Qed.

Lemma sinh_order1 (c : R) : -1 <= c <= 1 -> Rabs (sinh c) <= 2 * Rabs c.
Proof.
  intros Hc.
  pose proof (mvt_bound sinh cosh (-1) 1 2
                (fun c _ => derivable_pt_lim_sinh c) cosh_le_2
                0 c ltac:(lra) Hc) as H.
  rewrite sinh_0, !Rminus_0_r in H. exact H.
Qed.

Lemma sinh_order3 (h : R) :
  0 <= h <= 1 -> Rabs (sinh h - h) <= 2 * (h * (h * h)).
Proof.
  intros Hh.
  assert (Hb : forall c, - h <= c <= h -> Rabs (sinh c) <= 2 * h).
  { intros c Hc.
    apply Rle_trans with (2 * Rabs c); [apply sinh_order1; lra |].
    assert (Rabs c <= h) by (apply Rabs_le; lra). lra. }
  pose proof (taylor2 sinh cosh sinh (- h) h (2 * h)
                (fun c _ => derivable_pt_lim_sinh c)
                (fun c _ => derivable_pt_lim_cosh c) Hb
                0 h ltac:(lra) ltac:(lra)) as H.
  rewrite sinh_0, cosh_0, !Rminus_0_r, Rmult_1_r in H.
  replace (2 * (h * (h * h))) with (2 * h * (h * h)) by ring. exact H.
Qed.

Lemma cosh_order4 (h : R) :
  0 <= h <= 1 -> Rabs (cosh h - 1 - h * h / 2) <= 2 * (h * h * (h * h)).
Proof.
  intros Hh.
  assert (Hb : forall c, - h <= c <= h -> Rabs (sinh c) <= 2 * h).
  { intros c Hc.
    apply Rle_trans with (2 * Rabs c); [apply sinh_order1; lra |].
    assert (Rabs c <= h) by (apply Rabs_le; lra). lra. }
  pose proof (taylor3 cosh sinh cosh sinh (- h) h (2 * h)
                (fun c _ => derivable_pt_lim_cosh c)
                (fun c _ => derivable_pt_lim_sinh c)
                (fun c _ => derivable_pt_lim_cosh c) Hb
                0 h ltac:(lra) ltac:(lra)) as H.
  rewrite cosh_0, sinh_0, !Rminus_0_r, Rmult_0_r, Rminus_0_r, Rmult_1_r in H.
  rewrite (Rabs_pos_eq h) in H by lra.
  replace (2 * (h * h * (h * h))) with (2 * h * (h * (h * h))) by ring.
  exact H.
Qed.

Lemma sinh_ge (h : R) : 0 <= h -> h <= sinh h.
Proof.
  intros Hh. unfold sinh.
  (* the function sinh - id is increasing: its derivative is cosh - 1 *)
  pose (f := fun t : R => sinh t - t).
  assert (Hd : forall c, derivable_pt_lim f c (cosh c - 1)).
  { intros c. unfold f.
    apply (derivable_pt_lim_minus sinh id);
      [apply derivable_pt_lim_sinh | apply derivable_pt_lim_id]. }
  destruct Hh as [Hh | <-].
  - destruct (MVT_cor2 f (fun c => cosh c - 1) 0 h Hh (fun c _ => Hd c))
      as (c & Hc & _).
    unfold f in Hc. rewrite sinh_0 in Hc. unfold sinh in Hc.
    assert (1 <= cosh c).
    { unfold cosh. pose proof (exp_pos c). pose proof (exp_pos (- c)).
      assert (Hinv : exp c * exp (- c) = 1).
      { rewrite <- exp_plus, Rplus_opp_r. apply exp_0. }
      pose proof (sq_nonneg (exp c - exp (- c))). nra. }
    assert (0 <= (cosh c - 1) * (h - 0)) by (apply Rmult_le_pos; lra).
    lra.
  - rewrite Ropp_0, exp_0. lra.
Qed.

Section TreeParams.

Variables r q sigma dt : R.
Hypothesis sigma_pos : 0 < sigma.
Hypothesis dt_pos : 0 < dt.

Lemma step_h_pos : 0 < step_h sigma dt.
Proof.
  unfold step_h. apply Rmult_lt_0_compat; [exact sigma_pos |].
  apply sqrt_lt_R0. exact dt_pos.
Qed.

Lemma step_h_sq : step_h sigma dt * step_h sigma dt = sigma * sigma * dt.
Proof.
  unfold step_h.
  replace (sigma * sqrt dt * (sigma * sqrt dt))
    with (sigma * sigma * (sqrt dt * sqrt dt)) by ring.
  rewrite sqrt_sqrt by lra. reflexivity.
Qed.

Lemma step_d_exp : step_d sigma dt = exp (- step_h sigma dt).
Proof. unfold step_d, step_u. rewrite exp_Ropp. lra. Qed.

Lemma step_sinh_pos : 0 < sinh (step_h sigma dt).
Proof.
  pose proof step_h_pos. pose proof (sinh_ge (step_h sigma dt) ltac:(lra)). lra.
Qed.

Lemma step_spread : step_u sigma dt - step_d sigma dt = 2
  * sinh (step_h sigma dt).
Proof. rewrite step_d_exp. unfold step_u, sinh. field. Qed.

Lemma step_mean : step_u sigma dt + step_d sigma dt = 2
  * cosh (step_h sigma dt).
Proof. rewrite step_d_exp. unfold step_u, cosh. field. Qed.

(** The tree reproduces the forward: [p u + (1 - p) d = e^((r-q) dt)]. *)
Lemma step_forward : step_p r q sigma dt * step_u sigma dt
  + (1 - step_p r q sigma dt) * step_d sigma dt = step_a r q dt.
Proof.
  unfold step_p. pose proof step_spread. pose proof step_sinh_pos.
  field. lra.
Qed.

Lemma step_tilt : 2 * step_p r q sigma dt - 1
  = (step_a r q dt - cosh (step_h sigma dt)) / sinh (step_h sigma dt).
Proof.
  unfold step_p. pose proof step_spread as Hs. pose proof step_mean as Hm.
  pose proof step_sinh_pos.
  replace (cosh (step_h sigma dt))
      with ((step_u sigma dt + step_d sigma dt) / 2) by (rewrite Hm; field).
  replace (sinh (step_h sigma dt))
      with ((step_u sigma dt - step_d sigma dt) / 2) by (rewrite Hs; field).
  field. lra.
Qed.

Lemma step_disc_pos : 0 < step_disc r dt.
Proof. apply exp_pos. Qed.

Hypothesis small_r : Rabs r * dt <= 1.
Hypothesis small_rq : Rabs (r - q) * dt <= 1.
Hypothesis small_h : step_h sigma dt <= 1.

Lemma small_arg (z : R) : Rabs z * dt <= 1 -> -1 <= z * dt <= 1.
Proof.
  intros Hz. apply Rabs_le_both.
  rewrite Rabs_mult, (Rabs_pos_eq dt) by lra. exact Hz.
Qed.

Lemma small_arg_opp (z : R) : Rabs z * dt <= 1 -> -1 <= - z * dt <= 1.
Proof. intros Hz. pose proof (small_arg z Hz). lra. Qed.

Lemma step_disc_order1 : Rabs (step_disc r dt - 1) <= 3 * Rabs r * dt.
Proof.
  unfold step_disc.
  pose proof (exp_order1 (- r * dt) (small_arg_opp r small_r)) as H.
  rewrite Rabs_mult, Rabs_Ropp, (Rabs_pos_eq dt) in H by lra. lra.
Qed.

Lemma step_disc_le_4 : step_disc r dt <= 4.
Proof.
  pose proof step_disc_order1 as H. apply Rabs_le_both in H. lra.
Qed.

(** [c0 = disc - 1 + r dt]. *)
Lemma step_c0_bound :
  Rabs (step_disc r dt - 1 + r * dt) <= 3 * (r * r) * (dt * dt).
Proof.
  unfold step_disc.
  pose proof (exp_order2 (- r * dt) (small_arg_opp r small_r)) as H.
  replace (exp (- r * dt) - 1 + r * dt)
    with (exp (- r * dt) - 1 - - r * dt) by ring.
  replace (3 * (r * r) * (dt * dt))
    with (3 * (- r * dt * (- r * dt))) by ring.
  exact H.
Qed.

(** [c2 = disc h^2/2 - sigma^2 dt/2]. *)
Lemma step_c2_bound :
  Rabs (step_disc r dt * (step_h sigma dt * step_h sigma dt) / 2 - sigma *
      sigma * dt / 2)
  <= 3 / 2 * (sigma * sigma) * Rabs r * (dt * dt).
Proof.
  rewrite step_h_sq.
  replace (step_disc r dt * (sigma * sigma * dt) / 2 - sigma * sigma * dt / 2)
    with ((step_disc r dt - 1) * (sigma * sigma * dt / 2)) by field.
  rewrite Rabs_mult.
  assert (0 <= sigma * sigma * dt / 2).
  { pose proof (sq_nonneg sigma).
    assert (0 <= sigma * sigma * dt) by (apply Rmult_le_pos; lra). lra. }
  rewrite (Rabs_pos_eq (sigma * sigma * dt / 2)) by assumption.
  pose proof step_disc_order1.
  apply Rle_trans with (3 * Rabs r * dt * (sigma * sigma * dt / 2)).
  - apply Rmult_le_compat_r; assumption.
  - right. field.
Qed.

(** [c1 = disc (2p - 1) h - (r - q - sigma^2/2) dt]. *)
Lemma step_c1_bound :
  Rabs (step_disc r dt * (2 * step_p r q sigma dt - 1) * step_h sigma dt
        - (r - q - sigma * sigma / 2) * dt)
  <= gamma1 r q sigma * (dt * dt).
Proof.
  pose proof step_h_pos as Hh. pose proof step_sinh_pos as Hs.
  pose proof step_h_sq as Hsq.
  rewrite step_tilt.
  set (mu := r - q - sigma * sigma / 2).
  set (theta := step_h sigma dt / sinh (step_h sigma dt)).
  set (rho := step_a r q dt - cosh (step_h sigma dt) - mu * dt).
  set (delta := step_disc r dt - 1).
  replace (step_disc r dt * ((step_a r q dt - cosh (step_h sigma dt)) / sinh
      (step_h sigma dt)) * step_h sigma dt
           - mu * dt)
    with (mu * dt * (theta - 1 + delta * theta)
          + (1 + delta) * theta * rho)
    by (unfold theta, rho, delta; field; lra).
  (* theta lies in (0,1] and 1 - theta = O(h^2) *)
  assert (Hth : 0 < theta <= 1).
  { unfold theta. split.
    - apply Rdiv_lt_0_compat; assumption.
    - apply (Rmult_le_reg_r (sinh (step_h sigma dt))); [assumption |].
      unfold Rdiv. rewrite Rmult_assoc, Rinv_l by lra.
      pose proof (sinh_ge (step_h sigma dt) ltac:(lra)). lra. }
  assert (Hth1 : Rabs (theta - 1) <= 2 * (sigma * sigma) * dt).
  { replace (theta - 1)
      with (- ((sinh (step_h sigma dt) - step_h sigma dt) / sinh (step_h sigma
          dt)))
      by (unfold theta; field; lra).
    rewrite Rabs_Ropp. unfold Rdiv. rewrite Rabs_mult.
    rewrite (Rabs_pos_eq (/ sinh (step_h sigma dt)))
      by (left; apply Rinv_0_lt_compat; assumption).
    pose proof (sinh_order3 (step_h sigma dt) ltac:(lra)) as H3.
    pose proof (sinh_ge (step_h sigma dt) ltac:(lra)) as Hge.
    assert (Hinv : / sinh (step_h sigma dt) <= / step_h sigma dt)
      by (apply Rinv_le_contravar; lra).
    assert (0 < / sinh (step_h sigma dt))
        by (apply Rinv_0_lt_compat; assumption).
    apply Rle_trans with (2 * (step_h sigma dt * (step_h sigma dt * step_h
        sigma dt)) * / step_h sigma dt).
    - apply Rmult_le_compat; try lra. apply Rabs_pos.
    - right.
      replace (2 * (sigma * sigma) * dt)
          with (2 * (step_h sigma dt * step_h sigma dt))
        by (rewrite Hsq; ring).
      field. lra. }
  assert (Hdelta : Rabs delta <= 3 * Rabs r * dt)
    by apply step_disc_order1.
  assert (Hdelta3 : Rabs delta <= 3) by nra.
  assert (Hrho : Rabs rho
                 <= (3 * ((r - q) * (r - q))
                     + 2 * (sigma * sigma * (sigma * sigma))) * (dt * dt)).
  { replace rho
      with ((step_a r q dt - 1 - (r - q) * dt)
            - (cosh (step_h sigma dt) - 1
               - step_h sigma dt * step_h sigma dt / 2))
      by (unfold rho, mu; rewrite Hsq; field).
    eapply Rle_trans; [apply Rabs_triang |]. rewrite Rabs_Ropp.
    pose proof (exp_order2 ((r - q) * dt) (small_arg _ small_rq)) as Ha.
    pose proof (cosh_order4 (step_h sigma dt) ltac:(lra)) as Hc.
    fold (step_a r q dt) in Ha. rewrite Hsq in Hc.
    replace ((3 * ((r - q) * (r - q))
              + 2 * (sigma * sigma * (sigma * sigma))) * (dt * dt))
      with (3 * ((r - q) * dt * ((r - q) * dt))
            + 2 * (sigma * sigma * dt * (sigma * sigma * dt))) by ring.
    rewrite Hsq. lra. }
  eapply Rle_trans; [apply Rabs_triang |].
  apply Rle_trans
    with (Rabs mu * (2 * (sigma * sigma) + 3 * Rabs r) * (dt * dt)
          + 4 * (3 * ((r - q) * (r - q))
                 + 2 * (sigma * sigma * (sigma * sigma))) * (dt * dt));
    [| unfold gamma1; fold mu; right; ring].
  apply Rplus_le_compat.
  - rewrite !Rabs_mult, (Rabs_pos_eq dt) by lra.
    replace (Rabs mu * (2 * (sigma * sigma) + 3 * Rabs r) * (dt * dt))
      with (Rabs mu * dt * ((2 * (sigma * sigma) + 3 * Rabs r) * dt))
      by ring.
    apply Rmult_le_compat_l.
    + apply Rmult_le_pos; [apply Rabs_pos | lra].
    + eapply Rle_trans; [apply Rabs_triang |].
      rewrite Rabs_mult, (Rabs_pos_eq theta) by lra.
      pose proof (Rabs_pos delta).
      assert (Rabs delta * theta <= Rabs delta * 1)
        by (apply Rmult_le_compat_l; lra).
      lra.
  - rewrite !Rabs_mult, (Rabs_pos_eq theta) by lra.
    assert (H1 : Rabs (1 + delta) <= 4).
    { eapply Rle_trans; [apply Rabs_triang |].
      rewrite Rabs_R1. lra. }
    pose proof (Rabs_pos (1 + delta)). pose proof (Rabs_pos rho).
    apply Rle_trans with (4 * 1 * Rabs rho).
    + apply Rmult_le_compat_r; [assumption |].
      apply Rmult_le_compat; lra.
    + lra.
Qed.

End TreeParams.
(** ** One step of the lattice applied to the Black-Scholes put function *)

Section DerivativeConstants.

Variables K r q sigma T : R.
Hypothesis K_pos : 0 < K.
Hypothesis sigma_pos : 0 < sigma.

Let L := leg_bound K r T.

Lemma L_pos : 0 < L.
Proof. apply leg_bound_pos. exact K_pos. Qed.

Lemma const_D2_t_pos : 0 < const_D2_t r q sigma.
Proof.
  unfold const_D2_t.
  assert (0 <= Rabs (drift r q sigma) / sigma).
  { apply Rmult_le_pos; [apply Rabs_pos |].
    left. apply Rinv_0_lt_compat. exact sigma_pos. }
  lra.
Qed.

Lemma const_tt_nonneg : 0 <= const_tt K r q sigma T.
Proof.
  unfold const_tt. fold L. pose proof L_pos. pose proof const_D2_t_pos.
  pose proof (Rabs_pos r). pose proof (Rabs_pos q).
  apply Rmult_le_pos; [lra |].
  assert (0 <= Rabs r * (Rabs r + const_D2_t r q sigma))
      by (apply Rmult_le_pos; lra).
  assert (0 <= Rabs q * (Rabs q + const_D2_t r q sigma + sigma / 2))
    by (apply Rmult_le_pos; lra).
  assert (0 <= (Rabs r + const_D2_t r q sigma) * (sigma / 2))
    by (apply Rmult_le_pos; lra).
  lra.
Qed.

Section Weights.

Variable w : R.
Hypothesis w_nonneg : 0 <= w.

Let W := 1 + w.

Lemma W_powers :
  1 <= W /\ w <= W /\ W <= W * W /\ W * W <= W * W * W /\ w * w <= W * W.
Proof. unfold W. repeat split; nra. Qed.

Lemma inv_sigma_pos : 0 < 1 / sigma.
Proof. apply Rdiv_lt_0_compat; lra. Qed.

Lemma bound_xx_le : bound_xx K r sigma T w <= const_xx K r sigma T * W.
Proof.
  unfold bound_xx, const_xx. fold L. pose proof L_pos.
  rewrite Rmult_assoc. apply Rmult_le_compat_l; [lra |].
  pose proof inv_sigma_pos. destruct W_powers as (? & ? & _).
  replace (w / sigma) with (1 / sigma * w) by (field; lra).
  assert (1 / sigma * w <= 1 / sigma * W) by (apply Rmult_le_compat_l; lra).
  nra.
Qed.

Lemma bound_xxx_le : bound_xxx K r sigma T w <= const_xxx K r sigma T * (W * W).
Proof.
  unfold bound_xxx, const_xxx. fold L. pose proof L_pos.
  rewrite Rmult_assoc. apply Rmult_le_compat_l; [lra |].
  pose proof inv_sigma_pos as Hi.
  destruct W_powers as (H1 & H2 & H3 & H4 & H5).
  assert (Hi2 : 0 < 1 / (sigma * sigma)).
  { apply Rdiv_lt_0_compat; [lra |]. apply Rmult_lt_0_compat; lra. }
  replace (w / sigma) with (1 / sigma * w) by (field; lra).
  replace (w * w / (sigma * sigma)) with (1 / (sigma * sigma) * (w * w))
    by (field; lra).
  rewrite !Rmult_plus_distr_r.
  assert (1 / sigma * w <= 1 / sigma * (W * W))
    by (apply Rmult_le_compat_l; lra).
  assert (1 / (sigma * sigma) * (w * w) <= 1 / (sigma * sigma) * (W * W))
    by (apply Rmult_le_compat_l; lra).
  lra.
Qed.

Lemma bound_D2_t_le : bound_D2_t r q sigma w <= const_D2_t r q sigma * (W * W).
Proof.
  unfold bound_D2_t, const_D2_t.
  destruct W_powers as (H1 & H2 & H3 & H4 & H5).
  set (m := Rabs (drift r q sigma) / sigma).
  assert (Hm : 0 <= m).
  { unfold m. apply Rmult_le_pos; [apply Rabs_pos |].
    left. apply Rinv_0_lt_compat. exact sigma_pos. }
  replace (Rabs (drift r q sigma) * w / sigma) with (m * w)
    by (unfold m; field; lra).
  rewrite Rmult_plus_distr_r.
  assert (m * w <= m * (W * W)) by (apply Rmult_le_compat_l; lra).
  lra.
Qed.

Lemma bound_D2_t_pos : 0 <= bound_D2_t r q sigma w.
Proof.
  unfold bound_D2_t.
  assert (0 <= Rabs (drift r q sigma) * w / sigma).
  { unfold Rdiv. apply Rmult_le_pos.
    - apply Rmult_le_pos; [apply Rabs_pos | exact w_nonneg].
    - left. apply Rinv_0_lt_compat. exact sigma_pos. }
  pose proof (sq_nonneg w). lra.
Qed.

Lemma bound_tt_le : bound_tt K r q sigma T w <= const_tt K r q sigma T
  * (W * W * W).
Proof.
  unfold bound_tt, const_tt. fold L. pose proof L_pos as HL.
  rewrite Rmult_assoc. apply Rmult_le_compat_l; [lra |].
  destruct W_powers as (H1 & H2 & H3 & H4 & H5).
  pose proof bound_D2_t_le as HD. pose proof bound_D2_t_pos as HD0.
  pose proof const_D2_t_pos as Hb.
  set (D := bound_D2_t r q sigma w) in *.
  set (b := const_D2_t r q sigma) in *.
  set (W2 := W * W) in *. set (W3 := W2 * W) in *.
  pose proof (Rabs_pos r) as Hr. pose proof (Rabs_pos q) as Hq.
  assert (HW3 : 1 <= W3) by lra.
  assert (HbW : b * W2 <= b * W3) by (apply Rmult_le_compat_l; lra).
  assert (E1 : Rabs r + D <= (Rabs r + b) * W3).
  { assert (Rabs r * 1 <= Rabs r * W3) by (apply Rmult_le_compat_l; lra).
    lra. }
  assert (E1' : Rabs r + D <= (Rabs r + b) * W2).
  { assert (1 <= W2) by lra.
    assert (Rabs r * 1 <= Rabs r * W2) by (apply Rmult_le_compat_l; lra).
    lra. }
  assert (Ev : sigma * w / 2 <= sigma / 2 * W).
  { assert (sigma * w <= sigma * W) by (apply Rmult_le_compat_l; lra). lra. }
  assert (Ev0 : 0 <= sigma * w / 2).
  { assert (0 <= sigma * w) by (apply Rmult_le_pos; lra). lra. }
  assert (Ev3 : sigma * w / 2 <= sigma / 2 * W3).
  { assert (sigma / 2 * W <= sigma / 2 * W3)
      by (apply Rmult_le_compat_l; lra). lra. }
  assert (T1 : Rabs r * (Rabs r + D) <= Rabs r * (Rabs r + b) * W3).
  { rewrite Rmult_assoc. apply Rmult_le_compat_l; lra. }
  assert (T2 : Rabs q * (Rabs q + D + sigma * w / 2)
               <= Rabs q * (Rabs q + b + sigma / 2) * W3).
  { rewrite Rmult_assoc. apply Rmult_le_compat_l; [lra |].
    assert (Rabs q * 1 <= Rabs q * W3) by (apply Rmult_le_compat_l; lra).
    lra. }
  assert (T3 : (Rabs r + D) * (sigma * w / 2)
               <= (Rabs r + b) * (sigma / 2) * W3).
  { replace ((Rabs r + b) * (sigma / 2) * W3)
      with ((Rabs r + b) * W2 * (sigma / 2 * W)) by (unfold W3; ring).
    apply Rmult_le_compat; lra. }
  assert (T4 : sigma * w / 2 * (w * w / 2) <= sigma / 4 * W3).
  { replace (sigma / 4 * W3) with (sigma / 2 * W * (W2 / 2))
      by (unfold W3; field).
    pose proof (sq_nonneg w).
    apply Rmult_le_compat; lra. }
  rewrite !Rmult_plus_distr_r. lra.
Qed.

End Weights.

End DerivativeConstants.

Section OneStep.

Variables K r q sigma T dt tau : R.
Hypothesis K_pos : 0 < K.
Hypothesis sigma_pos : 0 < sigma.
Hypothesis dt_pos : 0 < dt.
Hypothesis tau_pos : 0 < tau.
Hypothesis tau_le : tau + dt <= T.
Hypothesis small_r : Rabs r * dt <= 1.
Hypothesis small_rq : Rabs (r - q) * dt <= 1.
Hypothesis small_h : step_h sigma dt <= 1.

Let V := put_fun K r q sigma.
Let h := step_h sigma dt.
Let p := step_p r q sigma dt.
Let disc := step_disc r dt.
Let L := leg_bound K r T.
Let w := / sqrt tau.

Lemma w_nonneg' : 0 <= w.
Proof.
  unfold w. left. apply Rinv_0_lt_compat. apply sqrt_lt_R0. exact tau_pos.
Qed.

Lemma inv_sqrt_antitone (c : R) : tau <= c -> / sqrt c <= w.
Proof.
  intros Hc. unfold w. apply Rinv_le_contravar.
  - apply sqrt_lt_R0. exact tau_pos.
  - apply sqrt_le_1; lra.
Qed.

(** Expansion in the log-price at the later time. *)
Lemma space_expansion (x e : R) :
  Rabs (V tau (x + e) - V tau x - e * put_x K r q sigma tau x
        - e * e / 2 * put_xx K r q sigma tau x)
  <= bound_xxx K r sigma T w * (Rabs e * (e * e)).
Proof.
  pose proof (taylor3 (V tau) (put_x K r q sigma tau)
                (put_xx K r q sigma tau) (put_xxx K r q sigma tau)
                (x - Rabs e) (x + Rabs e) (bound_xxx K r sigma T w)
                (fun c _ => put_fun_deriv_x K r q sigma K_pos sigma_pos
                              tau tau_pos c)
                (fun c _ => put_x_deriv_x K r q sigma K_pos sigma_pos
                              tau tau_pos c)
                (fun c _ => put_xx_deriv_x K r q sigma K_pos sigma_pos
                              tau tau_pos c)
                (fun c _ => put_xxx_bound K r q sigma T K_pos sigma_pos
                              tau c ltac:(lra))
                x (x + e)) as H.
  pose proof (Rabs_pos e). pose proof (Rle_abs e).
  pose proof (Rle_abs (- e)) as Hm. rewrite Rabs_Ropp in Hm.
  replace (x + e - x) with e in H by ring.
  apply H; lra.
Qed.

(** Expansion in the time to maturity over one step. *)
Lemma time_expansion (x : R) :
  Rabs (V (tau + dt) x - V tau x - dt * put_t K r q sigma x tau)
  <= const_tt K r q sigma T * ((1 + w) * (1 + w) * (1 + w)) * (dt * dt).
Proof.
  pose proof (taylor2 (fun t => V t x) (put_t K r q sigma x)
                (put_tt K r q sigma x) tau (tau + dt)
                (const_tt K r q sigma T * ((1 + w) * (1 + w) * (1 + w)))
                (fun c Hc => put_fun_deriv_t K r q sigma K_pos sigma_pos
                               x c ltac:(lra))
                (fun c Hc => put_t_deriv_t K r q sigma K_pos sigma_pos
                               x c ltac:(lra))) as H.
  cbv beta in H.
  assert (Hb : forall c : R, tau <= c <= tau + dt ->
               Rabs (put_tt K r q sigma x c)
               <= const_tt K r q sigma T * ((1 + w) * (1 + w) * (1 + w)));
    [| specialize (H Hb tau (tau + dt) ltac:(lra) ltac:(lra));
       replace (tau + dt - tau) with dt in H by ring; exact H].
  intros c Hc.
  eapply Rle_trans;
    [apply (put_tt_bound K r q sigma T K_pos sigma_pos c x); lra |].
  assert (Hw : 0 <= / sqrt c).
  { left. apply Rinv_0_lt_compat. apply sqrt_lt_R0. lra. }
  eapply Rle_trans;
    [apply (bound_tt_le K r q sigma T K_pos sigma_pos _ Hw) |].
  apply Rmult_le_compat_l; [apply const_tt_nonneg; assumption |].
  pose proof (inv_sqrt_antitone c ltac:(lra)).
  assert (0 <= 1 + / sqrt c <= 1 + w) by lra.
  assert (0 <= (1 + / sqrt c) * (1 + / sqrt c) <= (1 + w) * (1 + w))
    by (split; [apply Rmult_le_pos; lra | apply Rmult_le_compat; lra]).
  apply Rmult_le_compat; lra.
Qed.

Hypothesis p_unit : 0 <= p <= 1.

(** The one-step operator of the lattice reproduces the put function up to
    the truncation error. *)
Lemma one_step_consistency (x : R) :
  Rabs (disc * (p * V tau (x + h) + (1 - p) * V tau (x - h))
        - V (tau + dt) x)
  <= 3 * (r * r) * (dt * dt) * L
     + gamma1 r q sigma * (dt * dt) * L
     + 3 / 2 * (sigma * sigma) * Rabs r * (dt * dt)
       * (const_xx K r sigma T * (1 + w))
     + 4 * (const_xxx K r sigma T * ((1 + w) * (1 + w))) * (h * (h * h))
     + const_tt K r q sigma T * ((1 + w) * (1 + w) * (1 + w)) * (dt * dt).
Proof.
  pose proof (space_expansion x h) as Hup.
  pose proof (space_expansion x (- h)) as Hdn.
  pose proof (time_expansion x) as Ht.
  replace (x + - h) with (x - h) in Hdn by ring.
  rewrite Rabs_Ropp in Hdn.
  replace (- h * - h) with (h * h) in Hdn by ring.
  assert (Hh : 0 < h) by (apply step_h_pos; assumption).
  rewrite (Rabs_pos_eq h) in Hup, Hdn by lra.
  pose proof (step_c0_bound r dt dt_pos small_r) as H0.
  pose proof (step_c1_bound r q sigma dt sigma_pos dt_pos small_r small_rq
                small_h) as H1.
  pose proof (step_c2_bound r sigma dt dt_pos small_r) as H2.
  pose proof (step_disc_le_4 r dt dt_pos small_r) as Hd4.
  pose proof (step_disc_pos r dt) as Hd0.
  fold disc in H0, H1, H2, Hd4, Hd0. fold p in H1. fold h in H1, H2.
  assert (Htau : 0 < tau <= T) by lra.
  pose proof (put_fun_bound K r q sigma T K_pos sigma_pos tau x Htau) as BV.
  pose proof (put_x_bound K r q sigma T K_pos sigma_pos tau x Htau) as BVx.
  pose proof (put_xx_bound K r q sigma T K_pos sigma_pos tau x Htau) as BVxx.
  pose proof (bound_xx_le K r sigma T K_pos sigma_pos w w_nonneg') as Bxx.
  pose proof (bound_xxx_le K r sigma T K_pos sigma_pos w w_nonneg') as Bxxx.
  pose proof (put_pde K r q sigma sigma_pos tau x tau_pos) as PDE.
  fold V in BV. fold L in BV, BVx. fold w in BVxx.
  unfold drift in PDE.
  set (Vx := put_x K r q sigma tau x) in *.
  set (Vxx := put_xx K r q sigma tau x) in *.
  set (Vt := put_t K r q sigma x tau) in *.
  set (Ru := V tau (x + h) - V tau x - h * Vx - h * h / 2 * Vxx) in *.
  set (Rd := V tau (x - h) - V tau x - - h * Vx - h * h / 2 * Vxx) in *.
  set (Rt := V (tau + dt) x - V tau x - dt * Vt) in *.
  set (c0 := disc - 1 + r * dt) in *.
  set (c1 := disc * (2 * p - 1) * h - (r - q - sigma * sigma / 2) * dt) in *.
  set (c2 := disc * (h * h) / 2 - sigma * sigma * dt / 2) in *.
  replace (disc * (p * V tau (x + h) + (1 - p) * V tau (x - h))
           - V (tau + dt) x)
    with (c0 * V tau x + c1 * Vx + c2 * Vxx
          + disc * (p * Ru + (1 - p) * Rd) - Rt)
    by (unfold c0, c1, c2, Ru, Rd, Rt; rewrite PDE; unfold V; field).
  set (M3 := bound_xxx K r sigma T w * (h * (h * h))) in *.
  assert (HM3 : M3 <= const_xxx K r sigma T * ((1 + w) * (1 + w))
                      * (h * (h * h))).
  { unfold M3. apply Rmult_le_compat_r; [| exact Bxxx].
    apply Rmult_le_pos; [lra |]. apply Rmult_le_pos; lra. }
  assert (E0 : Rabs (c0 * V tau x) <= 3 * (r * r) * (dt * dt) * L).
  { rewrite Rabs_mult. apply Rmult_le_compat; try apply Rabs_pos; assumption. }
  assert (E1 : Rabs (c1 * Vx) <= gamma1 r q sigma * (dt * dt) * L).
  { rewrite Rabs_mult. apply Rmult_le_compat; try apply Rabs_pos; assumption. }
  assert (E2 : Rabs (c2 * Vxx)
               <= 3 / 2 * (sigma * sigma) * Rabs r * (dt * dt)
                  * (const_xx K r sigma T * (1 + w))).
  { rewrite Rabs_mult. apply Rmult_le_compat; try apply Rabs_pos;
      [assumption | lra]. }
  assert (E3 : Rabs (disc * (p * Ru + (1 - p) * Rd)) <= 4 * M3).
  { rewrite Rabs_mult, (Rabs_pos_eq disc) by lra.
    assert (Rabs (p * Ru + (1 - p) * Rd) <= M3).
    { eapply Rle_trans; [apply Rabs_triang |].
      rewrite !Rabs_mult, (Rabs_pos_eq p), (Rabs_pos_eq (1 - p)) by lra.
      assert (p * Rabs Ru <= p * M3) by (apply Rmult_le_compat_l; lra).
      assert ((1 - p) * Rabs Rd <= (1 - p) * M3)
        by (apply Rmult_le_compat_l; lra).
      lra. }
    pose proof (Rabs_pos (p * Ru + (1 - p) * Rd)).
    apply Rmult_le_compat; lra. }
  pose proof (Rabs_triang (c0 * V tau x + c1 * Vx + c2 * Vxx
                           + disc * (p * Ru + (1 - p) * Rd)) (- Rt)) as A1.
  pose proof (Rabs_triang (c0 * V tau x + c1 * Vx + c2 * Vxx)
                (disc * (p * Ru + (1 - p) * Rd))) as A2.
  pose proof (Rabs_triang (c0 * V tau x + c1 * Vx) (c2 * Vxx)) as A3.
  pose proof (Rabs_triang (c0 * V tau x) (c1 * Vx)) as A4.
  rewrite Rabs_Ropp in A1.
  unfold Rminus at 1. lra.
Qed.

End OneStep.

Section OneStepError.

Variables K r q sigma T : R.
Hypothesis K_pos : 0 < K.
Hypothesis sigma_pos : 0 < sigma.

Lemma gamma1_nonneg : 0 <= gamma1 r q sigma.
Proof.
  unfold gamma1.
  pose proof (Rabs_pos (r - q - sigma * sigma / 2)).
  pose proof (Rabs_pos r). pose proof (sq_nonneg sigma).
  pose proof (sq_nonneg (r - q)). pose proof (sq_nonneg (sigma * sigma)).
  assert (0 <= Rabs (r - q - sigma * sigma / 2)
               * (2 * (sigma * sigma) + 3 * Rabs r))
    by (apply Rmult_le_pos; lra).
  lra.
Qed.

Lemma const_xx_nonneg : 0 <= const_xx K r sigma T.
Proof.
  unfold const_xx. pose proof (leg_bound_pos K r T K_pos).
  pose proof (inv_sigma_pos sigma sigma_pos).
  apply Rmult_le_pos; lra.
Qed.

Lemma const_xxx_nonneg : 0 <= const_xxx K r sigma T.
Proof.
  unfold const_xxx. pose proof (leg_bound_pos K r T K_pos).
  pose proof (inv_sigma_pos sigma sigma_pos).
  assert (0 < 1 / (sigma * sigma)).
  { apply Rdiv_lt_0_compat; [lra |]. apply Rmult_lt_0_compat; lra. }
  apply Rmult_le_pos; lra.
Qed.

Lemma const_lte_nonneg : 0 <= const_lte K r q sigma T.
Proof.
  unfold const_lte.
  pose proof (leg_bound_pos K r T K_pos) as HL.
  pose proof gamma1_nonneg. pose proof const_xx_nonneg.
  pose proof const_xxx_nonneg.
  pose proof (const_tt_nonneg K r q sigma T K_pos sigma_pos).
  pose proof (sq_nonneg r). pose proof (sq_nonneg sigma).
  pose proof (Rabs_pos r).
  assert (0 <= 3 * (r * r) * leg_bound K r T) by (apply Rmult_le_pos; lra).
  assert (0 <= gamma1 r q sigma * leg_bound K r T)
    by (apply Rmult_le_pos; lra).
  assert (0 <= 3 / 2 * (sigma * sigma) * Rabs r * const_xx K r sigma T).
  { apply Rmult_le_pos; [| assumption].
    apply Rmult_le_pos; [lra | assumption]. }
  assert (0 <= 4 * (sigma * (sigma * sigma)) * const_xxx K r sigma T).
  { apply Rmult_le_pos; [| assumption].
    assert (0 <= sigma * (sigma * sigma)) by (apply Rmult_le_pos; lra).
    lra. }
  lra.
Qed.

Variables dt tau : R.
Hypothesis dt_pos : 0 < dt.
Hypothesis dt_le_1 : dt <= 1.
Hypothesis dt_le_tau : dt <= tau.
Hypothesis tau_le : tau + dt <= T.
Hypothesis small_r : Rabs r * dt <= 1.
Hypothesis small_rq : Rabs (r - q) * dt <= 1.
Hypothesis small_h : step_h sigma dt <= 1.
Hypothesis p_unit : 0 <= step_p r q sigma dt <= 1.

Lemma one_step_error (x : R) :
  Rabs (step_disc r dt
        * (step_p r q sigma dt * put_fun K r q sigma tau (x + step_h sigma dt)
           + (1 - step_p r q sigma dt)
             * put_fun K r q sigma tau (x - step_h sigma dt))
        - put_fun K r q sigma (tau + dt) x)
  <= const_lte K r q sigma T * (dt * sqrt dt) * (1 + / tau).
Proof.
  assert (tau_pos : 0 < tau) by lra.
  eapply Rle_trans;
    [apply (one_step_consistency K r q sigma T dt tau K_pos sigma_pos dt_pos
              tau_pos tau_le small_r small_rq small_h p_unit x) |].
  set (s := sqrt dt). set (w := / sqrt tau).
  assert (Hs : 0 < s) by (apply sqrt_lt_R0; exact dt_pos).
  assert (Hss : s * s = dt) by (apply sqrt_sqrt; lra).
  assert (Hs1 : s <= 1).
  { unfold s. rewrite <- sqrt_1. apply sqrt_le_1; lra. }
  assert (Hst : 0 < sqrt tau) by (apply sqrt_lt_R0; exact tau_pos).
  assert (Hw : 0 < w) by (apply Rinv_0_lt_compat; exact Hst).
  assert (Hww : w * w = / tau).
  { unfold w. rewrite <- Rinv_mult, sqrt_sqrt by lra. reflexivity. }
  assert (Hsw : s * w <= 1).
  { unfold w. apply (Rmult_le_reg_r (sqrt tau)); [exact Hst |].
    rewrite Rmult_assoc, Rinv_l by lra.
    rewrite Rmult_1_r, Rmult_1_l. apply sqrt_le_1; lra. }
  set (W := 1 + w).
  assert (HW1 : 1 <= W) by (unfold W; lra).
  assert (HsW : s * W <= 2) by (unfold W; lra).
  set (X := s * (s * s) * (W * W)).
  assert (Hs3 : 0 < s * (s * s))
    by (repeat apply Rmult_lt_0_compat; assumption).
  assert (HW2 : 1 <= W * W) by nra.
  assert (HX : 0 <= X) by (unfold X; apply Rmult_le_pos; lra).
  assert (B0 : dt * dt <= X).
  { rewrite <- Hss. unfold X.
    replace (s * s * (s * s)) with (s * (s * s) * s) by ring.
    apply Rmult_le_compat_l; lra. }
  assert (B1 : dt * dt * W <= X).
  { rewrite <- Hss. unfold X.
    replace (s * s * (s * s) * W) with (s * (s * s) * (s * W)) by ring.
    apply Rmult_le_compat_l; [lra |].
    assert (s * W <= 1 * W) by (apply Rmult_le_compat_r; lra).
    assert (W * 1 <= W * W) by (apply Rmult_le_compat_l; lra).
    lra. }
  assert (B3 : dt * dt * (W * W * W) <= 2 * X).
  { replace (dt * dt * (W * W * W)) with (X * (s * W))
      by (unfold X; rewrite <- Hss; ring).
    rewrite (Rmult_comm 2). apply Rmult_le_compat_l; lra. }
  assert (BW : W * W <= 2 * (1 + / tau)).
  { rewrite <- Hww. unfold W. pose proof (sq_nonneg (1 - w)). lra. }
  assert (Hh3 : step_h sigma dt * (step_h sigma dt * step_h sigma dt)
                = sigma * (sigma * sigma) * (s * (s * s))).
  { unfold step_h. fold s. ring. }
  rewrite Hh3. fold W.
  pose proof (leg_bound_pos K r T K_pos) as HL.
  pose proof gamma1_nonneg as Hg. pose proof const_xx_nonneg as Hxx.
  pose proof const_xxx_nonneg as Hxxx.
  pose proof (const_tt_nonneg K r q sigma T K_pos sigma_pos) as Htt.
  pose proof (sq_nonneg r). pose proof (sq_nonneg sigma).
  pose proof (Rabs_pos r).
  set (a0 := 3 * (r * r) * leg_bound K r T).
  set (a1 := gamma1 r q sigma * leg_bound K r T).
  set (a2 := 3 / 2 * (sigma * sigma) * Rabs r * const_xx K r sigma T).
  set (a3 := 4 * (sigma * (sigma * sigma)) * const_xxx K r sigma T).
  set (a4 := const_tt K r q sigma T).
  assert (Ha0 : 0 <= a0) by (unfold a0; apply Rmult_le_pos; lra).
  assert (Ha1 : 0 <= a1) by (unfold a1; apply Rmult_le_pos; lra).
  assert (Ha2 : 0 <= a2).
  { unfold a2. apply Rmult_le_pos; [| assumption].
    apply Rmult_le_pos; [lra | assumption]. }
  assert (Ha3 : 0 <= a3).
  { unfold a3. apply Rmult_le_pos; [| assumption].
    assert (0 <= sigma * (sigma * sigma)) by (apply Rmult_le_pos; lra).
    lra. }
  assert (Ha4 : 0 <= a4) by exact Htt.
  apply Rle_trans with ((a0 + a1 + a2 + a3 + 2 * a4) * X).
  - replace (3 * (r * r) * (dt * dt) * leg_bound K r T)
      with (a0 * (dt * dt)) by (unfold a0; ring).
    replace (gamma1 r q sigma * (dt * dt) * leg_bound K r T)
      with (a1 * (dt * dt)) by (unfold a1; ring).
    replace (3 / 2 * (sigma * sigma) * Rabs r * (dt * dt)
             * (const_xx K r sigma T * W))
      with (a2 * (dt * dt * W)) by (unfold a2; ring).
    replace (4 * (const_xxx K r sigma T * (W * W))
             * (sigma * (sigma * sigma) * (s * (s * s))))
      with (a3 * X) by (unfold a3, X; ring).
    replace (a4 * (W * W * W) * (dt * dt))
      with (a4 * (dt * dt * (W * W * W))) by ring.
    assert (a0 * (dt * dt) <= a0 * X) by (apply Rmult_le_compat_l; lra).
    assert (a1 * (dt * dt) <= a1 * X) by (apply Rmult_le_compat_l; lra).
    assert (a2 * (dt * dt * W) <= a2 * X) by (apply Rmult_le_compat_l; lra).
    assert (a4 * (dt * dt * (W * W * W)) <= a4 * (2 * X))
      by (apply Rmult_le_compat_l; lra).
    lra.
  - assert (0 <= a0 + a1 + a2 + a3 + 2 * a4) by lra.
    apply Rle_trans
      with ((a0 + a1 + a2 + a3 + 2 * a4)
            * (s * (s * s) * (2 * (1 + / tau)))).
    + apply Rmult_le_compat_l; [assumption |].
      unfold X. apply Rmult_le_compat_l; lra.
    + right. unfold const_lte, a0, a1, a2, a3, a4.
      rewrite <- Hss. ring.
Qed.

End OneStepError.
(** ** The put function near maturity *)

Lemma limit_weight_range (delta : R) : 0 <= limit_weight delta <= 1.
Proof.
  unfold limit_weight. destruct (total_order_T delta 0) as [[?|?]|?]; lra.
Qed.

Lemma norm_cdf_monotone (x y : R) : x <= y -> norm_cdf x <= norm_cdf y.
Proof.
  intros [H | ->]; [left; apply norm_cdf_increasing; exact H | lra].
Qed.

Lemma tail_rate (z : R) : 0 < z -> norm_cdf (- z) <= 2 / (z * z).
Proof.
  intros Hz.
  eapply Rle_trans; [apply norm_cdf_lower_tail; lra |].
  assert (Hy : 0 < z * z / 2) by nra.
  replace (- (z * z) / 2) with (- (z * z / 2)) by field.
  rewrite exp_Ropp.
  replace (2 / (z * z)) with (/ (z * z / 2)) by (field; lra).
  apply Rinv_le_contravar; [exact Hy |].
  pose proof (exp_ineq1_le (z * z / 2)). lra.
Qed.

Lemma sqrt_lt_sq (s t : R) : 0 <= s -> 0 < t -> s < t * t -> sqrt s < t.
Proof.
  intros Hs Ht Hlt.
  rewrite <- (sqrt_square t) by lra.
  apply sqrt_lt_1; nra.
Qed.

Section CdfLimit.

Variables sigma delta m : R.
Hypothesis sigma_pos : 0 < sigma.

Let arg (s : R) : R := (delta + m * s) / (sigma * sqrt s).

Lemma cdf_limit_at_money :
  delta = 0 ->
  forall eps, 0 < eps ->
  exists s0, 0 < s0 /\
    forall s, 0 < s < s0 ->
      Rabs (norm_cdf (- arg s) - limit_weight delta) < eps.
Proof.
  intros Hd eps Heps.
  pose proof (Rabs_pos m) as Hm.
  set (t := eps * sigma / (Rabs m + 1)).
  assert (Ht : 0 < t).
  { unfold t. apply Rdiv_lt_0_compat; [| lra].
    apply Rmult_lt_0_compat; lra. }
  exists (t * t). split; [nra |].
  intros s [Hs Hlt].
  assert (Hq : 0 < sqrt s) by (apply sqrt_lt_R0; exact Hs).
  pose proof (sqrt_lt_sq s t ltac:(lra) Ht Hlt) as Hqt.
  assert (Hw : limit_weight delta = norm_cdf 0).
  { rewrite norm_cdf_0. unfold limit_weight.
    destruct (total_order_T delta 0) as [[?|?]|?]; lra. }
  rewrite Hw.
  assert (Ha : arg s = m / sigma * sqrt s).
  { unfold arg. rewrite Hd.
    replace s with (sqrt s * sqrt s) at 1 by (apply sqrt_sqrt; lra).
    field. lra. }
  set (a := arg s) in *.
  assert (Hab : Rabs a = Rabs m / sigma * sqrt s).
  { rewrite Ha. unfold Rdiv. rewrite !Rabs_mult.
    rewrite (Rabs_pos_eq (/ sigma))
      by (left; apply Rinv_0_lt_compat; exact sigma_pos).
    rewrite (Rabs_pos_eq (sqrt s)) by lra. reflexivity. }
  pose proof (mvt_bound norm_cdf norm_pdf (- Rabs a) (Rabs a) (1 / 2)
                (fun c _ => norm_cdf_derivable_pt_lim c)) as Hmv.
  assert (Hpdf : forall c, - Rabs a <= c <= Rabs a ->
                 Rabs (norm_pdf c) <= 1 / 2).
  { intros c _. rewrite Rabs_pos_eq by (left; apply norm_pdf_pos).
    apply norm_pdf_le_1. }
  pose proof (Rabs_pos a) as Ha0. pose proof (Rle_abs a) as Ha1.
  pose proof (Rle_abs (- a)) as Ha2. rewrite Rabs_Ropp in Ha2.
  specialize (Hmv Hpdf 0 (- a) ltac:(lra) ltac:(lra)).
  rewrite Rminus_0_r, Rabs_Ropp in Hmv.
  eapply Rle_lt_trans; [exact Hmv |].
  rewrite Hab.
  assert (Hinv : 0 < / sigma) by (apply Rinv_0_lt_compat; exact sigma_pos).
  assert (Hb : Rabs m / sigma * sqrt s <= Rabs m / sigma * t).
  { apply Rmult_le_compat_l; [| lra].
    apply Rmult_le_pos; lra. }
  assert (Hc : Rabs m / sigma * t = eps * (Rabs m / (Rabs m + 1))).
  { unfold t. field. lra. }
  assert (Hd1 : Rabs m / (Rabs m + 1) <= 1).
  { apply (Rmult_le_reg_r (Rabs m + 1)); [lra |].
    unfold Rdiv. rewrite Rmult_assoc, Rinv_l by lra. lra. }
  assert (eps * (Rabs m / (Rabs m + 1)) <= eps * 1)
    by (apply Rmult_le_compat_l; lra).
  lra.
Qed.

Lemma cdf_limit_away :
  delta <> 0 ->
  forall eps, 0 < eps ->
  exists s0, 0 < s0 /\
    forall s, 0 < s < s0 ->
      Rabs (norm_cdf (- arg s) - limit_weight delta) < eps.
Proof.
  intros Hd eps Heps.
  pose proof (Rabs_pos m) as Hm.
  set (c := Rabs delta).
  assert (Hc : 0 < c) by (apply Rabs_pos_lt; exact Hd).
  set (s1 := c / (2 * (Rabs m + 1))).
  set (s2 := eps * (c * c) / (8 * (sigma * sigma))).
  assert (Hs1 : 0 < s1) by (unfold s1; apply Rdiv_lt_0_compat; lra).
  assert (Hs2 : 0 < s2).
  { unfold s2. apply Rdiv_lt_0_compat; [| nra].
    apply Rmult_lt_0_compat; [lra | nra]. }
  exists (Rmin s1 s2). split; [apply Rmin_pos; assumption |].
  intros s [Hs Hlt].
  assert (Hlt1 : s < s1) by (eapply Rlt_le_trans; [exact Hlt | apply Rmin_l]).
  assert (Hlt2 : s < s2) by (eapply Rlt_le_trans; [exact Hlt | apply Rmin_r]).
  assert (Hq : 0 < sqrt s) by (apply sqrt_lt_R0; exact Hs).
  assert (Hqq : sqrt s * sqrt s = s) by (apply sqrt_sqrt; lra).
  (* the drift term is at most half the log-moneyness *)
  assert (Hms : Rabs (m * s) <= c / 2).
  { rewrite Rabs_mult, (Rabs_pos_eq s) by lra.
    assert (Rabs m * s <= (Rabs m + 1) * s1).
    { apply Rmult_le_compat; lra. }
    assert ((Rabs m + 1) * s1 = c / 2) by (unfold s1; field; lra).
    lra. }
  apply Rabs_le_both in Hms.
  set (z := c / (2 * (sigma * sqrt s))).
  assert (Hsq : 0 < sigma * sqrt s) by (apply Rmult_lt_0_compat; lra).
  assert (Hz : 0 < z) by (unfold z; apply Rdiv_lt_0_compat; lra).
  assert (Hrate : norm_cdf (- z) < eps).
  { eapply Rle_lt_trans; [apply tail_rate; exact Hz |].
    replace (2 / (z * z)) with (8 * (sigma * sigma) * s / (c * c)).
    - apply (Rmult_lt_reg_r (c * c)); [nra |].
      unfold Rdiv. rewrite Rmult_assoc, Rinv_l by nra.
      rewrite Rmult_1_r.
      assert (8 * (sigma * sigma) * s < 8 * (sigma * sigma) * s2)
        by (apply Rmult_lt_compat_l; [nra | lra]).
      assert (8 * (sigma * sigma) * s2 = eps * (c * c))
        by (unfold s2; field; lra).
      lra.
    - unfold z. rewrite <- Hqq at 1. field. lra. }
  pose proof (norm_cdf_range (- arg s)) as Hr.
  unfold limit_weight.
  destruct (total_order_T delta 0) as [[Hneg | Hz0] | Hpos].
  - (* below the strike: the argument tends to minus infinity *)
    assert (Hcd : c = - delta) by (unfold c; apply Rabs_left; lra).
    assert (Harg : arg s <= - z).
    { unfold arg, z.
      replace (- (c / (2 * (sigma * sqrt s))))
        with ((- c / 2) / (sigma * sqrt s)) by (field; lra).
      apply Rmult_le_compat_r; [left; apply Rinv_0_lt_compat; lra | lra]. }
    pose proof (norm_cdf_monotone _ _ Harg) as Hmono.
    rewrite norm_cdf_opp in Hr |- *.
    pose proof (norm_cdf_range (arg s)).
    replace (1 - norm_cdf (arg s) - 1) with (- norm_cdf (arg s)) by ring.
    rewrite Rabs_Ropp, Rabs_pos_eq by lra. lra.
  - contradiction.
  - assert (Hcd : c = delta) by (unfold c; apply Rabs_right; lra).
    assert (Harg : z <= arg s).
    { unfold arg, z.
      replace (c / (2 * (sigma * sqrt s)))
        with ((c / 2) / (sigma * sqrt s)) by (field; lra).
      apply Rmult_le_compat_r; [left; apply Rinv_0_lt_compat; lra | lra]. }
    pose proof (norm_cdf_monotone (- arg s) (- z) ltac:(lra)) as Hmono.
    rewrite Rminus_0_r, Rabs_pos_eq by lra. lra.
Qed.

Lemma cdf_limit :
  forall eps, 0 < eps ->
  exists s0, 0 < s0 /\
    forall s, 0 < s < s0 ->
      Rabs (norm_cdf (- ((delta + m * s) / (sigma * sqrt s)))
            - limit_weight delta) < eps.
Proof.
  destruct (Req_dec delta 0) as [H | H].
  - exact (cdf_limit_at_money H).
  - exact (cdf_limit_away H).
Qed.

End CdfLimit.

Section NearMaturity.

Variables K r q sigma : R.
Hypothesis K_pos : 0 < K.
Hypothesis sigma_pos : 0 < sigma.

Lemma put_payoff_weight (x : R) :
  put_payoff K x
  = K * limit_weight (x - ln K) - exp x * limit_weight (x - ln K).
Proof.
  unfold put_payoff, limit_weight.
  assert (HK : exp (ln K) = K) by (apply exp_ln; exact K_pos).
  destruct (total_order_T (x - ln K) 0) as [[Hlt | Heq] | Hgt].
  - assert (exp x < K).
    { rewrite <- HK. apply exp_increasing. lra. }
    rewrite Rmax_right by lra. ring.
  - replace x with (ln K) by lra. rewrite HK.
    rewrite Rmax_left by lra. field.
  - assert (K < exp x).
    { rewrite <- HK. apply exp_increasing. lra. }
    rewrite Rmax_left by lra. ring.
Qed.

Lemma put_payoff_range (x : R) : 0 <= put_payoff K x <= K.
Proof.
  unfold put_payoff. pose proof (exp_pos x). split.
  - apply Rmax_l.
  - apply Rmax_lub; lra.
Qed.

Lemma D2_form (s x : R) :
  D2 K r q sigma s x
  = (x - ln K + drift r q sigma * s) / (sigma * sqrt s).
Proof. reflexivity. Qed.

Lemma D1_form (s x : R) :
  0 < s ->
  D1 K r q sigma s x
  = (x - ln K + (drift r q sigma + sigma * sigma) * s) / (sigma * sqrt s).
Proof.
  intros Hs. unfold D1, D2.
  assert (Hq : 0 < sqrt s) by (apply sqrt_lt_R0; exact Hs).
  assert (Hqq : sqrt s * sqrt s = s) by (apply sqrt_sqrt; lra).
  set (t := sqrt s) in *. rewrite <- Hqq. field. lra.
Qed.

(** As the time to maturity tends to 0 the put function tends to the
    payoff. *)
Lemma put_fun_limit (x eps : R) :
  0 < eps ->
  exists s0, 0 < s0 /\
    forall s, 0 < s < s0 ->
      Rabs (put_fun K r q sigma s x - put_payoff K x) < eps.
Proof.
  intros Heps.
  set (P := K + exp x).
  pose proof (exp_pos x) as Hex.
  assert (HP : 0 < P) by (unfold P; lra).
  set (e1 := eps / (4 * P)).
  assert (He1 : 0 < e1) by (unfold e1; apply Rdiv_lt_0_compat; lra).
  destruct (cdf_limit sigma (x - ln K) (drift r q sigma) sigma_pos e1 He1)
    as (s2 & Hs2 & H2).
  destruct (cdf_limit sigma (x - ln K) (drift r q sigma + sigma * sigma)
              sigma_pos e1 He1) as (s1 & Hs1 & H1).
  pose proof (Rabs_pos r) as Hr. pose proof (Rabs_pos q) as Hq.
  set (s3 := e1 / (3 * (Rabs r + Rabs q + 1))).
  set (s4 := / (Rabs r + Rabs q + 1)).
  assert (Hs3 : 0 < s3) by (unfold s3; apply Rdiv_lt_0_compat; lra).
  assert (Hs4 : 0 < s4) by (unfold s4; apply Rinv_0_lt_compat; lra).
  exists (Rmin (Rmin s1 s2) (Rmin s3 s4)). split.
  { repeat apply Rmin_pos; assumption. }
  intros s [Hs Hlt].
  assert (L1 : s < s1).
  { eapply Rlt_le_trans; [exact Hlt |].
    eapply Rle_trans; [apply Rmin_l | apply Rmin_l]. }
  assert (L2 : s < s2).
  { eapply Rlt_le_trans; [exact Hlt |].
    eapply Rle_trans; [apply Rmin_l | apply Rmin_r]. }
  assert (L3 : s < s3).
  { eapply Rlt_le_trans; [exact Hlt |].
    eapply Rle_trans; [apply Rmin_r | apply Rmin_l]. }
  assert (L4 : s < s4).
  { eapply Rlt_le_trans; [exact Hlt |].
    eapply Rle_trans; [apply Rmin_r | apply Rmin_r]. }
  specialize (H1 s (conj Hs L1)). specialize (H2 s (conj Hs L2)).
  rewrite <- D1_form in H1 by exact Hs. rewrite <- D2_form in H2.
  (* the discount factors are close to 1 *)
  assert (Hsum : (Rabs r + Rabs q + 1) * s < 1).
  { apply (Rmult_lt_reg_r s4); [exact Hs4 |].
    unfold s4 at 1. rewrite Rmult_assoc, (Rmult_comm s), <- Rmult_assoc.
    rewrite Rinv_r, !Rmult_1_l by lra. exact L4. }
  assert (Hsum3 : 3 * (Rabs r + Rabs q + 1) * s < e1).
  { apply (Rmult_lt_reg_r (/ (3 * (Rabs r + Rabs q + 1)))).
    - apply Rinv_0_lt_compat. lra.
    - replace (3 * (Rabs r + Rabs q + 1) * s
               * / (3 * (Rabs r + Rabs q + 1))) with s by (field; lra).
      exact L3. }
  assert (Hrs : Rabs r * s <= 1) by nra.
  assert (Hqs : Rabs q * s <= 1) by nra.
  pose proof (step_disc_order1 r s Hs Hrs) as Dr.
  pose proof (step_disc_order1 q s Hs Hqs) as Dq.
  unfold step_disc in Dr, Dq.
  assert (Dr' : Rabs (exp (- r * s) - 1) < e1) by nra.
  assert (Dq' : Rabs (exp (- q * s) - 1) < e1) by nra.
  rewrite put_payoff_weight. unfold put_fun, leg_K, leg_S.
  set (lw := limit_weight (x - ln K)) in *.
  set (F2 := norm_cdf (- D2 K r q sigma s x)) in *.
  set (F1 := norm_cdf (- D1 K r q sigma s x)) in *.
  pose proof (norm_cdf_range (- D2 K r q sigma s x)) as R2.
  pose proof (norm_cdf_range (- D1 K r q sigma s x)) as R1.
  fold F2 in R2. fold F1 in R1.
  replace (exp (x - q * s)) with (exp x * exp (- q * s))
    by (rewrite <- exp_plus; f_equal; ring).
  set (dr := exp (- r * s) - 1) in *. set (dq := exp (- q * s) - 1) in *.
  replace (K * exp (- r * s) * F2 - exp x * exp (- q * s) * F1
           - (K * lw - exp x * lw))
    with (K * (dr * F2 + (F2 - lw)) - exp x * (dq * F1 + (F1 - lw)))
    by (unfold dr, dq; ring).
  assert (A2 : Rabs (dr * F2 + (F2 - lw)) < 2 * e1).
  { eapply Rle_lt_trans; [apply Rabs_triang |].
    rewrite Rabs_mult, (Rabs_pos_eq F2) by lra.
    pose proof (Rabs_pos dr).
    assert (Rabs dr * F2 <= Rabs dr * 1) by (apply Rmult_le_compat_l; lra).
    lra. }
  assert (A1 : Rabs (dq * F1 + (F1 - lw)) < 2 * e1).
  { eapply Rle_lt_trans; [apply Rabs_triang |].
    rewrite Rabs_mult, (Rabs_pos_eq F1) by lra.
    pose proof (Rabs_pos dq).
    assert (Rabs dq * F1 <= Rabs dq * 1) by (apply Rmult_le_compat_l; lra).
    lra. }
  unfold Rminus at 1.
  eapply Rle_lt_trans; [apply Rabs_triang |].
  rewrite Rabs_Ropp, !Rabs_mult.
  rewrite (Rabs_pos_eq K), (Rabs_pos_eq (exp x)) by lra.
  assert (K * Rabs (dr * F2 + (F2 - lw)) < K * (2 * e1))
    by (apply Rmult_lt_compat_l; lra).
  assert (exp x * Rabs (dq * F1 + (F1 - lw)) < exp x * (2 * e1))
    by (apply Rmult_lt_compat_l; lra).
  assert (K * (2 * e1) + exp x * (2 * e1) = eps / 2)
    by (unfold e1, P; field; lra).
  lra.
Qed.

End NearMaturity.

Section TimeRegularity.

Variables K r q sigma T : R.
Hypothesis K_pos : 0 < K.
Hypothesis sigma_pos : 0 < sigma.

Let L := leg_bound K r T.

Lemma const_time_nonneg : 0 <= const_time K r q T.
Proof.
  unfold const_time. pose proof (leg_bound_pos K r T K_pos).
  pose proof (Rabs_pos r). pose proof (Rabs_pos q).
  apply Rmult_le_pos; lra.
Qed.

Lemma const_root_pos : 0 < const_root K r sigma T.
Proof.
  unfold const_root. pose proof (leg_bound_pos K r T K_pos).
  apply Rmult_lt_0_compat; [exact H | lra].
Qed.

Lemma put_t_bound (x tau : R) :
  0 < tau <= T ->
  Rabs (put_t K r q sigma x tau)
  <= const_time K r q T + const_root K r sigma T * / (2 * sqrt tau).
Proof.
  intros Ht. unfold put_t, const_time, const_root. fold L.
  pose proof (leg_K_range K r q sigma T K_pos tau x Ht) as HK.
  pose proof (leg_S_range K r q sigma T K_pos sigma_pos tau x Ht) as HS.
  pose proof (leg_B_range K r q sigma T K_pos tau x Ht) as HB.
  fold L in HK, HS, HB.
  assert (Hq : 0 < sqrt tau) by (apply sqrt_lt_R0; lra).
  assert (Hv : 0 < / (2 * sqrt tau)) by (apply Rinv_0_lt_compat; lra).
  set (lK := leg_K K r q sigma tau x) in *.
  set (lS := leg_S K r q sigma tau x) in *.
  set (lB := leg_B K r q sigma tau x) in *.
  replace (sigma / (2 * sqrt tau)) with (sigma * / (2 * sqrt tau))
    by reflexivity.
  set (v := / (2 * sqrt tau)) in *.
  eapply Rle_trans; [apply Rabs_triang |].
  eapply Rle_trans;
    [apply Rplus_le_compat_r; apply Rabs_triang |].
  rewrite !Rabs_mult, Rabs_Ropp.
  rewrite (Rabs_pos_eq lK), (Rabs_pos_eq lS), (Rabs_pos_eq lB),
    (Rabs_pos_eq sigma), (Rabs_pos_eq v) by lra.
  pose proof (Rabs_pos r). pose proof (Rabs_pos q).
  assert (Rabs r * lK <= Rabs r * L) by (apply Rmult_le_compat_l; lra).
  assert (Rabs q * lS <= Rabs q * L) by (apply Rmult_le_compat_l; lra).
  assert (lB * (sigma * v) <= L * (sigma * v)).
  { apply Rmult_le_compat_r; [| lra].
    apply Rmult_le_pos; lra. }
  lra.
Qed.

Lemma majorant_deriv (c : R) :
  0 < c ->
  derivable_pt_lim (fun t => const_time K r q T * t + const_root K r sigma T *
      sqrt t) c
    (const_time K r q T * 1 + const_root K r sigma T * / (2 * sqrt c)).
Proof.
  intros Hc.
  apply (derivable_pt_lim_plus (fun t => const_time K r q T * t)
           (fun t => const_root K r sigma T * sqrt t)).
  - apply (derivable_pt_lim_scal id (const_time K r q T) c 1).
    apply derivable_pt_lim_id.
  - apply (derivable_pt_lim_scal sqrt (const_root K r sigma T) c (/ (2 * sqrt
      c))).
    apply derivable_pt_lim_sqrt. exact Hc.
Qed.

Lemma put_fun_time_increment (x s tau : R) :
  0 < s -> s < tau -> tau <= T ->
  Rabs (put_fun K r q sigma tau x - put_fun K r q sigma s x)
  <= const_time K r q T * (tau - s) + const_root K r sigma T
      * (sqrt tau - sqrt s).
Proof.
  intros Hs Hlt HT.
  set (phi := fun t => const_time K r q T * t + const_root K r sigma T * sqrt
      t).
  set (phi' := fun c => const_time K r q T * 1 + const_root K r sigma T * / (2
      * sqrt c)).
  set (V := fun t => put_fun K r q sigma t x).
  assert (Hup : V tau - V s <= phi tau - phi s).
  { destruct (MVT_cor2 (fun t => V t - phi t)
                (fun c => put_t K r q sigma x c - phi' c) s tau Hlt)
      as (c & Hc & Hcr).
    - intros c Hc. apply derivable_pt_lim_minus.
      + apply put_fun_deriv_t; [exact K_pos | exact sigma_pos | lra].
      + apply majorant_deriv. lra.
    - pose proof (put_t_bound x c ltac:(lra)) as Hb.
      apply Rabs_le_both in Hb.
      assert (put_t K r q sigma x c - phi' c <= 0) by (unfold phi'; lra).
      assert ((put_t K r q sigma x c - phi' c) * (tau - s) <= 0).
      { rewrite <- (Rmult_0_l (tau - s)).
        apply Rmult_le_compat_r; lra. }
      lra. }
  assert (Hdn : - (phi tau - phi s) <= V tau - V s).
  { destruct (MVT_cor2 (fun t => V t + phi t)
                (fun c => put_t K r q sigma x c + phi' c) s tau Hlt)
      as (c & Hc & Hcr).
    - intros c Hc. apply derivable_pt_lim_plus.
      + apply put_fun_deriv_t; [exact K_pos | exact sigma_pos | lra].
      + apply majorant_deriv. lra.
    - pose proof (put_t_bound x c ltac:(lra)) as Hb.
      apply Rabs_le_both in Hb.
      assert (0 <= put_t K r q sigma x c + phi' c) by (unfold phi'; lra).
      assert (0 <= (put_t K r q sigma x c + phi' c) * (tau - s))
        by (apply Rmult_le_pos; lra).
      lra. }
  apply Rabs_le. unfold phi, V in *. lra.
Qed.

(** Distance of the put function to the payoff. *)
Lemma put_fun_near_payoff (x tau : R) :
  0 < tau <= T ->
  Rabs (put_fun K r q sigma tau x - put_payoff K x)
  <= const_time K r q T * tau + const_root K r sigma T * sqrt tau.
Proof.
  intros Ht. apply le_epsilon. intros eps Heps.
  destruct (put_fun_limit K r q sigma K_pos sigma_pos x eps Heps)
    as (s0 & Hs0 & Hlim).
  set (s := Rmin s0 tau / 2).
  assert (Hmin : 0 < Rmin s0 tau) by (apply Rmin_pos; lra).
  pose proof (Rmin_l s0 tau). pose proof (Rmin_r s0 tau).
  assert (Hs : 0 < s < s0) by (unfold s; lra).
  assert (Hst : s < tau) by (unfold s; lra).
  specialize (Hlim s Hs).
  pose proof (put_fun_time_increment x s tau ltac:(lra) Hst ltac:(lra))
    as Hinc.
  replace (put_fun K r q sigma tau x - put_payoff K x)
    with ((put_fun K r q sigma tau x - put_fun K r q sigma s x)
          + (put_fun K r q sigma s x - put_payoff K x)) by ring.
  eapply Rle_trans; [apply Rabs_triang |].
  pose proof const_time_nonneg. pose proof const_root_pos.
  assert (0 <= sqrt s) by apply sqrt_pos.
  assert (const_time K r q T * (tau - s) <= const_time K r q T * tau)
    by (apply Rmult_le_compat_l; lra).
  assert (const_root K r sigma T * (sqrt tau - sqrt s) <= const_root K r sigma
      T * sqrt tau)
    by (apply Rmult_le_compat_l; lra).
  lra.
Qed.

Lemma put_payoff_step (x e : R) :
  0 <= e ->
  0 <= put_payoff K x - put_payoff K (x + e) <= K * (exp e - 1).
Proof.
  intros He. unfold put_payoff.
  pose proof (exp_pos x) as Hx.
  assert (H1 : 1 <= exp e).
  { rewrite <- exp_0. destruct He as [He | <-]; [| lra].
    left. apply exp_increasing. exact He. }
  rewrite exp_plus.
  assert (Hmono : exp x <= exp x * exp e) by nra.
  assert (HKe : 0 <= K * (exp e - 1)) by (apply Rmult_le_pos; lra).
  unfold Rmax.
  destruct (Rle_dec 0 (K - exp x)), (Rle_dec 0 (K - exp x * exp e));
    try lra.
  - split; [lra |].
    replace (K - exp x - (K - exp x * exp e)) with (exp x * (exp e - 1))
      by ring.
    apply Rmult_le_compat_r; lra.
  - split; [lra |].
    assert (exp x * (exp e - 1) <= K * (exp e - 1))
      by (apply Rmult_le_compat_r; lra).
    lra.
Qed.

Lemma const_term_nonneg : 0 <= const_term K r q sigma T.
Proof.
  unfold const_term. pose proof const_time_nonneg. pose proof const_root_pos.
  pose proof (Rabs_pos r).
  assert (0 <= 12 * K * sigma) by (apply Rmult_le_pos; lra).
  assert (0 <= 3 * Rabs r * K) by (apply Rmult_le_pos; lra).
  lra.
Qed.

Variable dt : R.
Hypothesis dt_pos : 0 < dt.
Hypothesis dt_le_1 : dt <= 1.
Hypothesis dt_le_T : dt <= T.
Hypothesis small_r : Rabs r * dt <= 1.
Hypothesis small_h : step_h sigma dt <= 1.
Hypothesis p_unit : 0 <= step_p r q sigma dt <= 1.

(** The first backward step, from the payoff. *)
Lemma terminal_step_error (x : R) :
  Rabs (step_disc r dt
        * (step_p r q sigma dt * put_payoff K (x + step_h sigma dt)
           + (1 - step_p r q sigma dt) * put_payoff K (x - step_h sigma dt))
        - put_fun K r q sigma dt x)
  <= const_term K r q sigma T * sqrt dt.
Proof.
  set (h := step_h sigma dt) in *. set (p := step_p r q sigma dt) in *.
  set (disc := step_disc r dt).
  assert (Hh : 0 < h) by (apply step_h_pos; assumption).
  pose proof (put_payoff_step x h ltac:(lra)) as Gup.
  pose proof (put_payoff_step (x - h) h ltac:(lra)) as Gdn.
  replace (x - h + h) with x in Gdn by ring.
  pose proof (exp_order1 h ltac:(lra)) as He.
  rewrite (Rabs_pos_eq h) in He by lra. apply Rabs_le_both in He.
  assert (HKe : K * (exp h - 1) <= 3 * K * h).
  { replace (3 * K * h) with (K * (3 * h)) by ring.
    apply Rmult_le_compat_l; lra. }
  pose proof (put_payoff_range K K_pos x) as Gr.
  pose proof (put_fun_near_payoff x dt ltac:(lra)) as Hnear.
  pose proof (step_disc_order1 r dt dt_pos small_r) as Hd1.
  pose proof (step_disc_le_4 r dt dt_pos small_r) as Hd4.
  pose proof (step_disc_pos r dt) as Hd0.
  fold disc in Hd1, Hd4, Hd0.
  set (g := put_payoff K x) in *.
  set (gu := put_payoff K (x + h)) in *.
  set (gd := put_payoff K (x - h)) in *.
  set (V := put_fun K r q sigma dt x) in *.
  replace (disc * (p * gu + (1 - p) * gd) - V)
    with (disc * (p * (gu - g) + (1 - p) * (gd - g))
          + (disc - 1) * g + - (V - g)) by ring.
  assert (E1 : Rabs (disc * (p * (gu - g) + (1 - p) * (gd - g)))
               <= 4 * (3 * K * h)).
  { rewrite Rabs_mult, (Rabs_pos_eq disc) by lra.
    assert (Rabs (p * (gu - g) + (1 - p) * (gd - g)) <= 3 * K * h).
    { eapply Rle_trans; [apply Rabs_triang |].
      rewrite !Rabs_mult, (Rabs_pos_eq p), (Rabs_pos_eq (1 - p)) by lra.
      assert (Rabs (gu - g) <= 3 * K * h) by (apply Rabs_le; lra).
      assert (Rabs (gd - g) <= 3 * K * h) by (apply Rabs_le; lra).
      assert (p * Rabs (gu - g) <= p * (3 * K * h))
        by (apply Rmult_le_compat_l; lra).
      assert ((1 - p) * Rabs (gd - g) <= (1 - p) * (3 * K * h))
        by (apply Rmult_le_compat_l; lra).
      lra. }
    pose proof (Rabs_pos (p * (gu - g) + (1 - p) * (gd - g))).
    apply Rmult_le_compat; lra. }
  assert (E2 : Rabs ((disc - 1) * g) <= 3 * Rabs r * dt * K).
  { rewrite Rabs_mult, (Rabs_pos_eq g) by lra.
    pose proof (Rabs_pos (disc - 1)).
    apply Rmult_le_compat; lra. }
  eapply Rle_trans; [apply Rabs_triang |].
  eapply Rle_trans; [apply Rplus_le_compat_r; apply Rabs_triang |].
  rewrite Rabs_Ropp.
  assert (Hs : 0 < sqrt dt) by (apply sqrt_lt_R0; exact dt_pos).
  assert (Hss : sqrt dt * sqrt dt = dt) by (apply sqrt_sqrt; lra).
  assert (Hs1 : sqrt dt <= 1).
  { rewrite <- sqrt_1. apply sqrt_le_1; lra. }
  assert (Hdt : dt <= sqrt dt) by nra.
  pose proof const_time_nonneg as Hct. pose proof const_root_pos as Hcr.
  pose proof (Rabs_pos r) as Hr.
  assert (3 * Rabs r * dt * K <= 3 * Rabs r * K * sqrt dt).
  { replace (3 * Rabs r * dt * K) with (3 * Rabs r * K * dt) by ring.
    apply Rmult_le_compat_l; [| exact Hdt].
    apply Rmult_le_pos; lra. }
  assert (const_time K r q T * dt <= const_time K r q T * sqrt dt)
    by (apply Rmult_le_compat_l; lra).
  assert (Hh' : h = sigma * sqrt dt) by reflexivity.
  unfold const_term. rewrite !Rmult_plus_distr_r.
  replace (12 * K * sigma * sqrt dt) with (4 * (3 * K * h))
    by (rewrite Hh'; ring).
  lra.
Qed.

End TimeRegularity.
(** ** The lattice as a recursion on layers *)

Section IndexedLoops.

Context {St : Type}.

Lemma for_range_indexed (R : nat -> St -> Prop)
      (body : nat -> St -> result St) :
  forall count start s,
    (forall i s, (start <= i < start + count)%nat -> R i s ->
                 returns (R (S i)) (body i s)) ->
    R start s ->
    returns (R (start + count)%nat) (for_range start count body s).
Proof.
  induction count as [| c IH]; intros start s Hbody Hs; simpl.
  - exists s. rewrite Nat.add_0_r. auto.
  - apply returns_bind with (P := R (S start)).
    + apply Hbody; [lia | exact Hs].
    + intros s' Hs'.
      replace (start + S c)%nat with (S start + c)%nat by lia.
      apply IH; [| exact Hs'].
      intros i s0 Hi. apply Hbody. lia.
Qed.

Lemma for_down_indexed (Q : nat -> St -> Prop)
      (body : nat -> St -> result St) :
  forall k s,
    (forall j s, (j < k)%nat -> Q (S j) s -> returns (Q j) (body j s)) ->
    Q k s -> returns (Q 0%nat) (for_down k body s).
Proof.
  induction k as [| j IH]; intros s Hbody Hs; simpl.
  - exists s. auto.
  - apply returns_bind with (P := Q j).
    + apply Hbody; [lia | exact Hs].
    + intros s' Hs'. apply IH; [| exact Hs'].
      intros i s0 Hi. apply Hbody. lia.
Qed.

End IndexedLoops.

Lemma upd_nth_other (a : array) (x : R) :
  forall i k, i <> k -> nth i (upd a k x) 0 = nth i a 0.
Proof.
  induction a as [| y tl IH]; intros i k Hik; [destruct k; reflexivity |].
  destruct k as [| k'], i as [| i']; simpl; try reflexivity.
  - contradiction.
  - apply IH. congruence.
Qed.

Lemma exp_scale (x : R) (n : nat) : exp x ^ n = exp (INR n * x).
Proof.
  induction n as [| n IH].
  - simpl. rewrite Rmult_0_l, exp_0. reflexivity.
  - rewrite S_INR. simpl pow. rewrite IH, <- exp_plus. f_equal. ring.
Qed.

Section LayerContents.

Variable self : BinomialTree.t.

Let n := BinomialTree.n self.

(** The arrays built by the first two loops of [price]. *)
Lemma terminal_prices_contents :
  returns (fun S_T =>
             length S_T = (n + 1)%nat
             /\ forall i, (i <= n)%nat ->
                  nth i S_T 0
                  = BinomialTree.S self * BinomialTree.u self ^ (n - i)
                    * BinomialTree.d self ^ i)
          (BinomialTree.terminal_prices self).
Proof.
  unfold BinomialTree.terminal_prices. fold n.
  pose (R := fun (k : nat) (a : array) =>
               length a = (n + 1)%nat
               /\ forall i, (i < k)%nat ->
                    nth i a 0
                    = BinomialTree.S self * BinomialTree.u self ^ (n - i)
                      * BinomialTree.d self ^ i).
  assert (H : returns (R (0 + (n + 1))%nat)
                (for_range 0 (n + 1)
                   (fun i S_T =>
                      setitem S_T i
                        (BinomialTree.S self * BinomialTree.u self ^ (n - i)
                         * BinomialTree.d self ^ i))
                   (zeros (n + 1)))).
  { apply for_range_indexed.
    - intros i a Hi [La Ha].
      rewrite setitem_in_range by lia.
      eexists. split; [reflexivity |]. split.
      + rewrite upd_length. exact La.
      + intros k Hk. destruct (Nat.eq_dec k i) as [-> | Hne].
        * apply upd_nth_same. lia.
        * rewrite upd_nth_other by exact Hne. apply Ha. lia.
    - split; [apply zeros_length | intros i Hi; lia]. }
  destruct H as (a & Ha & La & Hc).
  exists a. split; [exact Ha |]. split; [exact La |].
  intros i Hi. apply Hc. lia.
Qed.

Lemma terminal_values_contents (S_T : array) :
  length S_T = (n + 1)%nat ->
  returns (fun V =>
             length V = (n + 1)%nat
             /\ forall i, (i <= n)%nat ->
                  nth i V 0 = BinomialTree.payoff self (nth i S_T 0))
          (BinomialTree.terminal_values self S_T).
Proof.
  intros LS. unfold BinomialTree.terminal_values. fold n.
  pose (R := fun (k : nat) (a : array) =>
               length a = (n + 1)%nat
               /\ forall i, (i < k)%nat ->
                    nth i a 0 = BinomialTree.payoff self (nth i S_T 0)).
  assert (H : returns (R (0 + (n + 1))%nat)
                (for_range 0 (n + 1)
                   (fun i V =>
                      s <- getitem S_T i ;;
                      setitem V i (BinomialTree.payoff self s))
                   (zeros (n + 1)))).
  { apply for_range_indexed.
    - intros i a Hi [La Ha].
      rewrite getitem_in_range by lia. simpl bind.
      rewrite setitem_in_range by lia.
      eexists. split; [reflexivity |]. split.
      + rewrite upd_length. exact La.
      + intros k Hk. destruct (Nat.eq_dec k i) as [-> | Hne].
        * apply upd_nth_same. lia.
        * rewrite upd_nth_other by exact Hne. apply Ha. lia.
    - split; [apply zeros_length | intros i Hi; lia]. }
  destruct H as (a & Ha & La & Hc).
  exists a. split; [exact Ha |]. split; [exact La |].
  intros i Hi. apply Hc. lia.
Qed.

Hypothesis is_european : BinomialTree.etype self = european.

Variable tgt : nat -> nat -> R.
Variable B : nat -> R.

Hypothesis step_bound :
  forall j i a b, (j < n)%nat -> (i <= j)%nat ->
    Rabs (a - tgt (S j) i) <= B (S j) ->
    Rabs (b - tgt (S j) (S i)) <= B (S j) ->
    Rabs (BinomialTree.discount self
          * (BinomialTree.p self * a + (1 - BinomialTree.p self) * b)
          - tgt j i) <= B j.

Let layer (j : nat) (V : array) : Prop :=
  length V = (n + 1)%nat
  /\ forall i, (i <= j)%nat -> Rabs (nth i V 0 - tgt j i) <= B j.

Let partial (j k : nat) (V : array) : Prop :=
  length V = (n + 1)%nat
  /\ (forall i, (i < k)%nat -> Rabs (nth i V 0 - tgt j i) <= B j)
  /\ (forall i, (k <= i <= S j)%nat ->
        Rabs (nth i V 0 - tgt (S j) i) <= B (S j)).

(** Backward induction keeps every layer within its bound of the target. *)
Lemma backward_induction_tracks (V : array) :
  layer n V ->
  returns (layer 0) (BinomialTree.backward_induction self V).
Proof.
  intros HV. unfold BinomialTree.backward_induction. fold n.
  apply (for_down_indexed layer); [| exact HV].
  intros j a Hj [La Ha].
  assert (H : returns (partial j (0 + (j + 1))%nat)
                (for_range 0 (j + 1) (BinomialTree.node self j) a)).
  { apply for_range_indexed.
    - intros i b Hi (Lb & Hlo & Hhi).
      rewrite node_in_range by lia.
      eexists. split; [reflexivity |].
      unfold partial. rewrite upd_length. split; [exact Lb |]. split.
      + intros k Hk. destruct (Nat.eq_dec k i) as [-> | Hne].
        * rewrite upd_nth_same by lia.
          unfold node_value. rewrite is_european.
          apply step_bound; [exact Hj | lia | apply Hhi; lia |].
          replace (S i) with (i + 1)%nat by lia. apply Hhi. lia.
        * rewrite upd_nth_other by exact Hne. apply Hlo. lia.
      + intros k Hk. rewrite upd_nth_other by lia. apply Hhi. lia.
    - split; [exact La |]. split; [intros i Hi; lia |].
      intros i Hi. apply Ha. lia. }
  destruct H as (b & Hb & Lb & Hlo & _).
  exists b. split; [exact Hb |]. split; [exact Lb |].
  intros i Hi. apply Hlo. lia.
Qed.

Lemma price_tracks :
  (forall i, (i <= n)%nat ->
     Rabs (BinomialTree.payoff self
             (BinomialTree.S self * BinomialTree.u self ^ (n - i)
              * BinomialTree.d self ^ i) - tgt n i) <= B n) ->
  returns (fun v => Rabs (v - tgt 0 0) <= B 0%nat) (BinomialTree.price self).
Proof.
  intros Hterm. unfold BinomialTree.price.
  eapply returns_bind; [apply terminal_prices_contents |].
  intros S_T [LS HS]. cbv beta.
  eapply returns_bind; [apply terminal_values_contents; exact LS |].
  intros V [LV HV]. cbv beta.
  eapply returns_bind; [apply backward_induction_tracks |].
  - split; [exact LV |]. intros i Hi.
    rewrite HV, HS by exact Hi. apply Hterm. exact Hi.
  - intros V' [LV' HV']. cbv beta.
    rewrite getitem_in_range by lia.
    eexists. split; [reflexivity |]. apply HV'. lia.
Qed.

End LayerContents.
(** ** Convergence of the European lattice price *)

Lemma harmonic_nonneg (m : nat) : 0 <= harmonic m.
Proof.
  induction m as [| k IH]; cbn [harmonic]; [lra |].
  assert (0 < / INR (S k)).
  { apply Rinv_0_lt_compat. apply lt_0_INR. lia. }
  lra.
Qed.

Section Targets.

Variables K r q sigma : R.
Variable ot : option_type.

Variable dt : R.

Variable T : R.

Hypothesis K_pos : 0 < K.
Hypothesis sigma_pos : 0 < sigma.
Hypothesis dt_pos : 0 < dt.

Lemma forward_part_0 (x : R) : forward_part K r q 0 x = exp x - K.
Proof.
  unfold forward_part. rewrite !Rmult_0_r, Rminus_0_r, exp_0. ring.
Qed.

(** The lattice step reproduces the forward part exactly. *)
Lemma forward_part_step (tau x : R) :
  step_disc r dt
  * (step_p r q sigma dt * forward_part K r q tau (x + step_h sigma dt)
     + (1 - step_p r q sigma dt) * forward_part K r q tau (x - step_h sigma dt))
  = forward_part K r q (tau + dt) x.
Proof.
  pose proof (step_forward r q sigma dt sigma_pos dt_pos) as Hf.
  unfold forward_part.
  set (p := step_p r q sigma dt) in *. set (h := step_h sigma dt) in *.
  replace (exp (x + h - q * tau)) with (exp (x - q * tau) * step_u sigma dt)
    by (unfold step_u; fold h; rewrite <- exp_plus; f_equal; ring).
  replace (exp (x - h - q * tau)) with (exp (x - q * tau) * step_d sigma dt)
    by (rewrite step_d_exp; fold h; rewrite <- exp_plus; f_equal; ring).
  replace (p * (exp (x - q * tau) * step_u sigma dt - K * exp (- r * tau))
           + (1 - p)
             * (exp (x - q * tau) * step_d sigma dt - K * exp (- r * tau)))
    with (exp (x - q * tau)
          * (p * step_u sigma dt + (1 - p) * step_d sigma dt)
          - K * exp (- r * tau)) by ring.
  rewrite Hf. unfold step_disc, step_a.
  rewrite Rmult_minus_distr_l.
  f_equal.
  - rewrite (Rmult_comm (exp (x - q * tau))), <- Rmult_assoc.
    rewrite <- !exp_plus. f_equal. ring.
  - rewrite (Rmult_comm K), <- Rmult_assoc, <- exp_plus.
    rewrite (Rmult_comm K). f_equal. f_equal. ring.
Qed.

Lemma payoff_fun_forward (x : R) :
  payoff_fun K ot x = put_payoff K x + side ot * forward_part K r q 0 x.
Proof. unfold payoff_fun. rewrite forward_part_0. reflexivity. Qed.

Lemma layer_bound_nonneg (m : nat) : 0 <= layer_bound K r q sigma dt T m.
Proof.
  destruct m as [| k]; [simpl; lra |].
  unfold layer_bound.
  pose proof (const_term_nonneg K r q sigma T K_pos sigma_pos).
  pose proof (const_lte_nonneg K r q sigma T K_pos sigma_pos).
  pose proof (harmonic_nonneg (S k)). pose proof (pos_INR (S k)).
  apply Rmult_le_pos.
  - apply pow_le. left. apply exp_pos.
  - apply Rmult_le_pos; [apply sqrt_pos |].
    assert (0 <= dt * INR (S k)) by (apply Rmult_le_pos; lra).
    assert (0 <= const_lte K r q sigma T
                 * (dt * INR (S k) + 2 * harmonic (S k)))
      by (apply Rmult_le_pos; lra).
    lra.
Qed.

Variable n : nat.
Hypothesis n_dt : INR n * dt = T.
Hypothesis dt_le_1 : dt <= 1.
Hypothesis small_r : Rabs r * dt <= 1.
Hypothesis small_rq : Rabs (r - q) * dt <= 1.
Hypothesis small_h : step_h sigma dt <= 1.
Hypothesis p_unit : 0 <= step_p r q sigma dt <= 1.

Lemma step_disc_le_growth : step_disc r dt <= exp (Rabs r * dt).
Proof.
  unfold step_disc.
  assert (H : - r * dt <= Rabs r * dt).
  { pose proof (Rle_abs (- r)) as Ha. rewrite Rabs_Ropp in Ha.
    apply Rmult_le_compat_r; lra. }
  destruct H as [H | ->]; [left; apply exp_increasing; exact H | lra].
Qed.

Lemma growth_ge_1 : 1 <= exp (Rabs r * dt).
Proof.
  rewrite <- exp_0.
  assert (H : 0 <= Rabs r * dt)
    by (apply Rmult_le_pos; [apply Rabs_pos | lra]).
  destruct H as [H | <-]; [left; apply exp_increasing; exact H | lra].
Qed.

(** One backward step keeps the distance to the target within the bound. *)
Lemma layer_step (m : nat) (x a b : R) :
  (S m <= n)%nat ->
  Rabs (a - layer_value K r q sigma ot dt m (x + step_h sigma dt))
      <= layer_bound K r q sigma dt T m ->
  Rabs (b - layer_value K r q sigma ot dt m (x - step_h sigma dt))
      <= layer_bound K r q sigma dt T m ->
  Rabs (step_disc r dt
        * (step_p r q sigma dt * a + (1 - step_p r q sigma dt) * b)
        - layer_value K r q sigma ot dt (S m) x)
  <= layer_bound K r q sigma dt T (S m).
Proof.
  intros Hm Ha Hb.
  set (p := step_p r q sigma dt) in *. set (h := step_h sigma dt) in *.
  set (disc := step_disc r dt).
  set (rho := exp (Rabs r * dt)).
  pose proof step_disc_le_growth as Hdr. fold disc rho in Hdr.
  pose proof growth_ge_1 as Hrho. fold rho in Hrho.
  pose proof (step_disc_pos r dt) as Hd0. fold disc in Hd0.
  pose proof (const_term_nonneg K r q sigma T K_pos sigma_pos) as Hct.
  pose proof (const_lte_nonneg K r q sigma T K_pos sigma_pos) as Hcl.
  assert (Hs : 0 < sqrt dt) by (apply sqrt_lt_R0; exact dt_pos).
  assert (HnT : INR (S m) * dt <= T).
  { rewrite <- n_dt. apply Rmult_le_compat_r; [lra |].
    apply le_INR. exact Hm. }
  destruct m as [| k].
  - (* the first step, from the payoff *)
    simpl layer_bound in Ha, Hb.
    assert (Ea : a = layer_value K r q sigma ot dt 0 (x + h)).
    { pose proof (Rabs_pos (a - layer_value K r q sigma ot dt 0 (x + h))).
      assert (E : Rabs (a - layer_value K r q sigma ot dt 0 (x + h)) = 0)
          by lra.
      destruct (Req_dec (a - layer_value K r q sigma ot dt 0 (x + h)) 0)
          as [Z | NZ];
        [lra | apply Rabs_no_R0 in NZ; contradiction]. }
    assert (Eb : b = layer_value K r q sigma ot dt 0 (x - h)).
    { pose proof (Rabs_pos (b - layer_value K r q sigma ot dt 0 (x - h))).
      assert (E : Rabs (b - layer_value K r q sigma ot dt 0 (x - h)) = 0)
          by lra.
      destruct (Req_dec (b - layer_value K r q sigma ot dt 0 (x - h)) 0)
          as [Z | NZ];
        [lra | apply Rabs_no_R0 in NZ; contradiction]. }
    rewrite Ea, Eb. cbn [layer_value].
    rewrite !payoff_fun_forward. unfold value_fun.
    replace (INR 1) with 1 by reflexivity. rewrite Rmult_1_l.
    pose proof (forward_part_step 0 x) as Hfw.
    fold p h disc in Hfw. rewrite Rplus_0_l in Hfw.
    replace (disc
             * (p * (put_payoff K (x + h)
                     + side ot * forward_part K r q 0 (x + h))
                + (1 - p)
                  * (put_payoff K (x - h)
                     + side ot * forward_part K r q 0 (x - h)))
             - (put_fun K r q sigma dt x + side ot * forward_part K r q dt x))
      with (disc * (p * put_payoff K (x + h)
                    + (1 - p) * put_payoff K (x - h))
            - put_fun K r q sigma dt x)
      by (rewrite <- Hfw; ring).
    replace (INR 1) with 1 in HnT by reflexivity.
    eapply Rle_trans;
      [apply (terminal_step_error K r q sigma T K_pos sigma_pos dt dt_pos
                dt_le_1 ltac:(lra) small_r small_h p_unit x) |].
    unfold layer_bound. fold rho. cbn [harmonic]. simpl INR.
    rewrite pow_1.
    assert (0 <= const_lte K r q sigma T * (dt * 1 + 2 * (0 + / 1))).
    { apply Rmult_le_pos; [exact Hcl |]. rewrite Rinv_1. lra. }
    set (X := const_lte K r q sigma T * (dt * 1 + 2 * (0 + / 1))) in *.
    assert (const_term K r q sigma T * sqrt dt
            <= sqrt dt * (const_term K r q sigma T + X)).
    { rewrite (Rmult_comm (const_term _ _ _ _ _)).
      apply Rmult_le_compat_l; lra. }
    assert (0 <= sqrt dt * (const_term K r q sigma T + X))
      by (apply Rmult_le_pos; lra).
    assert (1 * (sqrt dt * (const_term K r q sigma T + X))
            <= rho * (sqrt dt * (const_term K r q sigma T + X)))
      by (apply Rmult_le_compat_r; lra).
    lra.
  - (* a later step: consistency plus the inherited error *)
    set (m := S k) in *.
    assert (Hm1 : 1 <= INR m).
    { replace 1 with (INR 1) by reflexivity. apply le_INR. unfold m. lia. }
    set (tau := INR m * dt).
    assert (Htau : dt <= tau).
    { unfold tau. rewrite <- (Rmult_1_l dt) at 1.
      apply Rmult_le_compat_r; lra. }
    assert (Htau' : tau + dt <= T).
    { unfold tau. rewrite S_INR in HnT. lra. }
    change (layer_value K r q sigma ot dt m (x + h))
        with (value_fun K r q sigma ot tau (x + h)) in Ha.
    change (layer_value K r q sigma ot dt m (x - h))
        with (value_fun K r q sigma ot tau (x - h)) in Hb.
    replace (layer_value K r q sigma ot dt (S m) x)
        with (value_fun K r q sigma ot (tau + dt) x)
      by (cbn [layer_value]; unfold tau; rewrite (S_INR m); f_equal; ring).
    pose proof (one_step_error K r q sigma T K_pos sigma_pos dt tau dt_pos
                  dt_le_1 Htau Htau' small_r small_rq small_h p_unit x)
      as Hlte.
    fold p h disc in Hlte.
    pose proof (forward_part_step tau x) as Hfw. fold p h disc in Hfw.
    unfold value_fun in *.
    set (Vu := put_fun K r q sigma tau (x + h)) in *.
    set (Vd := put_fun K r q sigma tau (x - h)) in *.
    set (V := put_fun K r q sigma (tau + dt) x) in *.
    set (Fu := forward_part K r q tau (x + h)) in *.
    set (Fd := forward_part K r q tau (x - h)) in *.
    replace (disc * (p * a + (1 - p) * b)
             - (V + side ot * forward_part K r q (tau + dt) x))
      with (disc * (p * (a - (Vu + side ot * Fu))
                    + (1 - p) * (b - (Vd + side ot * Fd)))
            + (disc * (p * Vu + (1 - p) * Vd) - V))
      by (rewrite <- Hfw; ring).
    set (Bm := layer_bound K r q sigma dt T m) in *.
    assert (HBm : 0 <= Bm) by apply layer_bound_nonneg.
    assert (E1 : Rabs (disc * (p * (a - (Vu + side ot * Fu))
                               + (1 - p) * (b - (Vd + side ot * Fd))))
                 <= rho * Bm).
    { rewrite Rabs_mult, (Rabs_pos_eq disc) by lra.
      assert (Rabs (p * (a - (Vu + side ot * Fu))
                    + (1 - p) * (b - (Vd + side ot * Fd))) <= Bm).
      { eapply Rle_trans; [apply Rabs_triang |].
        rewrite !Rabs_mult, (Rabs_pos_eq p), (Rabs_pos_eq (1 - p)) by lra.
        assert (p * Rabs (a - (Vu + side ot * Fu)) <= p * Bm)
          by (apply Rmult_le_compat_l; lra).
        assert ((1 - p) * Rabs (b - (Vd + side ot * Fd)) <= (1 - p) * Bm)
          by (apply Rmult_le_compat_l; lra).
        lra. }
      pose proof (Rabs_pos (p * (a - (Vu + side ot * Fu))
                            + (1 - p) * (b - (Vd + side ot * Fd)))).
      apply Rmult_le_compat; lra. }
    eapply Rle_trans; [apply Rabs_triang |].
    (* the increment of the bound covers the truncation error *)
    set (ct := const_term K r q sigma T) in *.
    set (cl := const_lte K r q sigma T) in *.
    assert (Hinv : / tau <= 2 * / INR (S m) * / dt).
    { unfold tau. rewrite Rinv_mult.
      assert (0 < / dt) by (apply Rinv_0_lt_compat; lra).
      apply Rmult_le_compat_r; [lra |].
      rewrite S_INR.
      apply (Rmult_le_reg_r (INR m * (INR m + 1))); [nra |].
      replace (/ INR m * (INR m * (INR m + 1))) with (INR m + 1)
        by (field; lra).
      replace (2 * / (INR m + 1) * (INR m * (INR m + 1))) with (2 * INR m)
        by (field; lra).
      lra. }
    assert (Hss : sqrt dt * sqrt dt = dt) by (apply sqrt_sqrt; lra).
    assert (Hlam : cl * (dt * sqrt dt) * (1 + / tau)
                   <= sqrt dt * (cl * (dt + 2 * / INR (S m)))).
    { replace (cl * (dt * sqrt dt) * (1 + / tau))
        with (sqrt dt * (cl * (dt * (1 + / tau)))) by ring.
      apply Rmult_le_compat_l; [lra |].
      apply Rmult_le_compat_l; [exact Hcl |].
      assert (dt * / tau <= dt * (2 * / INR (S m) * / dt))
        by (apply Rmult_le_compat_l; lra).
      replace (dt * (2 * / INR (S m) * / dt)) with (2 * / INR (S m)) in H
        by (field; split; [lra | apply not_0_INR; lia]).
      lra. }
    set (lam := sqrt dt * (cl * (dt + 2 * / INR (S m)))) in *.
    assert (Hlam0 : 0 <= lam).
    { unfold lam. apply Rmult_le_pos; [lra |].
      apply Rmult_le_pos; [exact Hcl |].
      assert (0 < / INR (S m))
        by (apply Rinv_0_lt_compat; apply lt_0_INR; lia).
      lra. }
    assert (Hpow : 1 <= rho ^ S m) by (apply pow_R1_Rle; exact Hrho).
    assert (HB : layer_bound K r q sigma dt T (S m)
                 = rho ^ S m
                   * (sqrt dt * (ct + cl * (dt * INR m + 2 * harmonic m))
                      + lam)).
    { unfold layer_bound. fold rho ct cl. f_equal.
      unfold lam. cbn [harmonic]. rewrite !(S_INR m). ring. }
    assert (HBmv : Bm = rho ^ m
                        * (sqrt dt
                           * (ct + cl * (dt * INR m + 2 * harmonic m)))).
    { reflexivity. }
    set (X := sqrt dt * (ct + cl * (dt * INR m + 2 * harmonic m))) in *.
    assert (HX : 0 <= X).
    { unfold X. apply Rmult_le_pos; [lra |].
      pose proof (harmonic_nonneg m).
      assert (0 <= dt * INR m) by (apply Rmult_le_pos; lra).
      assert (0 <= cl * (dt * INR m + 2 * harmonic m))
        by (apply Rmult_le_pos; lra).
      lra. }
    rewrite HB.
    assert (rho * Bm = rho ^ S m * X) by (rewrite HBmv; simpl pow; ring).
    assert (lam <= rho ^ S m * lam).
    { rewrite <- (Rmult_1_l lam) at 1. apply Rmult_le_compat_r; lra. }
    lra.
Qed.

End Targets.

(** *** The harmonic sum grows slower than the square root *)

Lemma ln_le_minus_1 (y : R) : 0 < y -> ln y <= y - 1.
Proof.
  intros Hy. pose proof (exp_ineq1_le (ln y)) as H.
  rewrite exp_ln in H by exact Hy. lra.
Qed.

Lemma harmonic_le_ln (m : nat) :
  (1 <= m)%nat -> harmonic m <= 1 + ln (INR m).
Proof.
  induction m as [| k IH]; intros Hm; [lia |].
  destruct k as [| k'].
  - cbn [harmonic]. simpl INR. rewrite ln_1, Rinv_1. lra.
  - specialize (IH ltac:(lia)).
    change (harmonic (S (S k'))) with (harmonic (S k') + / INR (S (S k'))).
    set (m := S k') in *.
    assert (Hm0 : 0 < INR m) by (apply lt_0_INR; unfold m; lia).
    rewrite (S_INR m).
    assert (Hq : 0 < INR m * / (INR m + 1)).
    { apply Rmult_lt_0_compat; [lra |]. apply Rinv_0_lt_compat. lra. }
    pose proof (ln_le_minus_1 _ Hq) as Hl.
    rewrite ln_mult in Hl by (try apply Rinv_0_lt_compat; lra).
    rewrite ln_Rinv in Hl by lra.
    assert (INR m * / (INR m + 1) - 1 = - / (INR m + 1)) by (field; lra).
    lra.
Qed.

Lemma ln_le_root4 (x : R) : 1 <= x -> ln x <= 4 * sqrt (sqrt x).
Proof.
  intros Hx.
  set (y := sqrt (sqrt x)).
  assert (Hsx : 0 < sqrt x) by (apply sqrt_lt_R0; lra).
  assert (Hy : 0 < y) by (apply sqrt_lt_R0; exact Hsx).
  assert (Hyy : y * y = sqrt x) by (apply sqrt_sqrt; lra).
  assert (Hx4 : x = y * y * (y * y)).
  { rewrite Hyy. symmetry. apply sqrt_sqrt. lra. }
  assert (Hy2 : 0 < y * y) by nra.
  rewrite Hx4, !ln_mult by assumption.
  pose proof (ln_le_minus_1 y Hy). lra.
Qed.

Lemma harmonic_le_root4 (m : nat) :
  (1 <= m)%nat -> harmonic m <= 1 + 4 * sqrt (sqrt (INR m)).
Proof.
  intros Hm.
  eapply Rle_trans; [apply harmonic_le_ln; exact Hm |].
  assert (1 <= INR m).
  { replace 1 with (INR 1) by reflexivity. apply le_INR. exact Hm. }
  pose proof (ln_le_root4 (INR m) ltac:(lra)). lra.
Qed.

Lemma nat_above (M : R) : exists N : nat, M <= INR N.
Proof.
  destruct (Rle_dec M 0) as [H | H].
  - exists 0%nat. simpl. exact H.
  - assert (HM : 0 < M) by lra.
    destruct (archimed_cor1 (/ M) (Rinv_0_lt_compat M HM)) as (N & HN & Hpos).
    exists N. left.
    assert (HN0 : 0 < INR N) by (apply lt_0_INR; exact Hpos).
    rewrite <- (Rinv_inv M), <- (Rinv_inv (INR N)).
    apply Rinv_lt_contravar; [| exact HN].
    apply Rmult_lt_0_compat; apply Rinv_0_lt_compat; assumption.
Qed.

Section SmallSteps.

Variables T r q sigma : R.
Hypothesis T_pos : 0 < T.
Hypothesis sigma_pos : 0 < sigma.

Variable n : nat.
Hypothesis n_large : steps_threshold T r q sigma <= INR n.

Let dt := T / INR n.

Lemma threshold_parts :
  0 < INR n /\ T <= INR n /\ Rabs r * T <= INR n
  /\ Rabs (r - q) * T <= INR n /\ sigma * sigma * T <= INR n
  /\ (r - q) * (r - q) / (sigma * sigma) * T <= INR n.
Proof.
  unfold steps_threshold in n_large.
  pose proof (Rabs_pos r). pose proof (Rabs_pos (r - q)).
  assert (0 <= Rabs r * T) by (apply Rmult_le_pos; lra).
  assert (0 <= Rabs (r - q) * T) by (apply Rmult_le_pos; lra).
  assert (0 <= sigma * sigma * T).
  { apply Rmult_le_pos; [apply sq_nonneg | lra]. }
  assert (0 <= (r - q) * (r - q) / (sigma * sigma) * T).
  { apply Rmult_le_pos; [| lra].
    apply Rmult_le_pos; [apply sq_nonneg |].
    left. apply Rinv_0_lt_compat. apply Rmult_lt_0_compat; lra. }
  repeat split; lra.
Qed.

Lemma steps_pos : (1 <= n)%nat.
Proof.
  destruct threshold_parts as (H & _).
  destruct n; [simpl in H; lra | lia].
Qed.

Lemma dt_pos' : 0 < dt.
Proof.
  destruct threshold_parts as (H & _).
  unfold dt. apply Rdiv_lt_0_compat; lra.
Qed.

Lemma steps_dt : INR n * dt = T.
Proof.
  destruct threshold_parts as (H & _). unfold dt. field. lra.
Qed.

Lemma scaled_small (X : R) : X * T <= INR n -> X * dt <= 1.
Proof.
  intros HX. destruct threshold_parts as (H & _).
  unfold dt.
  apply (Rmult_le_reg_r (INR n)); [exact H |].
  replace (X * (T / INR n) * INR n) with (X * T) by (field; lra).
  lra.
Qed.

Lemma small_steps :
  dt <= 1 /\ Rabs r * dt <= 1 /\ Rabs (r - q) * dt <= 1
  /\ step_h sigma dt <= 1 /\ 0 <= step_p r q sigma dt <= 1.
Proof.
  destruct threshold_parts as (H0 & H1 & H2 & H3 & H4 & H5).
  pose proof dt_pos' as Hdt.
  assert (Hs : 0 < sqrt dt) by (apply sqrt_lt_R0; exact Hdt).
  assert (Hss : sqrt dt * sqrt dt = dt) by (apply sqrt_sqrt; lra).
  split; [pose proof (scaled_small 1 ltac:(lra)); lra |].
  split; [apply scaled_small; exact H2 |].
  split; [apply scaled_small; exact H3 |].
  split.
  - pose proof (scaled_small (sigma * sigma) H4) as Hh.
    pose proof (step_h_sq sigma dt Hdt) as Hsq. rewrite <- Hsq in Hh.
    pose proof (step_h_pos sigma dt sigma_pos Hdt).
    destruct (Rle_dec (step_h sigma dt) 1) as [Hle | Hgt]; [exact Hle |].
    exfalso. nra.
  - apply (risk_neutral_p_unit r q sigma dt sigma_pos Hdt).
    pose proof (scaled_small _ H5) as Hz.
    set (z := Rabs (r - q) * sqrt dt).
    assert (Hz0 : 0 <= z).
    { unfold z. apply Rmult_le_pos; [apply Rabs_pos | lra]. }
    assert (Hzz : z * z <= sigma * sigma).
    { replace (z * z) with ((r - q) * (r - q) * dt).
      - apply (Rmult_le_reg_r (/ (sigma * sigma))).
        + apply Rinv_0_lt_compat. apply Rmult_lt_0_compat; lra.
        + rewrite Rinv_r by (apply Rgt_not_eq; apply Rmult_lt_0_compat; lra).
          replace ((r - q) * (r - q) * dt * / (sigma * sigma))
            with ((r - q) * (r - q) / (sigma * sigma) * dt)
            by (field; lra).
          exact Hz.
      - unfold z.
        replace (Rabs (r - q) * sqrt dt * (Rabs (r - q) * sqrt dt))
          with (Rabs (r - q) * Rabs (r - q) * (sqrt dt * sqrt dt)) by ring.
        rewrite Hss, <- Rabs_mult, Rabs_pos_eq by apply sq_nonneg.
        reflexivity. }
    destruct (Rle_dec z sigma) as [Hle | Hgt]; [exact Hle |].
    exfalso. nra.
Qed.

End SmallSteps.

Lemma payoff_fun_put (K x : R) : payoff_fun K put x = Rmax 0 (K - exp x).
Proof. unfold payoff_fun, put_payoff, side. ring. Qed.

Lemma payoff_fun_call (K x : R) : payoff_fun K call x = Rmax 0 (exp x - K).
Proof.
  unfold payoff_fun, put_payoff, side. unfold Rmax.
  destruct (Rle_dec 0 (K - exp x)), (Rle_dec 0 (exp x - K)); lra.
Qed.

Section RootError.

Variables S K T r sigma q : R.
Variable ot : option_type.
Hypothesis S_pos : 0 < S.
Hypothesis K_pos : 0 < K.
Hypothesis T_pos : 0 < T.
Hypothesis sigma_pos : 0 < sigma.

Variable n : nat.
Hypothesis n_large : steps_threshold T r q sigma <= INR n.

Let dt := T / INR n.
Let tree :=
  BinomialTree.mk S K T r sigma n q ot european dt
    (step_u sigma dt) (step_d sigma dt) (step_p r q sigma dt)
    (step_disc r dt).

Lemma init_tree :
  BinomialTree.init S K T r sigma n q ot european = Ok tree.
Proof.
  pose proof (steps_pos T r q sigma T_pos sigma_pos n n_large) as Hn.
  unfold BinomialTree.init, py_div.
  destruct (Req_dec_T (INR n) 0) as [E | _].
  - apply (not_0_INR n) in E; [contradiction | lia].
  - reflexivity.
Qed.

Lemma payoff_at_node (x : R) :
  BinomialTree.payoff tree (exp x) = payoff_fun K ot x.
Proof.
  unfold BinomialTree.payoff, tree. cbn [BinomialTree.otype BinomialTree.K].
  unfold py_max. destruct ot.
  - rewrite payoff_fun_call. reflexivity.
  - rewrite payoff_fun_put. reflexivity.
Qed.

Lemma node_price (i : nat) :
  (i <= n)%nat ->
  S * step_u sigma dt ^ (n - i) * step_d sigma dt ^ i
  = exp (node_log S sigma dt n i).
Proof.
  intros Hi. rewrite step_d_exp. unfold step_u, node_log.
  rewrite !exp_scale, minus_INR by exact Hi.
  rewrite <- (exp_ln S) at 1 by exact S_pos.
  rewrite <- !exp_plus. f_equal. ring.
Qed.

(** Distance of the lattice price to the target function at the root. *)
Lemma lattice_root_error :
  returns (fun v =>
             Rabs (v - value_fun K r q sigma ot T (ln S))
             <= layer_bound K r q sigma dt T n)
          (lattice_price S K T r sigma n q ot european).
Proof.
  pose proof (steps_pos T r q sigma T_pos sigma_pos n n_large) as Hn.
  pose proof (dt_pos' T r q sigma T_pos sigma_pos n n_large) as Hdt.
  pose proof (steps_dt T r q sigma T_pos sigma_pos n n_large) as HnT.
  destruct (small_steps T r q sigma T_pos sigma_pos n n_large)
    as (Hd1 & Hr & Hrq & Hh & Hp).
  fold dt in Hdt, HnT, Hd1, Hr, Hrq, Hh, Hp.
  unfold lattice_price. rewrite init_tree. simpl bind.
  pose (tgt := fun j i : nat =>
                 layer_value K r q sigma ot dt (n - j)
                   (node_log S sigma dt j i)).
  pose (B := fun j : nat => layer_bound K r q sigma dt T (n - j)).
  assert (Htr : returns (fun v => Rabs (v - tgt 0%nat 0%nat) <= B 0%nat)
                  (BinomialTree.price tree)).
  { apply price_tracks; [reflexivity | |].
    - intros j i a b Hj Hi Ha Hb.
      change (BinomialTree.n tree) with n in Hj.
      change (BinomialTree.discount tree) with (step_disc r dt).
      change (BinomialTree.p tree) with (step_p r q sigma dt).
      unfold tgt, B in *.
      replace (n - j)%nat with (Datatypes.S (n - Datatypes.S j)) by lia.
      assert (Eu : node_log S sigma dt (Datatypes.S j) i
                   = node_log S sigma dt j i + step_h sigma dt).
      { unfold node_log. rewrite S_INR. ring. }
      assert (Ed : node_log S sigma dt (Datatypes.S j) (Datatypes.S i)
                   = node_log S sigma dt j i - step_h sigma dt).
      { unfold node_log. rewrite !S_INR. ring. }
      rewrite Eu in Ha. rewrite Ed in Hb.
      apply (layer_step K r q sigma ot dt T K_pos sigma_pos Hdt n HnT Hd1
               Hr Hrq Hh Hp); [lia | exact Ha | exact Hb].
    - intros i Hi.
      change (BinomialTree.n tree) with n in *.
      change (BinomialTree.S tree) with S.
      change (BinomialTree.u tree) with (step_u sigma dt).
      change (BinomialTree.d tree) with (step_d sigma dt).
      rewrite node_price by exact Hi.
      rewrite payoff_at_node. unfold tgt, B.
      rewrite Nat.sub_diag. cbn [layer_value layer_bound].
      rewrite Rminus_diag, Rabs_R0. lra. }
  destruct Htr as (v & Hv & Hb).
  exists v. split; [exact Hv |].
  unfold tgt, B in Hb. rewrite Nat.sub_0_r in Hb.
  assert (Hroot : node_log S sigma dt 0 0 = ln S).
  { unfold node_log. simpl INR. ring. }
  rewrite Hroot in Hb.
  destruct n as [| k]; [lia |].
  cbn [layer_value] in Hb. rewrite HnT in Hb. exact Hb.
Qed.

End RootError.

Section RootValue.

Variables S K T r sigma q : R.
Hypothesis S_pos : 0 < S.
Hypothesis K_pos : 0 < K.
Hypothesis T_pos : 0 < T.
Hypothesis sigma_pos : 0 < sigma.

Lemma D2_root : D2 K r q sigma T (ln S) = Spec.d2 S K T r sigma q.
Proof.
  unfold D2, Spec.d2, Spec.d1, drift.
  assert (Hq : 0 < sqrt T) by (apply sqrt_lt_R0; exact T_pos).
  assert (Hqq : sqrt T * sqrt T = T) by (apply sqrt_sqrt; lra).
  replace (ln (S / K)) with (ln S - ln K).
  2:{ unfold Rdiv. rewrite ln_mult, ln_Rinv
        by (try apply Rinv_0_lt_compat; assumption).
      ring. }
  set (t := sqrt T) in *. rewrite <- Hqq. field. lra.
Qed.

Lemma D1_root : D1 K r q sigma T (ln S) = Spec.d1 S K T r sigma q.
Proof.
  unfold D1. rewrite D2_root. unfold Spec.d2. ring.
Qed.

(** At the root the target function is the analytic price. *)
Lemma value_fun_root (ot : option_type) :
  value_fun K r q sigma ot T (ln S)
  = analytic_price ot
      (BlackScholes.mk S K T r sigma q (Spec.d1 S K T r sigma q)
         (Spec.d2 S K T r sigma q)).
Proof.
  unfold value_fun, forward_part, put_fun, leg_K, leg_S.
  rewrite D1_root, D2_root.
  replace (exp (ln S - q * T)) with (S * exp (- q * T)).
  2:{ unfold Rminus. rewrite exp_plus, exp_ln by exact S_pos.
      f_equal. f_equal. ring. }
  destruct ot; unfold analytic_price, side, BlackScholes.call_price,
    BlackScholes.put_price; cbn [BlackScholes.S BlackScholes.K BlackScholes.T
      BlackScholes.r BlackScholes.q BlackScholes.d1 BlackScholes.d2].
  - rewrite !norm_cdf_opp. ring.
  - ring.
Qed.

End RootValue.

Section BoundVanishes.

Variables K T r sigma q : R.
Hypothesis K_pos : 0 < K.
Hypothesis T_pos : 0 < T.
Hypothesis sigma_pos : 0 < sigma.

Lemma const_total_nonneg : 0 <= const_total K T r sigma q.
Proof.
  unfold const_total.
  pose proof (const_term_nonneg K r q sigma T K_pos sigma_pos).
  pose proof (const_lte_nonneg K r q sigma T K_pos sigma_pos).
  apply Rmult_le_pos.
  - apply Rmult_le_pos; [left; apply exp_pos | apply sqrt_pos].
  - assert (0 <= const_lte K r q sigma T * (T + 2))
      by (apply Rmult_le_pos; lra).
    lra.
Qed.

Lemma layer_bound_root (n : nat) :
  steps_threshold T r q sigma <= INR n ->
  layer_bound K r q sigma (T / INR n) T n
  <= const_total K T r sigma q / sqrt (sqrt (INR n)).
Proof.
  intros Hn.
  pose proof (steps_pos T r q sigma T_pos sigma_pos n Hn) as Hn1.
  pose proof (steps_dt T r q sigma T_pos sigma_pos n Hn) as HnT.
  destruct (threshold_parts T r q sigma T_pos sigma_pos n Hn) as (Hn0 & _).
  set (dt := T / INR n) in *.
  assert (Hn1' : 1 <= INR n).
  { replace 1 with (INR 1) by reflexivity. apply le_INR. exact Hn1. }
  set (y := sqrt (sqrt (INR n))).
  assert (Hsn : 0 < sqrt (INR n)) by (apply sqrt_lt_R0; exact Hn0).
  assert (Hy : 0 < y) by (apply sqrt_lt_R0; exact Hsn).
  assert (Hyy : y * y = sqrt (INR n)) by (apply sqrt_sqrt; lra).
  assert (Hy1 : 1 <= y).
  { unfold y. rewrite <- sqrt_1 at 1. apply sqrt_le_1; try lra.
    rewrite <- sqrt_1 at 1. apply sqrt_le_1; lra. }
  assert (Hsd : sqrt dt = sqrt T / (y * y)).
  { unfold dt. rewrite sqrt_div_alt by exact Hn0. rewrite Hyy. reflexivity. }
  destruct n as [| k]; [lia |].
  set (m := Datatypes.S k) in *.
  unfold layer_bound. fold m.
  rewrite exp_scale.
  replace (INR m * (Rabs r * dt)) with (Rabs r * (INR m * dt)) by ring.
  rewrite HnT. rewrite (Rmult_comm dt), HnT.
  pose proof (harmonic_le_root4 m Hn1) as Hh. fold y in Hh.
  pose proof (const_term_nonneg K r q sigma T K_pos sigma_pos) as Hct.
  pose proof (const_lte_nonneg K r q sigma T K_pos sigma_pos) as Hcl.
  set (ct := const_term K r q sigma T) in *.
  set (cl := const_lte K r q sigma T) in *.
  unfold const_total. fold ct cl.
  rewrite Hsd.
  assert (Hin : ct + cl * (T + 2 * harmonic m)
                <= (ct + cl * (T + 2) + 8 * cl) * y).
  { assert (cl * (T + 2 * harmonic m) <= cl * (T + 2 + 8 * y))
      by (apply Rmult_le_compat_l; lra).
    assert (0 <= ct + cl * (T + 2)).
    { assert (0 <= cl * (T + 2)) by (apply Rmult_le_pos; lra). lra. }
    assert ((ct + cl * (T + 2)) * 1 <= (ct + cl * (T + 2)) * y)
      by (apply Rmult_le_compat_l; lra).
    lra. }
  assert (HsT : 0 <= sqrt T) by apply sqrt_pos.
  assert (Hyi : 0 < / (y * y))
    by (apply Rinv_0_lt_compat; apply Rmult_lt_0_compat; lra).
  pose proof (exp_pos (Rabs r * T)) as He.
  apply Rle_trans
    with (exp (Rabs r * T)
          * (sqrt T / (y * y) * ((ct + cl * (T + 2) + 8 * cl) * y))).
  - apply Rmult_le_compat_l; [lra |].
    apply Rmult_le_compat_l; [| exact Hin].
    apply Rmult_le_pos; lra.
  - right. field. lra.
Qed.

(** The error bound tends to 0 with the number of steps. *)
Lemma layer_bound_vanishes (eps : R) :
  0 < eps ->
  exists N : nat, forall n, (N <= n)%nat ->
    steps_threshold T r q sigma <= INR n
    /\ layer_bound K r q sigma (T / INR n) T n < eps.
Proof.
  intros Heps.
  pose proof const_total_nonneg as HG.
  set (z := const_total K T r sigma q / eps + 1).
  assert (Hz : 1 <= z).
  { unfold z. assert (0 <= const_total K T r sigma q / eps).
    { apply Rmult_le_pos; [exact HG |].
      left. apply Rinv_0_lt_compat. exact Heps. }
    lra. }
  assert (Hth : 1 <= steps_threshold T r q sigma).
  { unfold steps_threshold.
    pose proof (Rabs_pos r). pose proof (Rabs_pos (r - q)).
    assert (0 <= Rabs r * T) by (apply Rmult_le_pos; lra).
    assert (0 <= Rabs (r - q) * T) by (apply Rmult_le_pos; lra).
    assert (0 <= sigma * sigma * T)
      by (apply Rmult_le_pos; [apply sq_nonneg | lra]).
    assert (0 <= (r - q) * (r - q) / (sigma * sigma) * T).
    { apply Rmult_le_pos; [| lra].
      apply Rmult_le_pos; [apply sq_nonneg |].
      left. apply Rinv_0_lt_compat. apply Rmult_lt_0_compat; lra. }
    lra. }
  assert (Hz4 : 0 <= z * z * (z * z)) by (apply sq_nonneg).
  destruct (nat_above (steps_threshold T r q sigma + z * z * (z * z)))
    as (N & HN).
  exists N. intros n Hn.
  assert (HNn : INR N <= INR n) by (apply le_INR; exact Hn).
  assert (Hn_th : steps_threshold T r q sigma <= INR n) by lra.
  split; [exact Hn_th |].
  eapply Rle_lt_trans; [apply layer_bound_root; exact Hn_th |].
  set (y := sqrt (sqrt (INR n))).
  assert (Hzy : z <= y).
  { unfold y.
    rewrite <- (sqrt_square z) by lra.
    apply sqrt_le_1; [nra | apply sqrt_pos |].
    rewrite <- (sqrt_square (z * z)) by nra.
    apply sqrt_le_1; lra. }
  assert (Hy : 0 < y) by lra.
  apply (Rmult_lt_reg_r y); [exact Hy |].
  unfold Rdiv. rewrite Rmult_assoc, Rinv_l, Rmult_1_r by lra.
  assert (Hlt : const_total K T r sigma q < eps * z).
  { unfold z. rewrite Rmult_plus_distr_l.
    replace (eps * (const_total K T r sigma q / eps))
        with (const_total K T r sigma q) by (field; lra).
    lra. }
  assert (eps * z <= eps * y) by (apply Rmult_le_compat_l; lra).
  lra.
Qed.

End BoundVanishes.

(** C4: for every European contract with S, K, T, sigma > 0, the analytic
    pricer is constructed and, for every tolerance, from some number of
    steps on the lattice pricer returns a price within that tolerance of the
    analytic price of the same contract (call or put): the n-step lattice
    prices converge to the analytic price. *)
Theorem lattice_converges_to_analytic (S K T r sigma q : R)
        (ot : option_type) :
  0 < S -> 0 < K -> 0 < T -> 0 < sigma ->
  exists bs,
    BlackScholes.init S K T r sigma q = Ok bs
    /\ forall eps, 0 < eps ->
         exists N : nat, forall n, (N <= n)%nat ->
           exists v,
             lattice_price S K T r sigma n q ot european = Ok v
             /\ Rabs (v - analytic_price ot bs) < eps.
Proof.
  intros HS HK HT Hs.
  eexists. split.
  - apply BlackScholes_init_ok. lra.
  - intros eps Heps.
    destruct (layer_bound_vanishes K T r sigma q HK HT Hs eps Heps)
      as (N & HN).
    exists N. intros n Hn. destruct (HN n Hn) as (Hth & Hsmall).
    destruct (lattice_root_error S K T r sigma q ot HS HK HT Hs n Hth)
      as (v & Hv & Hb).
    exists v. split; [exact Hv |].
    rewrite <- (value_fun_root S K T r sigma q HS HK HT Hs ot). lra.
Qed.

Lemma lattice_converges_to_analytic_witness :
  exists bs,
    BlackScholes.init 100 100 1 0.05 0.2 0 = Ok bs
    /\ forall eps, 0 < eps ->
         exists N : nat, forall n, (N <= n)%nat ->
           exists v,
             lattice_price 100 100 1 0.05 0.2 n 0 call european = Ok v
             /\ Rabs (v - analytic_price call bs) < eps.
Proof.
  apply (lattice_converges_to_analytic 100 100 1 0.05 0.2 0 call); lra.
Defined.
(** * Lattice pricer: the value computed by [price]

    ** An invariant for every node of every layer *)

Section LayerInvariant.

Variable self : BinomialTree.t.

Let n := BinomialTree.n self.

(** [P j i v]: the value [v] is right for node [i] of layer [j]. *)
Variable P : nat -> nat -> R -> Prop.

Hypothesis node_step :
  forall j i a b, (j < n)%nat -> (i <= j)%nat ->
    P (S j) i a -> P (S j) (S i) b -> P j i (node_value self j i a b).

Let holds (j : nat) (V : array) : Prop :=
  length V = (n + 1)%nat /\ forall i, (i <= j)%nat -> P j i (nth i V 0).

Let mixed (j k : nat) (V : array) : Prop :=
  length V = (n + 1)%nat
  /\ (forall i, (i < k)%nat -> P j i (nth i V 0))
  /\ (forall i, (k <= i <= S j)%nat -> P (S j) i (nth i V 0)).

Lemma backward_induction_invariant (V : array) :
  holds n V ->
  returns (holds 0) (BinomialTree.backward_induction self V).
Proof.
  intros HV. unfold BinomialTree.backward_induction. fold n.
  apply (for_down_indexed holds); [| exact HV].
  intros j a Hj [La Ha].
  assert (H : returns (mixed j (0 + (j + 1))%nat)
                (for_range 0 (j + 1) (BinomialTree.node self j) a)).
  { apply for_range_indexed.
    - intros i b Hi (Lb & Hlo & Hhi).
      rewrite node_in_range by lia.
      eexists. split; [reflexivity |].
      unfold mixed. rewrite upd_length. split; [exact Lb |]. split.
      + intros k Hk. destruct (Nat.eq_dec k i) as [-> | Hne].
        * rewrite upd_nth_same by lia.
          apply node_step; [exact Hj | lia | apply Hhi; lia |].
          replace (S i) with (i + 1)%nat by lia. apply Hhi. lia.
        * rewrite upd_nth_other by exact Hne. apply Hlo. lia.
      + intros k Hk. rewrite upd_nth_other by lia. apply Hhi. lia.
    - split; [exact La |]. split; [intros i Hi; lia |].
      intros i Hi. apply Ha. lia. }
  destruct H as (b & Hb & Lb & Hlo & _).
  exists b. split; [exact Hb |]. split; [exact Lb |].
  intros i Hi. apply Hlo. lia.
Qed.

Lemma price_invariant :
  (forall i, (i <= n)%nat ->
     P n i (BinomialTree.payoff self
              (BinomialTree.S self * BinomialTree.u self ^ (n - i)
               * BinomialTree.d self ^ i))) ->
  returns (P 0%nat 0%nat) (BinomialTree.price self).
Proof.
  intros Hterm. unfold BinomialTree.price.
  eapply returns_bind; [apply terminal_prices_contents |].
  intros S_T [LS HS]. cbv beta.
  eapply returns_bind; [apply terminal_values_contents; exact LS |].
  intros V [LV HV]. cbv beta.
  eapply returns_bind; [apply backward_induction_invariant |].
  - split; [exact LV |]. intros i Hi.
    rewrite HV, HS by exact Hi. apply Hterm. exact Hi.
  - intros V' [LV' HV']. cbv beta.
    rewrite getitem_in_range by lia.
    eexists. split; [reflexivity |]. apply HV'. lia.
Qed.

End LayerInvariant.

(** ** The in-place loop computes the recursive value of the tree *)

Lemma price_tree_value (self : BinomialTree.t) :
  BinomialTree.price self
  = Ok (tree_value self (BinomialTree.n self) (BinomialTree.S self)).
Proof.
  set (n := BinomialTree.n self).
  pose (P := fun (j i : nat) (v : R) =>
               v = tree_value self (n - j)
                     (BinomialTree.S self * BinomialTree.u self ^ (j - i)
                      * BinomialTree.d self ^ i)).
  destruct (price_invariant self P) as (v & Hv & Hp).
  - intros j i a b Hj Hi Ha Hb. unfold P in *. fold n in Hj.
    replace (n - j)%nat with (S (n - S j)) by lia.
    cbn [tree_value]. unfold node_value.
    replace (S j - i)%nat with (S (j - i)) in Ha by lia.
    replace (S j - S i)%nat with (j - i)%nat in Hb by lia.
    cbn [pow] in Ha, Hb.
    replace (BinomialTree.S self * BinomialTree.u self ^ (j - i)
             * BinomialTree.d self ^ i * BinomialTree.u self)
      with (BinomialTree.S self
            * (BinomialTree.u self * BinomialTree.u self ^ (j - i))
            * BinomialTree.d self ^ i) by ring.
    replace (BinomialTree.S self * BinomialTree.u self ^ (j - i)
             * BinomialTree.d self ^ i * BinomialTree.d self)
      with (BinomialTree.S self * BinomialTree.u self ^ (j - i)
            * (BinomialTree.d self * BinomialTree.d self ^ i)) by ring.
    rewrite <- Ha, <- Hb. reflexivity.
  - intros i Hi. unfold P. fold n. rewrite Nat.sub_diag. reflexivity.
  - rewrite Hv. f_equal. unfold P in Hp. rewrite Hp.
    rewrite Nat.sub_0_r. cbn [pow Nat.sub]. f_equal. ring.
Qed.
(** ** Properties of the value of the tree *)

Lemma payoff_nonneg (self : BinomialTree.t) (s : R) :
  0 <= BinomialTree.payoff self s.
Proof.
  unfold BinomialTree.payoff, py_max.
  destruct (BinomialTree.otype self); apply Rmax_l.
Qed.

Lemma tree_value_american (self : BinomialTree.t) (m : nat) (s : R) :
  BinomialTree.etype self = american ->
  BinomialTree.payoff self s <= tree_value self m s.
Proof.
  intros Ha. destruct m as [| m']; cbn [tree_value]; [lra |].
  rewrite Ha. unfold py_max. apply Rmax_r.
Qed.

Lemma tree_value_nonneg (self : BinomialTree.t) :
  0 <= BinomialTree.p self <= 1 -> 0 <= BinomialTree.discount self ->
  forall m s, 0 <= tree_value self m s.
Proof.
  intros Hp Hd. induction m as [| m IH]; intros s; cbn [tree_value].
  - apply payoff_nonneg.
  - assert (Hc : 0 <= BinomialTree.discount self
                      * (BinomialTree.p self
                         * tree_value self m (s * BinomialTree.u self)
                         + (1 - BinomialTree.p self)
                           * tree_value self m (s * BinomialTree.d self))).
    { apply Rmult_le_pos; [exact Hd |].
      apply Rplus_le_le_0_compat; apply Rmult_le_pos;
        try apply IH; lra. }
    destruct (BinomialTree.etype self); [exact Hc |].
    unfold py_max. eapply Rle_trans; [exact Hc | apply Rmax_l].
Qed.

Lemma tree_value_european (self : BinomialTree.t) (m : nat) (s : R) :
  BinomialTree.etype self = european ->
  tree_value self (S m) s
  = BinomialTree.discount self
    * (BinomialTree.p self * tree_value self m (s * BinomialTree.u self)
       + (1 - BinomialTree.p self)
         * tree_value self m (s * BinomialTree.d self)).
Proof. intros He. cbn [tree_value]. rewrite He. reflexivity. Qed.

Lemma tree_value_american_step (self : BinomialTree.t) (m : nat) (s : R) :
  BinomialTree.etype self = american ->
  tree_value self (S m) s
  = Rmax (BinomialTree.discount self
          * (BinomialTree.p self * tree_value self m (s * BinomialTree.u self)
             + (1 - BinomialTree.p self)
               * tree_value self m (s * BinomialTree.d self)))
         (BinomialTree.payoff self s).
Proof. intros He. cbn [tree_value]. rewrite He. reflexivity. Qed.

Section CallAndPut.

Variables (S K T r sigma : R) (n : nat) (q : R).
Variables (dt u d p discount a : R).

Let tree (ot : option_type) (et : exercise_type) : BinomialTree.t :=
  BinomialTree.mk S K T r sigma n q ot et dt u d p discount.

Ltac tree_fields :=
  change (BinomialTree.p (tree _ _)) with p in *;
  change (BinomialTree.u (tree _ _)) with u in *;
  change (BinomialTree.d (tree _ _)) with d in *;
  change (BinomialTree.discount (tree _ _)) with discount in *;
  change (BinomialTree.K (tree _ _)) with K in *.

Lemma call_payoff (et : exercise_type) (s : R) :
  BinomialTree.payoff (tree call et) s = Rmax 0 (s - K).
Proof. reflexivity. Qed.

Lemma put_payoff_tree (et : exercise_type) (s : R) :
  BinomialTree.payoff (tree put et) s = Rmax 0 (K - s).
Proof. reflexivity. Qed.

Hypothesis forward : p * u + (1 - p) * d = a.

(** The call minus the put is the forward, at every node. *)
Lemma tree_value_parity (m : nat) (s : R) :
  tree_value (tree call european) m s - tree_value (tree put european) m s
  = s * (discount * a) ^ m - K * discount ^ m.
Proof.
  revert s. induction m as [| m IH]; intros s.
  - cbn [tree_value pow]. rewrite call_payoff, put_payoff_tree.
    unfold Rmax. destruct (Rle_dec 0 (s - K)), (Rle_dec 0 (K - s)); lra.
  - rewrite !tree_value_european by reflexivity. tree_fields.
    pose proof (IH (s * u)) as Hu. pose proof (IH (s * d)) as Hd.
    cbn [pow]. rewrite <- forward.
    set (cu := tree_value (tree call european) m (s * u)) in *.
    set (cd := tree_value (tree call european) m (s * d)) in *.
    set (pu := tree_value (tree put european) m (s * u)) in *.
    set (pd := tree_value (tree put european) m (s * d)) in *.
    replace cu with (pu + (s * u * (discount * (p * u + (1 - p) * d)) ^ m
                           - K * discount ^ m))
        by (rewrite <- forward in Hu; lra).
    replace cd with (pd + (s * d * (discount * (p * u + (1 - p) * d)) ^ m
                           - K * discount ^ m))
        by (rewrite <- forward in Hd; lra).
    ring.
Qed.

Hypothesis p_unit : 0 <= p <= 1.
Hypothesis discount_nonneg : 0 <= discount.

(** A European call is worth at least the forward. *)
Lemma european_call_lower (m : nat) (s : R) :
  s * (discount * a) ^ m - K * discount ^ m
  <= tree_value (tree call european) m s.
Proof.
  pose proof (tree_value_parity m s) as Hpar.
  pose proof (tree_value_nonneg (tree put european) p_unit discount_nonneg
                m s).
  lra.
Qed.

Hypothesis K_nonneg : 0 <= K.
Hypothesis u_nonneg : 0 <= u.
Hypothesis d_nonneg : 0 <= d.

(** On non-negative asset prices a European put is worth at most the
    discounted strike, and a European call at most the discounted
    forward price of the asset. *)
Lemma european_put_upper (m : nat) (s : R) :
  0 <= s -> tree_value (tree put european) m s <= K * discount ^ m.
Proof.
  revert s. induction m as [| m IH]; intros s Hs.
  - cbn [tree_value pow]. rewrite put_payoff_tree.
    apply Rmax_lub; lra.
  - rewrite tree_value_european by reflexivity. tree_fields.
    assert (Hsu : 0 <= s * u) by (apply Rmult_le_pos; lra).
    assert (Hsd : 0 <= s * d) by (apply Rmult_le_pos; lra).
    pose proof (IH _ Hsu) as Hu. pose proof (IH _ Hsd) as Hd.
    set (pu := tree_value (tree put european) m (s * u)) in *.
    set (pd := tree_value (tree put european) m (s * d)) in *.
    set (B := K * discount ^ m) in *.
    assert (p * pu + (1 - p) * pd <= B).
    { assert (p * pu <= p * B) by (apply Rmult_le_compat_l; lra).
      assert ((1 - p) * pd <= (1 - p) * B)
        by (apply Rmult_le_compat_l; lra).
      lra. }
    cbn [pow].
    replace (K * (discount * discount ^ m)) with (discount * B)
      by (unfold B; ring).
    apply Rmult_le_compat_l; lra.
Qed.

Lemma european_call_upper (m : nat) (s : R) :
  0 <= s -> tree_value (tree call european) m s <= s * (discount * a) ^ m.
Proof.
  intros Hs.
  pose proof (tree_value_parity m s) as Hpar.
  pose proof (european_put_upper m s Hs). lra.
Qed.

Hypothesis discount_le_1 : discount <= 1.
Hypothesis no_carry : discount * a = 1.

(** Without dividends and with a non-negative rate a European call is
    worth at least its payoff: early exercise never pays. *)
Lemma european_call_ge_payoff (m : nat) (s : R) :
  BinomialTree.payoff (tree call european) s
  <= tree_value (tree call european) m s.
Proof.
  pose proof (european_call_lower m s) as Hlow.
  pose proof (tree_value_nonneg (tree call european) p_unit discount_nonneg
                m s) as H0.
  rewrite no_carry, pow1, Rmult_1_r in Hlow.
  assert (Hd : discount ^ m <= 1).
  { rewrite <- (pow1 m). apply pow_incr. lra. }
  assert (K * discount ^ m <= K * 1) by (apply Rmult_le_compat_l; lra).
  rewrite call_payoff. apply Rmax_lub; lra.
Qed.

Lemma american_call_is_european (m : nat) (s : R) :
  tree_value (tree call american) m s = tree_value (tree call european) m s.
Proof.
  revert s. induction m as [| m IH]; intros s; [reflexivity |].
  rewrite tree_value_american_step, tree_value_european by reflexivity.
  tree_fields. rewrite !IH.
  pose proof (european_call_ge_payoff (Datatypes.S m) s) as Hge.
  rewrite tree_value_european in Hge by reflexivity. tree_fields.
  rewrite call_payoff in *. apply Rmax_left. exact Hge.
Qed.

End CallAndPut.
(** ** The lattice price from the constructor *)

Lemma init_built_tree (S K T r sigma : R) (n : nat) (q : R)
      (ot : option_type) (et : exercise_type) :
  (1 <= n)%nat ->
  BinomialTree.init S K T r sigma n q ot et
  = Ok (built_tree S K T r sigma n q ot et).
Proof.
  intros Hn. unfold BinomialTree.init, py_div.
  destruct (Req_dec_T (INR n) 0) as [E | _].
  - apply (not_0_INR n) in E; [contradiction | lia].
  - reflexivity.
Qed.

Lemma lattice_price_built (S K T r sigma : R) (n : nat) (q : R)
      (ot : option_type) (et : exercise_type) :
  (1 <= n)%nat ->
  lattice_price S K T r sigma n q ot et
  = Ok (tree_value (built_tree S K T r sigma n q ot et) n S).
Proof.
  intros Hn. unfold lattice_price. rewrite init_built_tree by exact Hn.
  simpl bind. apply price_tree_value.
Qed.

Section BuiltTree.

Variables (T r : R) (n : nat) (q : R).
Hypothesis T_pos : 0 < T.
Hypothesis n_pos : (1 <= n)%nat.

Let dt := T / INR n.

Lemma built_dt_pos : 0 < dt.
Proof.
  unfold dt. apply Rdiv_lt_0_compat; [exact T_pos |].
  apply lt_0_INR. lia.
Qed.

Lemma built_steps : INR n * dt = T.
Proof.
  unfold dt. field. apply not_0_INR. lia.
Qed.

Lemma built_carry : step_disc r dt * step_a r q dt = exp (- q * dt).
Proof.
  unfold step_disc, step_a. rewrite <- exp_plus. f_equal. ring.
Qed.

Lemma built_carry_pow : (step_disc r dt * step_a r q dt) ^ n = exp (- q * T).
Proof.
  rewrite built_carry, exp_scale. f_equal.
  rewrite <- built_steps. ring.
Qed.

Lemma built_discount_pow : step_disc r dt ^ n = exp (- r * T).
Proof.
  unfold step_disc. rewrite exp_scale. f_equal.
  rewrite <- built_steps. ring.
Qed.

End BuiltTree.

(** X1: [price] returns the value of the tree defined by recursion on the
    steps left: for the object the constructor returns, the in-place loop
    over one array gives the payoff at maturity, discounted and averaged
    backwards with the weights p and 1 - p, with the early-exercise
    comparison at every node for an American option. *)
Theorem lattice_price_is_tree_value (S K T r sigma : R) (n : nat) (q : R)
        (ot : option_type) (et : exercise_type) (bt : BinomialTree.t) :
  BinomialTree.init S K T r sigma n q ot et = Ok bt ->
  lattice_price S K T r sigma n q ot et = Ok (tree_value bt n S).
Proof.
  intros Hinit. unfold lattice_price. rewrite Hinit. simpl bind.
  unfold BinomialTree.init in Hinit.
  destruct (py_div T (INR n)) as [dt |]; [| discriminate].
  simpl in Hinit. injection Hinit as <-.
  apply price_tree_value.
Qed.

Lemma lattice_price_is_tree_value_witness :
  lattice_price 100 100 1 0.05 0.2 3 0 put american
  = Ok (tree_value (built_tree 100 100 1 0.05 0.2 3 0 put american) 3 100).
Proof.
  apply lattice_price_is_tree_value. apply init_built_tree. lia.
Defined.

(** X2: an American option is never priced below its immediate exercise
    value max(0, S - K) (call) or max(0, K - S) (put), whatever the
    risk-neutral probability is; in particular never below 0. *)
Theorem american_price_ge_exercise (S K T r sigma : R) (n : nat) (q : R)
        (ot : option_type) :
  (1 <= n)%nat ->
  exists v,
    lattice_price S K T r sigma n q ot american = Ok v
    /\ exercise_now ot S K <= v /\ 0 <= v.
Proof.
  intros Hn. eexists. split; [apply lattice_price_built; exact Hn |].
  set (bt := built_tree S K T r sigma n q ot american).
  pose proof (tree_value_american bt n S eq_refl) as H.
  pose proof (payoff_nonneg bt S) as H0.
  assert (E : BinomialTree.payoff bt S = exercise_now ot S K).
  { unfold BinomialTree.payoff, exercise_now, py_max, bt, built_tree.
    cbn [BinomialTree.otype BinomialTree.K]. destruct ot; reflexivity. }
  rewrite E in H, H0. split; lra.
Qed.

Lemma american_price_ge_exercise_witness :
  exists v,
    lattice_price 100 110 1 0.05 0.2 50 0 put american = Ok v
    /\ exercise_now put 100 110 <= v /\ 0 <= v.
Proof.
  apply american_price_ge_exercise. lia.
Defined.

(** X3: put-call parity holds exactly on the lattice: for every number of
    steps n >= 1, the European call price minus the European put price is
    S e^(-qT) - K e^(-rT), whether or not p lies in [0,1]. *)
Theorem lattice_parity_exact (S K T r sigma : R) (n : nat) (q : R) :
  0 < T -> 0 < sigma -> (1 <= n)%nat ->
  exists c p,
    lattice_price S K T r sigma n q call european = Ok c
    /\ lattice_price S K T r sigma n q put european = Ok p
    /\ c - p = S * exp (- q * T) - K * exp (- r * T).
Proof.
  intros HT Hs Hn. do 2 eexists.
  split; [apply lattice_price_built; exact Hn |].
  split; [apply lattice_price_built; exact Hn |].
  pose proof (built_dt_pos T n HT Hn) as Hdt.
  unfold built_tree.
  rewrite (tree_value_parity S K T r sigma n q (T / INR n) _ _ _ _
             (step_a r q (T / INR n))
             (step_forward r q sigma (T / INR n) Hs Hdt)).
  rewrite (built_carry_pow T r n q Hn), (built_discount_pow T r n Hn).
  reflexivity.
Qed.

Lemma lattice_parity_exact_witness :
  exists c p,
    lattice_price 100 100 1 0.05 0.2 100 0.02 call european = Ok c
    /\ lattice_price 100 100 1 0.05 0.2 100 0.02 put european = Ok p
    /\ c - p = 100 * exp (- (0.02) * 1) - 100 * exp (- (0.05) * 1).
Proof.
  apply lattice_parity_exact; try lra; lia.
Defined.

Lemma init_is_built (S K T r sigma : R) (n : nat) (q : R)
      (ot : option_type) (et : exercise_type) (bt : BinomialTree.t) :
  BinomialTree.init S K T r sigma n q ot et = Ok bt ->
  (1 <= n)%nat /\ bt = built_tree S K T r sigma n q ot et.
Proof.
  intros Hinit. destruct n as [| k].
  - rewrite BinomialTree_init_zero_steps in Hinit. discriminate.
  - rewrite init_built_tree in Hinit by lia.
    injection Hinit as <-. split; [lia | reflexivity].
Qed.

(** X4: without dividends (q = 0) and with a non-negative rate, when the
    risk-neutral probability lies in [0,1], the American call is priced
    exactly as the European call: the early-exercise comparison never
    changes a node. *)
Theorem american_call_equals_european (S K T r sigma : R) (n : nat)
        (eu : BinomialTree.t) :
  0 <= K -> 0 < T -> 0 < sigma -> 0 <= r ->
  BinomialTree.init S K T r sigma n 0 call european = Ok eu ->
  0 <= BinomialTree.p eu <= 1 ->
  exists v,
    lattice_price S K T r sigma n 0 call european = Ok v
    /\ lattice_price S K T r sigma n 0 call american = Ok v.
Proof.
  intros HK HT Hs Hr Hinit Hp.
  destruct (init_is_built _ _ _ _ _ _ _ _ _ _ Hinit) as [Hn ->].
  pose proof (built_dt_pos T n HT Hn) as Hdt.
  eexists. split; [apply lattice_price_built; exact Hn |].
  rewrite lattice_price_built by exact Hn. f_equal.
  unfold built_tree in *. cbn [BinomialTree.p] in Hp.
  set (dt := T / INR n) in *.
  apply (american_call_is_european S K T r sigma n 0 dt
           (step_u sigma dt) (step_d sigma dt) (step_p r 0 sigma dt)
           (step_disc r dt) (step_a r 0 dt)
           (step_forward r 0 sigma dt Hs Hdt) Hp).
  - left. apply step_disc_pos.
  - exact HK.
  - unfold step_disc. rewrite <- exp_0.
    assert (H : - r * dt <= 0).
    { assert (0 <= r * dt) by (apply Rmult_le_pos; lra). lra. }
    destruct H as [H | ->]; [left; apply exp_increasing; exact H | lra].
  - unfold step_disc, step_a. rewrite <- exp_plus, <- exp_0.
    f_equal. ring.
Qed.

Lemma american_call_equals_european_witness :
  exists v,
    lattice_price 100 100 1 0.05 0.2 100 0 call european = Ok v
    /\ lattice_price 100 100 1 0.05 0.2 100 0 call american = Ok v.
Proof.
  assert (H100 : INR 100 = 100) by (simpl; lra).
  apply (american_call_equals_european 100 100 1 0.05 0.2 100
           (built_tree 100 100 1 0.05 0.2 100 0 call european));
    try lra.
  - apply init_built_tree. lia.
  - unfold built_tree. cbn [BinomialTree.p].
    apply risk_neutral_p_unit.
    + lra.
    + rewrite H100. lra.
    + rewrite H100. rewrite Rabs_pos_eq by lra.
      assert (sqrt (1 / 100) <= 1).
      { apply Rle_trans with (sqrt 1); [apply sqrt_le_1; lra |].
        rewrite sqrt_1. lra. }
      lra.
Defined.

(** X5: when the risk-neutral probability lies in [0,1], the European
    lattice price of a contract with S, K >= 0 respects the bounds of
    arbitrage: it is at least 0 and at least the discounted forward
    S e^(-qT) - K e^(-rT) (call) or K e^(-rT) - S e^(-qT) (put), and at
    most S e^(-qT) (call) or K e^(-rT) (put). *)
Theorem european_price_bounds (S K T r sigma : R) (n : nat) (q : R)
        (ot : option_type) (eu : BinomialTree.t) :
  0 <= S -> 0 <= K -> 0 < T -> 0 < sigma ->
  BinomialTree.init S K T r sigma n q ot european = Ok eu ->
  0 <= BinomialTree.p eu <= 1 ->
  exists v,
    lattice_price S K T r sigma n q ot european = Ok v
    /\ 0 <= v
    /\ match ot with
       | call =>
           S * exp (- q * T) - K * exp (- r * T) <= v <= S * exp (- q * T)
       | put =>
           K * exp (- r * T) - S * exp (- q * T) <= v <= K * exp (- r * T)
       end.
Proof.
  intros HS HK HT Hs Hinit Hp.
  destruct (init_is_built _ _ _ _ _ _ _ _ _ _ Hinit) as [Hn ->].
  pose proof (built_dt_pos T n HT Hn) as Hdt.
  eexists. split; [apply lattice_price_built; exact Hn |].
  unfold built_tree in *. cbn [BinomialTree.p] in Hp.
  pose proof (built_carry_pow T r n q Hn) as Hc.
  pose proof (built_discount_pow T r n Hn) as Hd.
  set (dt := T / INR n) in *.
  pose proof (step_disc_pos r dt) as Hdisc.
  assert (Hu : 0 < step_u sigma dt) by apply exp_pos.
  assert (Hdn : 0 < step_d sigma dt) by (rewrite step_d_exp; apply exp_pos).
  pose proof (step_forward r q sigma dt Hs Hdt) as Hf.
  pose proof (tree_value_parity S K T r sigma n q dt
                (step_u sigma dt) (step_d sigma dt) (step_p r q sigma dt)
                (step_disc r dt) (step_a r q dt) Hf n S) as Hpar.
  pose proof (european_put_upper S K T r sigma n q dt
                (step_u sigma dt) (step_d sigma dt) (step_p r q sigma dt)
                (step_disc r dt) Hp
                (Rlt_le _ _ Hdisc) HK (Rlt_le _ _ Hu) (Rlt_le _ _ Hdn)
                n S HS) as Hput.
  rewrite Hc, Hd in Hpar. rewrite Hd in Hput.
  pose proof (tree_value_nonneg
                (BinomialTree.mk S K T r sigma n q call european dt
                   (step_u sigma dt) (step_d sigma dt)
                   (step_p r q sigma dt) (step_disc r dt))
                Hp (Rlt_le _ _ Hdisc) n S) as Hc0.
  pose proof (tree_value_nonneg
                (BinomialTree.mk S K T r sigma n q put european dt
                   (step_u sigma dt) (step_d sigma dt)
                   (step_p r q sigma dt) (step_disc r dt))
                Hp (Rlt_le _ _ Hdisc) n S) as Hp0.
  destruct ot; (split; [assumption |]); lra.
Qed.

Lemma european_price_bounds_witness :
  exists v,
    lattice_price 100 100 1 0.05 0.2 100 0 put european = Ok v
    /\ 0 <= v
    /\ 100 * exp (- (0.05) * 1) - 100 * exp (- 0 * 1) <= v
       <= 100 * exp (- (0.05) * 1).
Proof.
  assert (H100 : INR 100 = 100) by (simpl; lra).
  apply (european_price_bounds 100 100 1 0.05 0.2 100 0 put
           (built_tree 100 100 1 0.05 0.2 100 0 put european));
    try lra.
  - apply init_built_tree. lia.
  - unfold built_tree. cbn [BinomialTree.p].
    apply risk_neutral_p_unit.
    + lra.
    + rewrite H100. lra.
    + rewrite H100. rewrite Rabs_pos_eq by lra.
      assert (sqrt (1 / 100) <= 1).
      { apply Rle_trans with (sqrt 1); [apply sqrt_le_1; lra |].
        rewrite sqrt_1. lra. }
      lra.
Defined.
(** * Lattice pricer: the tree of asset prices

    ** Two-dimensional arrays *)

Lemma getitem2_in_range (m : matrix) (i j : nat) :
  (i < length m)%nat -> (j < length (nth i m []))%nat ->
  getitem2 m i j = Ok (entry m i j).
Proof.
  intros Hi Hj. unfold getitem2, entry.
  rewrite (nth_error_nth' m [] Hi). apply getitem_in_range. exact Hj.
Qed.

Lemma setitem2_in_range (m : matrix) (j : nat) (x : R) :
  forall i, (i < length m)%nat -> (j < length (nth i m []))%nat ->
            setitem2 m i j x = Ok (upd2 m i j x).
Proof.
  induction m as [| row tl IH]; intros i Hi Hj; simpl in Hi; [lia |].
  destruct i as [| i']; simpl in *.
  - rewrite setitem_in_range by exact Hj. reflexivity.
  - rewrite IH by (lia || exact Hj). reflexivity.
Qed.

Lemma upd2_length (m : matrix) (j : nat) (x : R) :
  forall i, length (upd2 m i j x) = length m.
Proof.
  induction m as [| row tl IH]; intros [| i']; simpl; auto.
Qed.

Lemma upd2_row_length (m : matrix) (j : nat) (x : R) :
  forall i k, length (nth k (upd2 m i j x) []) = length (nth k m []).
Proof.
  induction m as [| row tl IH]; intros i k.
  - destruct i; reflexivity.
  - destruct i as [| i'], k as [| k']; simpl; try reflexivity.
    + apply upd_length.
    + apply IH.
Qed.

Lemma upd2_entry_same (m : matrix) (j : nat) (x : R) :
  forall i, (i < length m)%nat -> (j < length (nth i m []))%nat ->
            entry (upd2 m i j x) i j = x.
Proof.
  unfold entry.
  induction m as [| row tl IH]; intros i Hi Hj; simpl in Hi; [lia |].
  destruct i as [| i']; simpl in *.
  - apply upd_nth_same. exact Hj.
  - apply IH; [lia | exact Hj].
Qed.

Lemma upd2_entry_other (m : matrix) (j : nat) (x : R) :
  forall i i' j', (i' <> i \/ j' <> j) ->
                  entry (upd2 m i j x) i' j' = entry m i' j'.
Proof.
  unfold entry.
  induction m as [| row tl IH]; intros i i' j' Hne.
  - destruct i; reflexivity.
  - destruct i as [| k], i' as [| k']; simpl; try reflexivity.
    + destruct Hne as [Hne | Hne]; [contradiction |].
      apply upd_nth_other. exact Hne.
    + apply IH.
      destruct Hne as [Hne | Hne]; [left; congruence | right; exact Hne].
Qed.

Lemma upd2_square (k : nat) (m : matrix) (i j : nat) (x : R) :
  square k m -> square k (upd2 m i j x).
Proof.
  intros [Hl Hr]. split.
  - rewrite upd2_length. exact Hl.
  - intros i' Hi'. rewrite upd2_row_length. apply Hr. exact Hi'.
Qed.

Lemma zeros2_row (k i : nat) :
  (i < k)%nat -> nth i (zeros2 k k) [] = zeros k.
Proof.
  intros Hi. unfold zeros2.
  assert (Hl : (i < length (repeat (zeros k) k))%nat)
    by (rewrite repeat_length; exact Hi).
  rewrite (nth_indep (repeat (zeros k) k) [] (zeros k) Hl).
  apply nth_repeat.
Qed.

Lemma zeros2_square (k : nat) : square k (zeros2 k k).
Proof.
  split; [apply repeat_length |].
  intros i Hi. rewrite zeros2_row by exact Hi. apply zeros_length.
Qed.

Lemma zeros2_entry (k i j : nat) : entry (zeros2 k k) i j = 0.
Proof.
  unfold entry.
  destruct (Nat.lt_ge_cases i k) as [Hi | Hi].
  - rewrite zeros2_row by exact Hi. unfold zeros.
    destruct (Nat.lt_ge_cases j k) as [Hj | Hj].
    + apply nth_repeat.
    + apply nth_overflow. rewrite repeat_length. exact Hj.
  - unfold zeros2.
    rewrite (nth_overflow (repeat (zeros k) k))
      by (rewrite repeat_length; exact Hi).
    destruct j; reflexivity.
Qed.

(** ** [get_tree_data] *)

Section TreeData.

Variable self : BinomialTree.t.

Let n := BinomialTree.n self.

(** After the columns before [j]. *)
Let columns (j : nat) (m : matrix) : Prop :=
  square (n + 1) m
  /\ forall i c, entry m i c = if (c <? j)%nat then tree_entry self i c else 0.

(** In column [j], after the rows before [i]. *)
Let rows (j i : nat) (m : matrix) : Prop :=
  square (n + 1) m
  /\ forall i' c,
       entry m i' c
       = if (c <? j)%nat then tree_entry self i' c
         else if ((c =? j) && (i' <? i))%nat%bool then tree_entry self i' c
         else 0.

Lemma get_tree_data_columns :
  returns (columns (n + 1)) (BinomialTree.get_tree_data self).
Proof.
  unfold BinomialTree.get_tree_data. fold n.
  change (n + 1)%nat with (0 + (n + 1))%nat at 1.
  apply (for_range_indexed columns).
  - intros j m Hj [Hsq Hm].
    assert (H : returns (rows j (0 + (j + 1))%nat)
                  (for_range 0 (j + 1)
                     (fun i price_tree =>
                        setitem2 price_tree i j
                          (BinomialTree.S self
                           * BinomialTree.u self ^ (j - i)
                           * BinomialTree.d self ^ i)) m)).
    { apply for_range_indexed.
      - intros i m' Hi [Hsq' Hm'].
        destruct Hsq' as [Hl Hr].
        rewrite setitem2_in_range by (rewrite ?Hr; lia).
        eexists. split; [reflexivity |]. split.
        + apply upd2_square. split; assumption.
        + intros i' c.
          destruct (Nat.eq_dec i' i) as [-> | Hne];
            [destruct (Nat.eq_dec c j) as [-> | Hnc] |].
          * rewrite upd2_entry_same by (rewrite ?Hr; lia).
            rewrite Nat.ltb_irrefl, Nat.eqb_refl.
            replace (i <? S i)%nat with true
              by (symmetry; apply Nat.ltb_lt; lia).
            unfold tree_entry.
            replace (i <=? j)%nat with true
              by (symmetry; apply Nat.leb_le; lia).
            reflexivity.
          * rewrite upd2_entry_other by (right; exact Hnc).
            rewrite Hm'.
            replace (c =? j)%nat with false
              by (symmetry; apply Nat.eqb_neq; exact Hnc).
            reflexivity.
          * rewrite upd2_entry_other by (left; exact Hne).
            rewrite Hm'.
            destruct (c <? j)%nat; [reflexivity |].
            destruct (c =? j)%nat; [| reflexivity]. cbn [andb].
            destruct (Nat.ltb_spec i' i) as [Hlt | Hge].
            -- replace (i' <? S i)%nat with true
                 by (symmetry; apply Nat.ltb_lt; lia).
               reflexivity.
            -- replace (i' <? S i)%nat with false
                 by (symmetry; apply Nat.ltb_ge; lia).
               reflexivity.
      - split; [exact Hsq |]. intros i' c. rewrite Hm.
        destruct (c <? j)%nat; [reflexivity |].
        rewrite Bool.andb_false_r. reflexivity. }
    destruct H as (m' & Hm' & Hsq' & Hc).
    exists m'. split; [exact Hm' |]. split; [exact Hsq' |].
    intros i c. rewrite Hc.
    destruct (Nat.ltb_spec c j) as [Hlt | Hge].
    + replace (c <? S j)%nat with true
        by (symmetry; apply Nat.ltb_lt; lia).
      reflexivity.
    + destruct (Nat.eqb_spec c j) as [-> | Hne].
      * replace (j <? S j)%nat with true
          by (symmetry; apply Nat.ltb_lt; lia).
        cbn [andb]. unfold tree_entry.
        destruct (Nat.ltb_spec i (0 + (j + 1))) as [Hi | Hi].
        -- reflexivity.
        -- replace (i <=? j)%nat with false
             by (symmetry; apply Nat.leb_gt; lia).
           reflexivity.
      * replace (c <? S j)%nat with false
          by (symmetry; apply Nat.ltb_ge; lia).
        reflexivity.
  - split; [apply zeros2_square |]. intros i c.
    rewrite zeros2_entry. reflexivity.
Qed.

Lemma get_tree_data_entries :
  returns (fun m =>
             square (n + 1) m
             /\ forall i j, (i <= n)%nat -> (j <= n)%nat ->
                  getitem2 m i j = Ok (tree_entry self i j))
          (BinomialTree.get_tree_data self).
Proof.
  destruct get_tree_data_columns as (m & Hm & [Hl Hr] & Hc).
  exists m. split; [exact Hm |]. split; [split; assumption |].
  intros i j Hi Hj.
  rewrite getitem2_in_range by (rewrite ?Hr; lia).
  rewrite Hc.
  destruct (Nat.ltb_spec j (n + 1)) as [_ | Hge]; [reflexivity | lia].
Qed.

End TreeData.

(** X6: [get_tree_data] never raises and returns a square array of side
    n + 1 whose entry at row i, column j is S u^(j-i) d^i on and above
    the diagonal (i <= j) and 0 below it. *)
Theorem get_tree_data_contents (self : BinomialTree.t) :
  exists m,
    BinomialTree.get_tree_data self = Ok m
    /\ length m = (BinomialTree.n self + 1)%nat
    /\ (forall i, (i <= BinomialTree.n self)%nat ->
          length (nth i m []) = (BinomialTree.n self + 1)%nat)
    /\ forall i j,
         (i <= BinomialTree.n self)%nat -> (j <= BinomialTree.n self)%nat ->
         getitem2 m i j
         = Ok (if (i <=? j)%nat
               then BinomialTree.S self * BinomialTree.u self ^ (j - i)
                    * BinomialTree.d self ^ i
               else 0).
Proof.
  destruct (get_tree_data_entries self) as (m & Hm & [Hl Hr] & He).
  exists m. split; [exact Hm |]. split; [exact Hl |]. split.
  - intros i Hi. apply Hr. lia.
  - intros i j Hi Hj. rewrite (He i j Hi Hj). reflexivity.
Qed.

(** X7: the tree of the constructor recombines: an up move followed by a
    down move gives the price two columns to the right and one row down,
    which is the price started from. *)
Theorem get_tree_data_recombines (S K T r sigma : R) (n : nat) (q : R)
        (ot : option_type) (et : exercise_type) (bt : BinomialTree.t)
        (i j : nat) :
  BinomialTree.init S K T r sigma n q ot et = Ok bt ->
  (i <= j)%nat -> (j + 2 <= n)%nat ->
  exists m,
    BinomialTree.get_tree_data bt = Ok m
    /\ getitem2 m (i + 1) (j + 2) = getitem2 m i j.
Proof.
  intros Hinit Hij Hjn.
  destruct (init_is_built _ _ _ _ _ _ _ _ _ _ Hinit) as [Hn ->].
  destruct (get_tree_data_entries (built_tree S K T r sigma n q ot et))
    as (m & Hm & _ & He).
  exists m. split; [exact Hm |].
  change (BinomialTree.n (built_tree S K T r sigma n q ot et)) with n in He.
  rewrite !He by lia. f_equal. unfold tree_entry.
  replace (i + 1 <=? j + 2)%nat with true
    by (symmetry; apply Nat.leb_le; lia).
  replace (i <=? j)%nat with true by (symmetry; apply Nat.leb_le; lia).
  replace (j + 2 - (i + 1))%nat with (Datatypes.S (j - i)) by lia.
  replace (i + 1)%nat with (Datatypes.S i) by lia.
  unfold built_tree.
  cbn [BinomialTree.S BinomialTree.u BinomialTree.d pow].
  set (dt := T / INR n).
  assert (Hud : step_u sigma dt * step_d sigma dt = 1).
  { unfold step_d. field. apply Rgt_not_eq, exp_pos. }
  replace (S * (step_u sigma dt * step_u sigma dt ^ (j - i))
           * (step_d sigma dt * step_d sigma dt ^ i))
    with (S * step_u sigma dt ^ (j - i) * step_d sigma dt ^ i
          * (step_u sigma dt * step_d sigma dt)) by ring.
  rewrite Hud. ring.
Qed.

Lemma get_tree_data_recombines_witness :
  exists m,
    BinomialTree.get_tree_data
      (built_tree 100 100 1 0.05 0.2 3 0 call european) = Ok m
    /\ getitem2 m (0 + 1) (1 + 2) = getitem2 m 0 1.
Proof.
  apply (get_tree_data_recombines 100 100 1 0.05 0.2 3 0 call european).
  - apply init_built_tree. lia.
  - lia.
  - lia.
Defined.

(** X8: the asset prices at which [price] evaluates the payoff at maturity
    are the last column of [get_tree_data]. *)
Theorem terminal_prices_last_column (self : BinomialTree.t) (i : nat) :
  (i <= BinomialTree.n self)%nat ->
  exists m S_T,
    BinomialTree.get_tree_data self = Ok m
    /\ BinomialTree.terminal_prices self = Ok S_T
    /\ getitem2 m i (BinomialTree.n self) = getitem S_T i.
Proof.
  intros Hi.
  destruct (get_tree_data_entries self) as (m & Hm & _ & He).
  destruct (terminal_prices_contents self) as (S_T & HS & LS & Hc).
  exists m, S_T. split; [exact Hm |]. split; [exact HS |].
  rewrite He by lia. rewrite getitem_in_range by lia.
  rewrite Hc by exact Hi. unfold tree_entry.
  replace (i <=? BinomialTree.n self)%nat with true
    by (symmetry; apply Nat.leb_le; exact Hi).
  reflexivity.
Qed.

Lemma terminal_prices_last_column_witness :
  exists m S_T,
    BinomialTree.get_tree_data
      (built_tree 100 100 1 0.05 0.2 3 0 call european) = Ok m
    /\ BinomialTree.terminal_prices
         (built_tree 100 100 1 0.05 0.2 3 0 call european) = Ok S_T
    /\ getitem2 m 2 3 = getitem S_T 2.
Proof.
  apply (terminal_prices_last_column
           (built_tree 100 100 1 0.05 0.2 3 0 call european) 2).
  cbn. lia.
Defined.
(** * plots/utility.py: the time to maturity *)

Lemma days_fraction (k : Z) :
  (0 < k)%Z -> 0.001 < IZR k / 365.0.
Proof.
  intros Hk. assert (H1 : 1 <= IZR k) by (apply IZR_le; lia). lra.
Qed.

Lemma days_past (k : Z) :
  (k <= 0)%Z -> IZR k / 365.0 <= 0.
Proof.
  intros Hk. assert (H0 : IZR k <= 0) by (apply IZR_le; exact Hk). lra.
Qed.

(** X9: [time_to_maturity] never returns less than 0.001: for an expiry
    after today it is the number of days divided by 365, and for an expiry
    today or in the past it is 0.001 (about a third of a day), so the
    result can always be passed as a time to maturity T > 0. *)
Theorem time_to_maturity_floor (today expiry_date : Z) :
  OptionsUtils.time_to_maturity today expiry_date
  = (if (today <? expiry_date)%Z
     then IZR (expiry_date - today) / 365.0
     else 0.001)
  /\ 0.001 <= OptionsUtils.time_to_maturity today expiry_date.
Proof.
  unfold OptionsUtils.time_to_maturity, py_max.
  destruct (Z.ltb_spec today expiry_date) as [Hlt | Hge].
  - pose proof (days_fraction (expiry_date - today) ltac:(lia)) as H.
    rewrite Rmax_left by lra. split; lra.
  - pose proof (days_past (expiry_date - today) ltac:(lia)) as H.
    rewrite Rmax_right by lra. split; lra.
Qed.
(** * models/BlackScholes.py: the Greeks *)

(** The price as a formula of the parameters. *)
Lemma analytic_value_formula (ot : option_type) (S K T r sigma q : R) :
  K <> 0 ->
  analytic_value ot S K T r sigma q
  = match ot with
    | call =>
        S * exp (- q * T) * norm_cdf (Spec.d1 S K T r sigma q)
        - K * exp (- r * T) * norm_cdf (Spec.d2 S K T r sigma q)
    | put =>
        K * exp (- r * T) * norm_cdf (- Spec.d2 S K T r sigma q)
        - S * exp (- q * T) * norm_cdf (- Spec.d1 S K T r sigma q)
    end.
Proof.
  intros HK. unfold analytic_value.
  rewrite BlackScholes_init_ok by exact HK.
  destruct ot; reflexivity.
Qed.

Lemma analytic_delta_formula (ot : option_type) (S K T r sigma q : R) :
  K <> 0 ->
  analytic_delta ot S K T r sigma q
  = match ot with
    | call => exp (- q * T) * norm_cdf (Spec.d1 S K T r sigma q)
    | put => exp (- q * T) * (norm_cdf (Spec.d1 S K T r sigma q) - 1)
    end.
Proof.
  intros HK. unfold analytic_delta.
  rewrite BlackScholes_init_ok by exact HK.
  destruct ot; reflexivity.
Qed.

Lemma init_built (S K T r sigma q : R) (bs : BlackScholes.t) :
  K <> 0 ->
  BlackScholes.init S K T r sigma q = Ok bs ->
  bs = BlackScholes.mk S K T r sigma q
         (Spec.d1 S K T r sigma q) (Spec.d2 S K T r sigma q).
Proof.
  intros HK E. rewrite BlackScholes_init_ok in E by exact HK.
  injection E as <-. reflexivity.
Qed.

(** The two density terms of the price are equal. *)
Lemma density_legs (S K T r sigma q : R) :
  0 < S -> 0 < K -> 0 < T -> 0 < sigma ->
  S * exp (- q * T) * norm_pdf (Spec.d1 S K T r sigma q)
  = K * exp (- r * T) * norm_pdf (Spec.d2 S K T r sigma q).
Proof.
  intros HS HK HT Hs.
  pose proof (leg_B_alt K r q sigma HK Hs T (ln S) HT) as E.
  unfold leg_B in E.
  rewrite (D1_root S K T r sigma q HS HK HT Hs) in E.
  rewrite (D2_root S K T r sigma q HS HK HT Hs) in E.
  rewrite <- E. unfold Rminus. rewrite exp_plus, exp_ln by exact HS.
  replace (- q * T) with (- (q * T)) by ring. ring.
Qed.

Lemma derivable_pt_lim_ext_all (f g : R -> R) (x l : R) :
  (forall z, f z = g z) ->
  derivable_pt_lim f x l -> derivable_pt_lim g x l.
Proof.
  intros E. apply (derivable_pt_lim_locally_ext f g x (x - 1) (x + 1));
    [lra | intros z _; apply E].
Qed.

(** The derivative of a difference of two weighted normal laws. *)
Lemma two_leg_deriv (A B f g : R -> R) (x A' B' f' g' : R) :
  derivable_pt_lim A x A' -> derivable_pt_lim B x B' ->
  derivable_pt_lim f x f' -> derivable_pt_lim g x g' ->
  derivable_pt_lim (fun s => A s * norm_cdf (f s) - B s * norm_cdf (g s)) x
    ((A' * norm_cdf (f x) + A x * (norm_pdf (f x) * f'))
     - (B' * norm_cdf (g x) + B x * (norm_pdf (g x) * g'))).
Proof.
  intros HA HB Hf Hg.
  apply (derivable_pt_lim_minus (fun s => A s * norm_cdf (f s))
           (fun s => B s * norm_cdf (g s))).
  - apply (derivable_pt_lim_mult A (fun s => norm_cdf (f s)));
      [exact HA | apply norm_cdf_comp_deriv; exact Hf].
  - apply (derivable_pt_lim_mult B (fun s => norm_cdf (g s)));
      [exact HB | apply norm_cdf_comp_deriv; exact Hg].
Qed.

Lemma const_deriv (a x : R) : derivable_pt_lim (fun _ => a) x 0.
Proof. apply (derivable_pt_lim_const a). Qed.

Lemma scale_deriv (a x : R) : derivable_pt_lim (fun s => s * a) x a.
Proof.
  derive_with_reg.
Qed.

Section Sensitivities.

Variables S K T r sigma q : R.
Hypothesis S_pos : 0 < S.
Hypothesis K_pos : 0 < K.
Hypothesis T_pos : 0 < T.
Hypothesis sigma_pos : 0 < sigma.

Lemma root_T_pos : 0 < sqrt T.
Proof. apply sqrt_lt_R0. exact T_pos. Qed.

(** *** In the spot *)

Lemma d1_deriv_spot :
  derivable_pt_lim (fun s => Spec.d1 s K T r sigma q) S
    (/ (sigma * sqrt T) * / S).
Proof.
  apply (derivable_pt_lim_locally_ext
           (comp (D1 K r q sigma T) ln) _ S (S / 2) (2 * S)); [lra | |].
  - intros z Hz. unfold comp. apply D1_root; lra.
  - apply derivable_pt_lim_comp;
      [apply derivable_pt_lim_ln; exact S_pos
      | apply D1_deriv_x; assumption].
Qed.

Lemma d2_deriv_spot :
  derivable_pt_lim (fun s => Spec.d2 s K T r sigma q) S
    (/ (sigma * sqrt T) * / S).
Proof.
  apply (derivable_pt_lim_locally_ext
           (comp (D2 K r q sigma T) ln) _ S (S / 2) (2 * S)); [lra | |].
  - intros z Hz. unfold comp. apply D2_root; lra.
  - apply derivable_pt_lim_comp;
      [apply derivable_pt_lim_ln; exact S_pos
      | apply D2_deriv_x; assumption].
Qed.

Lemma value_deriv_spot (ot : option_type) :
  derivable_pt_lim (fun s => analytic_value ot s K T r sigma q) S
    (analytic_delta ot S K T r sigma q).
Proof.
  assert (HK : K <> 0) by lra.
  pose proof (density_legs S K T r sigma q S_pos K_pos T_pos sigma_pos) as Hd.
  rewrite analytic_delta_formula by exact HK.
  destruct ot.
  - apply (derivable_pt_lim_ext_all
             (fun s => (fun s => s * exp (- q * T)) s
                       * norm_cdf (Spec.d1 s K T r sigma q)
                       - (fun _ => K * exp (- r * T)) s
                         * norm_cdf (Spec.d2 s K T r sigma q))).
    { intros z. rewrite analytic_value_formula by exact HK. reflexivity. }
    match goal with |- derivable_pt_lim _ _ ?l =>
      replace l with
        ((exp (- q * T) * norm_cdf (Spec.d1 S K T r sigma q)
          + S * exp (- q * T)
            * (norm_pdf (Spec.d1 S K T r sigma q)
               * (/ (sigma * sqrt T) * / S)))
         - (0 * norm_cdf (Spec.d2 S K T r sigma q)
            + K * exp (- r * T)
              * (norm_pdf (Spec.d2 S K T r sigma q)
                 * (/ (sigma * sqrt T) * / S))))
    end.
    + apply (two_leg_deriv (fun s => s * exp (- q * T))
               (fun _ => K * exp (- r * T))
               (fun s => Spec.d1 s K T r sigma q)
               (fun s => Spec.d2 s K T r sigma q));
        [apply scale_deriv | apply const_deriv
        | exact d1_deriv_spot | exact d2_deriv_spot].
    + set (c := / (sigma * sqrt T) * / S).
      replace (K * exp (- r * T) * (norm_pdf (Spec.d2 S K T r sigma q) * c))
        with (K * exp (- r * T) * norm_pdf (Spec.d2 S K T r sigma q) * c)
        by ring.
      rewrite <- Hd. ring.
  - apply (derivable_pt_lim_ext_all
             (fun s => (fun _ => K * exp (- r * T)) s
                       * norm_cdf ((fun s => - Spec.d2 s K T r sigma q) s)
                       - (fun s => s * exp (- q * T)) s
                         * norm_cdf
                             ((fun s => - Spec.d1 s K T r sigma q) s))).
    { intros z. rewrite analytic_value_formula by exact HK. reflexivity. }
    match goal with |- derivable_pt_lim _ _ ?l =>
      replace l with
        ((0 * norm_cdf (- Spec.d2 S K T r sigma q)
          + K * exp (- r * T)
            * (norm_pdf (- Spec.d2 S K T r sigma q)
               * - (/ (sigma * sqrt T) * / S)))
         - (exp (- q * T) * norm_cdf (- Spec.d1 S K T r sigma q)
            + S * exp (- q * T)
              * (norm_pdf (- Spec.d1 S K T r sigma q)
                 * - (/ (sigma * sqrt T) * / S))))
    end.
    + apply (two_leg_deriv (fun _ => K * exp (- r * T))
               (fun s => s * exp (- q * T))
               (fun s => - Spec.d2 s K T r sigma q)
               (fun s => - Spec.d1 s K T r sigma q));
        [apply const_deriv | apply scale_deriv
        | apply opp_deriv; exact d2_deriv_spot
        | apply opp_deriv; exact d1_deriv_spot].
    + rewrite !norm_pdf_opp, !norm_cdf_opp.
      set (c := / (sigma * sqrt T) * / S).
      replace (K * exp (- r * T) * (norm_pdf (Spec.d2 S K T r sigma q) * - c))
        with (- (K * exp (- r * T) * norm_pdf (Spec.d2 S K T r sigma q) * c))
        by ring.
      rewrite <- Hd. ring.
Qed.

Lemma delta_deriv_spot (ot : option_type) :
  derivable_pt_lim (fun s => analytic_delta ot s K T r sigma q) S
    (exp (- q * T) * norm_pdf (Spec.d1 S K T r sigma q)
     / (S * sigma * sqrt T)).
Proof.
  pose proof root_T_pos as HrT.
  assert (HK : K <> 0) by lra.
  assert (Hne : S * sigma * sqrt T <> 0).
  { apply Rgt_not_eq. repeat apply Rmult_lt_0_compat; assumption. }
  pose proof (norm_cdf_comp_deriv (fun s => Spec.d1 s K T r sigma q) S _
                d1_deriv_spot) as Hc.
  destruct ot.
  - apply (derivable_pt_lim_ext_all
             (fun s => exp (- q * T)
                       * (fun s => norm_cdf (Spec.d1 s K T r sigma q)) s)).
    { intros z. rewrite analytic_delta_formula by exact HK. reflexivity. }
    match goal with |- derivable_pt_lim _ _ ?l =>
      replace l with
        (exp (- q * T)
         * (norm_pdf (Spec.d1 S K T r sigma q)
            * (/ (sigma * sqrt T) * / S)))
    end.
    + apply (derivable_pt_lim_scal
               (fun s => norm_cdf (Spec.d1 s K T r sigma q))). exact Hc.
    + field. repeat split; apply Rgt_not_eq; assumption.
  - apply (derivable_pt_lim_ext_all
             (fun s => exp (- q * T)
                       * (fun s => norm_cdf (Spec.d1 s K T r sigma q) - 1)
                           s)).
    { intros z. rewrite analytic_delta_formula by exact HK. reflexivity. }
    match goal with |- derivable_pt_lim _ _ ?l =>
      replace l with
        (exp (- q * T)
         * (norm_pdf (Spec.d1 S K T r sigma q)
            * (/ (sigma * sqrt T) * / S) - 0))
    end.
    + apply (derivable_pt_lim_scal
               (fun s => norm_cdf (Spec.d1 s K T r sigma q) - 1)).
      apply (derivable_pt_lim_minus
               (fun s => norm_cdf (Spec.d1 s K T r sigma q)) (fun _ => 1));
        [exact Hc | apply const_deriv].
    + field. repeat split; apply Rgt_not_eq; assumption.
Qed.

(** *** In the volatility *)

Lemma d1_deriv_sigma :
  derivable_pt_lim (fun v => Spec.d1 S K T r v q) sigma
    (- Spec.d2 S K T r sigma q / sigma).
Proof.
  pose proof root_T_pos as HrT.
  assert (Hqq : sqrt T * sqrt T = T) by (apply sqrt_sqrt; lra).
  assert (Hne : sigma * sqrt T <> 0) by (apply Rgt_not_eq; nra).
  unfold Spec.d2, Spec.d1. derive_with_reg; try assumption.
  unfold Rsqr. set (s := sqrt T) in *. rewrite <- Hqq.
  field. split; apply Rgt_not_eq; assumption.
Qed.

Lemma d2_deriv_sigma :
  derivable_pt_lim (fun v => Spec.d2 S K T r v q) sigma
    (- Spec.d1 S K T r sigma q / sigma).
Proof.
  pose proof root_T_pos as HrT.
  assert (Hqq : sqrt T * sqrt T = T) by (apply sqrt_sqrt; lra).
  assert (Hne : sigma * sqrt T <> 0) by (apply Rgt_not_eq; nra).
  unfold Spec.d2, Spec.d1. derive_with_reg; try assumption.
  unfold Rsqr. set (s := sqrt T) in *. rewrite <- Hqq.
  field. split; apply Rgt_not_eq; assumption.
Qed.

Lemma d1_minus_d2 : Spec.d1 S K T r sigma q - Spec.d2 S K T r sigma q
                    = sigma * sqrt T.
Proof. unfold Spec.d2. ring. Qed.

Lemma value_deriv_sigma (ot : option_type) :
  derivable_pt_lim (fun v => analytic_value ot S K T r v q) sigma
    (S * exp (- q * T) * norm_pdf (Spec.d1 S K T r sigma q) * sqrt T).
Proof.
  assert (HK : K <> 0) by lra.
  pose proof (density_legs S K T r sigma q S_pos K_pos T_pos sigma_pos) as Hd.
  pose proof d1_minus_d2 as Hm.
  set (d1 := Spec.d1 S K T r sigma q) in *.
  set (d2 := Spec.d2 S K T r sigma q) in *.
  destruct ot.
  - apply (derivable_pt_lim_ext_all
             (fun v => (fun _ => S * exp (- q * T)) v
                       * norm_cdf (Spec.d1 S K T r v q)
                       - (fun _ => K * exp (- r * T)) v
                         * norm_cdf (Spec.d2 S K T r v q))).
    { intros z. rewrite analytic_value_formula by exact HK. reflexivity. }
    match goal with |- derivable_pt_lim _ _ ?l =>
      replace l with
        ((0 * norm_cdf d1
          + S * exp (- q * T) * (norm_pdf d1 * (- d2 / sigma)))
         - (0 * norm_cdf d2
            + K * exp (- r * T) * (norm_pdf d2 * (- d1 / sigma))))
    end.
    + apply (two_leg_deriv (fun _ => S * exp (- q * T))
               (fun _ => K * exp (- r * T))
               (fun v => Spec.d1 S K T r v q)
               (fun v => Spec.d2 S K T r v q));
        [apply const_deriv | apply const_deriv
        | exact d1_deriv_sigma | exact d2_deriv_sigma].
    + replace (K * exp (- r * T) * (norm_pdf d2 * (- d1 / sigma)))
        with (K * exp (- r * T) * norm_pdf d2 * (- d1 / sigma)) by ring.
      rewrite <- Hd. rewrite <- (Rmult_1_r (sqrt T)).
      replace (sqrt T * 1) with ((d1 - d2) / sigma)
        by (rewrite Hm; field; apply Rgt_not_eq; exact sigma_pos).
      field. apply Rgt_not_eq; exact sigma_pos.
  - apply (derivable_pt_lim_ext_all
             (fun v => (fun _ => K * exp (- r * T)) v
                       * norm_cdf ((fun v => - Spec.d2 S K T r v q) v)
                       - (fun _ => S * exp (- q * T)) v
                         * norm_cdf ((fun v => - Spec.d1 S K T r v q) v))).
    { intros z. rewrite analytic_value_formula by exact HK. reflexivity. }
    match goal with |- derivable_pt_lim _ _ ?l =>
      replace l with
        ((0 * norm_cdf (- d2)
          + K * exp (- r * T) * (norm_pdf (- d2) * - (- d1 / sigma)))
         - (0 * norm_cdf (- d1)
            + S * exp (- q * T) * (norm_pdf (- d1) * - (- d2 / sigma))))
    end.
    + apply (two_leg_deriv (fun _ => K * exp (- r * T))
               (fun _ => S * exp (- q * T))
               (fun v => - Spec.d2 S K T r v q)
               (fun v => - Spec.d1 S K T r v q));
        [apply const_deriv | apply const_deriv
        | apply opp_deriv; exact d2_deriv_sigma
        | apply opp_deriv; exact d1_deriv_sigma].
    + rewrite !norm_pdf_opp.
      replace (K * exp (- r * T) * (norm_pdf d2 * - (- d1 / sigma)))
        with (K * exp (- r * T) * norm_pdf d2 * - (- d1 / sigma)) by ring.
      rewrite <- Hd. rewrite <- (Rmult_1_r (sqrt T)).
      replace (sqrt T * 1) with ((d1 - d2) / sigma)
        by (rewrite Hm; field; apply Rgt_not_eq; exact sigma_pos).
      field. apply Rgt_not_eq; exact sigma_pos.
Qed.

(** *** In the rate *)

Lemma d1_deriv_rate :
  derivable_pt_lim (fun x => Spec.d1 S K T x sigma q) r
    (T / (sigma * sqrt T)).
Proof.
  pose proof root_T_pos as HrT.
  assert (Hne : sigma * sqrt T <> 0) by (apply Rgt_not_eq; nra).
  unfold Spec.d1. derive_with_reg; try assumption.
  unfold Rsqr. field. split; apply Rgt_not_eq; assumption.
Qed.

Lemma d2_deriv_rate :
  derivable_pt_lim (fun x => Spec.d2 S K T x sigma q) r
    (T / (sigma * sqrt T)).
Proof.
  pose proof root_T_pos as HrT.
  assert (Hne : sigma * sqrt T <> 0) by (apply Rgt_not_eq; nra).
  unfold Spec.d2, Spec.d1. derive_with_reg; try assumption.
  unfold Rsqr. field. split; apply Rgt_not_eq; assumption.
Qed.

Lemma strike_leg_deriv_rate :
  derivable_pt_lim (fun x => K * exp (- x * T)) r (- (K * T * exp (- r * T))).
Proof.
  derive_with_reg.
Qed.

Lemma value_deriv_rate (ot : option_type) :
  derivable_pt_lim (fun x => analytic_value ot S K T x sigma q) r
    (match ot with
     | call => K * T * exp (- r * T) * norm_cdf (Spec.d2 S K T r sigma q)
     | put => - K * T * exp (- r * T) * norm_cdf (- Spec.d2 S K T r sigma q)
     end).
Proof.
  assert (HK : K <> 0) by lra.
  pose proof (density_legs S K T r sigma q S_pos K_pos T_pos sigma_pos) as Hd.
  set (d1 := Spec.d1 S K T r sigma q) in *.
  set (d2 := Spec.d2 S K T r sigma q) in *.
  set (c := T / (sigma * sqrt T)).
  destruct ot.
  - apply (derivable_pt_lim_ext_all
             (fun x => (fun _ => S * exp (- q * T)) x
                       * norm_cdf (Spec.d1 S K T x sigma q)
                       - (fun x => K * exp (- x * T)) x
                         * norm_cdf (Spec.d2 S K T x sigma q))).
    { intros z. rewrite analytic_value_formula by exact HK. reflexivity. }
    match goal with |- derivable_pt_lim _ _ ?l =>
      replace l with
        ((0 * norm_cdf d1 + S * exp (- q * T) * (norm_pdf d1 * c))
         - (- (K * T * exp (- r * T)) * norm_cdf d2
            + K * exp (- r * T) * (norm_pdf d2 * c)))
    end.
    + apply (two_leg_deriv (fun _ => S * exp (- q * T))
               (fun x => K * exp (- x * T))
               (fun x => Spec.d1 S K T x sigma q)
               (fun x => Spec.d2 S K T x sigma q));
        [apply const_deriv | exact strike_leg_deriv_rate
        | exact d1_deriv_rate | exact d2_deriv_rate].
    + replace (K * exp (- r * T) * (norm_pdf d2 * c))
        with (K * exp (- r * T) * norm_pdf d2 * c) by ring.
      rewrite <- Hd. ring.
  - apply (derivable_pt_lim_ext_all
             (fun x => (fun x => K * exp (- x * T)) x
                       * norm_cdf ((fun x => - Spec.d2 S K T x sigma q) x)
                       - (fun _ => S * exp (- q * T)) x
                         * norm_cdf ((fun x => - Spec.d1 S K T x sigma q) x))).
    { intros z. rewrite analytic_value_formula by exact HK. reflexivity. }
    match goal with |- derivable_pt_lim _ _ ?l =>
      replace l with
        ((- (K * T * exp (- r * T)) * norm_cdf (- d2)
          + K * exp (- r * T) * (norm_pdf (- d2) * - c))
         - (0 * norm_cdf (- d1)
            + S * exp (- q * T) * (norm_pdf (- d1) * - c)))
    end.
    + apply (two_leg_deriv (fun x => K * exp (- x * T))
               (fun _ => S * exp (- q * T))
               (fun x => - Spec.d2 S K T x sigma q)
               (fun x => - Spec.d1 S K T x sigma q));
        [exact strike_leg_deriv_rate | apply const_deriv
        | apply opp_deriv; exact d2_deriv_rate
        | apply opp_deriv; exact d1_deriv_rate].
    + rewrite !norm_pdf_opp.
      replace (K * exp (- r * T) * (norm_pdf d2 * - c))
        with (- (K * exp (- r * T) * norm_pdf d2 * c)) by ring.
      rewrite <- Hd. ring.
Qed.

(** *** In the time to maturity *)

Lemma forward_deriv_time :
  derivable_pt_lim (fun t => forward_part K r q t (ln S)) T
    (- q * (S * exp (- q * T)) + r * (K * exp (- r * T))).
Proof.
  unfold forward_part. derive_with_reg.
  unfold Rminus. rewrite exp_plus, exp_ln by exact S_pos.
  replace (- q * T) with (- (q * T)) by ring. ring.
Qed.

Lemma value_deriv_time (ot : option_type) :
  derivable_pt_lim (fun t => analytic_value ot S K t r sigma q) T
    (match ot with
     | call =>
         S * exp (- q * T) * norm_pdf (Spec.d1 S K T r sigma q) * sigma
         / (2 * sqrt T)
         - q * S * exp (- q * T) * norm_cdf (Spec.d1 S K T r sigma q)
         + r * K * exp (- r * T) * norm_cdf (Spec.d2 S K T r sigma q)
     | put =>
         S * exp (- q * T) * norm_pdf (Spec.d1 S K T r sigma q) * sigma
         / (2 * sqrt T)
         + q * S * exp (- q * T) * norm_cdf (- Spec.d1 S K T r sigma q)
         - r * K * exp (- r * T) * norm_cdf (- Spec.d2 S K T r sigma q)
     end).
Proof.
  assert (HK : K <> 0) by lra.
  pose proof (density_legs S K T r sigma q S_pos K_pos T_pos sigma_pos) as Hd.
  pose proof (D1_root S K T r sigma q S_pos K_pos T_pos sigma_pos) as E1.
  pose proof (D2_root S K T r sigma q S_pos K_pos T_pos sigma_pos) as E2.
  assert (HeS : exp (ln S - q * T) = S * exp (- q * T)).
  { unfold Rminus. rewrite exp_plus, exp_ln by exact S_pos.
    replace (- q * T) with (- (q * T)) by ring. reflexivity. }
  apply (derivable_pt_lim_locally_ext
           (fun t => put_fun K r q sigma t (ln S)
                     + side ot * forward_part K r q t (ln S))
           _ T (T / 2) (2 * T)); [lra | |].
  { intros z Hz.
    pose proof (value_fun_root S K z r sigma q S_pos K_pos
                  ltac:(lra) sigma_pos ot) as E.
    unfold value_fun in E. rewrite E. unfold analytic_value.
    rewrite BlackScholes_init_ok by exact HK. reflexivity. }
  match goal with |- derivable_pt_lim _ _ ?l =>
    replace l with
      (put_t K r q sigma (ln S) T
       + side ot * (- q * (S * exp (- q * T)) + r * (K * exp (- r * T))))
  end.
  - apply (derivable_pt_lim_plus (fun t => put_fun K r q sigma t (ln S))
             (fun t => side ot * forward_part K r q t (ln S))).
    + apply put_fun_deriv_t; assumption.
    + apply (derivable_pt_lim_scal (fun t => forward_part K r q t (ln S))).
      exact forward_deriv_time.
  - unfold put_t, leg_K, leg_S, leg_B. rewrite E1, E2, HeS, <- Hd.
    destruct ot; unfold side; rewrite ?norm_cdf_opp; unfold Rdiv; ring.
Qed.

End Sensitivities.

(** The normal law takes neither 0 nor 1. *)
Lemma norm_cdf_strict (x : R) : 0 < norm_cdf x < 1.
Proof.
  pose proof (norm_cdf_range (x - 1)) as Hl.
  pose proof (norm_cdf_range (x + 1)) as Hu.
  pose proof (norm_cdf_increasing (x - 1) x ltac:(lra)).
  pose proof (norm_cdf_increasing x (x + 1) ltac:(lra)).
  lra.
Qed.

(** X10: for S, K, T, sigma > 0, [delta] is the derivative of the price in
    the spot: of [call_price] for a call, of [put_price] otherwise. *)
Theorem delta_is_spot_derivative
        (S K T r sigma q : R) (ot : option_type) (bs : BlackScholes.t) :
  0 < S -> 0 < K -> 0 < T -> 0 < sigma ->
  BlackScholes.init S K T r sigma q = Ok bs ->
  derivable_pt_lim (fun s => analytic_value ot s K T r sigma q) S
    (BlackScholes.delta bs ot).
Proof.
  intros HS HK HT Hs Hbs.
  replace (BlackScholes.delta bs ot)
    with (analytic_delta ot S K T r sigma q)
    by (unfold analytic_delta; rewrite Hbs; reflexivity).
  apply value_deriv_spot; assumption.
Qed.

Lemma delta_is_spot_derivative_witness :
  exists bs,
    BlackScholes.init 100 100 1 0.05 0.2 0 = Ok bs
    /\ derivable_pt_lim (fun s => analytic_value put s 100 1 0.05 0.2 0) 100
         (BlackScholes.delta bs put).
Proof.
  eexists. split; [apply BlackScholes_init_ok; lra |].
  apply delta_is_spot_derivative; try lra.
  apply BlackScholes_init_ok; lra.
Defined.

(** X11: for S, K, T, sigma > 0, [gamma] is the derivative of [delta] in
    the spot, for a call and for a put alike. *)
Theorem gamma_is_delta_derivative
        (S K T r sigma q : R) (ot : option_type) (bs : BlackScholes.t) :
  0 < S -> 0 < K -> 0 < T -> 0 < sigma ->
  BlackScholes.init S K T r sigma q = Ok bs ->
  derivable_pt_lim (fun s => analytic_delta ot s K T r sigma q) S
    (BlackScholes.gamma bs).
Proof.
  intros HS HK HT Hs Hbs.
  rewrite (init_built S K T r sigma q bs ltac:(lra) Hbs).
  apply delta_deriv_spot; assumption.
Qed.

Lemma gamma_is_delta_derivative_witness :
  exists bs,
    BlackScholes.init 100 100 1 0.05 0.2 0 = Ok bs
    /\ derivable_pt_lim (fun s => analytic_delta call s 100 1 0.05 0.2 0)
         100 (BlackScholes.gamma bs).
Proof.
  eexists. split; [apply BlackScholes_init_ok; lra |].
  apply gamma_is_delta_derivative; try lra.
  apply BlackScholes_init_ok; lra.
Defined.

(** X12: for S, K, T, sigma > 0, a hundred times [vega] is the derivative
    of the price in the volatility, for a call and for a put alike: [vega]
    is the sensitivity of the price to one point of volatility. *)
Theorem vega_is_volatility_derivative
        (S K T r sigma q : R) (ot : option_type) (bs : BlackScholes.t) :
  0 < S -> 0 < K -> 0 < T -> 0 < sigma ->
  BlackScholes.init S K T r sigma q = Ok bs ->
  derivable_pt_lim (fun v => analytic_value ot S K T r v q) sigma
    (BlackScholes.vega bs * 100).
Proof.
  intros HS HK HT Hs Hbs.
  rewrite (init_built S K T r sigma q bs ltac:(lra) Hbs).
  replace (BlackScholes.vega _ * 100)
    with (S * exp (- q * T) * norm_pdf (Spec.d1 S K T r sigma q) * sqrt T)
    by (unfold BlackScholes.vega; cbn; field).
  apply value_deriv_sigma; assumption.
Qed.

Lemma vega_is_volatility_derivative_witness :
  exists bs,
    BlackScholes.init 100 100 1 0.05 0.2 0 = Ok bs
    /\ derivable_pt_lim (fun v => analytic_value call 100 100 1 0.05 v 0)
         0.2 (BlackScholes.vega bs * 100).
Proof.
  eexists. split; [apply BlackScholes_init_ok; lra |].
  apply vega_is_volatility_derivative; try lra.
  apply BlackScholes_init_ok; lra.
Defined.

(** X13: for S, K, T, sigma > 0, a hundred times [rho] is the derivative of
    the price in the rate. *)
Theorem rho_is_rate_derivative
        (S K T r sigma q : R) (ot : option_type) (bs : BlackScholes.t) :
  0 < S -> 0 < K -> 0 < T -> 0 < sigma ->
  BlackScholes.init S K T r sigma q = Ok bs ->
  derivable_pt_lim (fun x => analytic_value ot S K T x sigma q) r
    (BlackScholes.rho bs ot * 100).
Proof.
  intros HS HK HT Hs Hbs.
  rewrite (init_built S K T r sigma q bs ltac:(lra) Hbs).
  match goal with |- derivable_pt_lim _ _ ?l =>
    replace l with
      (match ot with
       | call => K * T * exp (- r * T) * norm_cdf (Spec.d2 S K T r sigma q)
       | put =>
           - K * T * exp (- r * T) * norm_cdf (- Spec.d2 S K T r sigma q)
       end)
      by (destruct ot; unfold BlackScholes.rho; cbn; field)
  end.
  apply value_deriv_rate; assumption.
Qed.

Lemma rho_is_rate_derivative_witness :
  exists bs,
    BlackScholes.init 100 100 1 0.05 0.2 0 = Ok bs
    /\ derivable_pt_lim (fun x => analytic_value put 100 100 1 x 0.2 0)
         0.05 (BlackScholes.rho bs put * 100).
Proof.
  eexists. split; [apply BlackScholes_init_ok; lra |].
  apply rho_is_rate_derivative; try lra.
  apply BlackScholes_init_ok; lra.
Defined.

(** X14: for S, K, T, sigma > 0, the derivative of the price in the time to
    maturity is [- 365 * theta] less [2 q S exp(-qT) N(d1)] for a call and
    plus [2 q S exp(-qT) N(-d1)] for a put: [theta] is the decay of the
    price per day exactly when there is no dividend ([q = 0]), and with a
    dividend its dividend term has the opposite sign. *)
Theorem theta_and_time_derivative
        (S K T r sigma q : R) (ot : option_type) (bs : BlackScholes.t) :
  0 < S -> 0 < K -> 0 < T -> 0 < sigma ->
  BlackScholes.init S K T r sigma q = Ok bs ->
  derivable_pt_lim (fun t => analytic_value ot S K t r sigma q) T
    (- (365 * BlackScholes.theta bs ot)
     + match ot with
       | call =>
           - (2 * q * S * exp (- q * T) * norm_cdf (BlackScholes.d1 bs))
       | put => 2 * q * S * exp (- q * T) * norm_cdf (- BlackScholes.d1 bs)
       end).
Proof.
  intros HS HK HT Hs Hbs.
  rewrite (init_built S K T r sigma q bs ltac:(lra) Hbs).
  assert (Hq : 0 < sqrt T) by (apply sqrt_lt_R0; exact HT).
  match goal with |- derivable_pt_lim _ _ ?l =>
    replace l with
      (match ot with
       | call =>
           S * exp (- q * T) * norm_pdf (Spec.d1 S K T r sigma q) * sigma
           / (2 * sqrt T)
           - q * S * exp (- q * T) * norm_cdf (Spec.d1 S K T r sigma q)
           + r * K * exp (- r * T) * norm_cdf (Spec.d2 S K T r sigma q)
       | put =>
           S * exp (- q * T) * norm_pdf (Spec.d1 S K T r sigma q) * sigma
           / (2 * sqrt T)
           + q * S * exp (- q * T) * norm_cdf (- Spec.d1 S K T r sigma q)
           - r * K * exp (- r * T) * norm_cdf (- Spec.d2 S K T r sigma q)
       end)
      by (destruct ot; unfold BlackScholes.theta; cbn; field; lra)
  end.
  apply value_deriv_time; assumption.
Qed.

Lemma theta_and_time_derivative_witness :
  exists bs,
    BlackScholes.init 100 100 1 0.05 0.2 0.02 = Ok bs
    /\ derivable_pt_lim (fun t => analytic_value call 100 100 t 0.05 0.2 0.02)
         1
         (- (365 * BlackScholes.theta bs call)
          + - (2 * 0.02 * 100 * exp (- (0.02) * 1)
               * norm_cdf (BlackScholes.d1 bs))).
Proof.
  eexists. split; [apply BlackScholes_init_ok; lra |].
  apply (theta_and_time_derivative 100 100 1 0.05 0.2 0.02 call); try lra.
  apply BlackScholes_init_ok; lra.
Defined.

(** X15: for S, K, T, sigma > 0, the delta of a call lies strictly between
    0 and [exp(-qT)] and the delta of a put strictly between [- exp(-qT)]
    and 0; [gamma] and [vega] are positive; the rho of a call is positive
    and the rho of a put negative. *)
Theorem greeks_signs (S K T r sigma q : R) (bs : BlackScholes.t) :
  0 < S -> 0 < K -> 0 < T -> 0 < sigma ->
  BlackScholes.init S K T r sigma q = Ok bs ->
  0 < BlackScholes.delta bs call < exp (- q * T)
  /\ - exp (- q * T) < BlackScholes.delta bs put < 0
  /\ 0 < BlackScholes.gamma bs
  /\ 0 < BlackScholes.vega bs
  /\ 0 < BlackScholes.rho bs call
  /\ BlackScholes.rho bs put < 0.
Proof.
  intros HS HK HT Hs Hbs.
  rewrite (init_built S K T r sigma q bs ltac:(lra) Hbs).
  unfold BlackScholes.delta, BlackScholes.gamma, BlackScholes.vega,
    BlackScholes.rho.
  cbn [BlackScholes.S BlackScholes.K BlackScholes.T BlackScholes.r
       BlackScholes.sigma BlackScholes.q BlackScholes.d1 BlackScholes.d2].
  pose proof (norm_cdf_strict (Spec.d1 S K T r sigma q)) as H1.
  pose proof (norm_cdf_strict (Spec.d2 S K T r sigma q)) as H2.
  pose proof (norm_cdf_strict (- Spec.d2 S K T r sigma q)) as H2'.
  pose proof (norm_pdf_pos (Spec.d1 S K T r sigma q)) as Hf.
  pose proof (exp_pos (- q * T)) as Eq.
  pose proof (exp_pos (- r * T)) as Er.
  assert (Hq : 0 < sqrt T) by (apply sqrt_lt_R0; exact HT).
  assert (HA : 0 < S * exp (- q * T) * norm_pdf (Spec.d1 S K T r sigma q)).
  { apply Rmult_lt_0_compat; [| exact Hf].
    apply Rmult_lt_0_compat; assumption. }
  assert (HB : 0 < K * T * exp (- r * T)).
  { apply Rmult_lt_0_compat; [| exact Er].
    apply Rmult_lt_0_compat; assumption. }
  split; [split; [apply Rmult_lt_0_compat; lra | nra] |].
  split; [split; nra |].
  split.
  { apply Rdiv_lt_0_compat;
      [apply Rmult_lt_0_compat; assumption
      | apply Rmult_lt_0_compat; [apply Rmult_lt_0_compat |]; assumption]. }
  split.
  { apply Rdiv_lt_0_compat; [| lra].
    apply Rmult_lt_0_compat; assumption. }
  split.
  { apply Rdiv_lt_0_compat; [| lra].
    apply Rmult_lt_0_compat; [exact HB | lra]. }
  assert (0 < K * T * exp (- r * T) * norm_cdf (- Spec.d2 S K T r sigma q))
    by (apply Rmult_lt_0_compat; [exact HB | lra]).
  lra.
Qed.

Lemma greeks_signs_witness :
  exists bs,
    BlackScholes.init 100 100 1 0.05 0.2 0.02 = Ok bs
    /\ 0 < BlackScholes.delta bs call < exp (- (0.02) * 1)
    /\ - exp (- (0.02) * 1) < BlackScholes.delta bs put < 0
    /\ 0 < BlackScholes.gamma bs
    /\ 0 < BlackScholes.vega bs
    /\ 0 < BlackScholes.rho bs call
    /\ BlackScholes.rho bs put < 0.
Proof.
  eexists. split; [apply BlackScholes_init_ok; lra |].
  apply (greeks_signs 100 100 1 0.05 0.2 0.02); try lra.
  apply BlackScholes_init_ok; lra.
Defined.

(** X16: for S, K, T, sigma > 0, the Greeks of the call and of the put
    differ by amounts free of the volatility: the deltas by [exp(-qT)],
    the rhos by [K T exp(-rT) / 100], the thetas by
    [- (q S exp(-qT) + r K exp(-rT)) / 365]. *)
Theorem greeks_differences (S K T r sigma q : R) (bs : BlackScholes.t) :
  0 < S -> 0 < K -> 0 < T -> 0 < sigma ->
  BlackScholes.init S K T r sigma q = Ok bs ->
  BlackScholes.delta bs call - BlackScholes.delta bs put = exp (- q * T)
  /\ BlackScholes.rho bs call - BlackScholes.rho bs put
     = K * T * exp (- r * T) / 100
  /\ BlackScholes.theta bs call - BlackScholes.theta bs put
     = - (q * S * exp (- q * T) + r * K * exp (- r * T)) / 365.
Proof.
  intros HS HK HT Hs Hbs.
  rewrite (init_built S K T r sigma q bs ltac:(lra) Hbs).
  unfold BlackScholes.delta, BlackScholes.rho, BlackScholes.theta.
  cbn [BlackScholes.S BlackScholes.K BlackScholes.T BlackScholes.r
       BlackScholes.sigma BlackScholes.q BlackScholes.d1 BlackScholes.d2].
  rewrite !norm_cdf_opp. repeat split; unfold Rdiv; ring.
Qed.

Lemma greeks_differences_witness :
  exists bs,
    BlackScholes.init 100 100 1 0.05 0.2 0.02 = Ok bs
    /\ BlackScholes.delta bs call - BlackScholes.delta bs put
       = exp (- (0.02) * 1)
    /\ BlackScholes.rho bs call - BlackScholes.rho bs put
       = 100 * 1 * exp (- (0.05) * 1) / 100
    /\ BlackScholes.theta bs call - BlackScholes.theta bs put
       = - (0.02 * 100 * exp (- (0.02) * 1)
            + 0.05 * 100 * exp (- (0.05) * 1)) / 365.
Proof.
  eexists. split; [apply BlackScholes_init_ok; lra |].
  apply (greeks_differences 100 100 1 0.05 0.2 0.02); try lra.
  apply BlackScholes_init_ok; lra.
Defined.
(** * The analytic price: bounds, monotonicity, implied volatility *)

(** The analytic price is a limit of lattice prices, which are averages
    of payoffs: it cannot be negative. *)
Lemma analytic_value_nonneg (ot : option_type) (S K T r sigma q : R) :
  0 < S -> 0 < K -> 0 < T -> 0 < sigma ->
  0 <= analytic_value ot S K T r sigma q.
Proof.
  intros HS HK HT Hs.
  set (v := analytic_value ot S K T r sigma q).
  destruct (Rle_dec 0 v) as [Hv | Hv]; [exact Hv | exfalso].
  assert (Hneg : 0 < - v) by lra.
  destruct (layer_bound_vanishes K T r sigma q HK HT Hs (- v) Hneg)
    as (N & HN).
  destruct (HN N (le_n N)) as (Hth & Hb).
  destruct (lattice_root_error S K T r sigma q ot HS HK HT Hs N Hth)
    as (x & Ex & Hx).
  pose proof (steps_pos T r q sigma HT Hs N Hth) as Hn.
  rewrite (lattice_price_built S K T r sigma N q ot european Hn) in Ex.
  injection Ex as Ex.
  assert (Hx0 : 0 <= x).
  { rewrite <- Ex. apply tree_value_nonneg.
    - unfold built_tree. cbn [BinomialTree.p].
      apply (small_steps T r q sigma HT Hs N Hth).
    - unfold built_tree. cbn [BinomialTree.discount].
      left. apply step_disc_pos. }
  rewrite (value_fun_root S K T r sigma q HS HK HT Hs ot) in Hx.
  assert (Ev : analytic_price ot
                 (BlackScholes.mk S K T r sigma q (Spec.d1 S K T r sigma q)
                    (Spec.d2 S K T r sigma q)) = v).
  { unfold v, analytic_value.
    rewrite BlackScholes_init_ok by lra. reflexivity. }
  rewrite Ev in Hx.
  rewrite Rabs_pos_eq in Hx by lra. lra.
Qed.

(** The price grows with the volatility. *)
Lemma value_increasing_sigma (ot : option_type) (S K T r q a b : R) :
  0 < S -> 0 < K -> 0 < T -> 0 < a < b ->
  analytic_value ot S K T r a q < analytic_value ot S K T r b q.
Proof.
  intros HS HK HT [Ha Hab].
  destruct (MVT_cor2 (fun v => analytic_value ot S K T r v q)
              (fun v => S * exp (- q * T) * norm_pdf (Spec.d1 S K T r v q)
                        * sqrt T) a b Hab) as (c & Ec & Hc).
  { intros c Hc. apply value_deriv_sigma; lra. }
  assert (0 < S * exp (- q * T) * norm_pdf (Spec.d1 S K T r c q) * sqrt T).
  { apply Rmult_lt_0_compat; [| apply sqrt_lt_R0; exact HT].
    apply Rmult_lt_0_compat; [| apply norm_pdf_pos].
    apply Rmult_lt_0_compat; [exact HS | apply exp_pos]. }
  assert (0 < S * exp (- q * T) * norm_pdf (Spec.d1 S K T r c q) * sqrt T
              * (b - a)) by (apply Rmult_lt_0_compat; lra).
  lra.
Qed.

Lemma mispricing_value (self : ImpliedVolatility.t) (sigma : R) :
  ImpliedVolatility.K self <> 0 ->
  mispricing self sigma
  = analytic_value (ImpliedVolatility.otype self) (ImpliedVolatility.S self)
      (ImpliedVolatility.K self) (ImpliedVolatility.T self)
      (ImpliedVolatility.r self) sigma (ImpliedVolatility.q self)
    - ImpliedVolatility.market_price self.
Proof.
  intros HK. unfold mispricing, quoted, analytic_value.
  rewrite BlackScholes_init_ok by exact HK.
  destruct (ImpliedVolatility.otype self); reflexivity.
Qed.

Lemma mispricing_increasing (self : ImpliedVolatility.t) (a b : R) :
  0 < ImpliedVolatility.S self -> 0 < ImpliedVolatility.K self ->
  0 < ImpliedVolatility.T self -> 0 < a < b ->
  mispricing self a < mispricing self b.
Proof.
  intros HS HK HT Hab. rewrite !mispricing_value by lra.
  pose proof (value_increasing_sigma (ImpliedVolatility.otype self)
                (ImpliedVolatility.S self) (ImpliedVolatility.K self)
                (ImpliedVolatility.T self) (ImpliedVolatility.r self)
                (ImpliedVolatility.q self) a b HS HK HT Hab).
  lra.
Qed.

(** X17: for S, K, T, sigma > 0 the prices respect the bounds of arbitrage:
    the call is worth at least 0 and at least the discounted forward
    [S exp(-qT) - K exp(-rT)], at most [S exp(-qT)]; the put at least 0 and
    at least [K exp(-rT) - S exp(-qT)], at most [K exp(-rT)]. *)
Theorem analytic_price_bounds
        (S K T r sigma q : R) (bs : BlackScholes.t) :
  0 < S -> 0 < K -> 0 < T -> 0 < sigma ->
  BlackScholes.init S K T r sigma q = Ok bs ->
  (Rmax 0 (S * exp (- q * T) - K * exp (- r * T))
   <= BlackScholes.call_price bs <= S * exp (- q * T))
  /\ (Rmax 0 (K * exp (- r * T) - S * exp (- q * T))
      <= BlackScholes.put_price bs <= K * exp (- r * T)).
Proof.
  intros HS HK HT Hs Hbs.
  pose proof (analytic_value_nonneg call S K T r sigma q HS HK HT Hs) as Hc.
  pose proof (analytic_value_nonneg put S K T r sigma q HS HK HT Hs) as Hp.
  unfold analytic_value in Hc, Hp. rewrite Hbs in Hc, Hp.
  cbn [analytic_price] in Hc, Hp.
  rewrite (init_built S K T r sigma q bs ltac:(lra) Hbs) in *.
  unfold BlackScholes.call_price, BlackScholes.put_price in *.
  cbn [BlackScholes.S BlackScholes.K BlackScholes.T BlackScholes.r
       BlackScholes.q BlackScholes.d1 BlackScholes.d2] in *.
  rewrite !norm_cdf_opp in *.
  pose proof (norm_cdf_range (Spec.d1 S K T r sigma q)) as R1.
  pose proof (norm_cdf_range (Spec.d2 S K T r sigma q)) as R2.
  set (N1 := norm_cdf (Spec.d1 S K T r sigma q)) in *.
  set (N2 := norm_cdf (Spec.d2 S K T r sigma q)) in *.
  assert (Eq : 0 < S * exp (- q * T))
    by (apply Rmult_lt_0_compat; [exact HS | apply exp_pos]).
  assert (Er : 0 < K * exp (- r * T))
    by (apply Rmult_lt_0_compat; [exact HK | apply exp_pos]).
  set (A := S * exp (- q * T)) in *.
  set (B := K * exp (- r * T)) in *.
  split; split.
  - apply Rmax_lub; nra.
  - nra.
  - apply Rmax_lub; nra.
  - nra.
Qed.

Lemma analytic_price_bounds_witness :
  exists bs,
    BlackScholes.init 100 100 1 0.05 0.2 0 = Ok bs
    /\ (Rmax 0 (100 * exp (- 0 * 1) - 100 * exp (- (0.05) * 1))
        <= BlackScholes.call_price bs <= 100 * exp (- 0 * 1))
    /\ (Rmax 0 (100 * exp (- (0.05) * 1) - 100 * exp (- 0 * 1))
        <= BlackScholes.put_price bs <= 100 * exp (- (0.05) * 1)).
Proof.
  eexists. split; [apply BlackScholes_init_ok; lra |].
  apply (analytic_price_bounds 100 100 1 0.05 0.2 0); try lra.
  apply BlackScholes_init_ok; lra.
Defined.

(** X18: for S, K, T > 0 both prices are strictly increasing in the
    volatility over the positive volatilities: two positive volatilities
    that give the same price are equal. *)
Theorem price_increasing_in_volatility
        (S K T r q sigma1 sigma2 : R) (ot : option_type)
        (bs1 bs2 : BlackScholes.t) :
  0 < S -> 0 < K -> 0 < T -> 0 < sigma1 < sigma2 ->
  BlackScholes.init S K T r sigma1 q = Ok bs1 ->
  BlackScholes.init S K T r sigma2 q = Ok bs2 ->
  analytic_price ot bs1 < analytic_price ot bs2.
Proof.
  intros HS HK HT Hab E1 E2.
  pose proof (value_increasing_sigma ot S K T r q sigma1 sigma2 HS HK HT Hab)
    as H.
  unfold analytic_value in H. rewrite E1, E2 in H. exact H.
Qed.

Lemma price_increasing_in_volatility_witness :
  exists bs1 bs2,
    BlackScholes.init 100 100 1 0.05 0.2 0 = Ok bs1
    /\ BlackScholes.init 100 100 1 0.05 0.3 0 = Ok bs2
    /\ analytic_price put bs1 < analytic_price put bs2.
Proof.
  eexists. eexists.
  split; [apply BlackScholes_init_ok; lra |].
  split; [apply BlackScholes_init_ok; lra |].
  apply (price_increasing_in_volatility 100 100 1 0.05 0 0.2 0.3); try lra;
    apply BlackScholes_init_ok; lra.
Defined.

(** X19: when a volatility [sigma0] of the bracket [0.001, 5.0] gives the
    market price, [calculate_iv] never answers [None] from the sign test:
    it returns 0.001 if [sigma0] is 0.001, 5.0 if it is 5.0, and otherwise
    the objective is negative at 0.001 and positive at 5.0 and the result is
    what the iteration of Brent's method gives from that bracket. *)
Theorem calculate_iv_quote_attained
        (brent_iterations : (R -> result R) -> R -> R -> R -> R -> result R)
        (self : ImpliedVolatility.t) (sigma0 : R) (bs : BlackScholes.t) :
  0 < ImpliedVolatility.S self ->
  0 < ImpliedVolatility.K self ->
  0 < ImpliedVolatility.T self ->
  0.001 <= sigma0 <= 5.0 ->
  pricer_at self sigma0 = Ok bs ->
  quoted self bs = ImpliedVolatility.market_price self ->
  (sigma0 = 0.001 ->
   ImpliedVolatility.calculate_iv brent_iterations self = Ok (Some 0.001))
  /\ (sigma0 = 5.0 ->
      ImpliedVolatility.calculate_iv brent_iterations self = Ok (Some 5.0))
  /\ (0.001 < sigma0 < 5.0 ->
      exists f_lo f_hi,
        ImpliedVolatility.objective self 0.001 = Ok f_lo
        /\ ImpliedVolatility.objective self 5.0 = Ok f_hi
        /\ f_lo < 0 < f_hi
        /\ ImpliedVolatility.calculate_iv brent_iterations self
           = match brent_iterations (ImpliedVolatility.objective self)
                     0.001 5.0 f_lo f_hi with
             | Ok iv => Ok (Some iv)
             | Raise ValueError => Ok None
             | Raise e => Raise e
             end).
Proof.
  intros HS HK HT Hs Hbs Hq.
  assert (HK' : ImpliedVolatility.K self <> 0) by lra.
  assert (E0 : mispricing self sigma0 = 0).
  { unfold pricer_at in Hbs.
    rewrite BlackScholes_init_ok in Hbs by exact HK'.
    injection Hbs as <-. unfold mispricing. lra. }
  assert (Hinc : forall a b,
             0 < a < b -> mispricing self a < mispricing self b).
  { intros a b Hab. apply mispricing_increasing; assumption. }
  unfold ImpliedVolatility.calculate_iv, ImpliedVolatility.brentq.
  rewrite !objective_mispricing by exact HK'. simpl bind.
  split; [| split].
  - intros ->.
    destruct (Req_dec_T (mispricing self 0.001) 0) as [_ | N];
      [reflexivity | contradiction].
  - intros ->.
    pose proof (Hinc 0.001 5.0 ltac:(lra)) as Hlt.
    destruct (Req_dec_T (mispricing self 0.001) 0) as [E | _]; [lra |].
    destruct (Req_dec_T (mispricing self 5.0) 0) as [_ | N];
      [reflexivity | contradiction].
  - intros Hin.
    pose proof (Hinc 0.001 sigma0 ltac:(lra)) as Hlo.
    pose proof (Hinc sigma0 5.0 ltac:(lra)) as Hhi.
    exists (mispricing self 0.001), (mispricing self 5.0).
    split; [reflexivity |]. split; [reflexivity |]. split; [lra |].
    destruct (Req_dec_T (mispricing self 0.001) 0) as [E | _]; [lra |].
    destruct (Req_dec_T (mispricing self 5.0) 0) as [E | _]; [lra |].
    destruct (Rlt_dec 0 (mispricing self 0.001 * mispricing self 5.0))
      as [P | _]; [exfalso; nra | reflexivity].
Qed.

Lemma calculate_iv_quote_attained_witness :
  exists f_lo f_hi,
    ImpliedVolatility.objective
      (ImpliedVolatility.mk 100 100 1 0.05
         (BlackScholes.call_price
            (BlackScholes.mk 100 100 1 0.05 0.2 0
               (Spec.d1 100 100 1 0.05 0.2 0)
               (Spec.d2 100 100 1 0.05 0.2 0)))
         call 0) 0.001 = Ok f_lo
    /\ ImpliedVolatility.objective
         (ImpliedVolatility.mk 100 100 1 0.05
            (BlackScholes.call_price
               (BlackScholes.mk 100 100 1 0.05 0.2 0
                  (Spec.d1 100 100 1 0.05 0.2 0)
                  (Spec.d2 100 100 1 0.05 0.2 0)))
            call 0) 5.0 = Ok f_hi
    /\ f_lo < 0 < f_hi
    /\ ImpliedVolatility.calculate_iv (fun _ _ _ _ _ => Ok 0.2)
         (ImpliedVolatility.mk 100 100 1 0.05
            (BlackScholes.call_price
               (BlackScholes.mk 100 100 1 0.05 0.2 0
                  (Spec.d1 100 100 1 0.05 0.2 0)
                  (Spec.d2 100 100 1 0.05 0.2 0)))
            call 0)
       = match (fun _ _ _ _ _ => Ok 0.2)
                 (ImpliedVolatility.objective
                    (ImpliedVolatility.mk 100 100 1 0.05
                       (BlackScholes.call_price
                          (BlackScholes.mk 100 100 1 0.05 0.2 0
                             (Spec.d1 100 100 1 0.05 0.2 0)
                             (Spec.d2 100 100 1 0.05 0.2 0)))
                       call 0))
                 0.001 5.0 f_lo f_hi with
         | Ok iv => Ok (Some iv)
         | Raise ValueError => Ok None
         | Raise e => Raise e
         end.
Proof.
  refine (proj2 (proj2
            (calculate_iv_quote_attained (fun _ _ _ _ _ => Ok 0.2)
               (ImpliedVolatility.mk 100 100 1 0.05
                  (BlackScholes.call_price
                     (BlackScholes.mk 100 100 1 0.05 0.2 0
                        (Spec.d1 100 100 1 0.05 0.2 0)
                        (Spec.d2 100 100 1 0.05 0.2 0)))
                  call 0)
               0.2
               (BlackScholes.mk 100 100 1 0.05 0.2 0
                  (Spec.d1 100 100 1 0.05 0.2 0)
                  (Spec.d2 100 100 1 0.05 0.2 0))
               _ _ _ _ _ _)) _);
    cbn [ImpliedVolatility.S ImpliedVolatility.K ImpliedVolatility.T];
    try lra.
  - unfold pricer_at.
    cbn [ImpliedVolatility.S ImpliedVolatility.K ImpliedVolatility.T
         ImpliedVolatility.r ImpliedVolatility.q].
    apply BlackScholes_init_ok. lra.
  - reflexivity.
Defined.

(** * models/ImpliedVolatility.py: a quote below the intrinsic value *)

(** A put is worth less than its discounted strike, whatever the
    volatility. *)
Lemma put_price_below_strike (S K T r sigma q : R) :
  0 <= S -> 0 <= K ->
  BlackScholes.put_price
    (BlackScholes.mk S K T r sigma q
       (Spec.d1 S K T r sigma q) (Spec.d2 S K T r sigma q))
  <= K * exp (- r * T).
Proof.
  intros HS HK. unfold BlackScholes.put_price.
  cbn [BlackScholes.S BlackScholes.K BlackScholes.T BlackScholes.r
       BlackScholes.q BlackScholes.d1 BlackScholes.d2].
  pose proof (norm_cdf_range (- Spec.d2 S K T r sigma q)) as H2.
  pose proof (norm_cdf_range (- Spec.d1 S K T r sigma q)) as H1.
  pose proof (exp_pos (- r * T)) as Er.
  pose proof (exp_pos (- q * T)) as Eq.
  assert (0 <= S * exp (- q * T) * norm_cdf (- Spec.d1 S K T r sigma q)).
  { apply Rmult_le_pos; [apply Rmult_le_pos; lra | lra]. }
  assert (K * exp (- r * T) * norm_cdf (- Spec.d2 S K T r sigma q)
          <= K * exp (- r * T) * 1).
  { apply Rmult_le_compat_l; [apply Rmult_le_pos; lra | lra]. }
  lra.
Qed.

(** Three years at 5% discount a strike of 500 below 450. *)
Lemma discounted_strike_below_450 : 500 * exp (- (0.05) * 3) < 450.
Proof.
  pose proof (exp_ineq1 (0.05 * 3) ltac:(lra)) as H.
  replace (- (0.05) * 3) with (- (0.05 * 3)) by ring.
  rewrite exp_Ropp.
  assert (Hi : / exp (0.05 * 3) < / (1 + 0.05 * 3)).
  { apply Rinv_lt_contravar; [| exact H].
    apply Rmult_lt_0_compat; [lra | apply exp_pos]. }
  assert (/ (1 + 0.05 * 3) <= 0.9).
  { apply (Rmult_le_reg_r (1 + 0.05 * 3)); [lra |].
    rewrite Rinv_l by lra. lra. }
  lra.
Qed.

(** C8 fails as stated: a put on a spot of 50 struck at 500, three years
    from maturity at a rate of 5%, has the intrinsic value 450, and every
    price of the model is below it.  Quoted at the model price for the
    volatility 0.001, it is given the volatility 0.001, not [None],
    whatever the iteration does; quoted at the model price for the
    volatility 0.2, the objective changes sign over the bracket, so the
    sign test raises nothing and the answer is the root the iteration
    returns. *)
Lemma below_intrinsic_is_solved :
  exists quote_lo quote_mid,
    (exists bs,
        BlackScholes.init 50 500 3 0.05 0.001 0 = Ok bs
        /\ BlackScholes.put_price bs = quote_lo)
    /\ (exists bs,
           BlackScholes.init 50 500 3 0.05 0.2 0 = Ok bs
           /\ BlackScholes.put_price bs = quote_mid)
    /\ quote_lo < Rmax 0 (500 - 50)
    /\ quote_mid < Rmax 0 (500 - 50)
    /\ (forall brent_iterations,
           ImpliedVolatility.calculate_iv brent_iterations
             (ImpliedVolatility.mk 50 500 3 0.05 quote_lo put 0)
           = Ok (Some 0.001))
    /\ exists f_lo f_hi,
         ImpliedVolatility.objective
           (ImpliedVolatility.mk 50 500 3 0.05 quote_mid put 0) 0.001
         = Ok f_lo
         /\ ImpliedVolatility.objective
              (ImpliedVolatility.mk 50 500 3 0.05 quote_mid put 0) 5.0
            = Ok f_hi
         /\ f_lo < 0 < f_hi
         /\ forall brent_iterations iv,
              brent_iterations
                (ImpliedVolatility.objective
                   (ImpliedVolatility.mk 50 500 3 0.05 quote_mid put 0))
                0.001 5.0 f_lo f_hi = Ok iv ->
              ImpliedVolatility.calculate_iv brent_iterations
                (ImpliedVolatility.mk 50 500 3 0.05 quote_mid put 0)
              = Ok (Some iv).
Proof.
  pose proof discounted_strike_below_450 as Hd.
  assert (Hmax : Rmax 0 (500 - 50) = 450) by (rewrite Rmax_right; lra).
  do 2 eexists.
  split; [eexists; split; [apply BlackScholes_init_ok; lra | reflexivity] |].
  split; [eexists; split; [apply BlackScholes_init_ok; lra | reflexivity] |].
  split.
  { rewrite Hmax.
    pose proof (put_price_below_strike 50 500 3 0.05 0.001 0
                  ltac:(lra) ltac:(lra)). lra. }
  split.
  { rewrite Hmax.
    pose proof (put_price_below_strike 50 500 3 0.05 0.2 0
                  ltac:(lra) ltac:(lra)). lra. }
  split.
  - intros brent_iterations.
    set (self := ImpliedVolatility.mk 50 500 3 0.05 _ put 0).
    assert (HK : ImpliedVolatility.K self <> 0) by (cbn; lra).
    unfold ImpliedVolatility.calculate_iv, ImpliedVolatility.brentq.
    rewrite !objective_mispricing by exact HK. simpl bind.
    assert (E : mispricing self 0.001 = 0).
    { unfold mispricing, quoted, self.
      cbn [ImpliedVolatility.S ImpliedVolatility.K ImpliedVolatility.T
           ImpliedVolatility.r ImpliedVolatility.q ImpliedVolatility.otype
           ImpliedVolatility.market_price].
      ring. }
    destruct (Req_dec_T (mispricing self 0.001) 0) as [_ | N];
      [reflexivity | contradiction].
  - set (self := ImpliedVolatility.mk 50 500 3 0.05 _ put 0).
    assert (HK : ImpliedVolatility.K self <> 0) by (cbn; lra).
    assert (E : mispricing self 0.2 = 0).
    { unfold mispricing, quoted, self.
      cbn [ImpliedVolatility.S ImpliedVolatility.K ImpliedVolatility.T
           ImpliedVolatility.r ImpliedVolatility.q ImpliedVolatility.otype
           ImpliedVolatility.market_price].
      ring. }
    assert (Hlo : mispricing self 0.001 < mispricing self 0.2).
    { apply mispricing_increasing; cbn; lra. }
    assert (Hhi : mispricing self 0.2 < mispricing self 5.0).
    { apply mispricing_increasing; cbn; lra. }
    exists (mispricing self 0.001), (mispricing self 5.0).
    split; [apply objective_mispricing; exact HK |].
    split; [apply objective_mispricing; exact HK |].
    split; [lra |].
    intros brent_iterations iv Hiv.
    unfold ImpliedVolatility.calculate_iv, ImpliedVolatility.brentq.
    rewrite !objective_mispricing by exact HK. simpl bind.
    destruct (Req_dec_T (mispricing self 0.001) 0) as [E1 | _]; [lra |].
    destruct (Req_dec_T (mispricing self 5.0) 0) as [E5 | _]; [lra |].
    destruct (Rlt_dec 0 (mispricing self 0.001 * mispricing self 5.0))
      as [P | _]; [exfalso; nra |].
    rewrite Hiv. reflexivity.
Qed.
